(** * MobileRT: the numeric helpers of [app/MobileRT/Utils/Utils.cpp]

    A shallow embedding of the functions of [Utils.cpp] and the properties
    their specification states about them.

    - [std::int32_t] and [std::uint32_t] values are integers of [Z] with the
      range and the wrap-around written out;
    - [float] is IEEE-754 binary32, taken from the Standard Library's
      executable specification [SpecFloat] at precision 24 and maximal
      exponent 128 (round to nearest, ties to even);
    - an operation whose behaviour C++ leaves undefined returns a [Fault];
    - [errno], the locale and the log of [checkSystemError] are threaded
      through a small state-and-exception monad. *)

From Stdlib Require Import ZArith Bool List String Ascii DecimalString Lia.
From Stdlib Require Import Floats.SpecFloat.
Import ListNotations.

Local Open Scope Z_scope.

(** ** Outcomes of fallible operations *)

Inductive fault : Type :=
| DivisionByZero      (* integer [/] or [%] with a zero divisor *)
| SignedOverflow      (* [INT32_MIN % -1]: the quotient is not representable *)
| FloatToIntRange.    (* a float to integer cast whose value does not fit *)

Inductive outcome (A : Type) : Type :=
| Ok (a : A)
| Fault (f : fault).

Arguments Ok {A} a.
Arguments Fault {A} f.

Definition obind {A B : Type} (o : outcome A) (k : A -> outcome B) : outcome B :=
  match o with
  | Ok a => k a
  | Fault f => Fault f
  end.

Notation "x <- o ;; k" := (obind o (fun x => k))
  (at level 61, o at next level, right associativity).

(** ** Machine integers *)

Module Int32.

Definition min_signed : Z := - 2 ^ 31.
Definition max_signed : Z := 2 ^ 31 - 1.
Definition modulus : Z := 2 ^ 32.

Definition in_range (z : Z) : Prop := min_signed <= z <= max_signed.
Definition in_urange (z : Z) : Prop := 0 <= z < modulus.

(** [static_cast<std::uint32_t>] of a signed value, and the result of any
    unsigned operation: reduction modulo [2^32]. *)
Definition to_unsigned (z : Z) : Z := z mod modulus.

(** [static_cast<std::int32_t>] of an unsigned value (two's complement). *)
Definition to_signed (z : Z) : Z :=
  let u := z mod modulus in
  if u <=? max_signed then u else u - modulus.

(** The built-in [%] on [std::int32_t]: the remainder of the division that
    truncates towards zero, undefined for a zero divisor and when the
    quotient does not fit. *)
Definition rem (a b : Z) : outcome Z :=
  if b =? 0 then Fault DivisionByZero
  else if (a =? min_signed) && (b =? -1) then Fault SignedOverflow
  else Ok (Z.rem a b).

(** Unsigned [/] and [%]. *)
Definition udiv (a b : Z) : outcome Z :=
  if b =? 0 then Fault DivisionByZero else Ok (a / b).

Definition umod (a b : Z) : outcome Z :=
  if b =? 0 then Fault DivisionByZero else Ok (a mod b).

End Int32.

(** ** [roundDownToMultipleOf] (Utils.cpp, lines 24-29) *)

Definition roundDownToMultipleOf (value multiple : Z) : outcome Z :=
  rest <- Int32.rem value multiple ;;
  let res := if 1 <? rest then value - rest else value in
  Ok res.

(** ** binary32 *)

Module F32.

Definition prec : Z := 24.
Definition emax : Z := 128.

Definition float : Type := spec_float.

Definition valid (x : float) : bool := valid_binary prec emax x.

Definition add : float -> float -> float := SFadd prec emax.
Definition sub : float -> float -> float := SFsub prec emax.
Definition mul : float -> float -> float := SFmul prec emax.
Definition div : float -> float -> float := SFdiv prec emax.
Definition sqrt : float -> float := SFsqrt prec emax.
Definition abs : float -> float := SFabs.
Definition opp : float -> float := SFopp.
Definition ltb : float -> float -> bool := SFltb.
Definition leb : float -> float -> bool := SFleb.
Definition gtb (x y : float) : bool := SFltb y x.
Definition geb (x y : float) : bool := SFleb y x.

Definition is_nan (x : float) : bool :=
  match x with S754_nan => true | _ => false end.
Definition is_inf (x : float) : bool :=
  match x with S754_infinity _ => true | _ => false end.
Definition is_finite (x : float) : bool :=
  match x with S754_zero _ | S754_finite _ _ _ => true | _ => false end.

(** [static_cast<float>] of an integer: the nearest binary32 value. *)
Definition of_Z (z : Z) : float := binary_normalize prec emax z 0 false.

Definition zero : float := S754_zero false.
Definition one : float := Eval vm_compute in of_Z 1.
Definition two : float := Eval vm_compute in of_Z 2.

(** A decimal literal [n / d] with [n] and [d] exactly representable is the
    correctly rounded quotient. *)
Definition ratio (n d : Z) : float := div (of_Z n) (of_Z d).

(** [static_cast<std::uint32_t>] of a float: the value truncated towards
    zero; undefined when the truncated value does not fit. *)
Definition to_uint32 (x : float) : outcome Z :=
  match x with
  | S754_zero _ => Ok 0
  | S754_finite s m e =>
      let t := match e with
               | Zneg p => Z.shiftr (Zpos m) (Zpos p)
               | _ => Z.shiftl (Zpos m) e
               end in
      if s then (if t =? 0 then Ok 0 else Fault FloatToIntRange)
      else if t <? Int32.modulus then Ok t else Fault FloatToIntRange
  | _ => Fault FloatToIntRange
  end.

(** [std::max] and [std::min] of <algorithm>: [(a < b) ? b : a] and
    [(b < a) ? b : a]. *)
Definition std_max (a b : float) : float := if ltb a b then b else a.
Definition std_min (a b : float) : float := if ltb b a then b else a.

End F32.

(** ** Vectors and the GLM operations the code calls

    [glm::vec3] is a triple of floats.  GLM is a library outside the
    repository; its scalar [min], [max] and [clamp] and its [dot] and
    vector-by-scalar division are written here as its reference defines
    them: [min(x, y) = (y < x) ? y : x], [max(x, y) = (x < y) ? y : x],
    [clamp(x, minVal, maxVal) = min(max(x, minVal), maxVal)],
    [dot(a, b) = a.x * b.x + a.y * b.y + a.z * b.z] (summed left to right)
    and [v / s = (v.x / s, v.y / s, v.z / s)]. *)

Record vec3 : Type := Vec3 { vx : F32.float; vy : F32.float; vz : F32.float }.

Module glm.

Definition min (x y : F32.float) : F32.float := if F32.ltb y x then y else x.
Definition max (x y : F32.float) : F32.float := if F32.ltb x y then y else x.

Definition clamp (x minVal maxVal : F32.float) : F32.float :=
  min (max x minVal) maxVal.

Definition dot (a b : vec3) : F32.float :=
  F32.add (F32.add (F32.mul (vx a) (vx b)) (F32.mul (vy a) (vy b)))
          (F32.mul (vz a) (vz b)).

Definition div_scalar (v : vec3) (s : F32.float) : vec3 :=
  Vec3 (F32.div (vx v) s) (F32.div (vy v) s) (F32.div (vz v) s).

Definition neg (v : vec3) : vec3 :=
  Vec3 (F32.opp (vx v)) (F32.opp (vy v)) (F32.opp (vz v)).

End glm.

(** ** [haltonSequence] (Utils.cpp, lines 41-51)

    The state of the [while] loop is [index], [fraction] and [nextValue].
    [index / base] is the unsigned integer quotient; [std::floor] receives it
    converted to [double], which holds every 32-bit integer exactly, so the
    cast back returns the quotient itself. *)

Record halton_state : Type :=
  HaltonState { h_index : Z; h_fraction : F32.float; h_nextValue : F32.float }.

Definition halton_init (index : Z) : halton_state :=
  HaltonState index F32.one F32.zero.

(** One execution of the loop body (lines 46-48). *)
Definition halton_body (base : Z) (st : halton_state) : outcome halton_state :=
  let baseInFloat := F32.of_Z base in
  let fraction := F32.div (h_fraction st) baseInFloat in
  digit <- Int32.umod (h_index st) base ;;
  let nextValue := F32.add (h_nextValue st) (F32.mul fraction (F32.of_Z digit)) in
  quotient <- Int32.udiv (h_index st) base ;;
  Ok (HaltonState quotient fraction nextValue).

(** The loop, run for at most [fuel] iterations: [None] when the fuel runs
    out before the guard [index > 0] fails. *)
Fixpoint halton_loop (fuel : nat) (base : Z) (st : halton_state)
  : option (outcome F32.float) :=
  if 0 <? h_index st then
    match fuel with
    | O => None
    | S fuel' =>
        match halton_body base st with
        | Ok st' => halton_loop fuel' base st'
        | Fault f => Some (Fault f)
        end
    end
  else Some (Ok (h_nextValue st)).

Definition haltonSequence_fuel (fuel : nat) (index base : Z)
  : option (outcome F32.float) :=
  halton_loop fuel base (halton_init index).

(** A 32-bit index has at most 32 digits in any base from 2 on. *)
Definition halton_fuel : nat := 32.

Definition haltonSequence (index base : Z) : option (outcome F32.float) :=
  haltonSequence_fuel halton_fuel index base.

(** ** [incrementalAvg] (Utils.cpp, lines 64-91) *)

Module U32.
Definition add (a b : Z) : Z := Int32.to_unsigned (a + b).
Definition sub (a b : Z) : Z := Int32.to_unsigned (a - b).
Definition mul (a b : Z) : Z := Int32.to_unsigned (a * b).
End U32.

(** [static_cast<std::uint32_t> (channel * 255U)]. *)
Definition scale_channel (c : F32.float) : outcome Z :=
  F32.to_uint32 (F32.mul c (F32.of_Z 255)).

Definition incrementalAvg (sample : vec3) (avg numSample : Z) : outcome Z :=
  let avgUnsigned := Int32.to_unsigned avg in
  let numSampleUnsigned := Int32.to_unsigned numSample in
  let lastRed := Z.land avgUnsigned 255 in
  let lastGreen := Z.land (Z.shiftr avgUnsigned 8) 255 in
  let lastBlue := Z.land (Z.shiftr avgUnsigned 16) 255 in
  samplerRed <- scale_channel (vx sample) ;;
  samplerGreen <- scale_channel (vy sample) ;;
  samplerBlue <- scale_channel (vz sample) ;;
  currentRed <-
    Int32.udiv (U32.add (U32.mul (U32.sub numSampleUnsigned 1) lastRed) samplerRed)
               numSampleUnsigned ;;
  currentGreen <-
    Int32.udiv (U32.add (U32.mul (U32.sub numSampleUnsigned 1) lastGreen) samplerGreen)
               numSampleUnsigned ;;
  currentBlue <-
    Int32.udiv (U32.add (U32.mul (U32.sub numSampleUnsigned 1) lastBlue) samplerBlue)
               numSampleUnsigned ;;
  let retR := Z.min currentRed 255 in
  let retG := Z.min currentGreen 255 in
  let retB := Z.min currentBlue 255 in
  let res :=
    Int32.to_signed
      (Z.lor (Z.lor (Z.lor 4278190080 (Z.shiftl retB 16)) (Z.shiftl retG 8)) retR) in
  Ok res.

(** The three colour channels and the alpha byte of a packed colour. *)
Definition red_of (packed : Z) : Z := Z.land (Int32.to_unsigned packed) 255.
Definition green_of (packed : Z) : Z :=
  Z.land (Z.shiftr (Int32.to_unsigned packed) 8) 255.
Definition blue_of (packed : Z) : Z :=
  Z.land (Z.shiftr (Int32.to_unsigned packed) 16) 255.
Definition alpha_of (packed : Z) : Z :=
  Z.land (Z.shiftr (Int32.to_unsigned packed) 24) 255.

(** ** [equal] on scalars (Utils.cpp, lines 134-138)

    [Epsilon] is declared in [Constants.hpp]; the comparison is stated for
    any value of it. *)

Definition equal (Epsilon a b : F32.float) : bool :=
  let absValue := F32.abs (F32.sub a b) in
  F32.ltb absValue Epsilon.

(** ** [normalize] on colours (Utils.cpp, lines 190-197) *)

Definition max3 (color : vec3) : F32.float :=
  F32.std_max (F32.std_max (vx color) (vy color)) (vz color).

Definition normalize (color : vec3) : vec3 :=
  let max := max3 color in
  if F32.gtb max F32.one then glm.div_scalar color max else color.

(** ** [fresnel] (Utils.cpp, lines 207-230) *)

(** Line 208: the call is [glm::clamp(-1.0F, 1.0F, glm::dot(I, N))]. *)
Definition fresnel_cosi (I N : vec3) : F32.float :=
  glm.clamp (F32.opp F32.one) F32.one (glm.dot I N).

Definition fresnel (I N : vec3) (ior : F32.float) : F32.float :=
  let cosi := fresnel_cosi I N in
  let etai := F32.one in
  let etat := ior in
  let '(etai, etat) := if F32.gtb cosi F32.zero then (etat, etai) else (etai, etat) in
  let sint :=
    F32.mul (F32.div etai etat)
            (F32.sqrt (F32.std_max F32.zero (F32.sub F32.one (F32.mul cosi cosi)))) in
  if F32.geb sint F32.one then F32.one
  else
    let cost :=
      F32.sqrt (F32.std_max F32.zero (F32.sub F32.one (F32.mul sint sint))) in
    let cosi := F32.abs cosi in
    let Rs := F32.div (F32.sub (F32.mul etat cosi) (F32.mul etai cost))
                      (F32.add (F32.mul etat cosi) (F32.mul etai cost)) in
    let Rp := F32.div (F32.sub (F32.mul etai cosi) (F32.mul etat cost))
                      (F32.add (F32.mul etai cosi) (F32.mul etat cost)) in
    F32.div (F32.add (F32.mul Rs Rs) (F32.mul Rp Rp)) F32.two.

(** ** [checkSystemError] (Utils.cpp, lines 238-282)

    [errno] and the locale are the process state.  The [LOG_DEBUG],
    [LOG_ERROR] and [LOG_INFO] macros of [Utils.hpp] emit text to the log;
    the emitted entries are collected next to the result and are not part of
    the process state.  [getErrorCode] of [ErrorCode.hpp], [strerror], the
    two [errno.h] codes and [sysconf] belong to the platform and are taken as
    parameters, and so is what [std::setlocale] does on the host: whether the
    locale it is asked for is installed, and the value it leaves in [errno]
    (the C library may store one while it looks the locale up). *)

Module Diagnostics.

Record process : Type := Process { errno : Z; locale : string }.

Inductive log_entry : Type :=
| LogDebug (text : string)
| LogError (text : string)
| LogInfo (text : string).

(** [ErrorType] of [ErrorCode.hpp]. *)
Record ErrorType : Type :=
  MkErrorType { code : Z; codeText : string; description : string }.

(** A call either returns or throws [std::runtime_error]. *)
Inductive result (A : Type) : Type :=
| Returned (a : A)
| Thrown (what : string).

Arguments Returned {A} a.
Arguments Thrown {A} what.

Definition M (A : Type) : Type := process -> result A * process * list log_entry.

Definition ret {A : Type} (a : A) : M A := fun st => (Returned a, st, []).

Definition bind {A B : Type} (c : M A) (k : A -> M B) : M B :=
  fun st =>
    match c st with
    | (Returned a, st1, l1) =>
        let '(r, st2, l2) := k a st1 in (r, st2, l1 ++ l2)
    | (Thrown w, st1, l1) => (Thrown w, st1, l1)
    end.

Definition throw {A : Type} (what : string) : M A := fun st => (Thrown what, st, []).
Definition get_errno : M Z := fun st => (Returned (errno st), st, []).
Definition set_errno (v : Z) : M unit :=
  fun st => (Returned tt, Process v (locale st), []).
Definition log (e : log_entry) : M unit := fun st => (Returned tt, st, [e]).
Definition when (b : bool) (c : M unit) : M unit := if b then c else ret tt.

Notation "x <-- c ;; k" := (bind c (fun x => k))
  (at level 61, c at next level, right associativity).
Notation "c ;;; k" := (bind c (fun _ => k))
  (at level 61, right associativity).

(** [part] occurs in [whole]. *)
Definition contains (part whole : string) : Prop :=
  exists before after : string, whole = (before ++ part ++ after)%string.

(** [MobileRT::std::to_string]: the decimal digits. *)
Definition to_string (z : Z) : string := NilZero.string_of_int (Z.to_int z).

Definition newline : string := String (ascii_of_nat 10) EmptyString.

Section CheckSystemError.

Variables EWOULDBLOCK EINVAL : Z.
Variable getErrorCode : Z -> ErrorType.
Variable strerror : Z -> string.
(** [!defined(_WIN32) && !defined(__APPLE__)], and the three [sysconf] values. *)
Variable unix_like : bool.
Variables sc_phys_pages sc_avphys_pages sc_pagesize : Z.
(** The host's [std::setlocale]: the locales it has, and [errno] after a call. *)
Variable locale_installed : string -> bool.
Variable setlocale_errno : string -> process -> Z.

(** [std::setlocale(LC_ALL, name)]: the locale of the process becomes [name]
    when that locale is installed and stays what it was when it is not (the
    call then returns a null pointer, which line 245 does not look at). *)
Definition setlocale (name : string) : M unit :=
  fun st =>
    (Returned tt,
     Process (setlocale_errno name st)
             (if locale_installed name then name else locale st),
     []).

Definition error_message (message : string) (e : Z) : string :=
  let currentError := getErrorCode e in
  (message ++ newline ++ codeText currentError ++ newline ++
   description currentError ++ newline ++
   "errno (" ++ to_string e ++ "): " ++ strerror e)%string.

Definition checkSystemError (message : string) : M unit :=
  log (LogDebug ("Called checkSystemError: " ++ message)) ;;;
  e <-- get_errno ;;
  if negb (e =? 0) && negb (e =? EWOULDBLOCK) && negb (e =? EINVAL) then
    setlocale "en_US.UTF-8" ;;;
    e <-- get_errno ;;
    let currentError := getErrorCode e in
    log (LogDebug ("errorCode: " ++ codeText currentError)) ;;;
    let errorMessage := error_message message e in
    log (LogError ("errorMessage: " ++ errorMessage)) ;;;
    when unix_like
      (let bytesInMegabyte := 1048576 in
       log (LogInfo ("Available memory: " ++
                     to_string (Z.quot (sc_phys_pages * sc_pagesize) bytesInMegabyte)
                     ++ " MB")) ;;;
       log (LogInfo ("Free memory: " ++
                     to_string (Z.quot (sc_avphys_pages * sc_pagesize) bytesInMegabyte)
                     ++ " MB"))) ;;;
    set_errno 0 ;;;
    throw errorMessage
  else ret tt.

End CheckSystemError.

End Diagnostics.

(** ** [equal] on vectors (Utils.cpp, lines 150-156)

    [vec[i]] is defined for [i] from 0 to 2; GLM asserts on any other index,
    which is [None] here.  [res && equal(...)] does not evaluate its right
    operand when [res] is false.  [NumberOfAxes] is declared in
    [Constants.hpp] and is a parameter. *)

Definition component (v : vec3) (i : Z) : option F32.float :=
  if i =? 0 then Some (vx v)
  else if i =? 1 then Some (vy v)
  else if i =? 2 then Some (vz v)
  else None.

(** One pass of the [for] body at index [i]. *)
Definition equal_vec3_step (Epsilon : F32.float) (vec1 vec2 : vec3)
    (res : option bool) (i : Z) : option bool :=
  match res with
  | Some true =>
      match component vec1 i, component vec2 i with
      | Some a, Some b => Some (equal Epsilon a b)
      | _, _ => None
      end
  | Some false => Some false
  | None => None
  end.

(** The loop runs [i] over [1, ..., NumberOfAxes - 1]. *)
Definition equal_vec3 (NumberOfAxes : Z) (Epsilon : F32.float) (vec1 vec2 : vec3)
  : option bool :=
  fold_left (equal_vec3_step Epsilon vec1 vec2)
            (map Z.of_nat (seq 1 (Z.to_nat NumberOfAxes - 1)))
            (Some (equal Epsilon (vx vec1) (vx vec2))).

(** ** [isValid] (Utils.cpp, lines 164-169) *)

Definition isValid (value : F32.float) : bool :=
  let isNaN := F32.is_nan value in
  let isInf := F32.is_inf value in
  negb isNaN && negb isInf.

(** ** [normalize] on texture coordinates (Utils.cpp, lines 178-181)

    [glm::fract(x)] is [x - floor(x)], component by component.  [floor] of a
    binary32 number with a negative exponent [e = -p] is the integer
    [floor(+-m / 2^p)], of magnitude at most [2^23] and so converted back
    without rounding; any other number is its own floor. *)

Record vec2 : Type := Vec2 { ux : F32.float; uy : F32.float }.

Definition std_floor (x : F32.float) : F32.float :=
  match x with
  | S754_finite s m (Zneg p) =>
      let q := Z.shiftr (cond_Zopp s (Zpos m)) (Zpos p) in
      if q =? 0 then S754_zero s else F32.of_Z q
  | _ => x
  end.

Definition fract (x : F32.float) : F32.float := F32.sub x (std_floor x).

Definition normalize_vec2 (textureCoordinates : vec2) : vec2 :=
  let texCoords := Vec2 (fract (ux textureCoordinates)) (fract (uy textureCoordinates)) in
  texCoords.

(** * Notions used in the statements *)

(** The guard of line 244 of [checkSystemError]. *)
Definition is_reported (EWOULDBLOCK EINVAL e : Z) : bool :=
  negb (e =? 0) && negb (e =? EWOULDBLOCK) && negb (e =? EINVAL).

(** A colour none of whose components is NaN. *)
Definition no_nan (c : vec3) : Prop :=
  F32.is_nan (vx c) = false /\ F32.is_nan (vy c) = false /\ F32.is_nan (vz c) = false.

(** [m] is a component of [c] and no component is above it. *)
Definition is_greatest (m : F32.float) (c : vec3) : Prop :=
  (m = vx c \/ m = vy c \/ m = vz c)
  /\ F32.leb (vx c) m = true /\ F32.leb (vy c) m = true /\ F32.leb (vz c) m = true.

(** The first step as the specification words it:
    [min(1, max(-1, dot(I, N)))]. *)
Definition clamped_cosi (I N : vec3) : F32.float :=
  F32.std_min F32.one (F32.std_max (F32.opp F32.one) (glm.dot I N)).

(** A direction that is a unit vector up to binary32 rounding
    ([cos 0.07], [sin 0.07], [0]), and its opposite. *)
Definition unit_normal : vec3 :=
  Vec3 (S754_finite false 16736129 (-24)) (S754_finite false 9387570 (-27))
       (S754_zero false).

(** [rep N d mrs]: the shift record [mrs] holds the quotient of [N] by [d],
    with its round and sticky bits. *)
Definition rep (N d : Z) (mrs : shr_record) : Prop :=
  0 < d /\ 0 <= N /\ shr_m mrs = N / d
  /\ shr_r mrs = (d <=? 2 * (N mod d))
  /\ shr_s mrs = negb (N mod d =? 0) && negb (2 * (N mod d) =? d).

(** What [binary_round_aux] returns for the non-negative rational [N / d]
    scaled by [2 ^ ex]: never NaN, of the sign asked for, in canonical form,
    and within half a unit in the last place of [N / d]. *)
Definition round_post (s : bool) (N d ex : Z) (F : spec_float) : Prop :=
  let E := Z.max (Zdigits2 (N / d) + ex - 24) (-149) in
  match F with
  | S754_nan => False
  | S754_zero s' =>
      s' = s /\ E = -149 /\ 2 * N <= d * 2 ^ (E - ex)
      /\ Zdigits2 (N / d) + ex <= -149
  | S754_infinity s' =>
      s' = s /\ 104 <= E
      /\ (E = 104 -> (2 ^ 25 - 1) * (d * 2 ^ (E - ex)) <= 2 * N)
  | S754_finite s' m e =>
      s' = s /\ bounded 24 128 m e = true /\ E <= e <= E + 1
      /\ (e = E + 1 -> Zpos m = 2 ^ 23)
      /\ Z.abs (2 * (d * 2 ^ (E - ex)) * (Zpos m * 2 ^ (e - E)) - 2 * N)
         <= d * 2 ^ (E - ex)
      /\ (0 < N / d ->
          Zdigits2 (N / d) + ex <= Zdigits2 (Zpos m) + e <= Zdigits2 (N / d) + ex + 1)
  end.

(** [bracket s lo hi F]: [F] is not NaN and has sign [s]; it is a canonical
    finite number of binary exponent between [lo] and [hi + 1], or zero
    (only when [lo <= -149]), or infinite (only when [128 <= hi]). *)
Definition bracket (s : bool) (lo hi : Z) (F : spec_float) : Prop :=
  match F with
  | S754_nan => False
  | S754_zero s' => s' = s /\ lo <= -149
  | S754_infinity s' => s' = s /\ 128 <= hi
  | S754_finite s' m e =>
      s' = s /\ bounded 24 128 m e = true
      /\ lo <= Zdigits2 (Zpos m) + e <= hi + 1
  end.

(** The exponent [SFdiv] starts from, and the scaled dividend. *)
Definition div_exp (mx : positive) (ex : Z) (my : positive) (ey : Z) : Z :=
  Z.min (Z.max (Zdigits2 (Zpos mx) + ex - (Zdigits2 (Zpos my) + ey) - 24) (-149))
        (ex - ey).

(** [nonneg_below k x]: [x] is [+0] or a positive canonical number below
    [2 ^ k]. *)
Definition nonneg_below (k : Z) (x : F32.float) : Prop :=
  match x with
  | S754_zero false => True
  | S754_finite false m e => bounded 24 128 m e = true /\ Zdigits2 (Zpos m) + e <= k
  | _ => False
  end.

(** The packed colour of line 88, as a sum. *)
Definition pack (r g b : Z) : Z := 4278190080 + b * 65536 + g * 256 + r.

(** The running average of one channel as the documentation of
    [incrementalAvg] gives it, over the integers. *)
Definition avg_channel (numSample old scaled : Z) : Z :=
  Z.min 255 (((numSample - 1) * old + scaled) / numSample).

(** A colour channel that is a binary32 number between 0 and 1. *)
Definition unit_channel (c : F32.float) : Prop :=
  F32.valid c = true /\ F32.leb F32.zero c = true /\ F32.leb c F32.one = true.

(** The tolerance [1.0e-6F]. *)
Definition epsilon_1e6 : F32.float := F32.ratio 1 1000000.

(** The value of the specification, evaluated in binary32:
    [((n - 1) / (n + 1))^2]. *)
Definition normal_reflectance (n : F32.float) : F32.float :=
  let r := F32.div (F32.sub n F32.one) (F32.add n F32.one) in
  F32.mul r r.

(** A value whose sign bit is clear, or NaN. *)
Definition not_negative (x : F32.float) : Prop :=
  match x with
  | S754_zero s | S754_infinity s | S754_finite s _ _ => s = false
  | S754_nan => True
  end.

(** The value of one channel as the code computes it, in [std::uint32_t]. *)
Definition current_channel (numSampleUnsigned last sampler : Z) : Z :=
  Z.min (U32.add (U32.mul (U32.sub numSampleUnsigned 1) last) sampler / numSampleUnsigned)
        255.

(** A colour whose components are binary32 numbers that [isValid] accepts. *)
Definition valid_color (c : vec3) : Prop :=
  (F32.valid (vx c) = true /\ isValid (vx c) = true)
  /\ (F32.valid (vy c) = true /\ isValid (vy c) = true)
  /\ (F32.valid (vz c) = true /\ isValid (vz c) = true).

(** [dyadic N k x]: the binary32 number [x] is exactly [N / 2^k]. *)
Definition dyadic (N k : Z) (x : F32.float) : Prop :=
  match x with
  | S754_zero false => N = 0
  | S754_finite false m e =>
      bounded 24 128 m e = true /\ Zpos m * 2 ^ (e + 149) = N * 2 ^ (149 - k)
  | _ => False
  end.

(** The lowest [n] binary digits of [index] mirrored into a [k]-digit
    number: digit [i] of [index] becomes digit [k - 1 - i]. *)
Fixpoint radical_inverse (n : nat) (k : Z) (index : Z) : Z :=
  match n with
  | O => 0
  | S n' => (index mod 2) * 2 ^ (k - 1) + radical_inverse n' (k - 1) (index / 2)
  end.

(** [at_most F m0 e0]: [F] is [+0] or a positive canonical number that is not
    above the canonical number [m0 * 2^e0]. *)
Definition at_most (F : F32.float) (m0 : positive) (e0 : Z) : Prop :=
  match F with
  | S754_zero false => True
  | S754_finite false m e =>
      bounded 24 128 m e = true /\ (e < e0 \/ (e = e0 /\ Zpos m <= Zpos m0))
  | _ => False
  end.

(** [at_least F m0 e0]: [F] is [+infinity] or a positive canonical number that
    is not below [m0 * 2^e0]. *)
Definition at_least (F : F32.float) (m0 : positive) (e0 : Z) : Prop :=
  match F with
  | S754_infinity false => True
  | S754_finite false m e =>
      bounded 24 128 m e = true /\ (e0 < e \/ (e = e0 /\ Zpos m0 <= Zpos m))
  | _ => False
  end.

(** A finite number that is not negative. *)
Definition finite_nonneg (x : F32.float) : Prop :=
  match x with
  | S754_zero false => True
  | S754_finite false m e => bounded 24 128 m e = true
  | _ => False
  end.

(** NaN, or a number in [[0, 1]]. *)
Definition unit_or_nan (x : F32.float) : Prop := x = S754_nan \/ unit_channel x.

(** NaN, or a number in [[-1, 1]]. *)
Definition signed_unit (r : F32.float) : Prop :=
  r = S754_nan \/ (F32.valid r = true /\ F32.leb (F32.abs r) F32.one = true).

(** A vector of binary32 numbers. *)
Definition valid_vec (v : vec3) : Prop :=
  F32.valid (vx v) = true /\ F32.valid (vy v) = true /\ F32.valid (vz v) = true.

(** [scaled x]: the absolute value of a finite number [x] in units of
    [2^-149], the smallest positive binary32 number: every finite binary32
    number is a whole number of these units, and [1.0F] is [2^149] of them. *)
Definition scaled (x : F32.float) : Z :=
  match x with
  | S754_finite _ m e => Zpos m * 2 ^ (e + 149)
  | _ => 0
  end.

(** The value of a finite number in the same units, with its sign. *)
Definition signed_scaled (x : F32.float) : Z :=
  match x with
  | S754_finite s _ _ => cond_Zopp s (scaled x)
  | _ => 0
  end.

(** [rounds_to V F]: the finite number [F], not negative, is the value [V],
    given in units of [2^-298], rounded to a whole number of units of its
    binade and within half such a unit of it. *)
Definition rounds_to (V : Z) (F : F32.float) : Prop :=
  finite_nonneg F
  /\ exists r : Z,
       let G := 2 ^ (Z.max (Zdigits2 V - 322) (-149) + 298) in
       scaled F * 2 ^ 149 = r * G /\ Z.abs (2 * (r * G) - 2 * V) <= G.

(** What the loop of [haltonSequence] keeps after [k] passes, for the
    fraction [f] and the sum [s] in units of [2^-149]:
    [s + (1 + 8 * 2^-24) * f <= 1 + (8 + 1.5 * k) * 2^-24]. *)
Definition halton_near_one (k : Z) (f s : F32.float) : Prop :=
  finite_nonneg f /\ finite_nonneg s
  /\ 2 * (16777216 * scaled s + 16777224 * scaled f) <= 2 ^ 149 * (33554448 + 3 * k).

(** The loop with every digit at its largest, [base - 1], run while [j] has
    digits left: [B] and [D] are the converted base and digit. *)
Fixpoint halton_top (fuel : nat) (B D : F32.float) (base j : Z) (f s : F32.float)
  : F32.float :=
  match fuel with
  | O => s
  | S fuel' =>
      if 0 <? j then
        let f' := F32.div f B in
        halton_top fuel' B D base (j / base) f' (F32.add s (F32.mul f' D))
      else s
  end.

(** The largest sum in a base: all the digits of the largest index at
    [base - 1]. *)
Definition halton_largest (base : Z) : F32.float :=
  halton_top 32 (F32.of_Z base) (F32.of_Z (base - 1)) base 4294967295 F32.one F32.zero.

(** [1 + 2^-23], the binary32 number next above [1.0F]. *)
Definition above_one : F32.float := S754_finite false 8388609 (-23).

(** The largest sums of the [2^n] bases from [base] on are at most
    [above_one]. *)
Fixpoint largest_ok (n : nat) (base : Z) : bool :=
  match n with
  | O => F32.leb (halton_largest base) above_one
  | S n' => largest_ok n' base && largest_ok n' (base + 2 ^ Z.of_nat n')
  end.

(** * Properties *)

(** ** [roundDownToMultipleOf] *)

Lemma int32_rem_ok (a b : Z) :
  b <> 0 -> ~ (a = Int32.min_signed /\ b = -1) -> Int32.rem a b = Ok (Z.rem a b).
Proof.
  intros Hb Hov. unfold Int32.rem.
  destruct (Z.eqb_spec b 0) as [E | _]; [contradiction |].
  destruct (Z.eqb_spec a Int32.min_signed) as [Ea | _]; simpl; [| reflexivity].
  destruct (Z.eqb_spec b (-1)) as [Eb | _]; [| reflexivity].
  exfalso. apply Hov. split; assumption.
Qed.

(** The subtraction on line 27 stays inside [std::int32_t]: a remainder
    above 1 has the sign of a positive [value] and is at most [value]. *)
Lemma roundDown_in_range (value multiple r : Z) :
  Int32.in_range value -> roundDownToMultipleOf value multiple = Ok r ->
  Int32.in_range r.
Proof.
  unfold roundDownToMultipleOf, Int32.rem, Int32.in_range. intros Hv H.
  destruct (multiple =? 0) eqn:Em; simpl in H; [discriminate |].
  destruct ((value =? Int32.min_signed) && (multiple =? -1)); simpl in H;
    [discriminate |].
  apply Z.eqb_neq in Em. injection H as <-.
  destruct (Z.ltb_spec 1 (Z.rem value multiple)) as [Hr | Hr]; [| exact Hv].
  assert (Hpos : 0 <= value).
  { destruct (Z_lt_le_dec value 0) as [Hneg | Hge]; [| exact Hge].
    pose proof (Z.rem_nonpos value multiple Em ltac:(lia)). lia. }
  assert (Z.rem value multiple <= value).
  { destruct (Z_lt_le_dec 0 multiple) as [Hm | Hm].
    - apply Z.rem_le; assumption.
    - rewrite <- (Z.rem_opp_r value multiple) by exact Em.
      apply Z.rem_le; lia. }
  unfold Int32.min_signed, Int32.max_signed in *. lia.
Qed.

(** C4 (amended): for every [value] and every non-zero [multiple] other than
    the pair ([INT32_MIN], [-1]), [roundDownToMultipleOf] returns [value]
    minus the remainder [value % multiple] when that remainder is strictly
    greater than 1 and [value] itself otherwise; the result is again a
    32-bit signed integer. *)
Theorem roundDownToMultipleOf_spec (value multiple : Z) :
  Int32.in_range value ->
  multiple <> 0 ->
  ~ (value = Int32.min_signed /\ multiple = -1) ->
  let rest := Z.rem value multiple in
  roundDownToMultipleOf value multiple =
    Ok (if 1 <? rest then value - rest else value)
  /\ Int32.in_range (if 1 <? rest then value - rest else value).
Proof.
  intros Hv Hm Hov rest.
  assert (E : roundDownToMultipleOf value multiple =
              Ok (if 1 <? rest then value - rest else value)).
  { unfold roundDownToMultipleOf. rewrite (int32_rem_ok _ _ Hm Hov). reflexivity. }
  split; [exact E |]. exact (roundDown_in_range _ _ _ Hv E).
Qed.

(** The two worked cases of the specification: [(10, 3)] gives 10 and
    [(11, 3)] gives 9. *)
Lemma roundDownToMultipleOf_spec_witness :
  roundDownToMultipleOf 10 3 = Ok 10 /\ roundDownToMultipleOf 11 3 = Ok 9.
Proof.
  split.
  - apply (roundDownToMultipleOf_spec 10 3); unfold Int32.in_range, Int32.min_signed,
      Int32.max_signed; lia.
  - apply (roundDownToMultipleOf_spec 11 3); unfold Int32.in_range, Int32.min_signed,
      Int32.max_signed; lia.
Defined.

(** C4, as stated, fails at a non-zero [multiple]: [INT32_MIN % -1] has no
    defined value, so the call returns nothing. *)
Lemma roundDownToMultipleOf_overflow :
  -1 <> 0 /\ Int32.in_range (-2147483648) /\ Int32.in_range (-1) /\
  roundDownToMultipleOf (-2147483648) (-1) = Fault SignedOverflow.
Proof.
  unfold Int32.in_range, Int32.min_signed, Int32.max_signed.
  repeat split; try lia; discriminate.
Qed.

(** C10: the only division-by-zero of [roundDownToMultipleOf] is the
    unguarded [value % multiple]; it is reached exactly when [multiple] is 0,
    so every call that returns a value had [multiple <> 0], and no call with
    [multiple <> 0] reaches it. *)
Theorem roundDownToMultipleOf_division_by_zero (value multiple : Z) :
  (roundDownToMultipleOf value multiple = Fault DivisionByZero <-> multiple = 0)
  /\ ((exists r, roundDownToMultipleOf value multiple = Ok r) -> multiple <> 0).
Proof.
  unfold roundDownToMultipleOf, Int32.rem.
  destruct (Z.eqb_spec multiple 0) as [E | E]; simpl.
  - split; [tauto |]. intros [r H]. discriminate.
  - destruct ((value =? Int32.min_signed) && (multiple =? -1)); simpl;
      (split; [split; [discriminate | contradiction] | intros _; exact E]).
Qed.

(** ** [haltonSequence]: termination *)

Lemma halton_body_ok (base : Z) (st : halton_state) :
  base <> 0 ->
  halton_body base st =
    Ok (HaltonState (h_index st / base)
          (F32.div (h_fraction st) (F32.of_Z base))
          (F32.add (h_nextValue st)
             (F32.mul (F32.div (h_fraction st) (F32.of_Z base))
                (F32.of_Z (h_index st mod base))))).
Proof.
  intros Hb. unfold halton_body, Int32.umod, Int32.udiv.
  destruct (Z.eqb_spec base 0) as [E | _]; [contradiction | reflexivity].
Qed.

(** The loop variable strictly decreases while it is positive. *)
Lemma halton_index_decreases (index base : Z) :
  0 < index -> 2 <= base -> 0 <= index / base < index.
Proof.
  intros Hi Hb. split.
  - apply Z.div_pos; lia.
  - apply Z.div_lt; lia.
Qed.

Lemma halton_index_halves (index base : Z) (n : nat) :
  0 <= index < 2 ^ Z.of_nat (S n) -> 2 <= base ->
  0 <= index / base < 2 ^ Z.of_nat n.
Proof.
  intros [Hlo Hhi] Hb. split; [apply Z.div_pos; lia |].
  rewrite Nat2Z.inj_succ, Z.pow_succ_r in Hhi by lia.
  apply Z.div_lt_upper_bound; [lia |].
  assert (0 < 2 ^ Z.of_nat n) by (apply Z.pow_pos_nonneg; lia). nia.
Qed.

Lemma halton_loop_terminates (fuel : nat) :
  forall (base : Z) (st : halton_state),
    2 <= base -> 0 <= h_index st < 2 ^ Z.of_nat fuel ->
    exists v, halton_loop fuel base st = Some (Ok v).
Proof.
  induction fuel as [| fuel IH]; intros base st Hb Hi.
  - simpl in *. destruct (Z.ltb_spec 0 (h_index st)); [lia | eauto].
  - cbn [halton_loop]. destruct (Z.ltb_spec 0 (h_index st)) as [Hpos | _]; [| eauto].
    rewrite halton_body_ok by lia.
    apply IH; [exact Hb |]. cbn [h_index].
    apply halton_index_halves; assumption.
Qed.

(** More fuel never changes a result already reached. *)
Lemma halton_loop_more_fuel (fuel : nat) :
  forall (base : Z) (st : halton_state) (r : outcome F32.float) (extra : nat),
    halton_loop fuel base st = Some r ->
    halton_loop (fuel + extra) base st = Some r.
Proof.
  induction fuel as [| fuel IH]; intros base st r extra H.
  - simpl in H. destruct (0 <? h_index st) eqn:E; [discriminate |].
    destruct extra; simpl; rewrite E; exact H.
  - cbn [halton_loop Nat.add] in *. destruct (0 <? h_index st); [| exact H].
    destruct (halton_body base st); [apply IH; exact H | exact H].
Qed.

(** With [base = 1] the index never changes, so no amount of fuel suffices. *)
Lemma halton_loop_base_one (fuel : nat) :
  forall st : halton_state, 0 < h_index st -> halton_loop fuel 1 st = None.
Proof.
  induction fuel as [| fuel IH]; intros st Hpos; cbn [halton_loop];
    destruct (Z.ltb_spec 0 (h_index st)) as [_ | Hle]; try lia; [reflexivity |].
  rewrite halton_body_ok by lia. apply IH. cbn [h_index].
  rewrite Z.div_1_r. exact Hpos.
Qed.

(** C9: for a 32-bit [index] and any [base >= 2] the loop of
    [haltonSequence] terminates: the loop variable is non-negative and
    strictly decreases at each iteration, 32 iterations always suffice, and
    the result does not depend on the fuel given beyond that.  With
    [base = 1] and a positive index the loop never ends. *)
Theorem haltonSequence_terminates (index : Z) :
  Int32.in_urange index ->
  (forall base : Z, 2 <= base ->
     (0 < index -> 0 <= index / base < index)
     /\ exists v : F32.float,
          haltonSequence index base = Some (Ok v)
          /\ forall fuel : nat, (32 <= fuel)%nat ->
               haltonSequence_fuel fuel index base = Some (Ok v))
  /\ (0 < index -> forall fuel : nat, haltonSequence_fuel fuel index 1 = None).
Proof.
  intros Hi. split.
  - intros base Hb. split; [intros Hpos; apply halton_index_decreases; assumption |].
    destruct (halton_loop_terminates 32 base (halton_init index) Hb) as [v Hv].
    { exact Hi. }
    exists v. split; [exact Hv |].
    intros fuel Hf. replace fuel with (32 + (fuel - 32))%nat by lia.
    apply halton_loop_more_fuel. exact Hv.
  - intros Hpos fuel. apply halton_loop_base_one. exact Hpos.
Qed.

Lemma haltonSequence_terminates_witness :
  exists v : F32.float, haltonSequence 5 3 = Some (Ok v).
Proof.
  destruct (haltonSequence_terminates 5) as [H _].
  - unfold Int32.in_urange, Int32.modulus. lia.
  - destruct (H 3 ltac:(lia)) as [_ [v [Hv _]]]. exists v. exact Hv.
Defined.

(** ** [checkSystemError] *)

Section CheckSystemErrorFacts.

Import Diagnostics.

Variables EWOULDBLOCK EINVAL : Z.
Variable getErrorCode : Z -> ErrorType.
Variable strerror : Z -> string.
Variable unix_like : bool.
Variables sc_phys_pages sc_avphys_pages sc_pagesize : Z.
Variable locale_installed : string -> bool.
Variable setlocale_errno : string -> process -> Z.

Let check : string -> M unit :=
  checkSystemError EWOULDBLOCK EINVAL getErrorCode strerror unix_like
    sc_phys_pages sc_avphys_pages sc_pagesize locale_installed setlocale_errno.

Lemma is_reported_iff (e : Z) :
  is_reported EWOULDBLOCK EINVAL e = true <-> e <> 0 /\ e <> EWOULDBLOCK /\ e <> EINVAL.
Proof.
  unfold is_reported. rewrite !andb_true_iff, !negb_true_iff, !Z.eqb_neq. tauto.
Qed.

Lemma error_message_contains (message : string) (e : Z) :
  contains message (error_message getErrorCode strerror message e).
Proof.
  unfold contains, error_message. exists EmptyString. eexists. simpl. reflexivity.
Qed.

(** What a call does when the guard holds: the message is composed from the
    [errno] that [setlocale] left, it is thrown, and the process is left with
    [errno = 0] and the locale that [setlocale] left. *)
Lemma check_reported (message : string) (st : process) :
  is_reported EWOULDBLOCK EINVAL (errno st) = true ->
  exists entries : list log_entry,
    check message st =
      (Thrown (error_message getErrorCode strerror message
                 (setlocale_errno "en_US.UTF-8" st)),
       Process 0 (if locale_installed "en_US.UTF-8" then "en_US.UTF-8" else locale st),
       entries).
Proof.
  intros H. unfold check, checkSystemError, bind, get_errno, log, setlocale,
    set_errno, throw, when, ret. cbn [errno locale].
  fold (is_reported EWOULDBLOCK EINVAL (errno st)). rewrite H. cbn [errno locale].
  destruct unix_like; cbn; eexists; reflexivity.
Qed.

(** What a call does otherwise: it returns, the process is untouched, and the
    only entry logged is the debug line of line 239. *)
Lemma check_ignored (message : string) (st : process) :
  is_reported EWOULDBLOCK EINVAL (errno st) = false ->
  check message st =
    (Returned tt, st, [LogDebug ("Called checkSystemError: " ++ message)]).
Proof.
  intros H. unfold check, checkSystemError, bind, get_errno, log, ret.
  cbn [errno locale]. fold (is_reported EWOULDBLOCK EINVAL (errno st)). rewrite H. reflexivity.
Qed.

(** C2: [checkSystemError] throws exactly when [errno] is non-zero and is
    neither [EWOULDBLOCK] nor [EINVAL]; what it throws contains the caller's
    message, and [errno] is 0 when the exception leaves the function; when it
    does not throw, [errno] and the locale are what they were, and the call
    has written one entry to the log: the debug line of line 239 with the
    caller's message. *)
Theorem checkSystemError_spec (message : string) (st : process) :
  let '(r, st', entries) := check message st in
  ((exists what, r = Thrown what) <->
     errno st <> 0 /\ errno st <> EWOULDBLOCK /\ errno st <> EINVAL)
  /\ (forall what, r = Thrown what -> contains message what /\ errno st' = 0)
  /\ (r = Returned tt ->
      st' = st /\ entries = [LogDebug ("Called checkSystemError: " ++ message)]).
Proof.
  destruct (is_reported EWOULDBLOCK EINVAL (errno st)) eqn:E.
  - destruct (check_reported message st E) as [entries ->].
    apply is_reported_iff in E. split; [| split].
    + split; [intros _; exact E | intros _; eexists; reflexivity].
    + intros what [= <-]. split; [apply error_message_contains | reflexivity].
    + discriminate.
  - rewrite (check_ignored message st E).
    assert (N : ~ (errno st <> 0 /\ errno st <> EWOULDBLOCK /\ errno st <> EINVAL)).
    { rewrite <- is_reported_iff, E. discriminate. }
    split; [| split].
    + split; [intros [what H]; discriminate | intros H; contradiction].
    + discriminate.
    + intros _. split; reflexivity.
Qed.

End CheckSystemErrorFacts.

(** C2, as stated, fails for the log: with [errno = 0] the call returns and
    leaves [errno] and the locale alone, but it has written an entry, so it
    is not free of side effects. *)
Lemma checkSystemError_logs :
  exists entries : list Diagnostics.log_entry,
    Diagnostics.checkSystemError 11 22
      (fun e => Diagnostics.MkErrorType e "ENOENT" "No such file")
      (fun _ => "No such file or directory"%string) true 1000 500 4096
      (fun _ => false) (fun _ _ => 2) "open" (Diagnostics.Process 0 "C")
    = (Diagnostics.Returned tt, Diagnostics.Process 0 "C", entries)
    /\ entries = [Diagnostics.LogDebug "Called checkSystemError: open"]
    /\ entries <> [].
Proof.
  eexists. split; [reflexivity |]. split; [reflexivity | discriminate].
Qed.

(** ** The order of binary32 values *)

(** [SFcompare] compares mantissas with [Pos.compare_cont Eq], which is
    [Pos.compare]. *)
Ltac fold_pos_compare :=
  repeat match goal with
    | |- context [PosDef.Pos.compare_cont Eq ?a ?b] =>
        change (PosDef.Pos.compare_cont Eq a b) with (Pos.compare a b)
    end.

Ltac order_cases :=
  fold_pos_compare;
  repeat match goal with
    | |- context [(?a ?= ?b)%Z] => destruct (Z.compare_spec a b)
    | H : context [(?a ?= ?b)%Z] |- _ => destruct (Z.compare_spec a b)
    | |- context [(?a ?= ?b)%positive] => destruct (Pos.compare_spec a b)
    | H : context [(?a ?= ?b)%positive] |- _ => destruct (Pos.compare_spec a b)
    end.

(** Two values that are not NaN are always comparable. *)
Lemma ltb_false_leb (x y : F32.float) :
  F32.is_nan x = false -> F32.is_nan y = false ->
  F32.ltb x y = false -> F32.leb y x = true.
Proof.
  unfold F32.ltb, F32.leb, SFltb, SFleb.
  destruct x as [sx | sx | | sx mx ex], y as [sy | sy | | sy my ey];
    try discriminate; cbn; intros _ _;
    try destruct sx; try destruct sy; cbn; try discriminate; try reflexivity;
    order_cases; subst; cbn;
    try discriminate; try reflexivity; lia.
Qed.

Lemma ltb_leb (x y : F32.float) : F32.ltb x y = true -> F32.leb x y = true.
Proof.
  unfold F32.ltb, F32.leb, SFltb, SFleb.
  destruct (SFcompare x y) as [[| |] |]; try discriminate; reflexivity.
Qed.

Lemma leb_refl (x : F32.float) : F32.is_nan x = false -> F32.leb x x = true.
Proof.
  unfold F32.leb, SFleb.
  destruct x as [sx | sx | | sx mx ex]; try discriminate; cbn; intros _;
    try destruct sx; cbn; try reflexivity;
    fold_pos_compare; rewrite Z.compare_refl, Pos.compare_refl; reflexivity.
Qed.

Lemma leb_trans (x y z : F32.float) :
  F32.leb x y = true -> F32.leb y z = true -> F32.leb x z = true.
Proof.
  unfold F32.leb, SFleb.
  destruct x as [sx | sx | | sx mx ex], y as [sy | sy | | sy my ey],
    z as [sz | sz | | sz mz ez]; cbn; try discriminate;
    try destruct sx; try destruct sy; try destruct sz; cbn;
    try discriminate; try reflexivity;
    order_cases; subst; cbn;
    try discriminate; try reflexivity; intros; lia.
Qed.

(** A value that compares equal to a non-zero finite one is that value. *)
Lemma leb_antisym_finite (x : F32.float) (s : bool) (m : positive) (e : Z) :
  F32.leb (S754_finite s m e) x = true -> F32.leb x (S754_finite s m e) = true ->
  x = S754_finite s m e.
Proof.
  unfold F32.leb, SFleb.
  destruct x as [sx | sx | | sx mx ex]; cbn; try destruct s; try destruct sx; cbn;
    try discriminate;
    order_cases; subst; try discriminate; try reflexivity; intros; lia.
Qed.

(** ** [normalize] on colours *)

Lemma std_max_cases (a b : F32.float) :
  F32.is_nan a = false -> F32.is_nan b = false ->
  (F32.std_max a b = a \/ F32.std_max a b = b)
  /\ F32.leb a (F32.std_max a b) = true /\ F32.leb b (F32.std_max a b) = true.
Proof.
  intros Ha Hb. unfold F32.std_max. destruct (F32.ltb a b) eqn:E.
  - repeat split; [right; reflexivity | apply ltb_leb; exact E | apply leb_refl; exact Hb].
  - repeat split; [left; reflexivity | apply leb_refl; exact Ha
                  | apply ltb_false_leb; assumption].
Qed.

Lemma max3_greatest (c : vec3) : no_nan c -> is_greatest (max3 c) c.
Proof.
  intros (Hx & Hy & Hz). unfold max3, is_greatest.
  destruct (std_max_cases (vx c) (vy c) Hx Hy) as (Hsel & Hlx & Hly).
  assert (Hn : F32.is_nan (F32.std_max (vx c) (vy c)) = false)
    by (destruct Hsel as [-> | ->]; assumption).
  destruct (std_max_cases (F32.std_max (vx c) (vy c)) (vz c) Hn Hz) as (Hsel' & Hl1 & Hlz).
  repeat split.
  - destruct Hsel' as [-> | ->]; [destruct Hsel as [-> | ->] |]; auto.
  - eapply leb_trans; eassumption.
  - eapply leb_trans; eassumption.
  - exact Hlz.
Qed.

(** C8: [normalize] divides the three components by [std::max] of the
    components when that value exceeds [1.0F] and returns the colour unchanged
    otherwise; for a colour without NaN that value is the greatest component.
    In particular [(2.0, 1.0, 0.5)] becomes [(1.0, 0.5, 0.25)] and
    [(0.5, 0.3, 0.1)] is returned as it is. *)
Theorem normalize_spec :
  (forall color : vec3,
      (no_nan color -> is_greatest (max3 color) color)
      /\ (F32.gtb (max3 color) F32.one = true ->
          normalize color =
            Vec3 (F32.div (vx color) (max3 color)) (F32.div (vy color) (max3 color))
                 (F32.div (vz color) (max3 color)))
      /\ (F32.gtb (max3 color) F32.one = false -> normalize color = color))
  /\ normalize (Vec3 F32.two F32.one (F32.ratio 1 2)) =
       Vec3 F32.one (F32.ratio 1 2) (F32.ratio 1 4)
  /\ normalize (Vec3 (F32.ratio 1 2) (F32.ratio 3 10) (F32.ratio 1 10)) =
       Vec3 (F32.ratio 1 2) (F32.ratio 3 10) (F32.ratio 1 10).
Proof.
  split; [| split; vm_compute; reflexivity].
  intros color. split; [apply max3_greatest |].
  unfold normalize, glm.div_scalar.
  split; intros ->; reflexivity.
Qed.

(** ** [fresnel]: the first step *)

(** With the arguments in the order of line 208, [glm::clamp] bounds the
    dot product from above only. *)
Lemma fresnel_cosi_min (I N : vec3) :
  fresnel_cosi I N = glm.min F32.one (glm.dot I N).
Proof. reflexivity. Qed.

(** C1 (the code departs from it): at the incidence [I = -N] for the unit
    normal above the dot product is the binary32 number just below [-1];
    [fresnel] goes on with that value, where the clamp of the specification
    gives [-1]. *)
Theorem fresnel_cosi_below_minus_one :
  let N := unit_normal in
  let I := glm.neg N in
  F32.valid (vx N) = true /\ F32.valid (vy N) = true
  /\ glm.dot N N = S754_finite false 8388609 (-23)
  /\ glm.dot I N = S754_finite true 8388609 (-23)
  /\ fresnel_cosi I N = S754_finite true 8388609 (-23)
  /\ clamped_cosi I N = F32.opp F32.one
  /\ F32.ltb (fresnel_cosi I N) (clamped_cosi I N) = true.
Proof. vm_compute. repeat split. Qed.

(** Where the dot product is at least [-1] the two agree. *)
Lemma fresnel_cosi_clamped (I N : vec3) :
  F32.leb (F32.opp F32.one) (glm.dot I N) = true ->
  fresnel_cosi I N = clamped_cosi I N.
Proof.
  rewrite fresnel_cosi_min. unfold clamped_cosi, glm.min, F32.std_min, F32.std_max.
  generalize (glm.dot I N). intros d Hd.
  assert (Hnan : F32.is_nan d = false)
    by (destruct d; [reflexivity .. | discriminate | reflexivity]).
  destruct (F32.ltb (F32.opp F32.one) d) eqn:E1; [reflexivity |].
  assert (Hle : F32.leb d (F32.opp F32.one) = true)
    by (apply ltb_false_leb; [reflexivity | exact Hnan | exact E1]).
  rewrite (leb_antisym_finite d true 8388608 (-23) Hd Hle). reflexivity.
Qed.

(** ** [equal] *)

Lemma sub_diag (x : F32.float) :
  F32.is_finite x = true -> F32.sub x x = S754_zero false.
Proof.
  destruct x as [s | s | | s m e]; try discriminate; intros _.
  - destruct s; reflexivity.
  - unfold F32.sub, SFsub. rewrite Z.sub_diag. reflexivity.
Qed.

Lemma equal_same (Epsilon x : F32.float) :
  F32.ltb F32.zero Epsilon = true -> F32.is_finite x = true ->
  equal Epsilon x x = true.
Proof.
  intros He Hx. unfold equal. rewrite (sub_diag x Hx). exact He.
Qed.

(** * Rounding to binary32 *)

Lemma fexp32 (e : Z) : fexp 24 128 e = Z.max (e - 24) (-149).
Proof. reflexivity. Qed.

Lemma digits2_pos_log2 (p : positive) : Zpos (digits2_pos p) = Z.log2 (Zpos p) + 1.
Proof.
  induction p as [p IH | p IH |]; cbn [digits2_pos]; try reflexivity.
  - rewrite Pos2Z.inj_succ, IH.
    change (Zpos p~1) with (2 * Zpos p + 1). rewrite Z.log2_succ_double by lia. lia.
  - rewrite Pos2Z.inj_succ, IH.
    change (Zpos p~0) with (2 * Zpos p). rewrite Z.log2_double by lia. lia.
Qed.

Lemma Zdigits2_log2 (m : Z) : 0 < m -> Zdigits2 m = Z.log2 m + 1.
Proof. destruct m as [| p | p]; try lia. intros _. apply digits2_pos_log2. Qed.

Lemma Zdigits2_nonneg (m : Z) : 0 <= Zdigits2 m.
Proof. destruct m; cbn; lia. Qed.

Lemma Zdigits2_bounds (m : Z) :
  0 < m -> 2 ^ (Zdigits2 m - 1) <= m < 2 ^ Zdigits2 m.
Proof.
  intros Hm. rewrite (Zdigits2_log2 m Hm).
  replace (Z.log2 m + 1 - 1) with (Z.log2 m) by lia.
  replace (Z.log2 m + 1) with (Z.succ (Z.log2 m)) by lia.
  apply Z.log2_spec. exact Hm.
Qed.

Lemma Zdigits2_unique (m n : Z) : 2 ^ (n - 1) <= m < 2 ^ n -> 0 < m -> Zdigits2 m = n.
Proof.
  intros H Hm. rewrite (Zdigits2_log2 m Hm).
  assert (0 < n).
  { destruct (Z_lt_le_dec 0 n) as [Hn | Hn]; [exact Hn |].
    destruct (Z.eq_dec n 0) as [-> | Hne]; [simpl in H; lia |].
    rewrite (Z.pow_neg_r 2 n) in H by lia. lia. }
  assert (Z.log2 m = n - 1); [| lia].
  apply Z.log2_unique; [lia |]. replace (Z.succ (n - 1)) with n by lia. exact H.
Qed.

Lemma Zdigits2_upper (m n : Z) : 0 <= n -> 0 <= m < 2 ^ n -> Zdigits2 m <= n.
Proof.
  intros Hn [Hlo Hhi]. destruct (Z.eq_dec m 0) as [-> | Hne]; [exact Hn |].
  pose proof (Zdigits2_bounds m ltac:(lia)) as [Hb _].
  destruct (Z_lt_le_dec n (Zdigits2 m)) as [Hlt | Hle]; [| exact Hle].
  exfalso. assert (2 ^ n <= 2 ^ (Zdigits2 m - 1)) by (apply Z.pow_le_mono_r; lia). lia.
Qed.

Lemma Zdigits2_lower (m n : Z) : 2 ^ (n - 1) <= m -> 0 < m -> n <= Zdigits2 m.
Proof.
  intros Hlo Hm. pose proof (Zdigits2_bounds m Hm) as [_ Hb].
  destruct (Z_lt_le_dec (Zdigits2 m) n) as [Hlt | Hle]; [| exact Hle].
  exfalso. pose proof (Zdigits2_nonneg m).
  assert (2 ^ Zdigits2 m <= 2 ^ (n - 1)) by (apply Z.pow_le_mono_r; lia). lia.
Qed.

Lemma record_of_loc_of (mrs : shr_record) :
  shr_record_of_loc (shr_m mrs) (loc_of_shr_record mrs) = mrs.
Proof. destruct mrs as [m [|] [|]]; reflexivity. Qed.

Lemma loc_of_record_of (m : Z) (l : location) :
  loc_of_shr_record (shr_record_of_loc m l) = l /\ shr_m (shr_record_of_loc m l) = m.
Proof. destruct l as [| [| |]]; split; reflexivity. Qed.

Lemma rep_exact (M : Z) : 0 <= M -> rep M 1 (shr_record_of_loc M loc_Exact).
Proof.
  intros HM. unfold rep. cbn [shr_record_of_loc shr_m shr_r shr_s].
  rewrite Z.div_1_r, Z.mod_1_r. repeat split; try lia; reflexivity.
Qed.

Lemma odd_mod2 (m : Z) : Z.odd m = (m mod 2 =? 1).
Proof.
  rewrite <- Z.bit0_odd. rewrite <- (Z.bit0_mod m).
  destruct (Z.testbit m 0); reflexivity.
Qed.

Lemma shr_1_fields (m : Z) (r s : bool) :
  0 <= m ->
  shr_1 (Build_shr_record m r s) = Build_shr_record (m / 2) (Z.odd m) (r || s).
Proof.
  intros Hm. destruct m as [| p | p]; [reflexivity | | lia].
  destruct p as [p | p |]; cbn [shr_1].
  - replace (Zpos p~1 / 2) with (Zpos p); [reflexivity |].
    change (Zpos p~1) with (2 * Zpos p + 1).
    apply Z.div_unique with 1; lia.
  - replace (Zpos p~0 / 2) with (Zpos p); [reflexivity |].
    change (Zpos p~0) with (2 * Zpos p).
    apply Z.div_unique with 0; lia.
  - reflexivity.
Qed.

Lemma rep_shr_1 (N d : Z) (mrs : shr_record) : rep N d mrs -> rep N (2 * d) (shr_1 mrs).
Proof.
  destruct mrs as [m r s]. unfold rep. cbn [shr_m shr_r shr_s].
  intros (Hd & HN & Hm & Hr & Hs).
  assert (Hm0 : 0 <= m) by (subst m; apply Z.div_pos; lia).
  rewrite (shr_1_fields m r s Hm0). cbn [shr_m shr_r shr_s].
  pose proof (Z.mod_pos_bound N d Hd) as Hrem.
  pose proof (Z.div_mod N d ltac:(lia)) as Hdm.
  pose proof (Z.mod_pos_bound m 2 ltac:(lia)) as Hm2.
  pose proof (Z.div_mod m 2 ltac:(lia)) as Hdm2.
  assert (Hq : m / 2 = N / (2 * d)).
  { apply Z.div_unique with (d * (m mod 2) + N mod d); nia. }
  assert (Hmod : N mod (2 * d) = d * (m mod 2) + N mod d).
  { symmetry. apply Z.mod_unique with (m / 2); nia. }
  rewrite Hmod, odd_mod2. subst r s.
  assert (Hbit : m mod 2 = 0 \/ m mod 2 = 1) by lia.
  destruct Hbit as [E | E]; rewrite E in *; repeat split; lia.
Qed.

Lemma rep_iter (p : positive) :
  forall (N d : Z) (mrs : shr_record),
    rep N d mrs -> rep N (d * 2 ^ Zpos p) (iter_pos shr_1 p mrs).
Proof.
  induction p as [p IH | p IH |]; intros N d mrs H; cbn [iter_pos].
  - replace (d * 2 ^ Zpos p~1) with ((2 * d) * 2 ^ Zpos p * 2 ^ Zpos p).
    + apply IH, IH, rep_shr_1, H.
    + change (Zpos p~1) with (2 * Zpos p + 1).
      rewrite Z.pow_add_r, Z.pow_mul_r, Z.pow_2_r by lia.
      change (2 ^ 2) with 4. rewrite Z.pow_1_r. 
      replace 4 with (2*2) by lia. rewrite Z.pow_mul_l. ring.
  - replace (d * 2 ^ Zpos p~0) with (d * 2 ^ Zpos p * 2 ^ Zpos p).
    + apply IH, IH, H.
    + change (Zpos p~0) with (2 * Zpos p).
      rewrite <- Z.mul_assoc, <- Z.pow_add_r by lia. f_equal. f_equal. lia.
  - rewrite Z.pow_1_r, Z.mul_comm. apply rep_shr_1, H.
Qed.

Lemma rep_shr (N d : Z) (mrs : shr_record) (e k : Z) :
  0 <= k -> rep N d mrs ->
  exists mrs', shr mrs e k = (mrs', e + k) /\ rep N (d * 2 ^ k) mrs'.
Proof.
  intros Hk H. destruct k as [| p | p]; [| | lia].
  - exists mrs. cbn [shr]. rewrite Z.add_0_r, Z.mul_1_r. split; [reflexivity | exact H].
  - exists (iter_pos shr_1 p mrs). split; [reflexivity | apply rep_iter, H].
Qed.

(** Rounding to nearest, ties to even, moves by at most half a unit. *)
Lemma rep_round (N d : Z) (mrs : shr_record) :
  rep N d mrs ->
  let m1 := round_nearest_even (shr_m mrs) (loc_of_shr_record mrs) in
  (m1 = N / d \/ m1 = N / d + 1) /\ Z.abs (2 * d * m1 - 2 * N) <= d.
Proof.
  destruct mrs as [m r s]. unfold rep. cbn [shr_m shr_r shr_s].
  intros (Hd & HN & Hm & Hr & Hs).
  pose proof (Z.mod_pos_bound N d Hd) as Hrem.
  pose proof (Z.div_mod N d ltac:(lia)) as Hdm.
  rewrite <- Hm in *.
  destruct (Z.leb_spec d (2 * (N mod d))); destruct (Z.eqb_spec (N mod d) 0);
    destruct (Z.eqb_spec (2 * (N mod d)) d); cbn in Hs; subst r s;
    cbn [loc_of_shr_record round_nearest_even]; try destruct (Z.even m);
    (split; [auto; lia | nia]).
Qed.

Lemma bounded_intro (m : positive) (e : Z) :
  Z.max (Zdigits2 (Zpos m) + e - 24) (-149) = e -> e <= 104 ->
  bounded 24 128 m e = true.
Proof.
  intros Hc He. unfold bounded, canonical_mantissa. rewrite fexp32.
  change (Zpos (digits2_pos m)) with (Zdigits2 (Zpos m)).
  apply andb_true_intro. split; [apply Z.eqb_eq; exact Hc | apply Z.leb_le; exact He].
Qed.

Lemma bounded_elim (m : positive) (e : Z) :
  bounded 24 128 m e = true ->
  Z.max (Zdigits2 (Zpos m) + e - 24) (-149) = e /\ e <= 104.
Proof.
  unfold bounded, canonical_mantissa. rewrite fexp32.
  change (Zpos (digits2_pos m)) with (Zdigits2 (Zpos m)).
  intros H. apply andb_prop in H. destruct H as [Hc He].
  apply Z.eqb_eq in Hc. apply Z.leb_le in He. split; assumption.
Qed.

Lemma round_aux_post (s : bool) (N d ex : Z) (mrs : shr_record) :
  rep N d mrs ->
  ex <= Z.max (Zdigits2 (N / d) + ex - 24) (-149) ->
  round_post s N d ex
    (binary_round_aux 24 128 s (shr_m mrs) ex (loc_of_shr_record mrs)).
Proof.
  intros Hrep Hex. unfold round_post.
  unfold binary_round_aux, shr_fexp. rewrite record_of_loc_of, !fexp32.
  pose proof Hrep as (Hd & HN & Hm & _). rewrite Hm.
  set (mx := N / d) in *.
  assert (Hmx : 0 <= mx) by (apply Z.div_pos; lia).
  set (E := Z.max (Zdigits2 mx + ex - 24) (-149)) in *.
  assert (Hk : 0 <= E - ex) by lia.
  assert (HEmin : -149 <= E) by (unfold E; lia).
  assert (HEdig : Zdigits2 mx + ex - 24 <= E) by (unfold E; lia).
  assert (HEcase : E = -149 \/ E = Zdigits2 mx + ex - 24) by (unfold E; lia).
  destruct (rep_shr N d mrs ex (E - ex) Hk Hrep) as (mrs' & Hshr & Hrep').
  rewrite Hshr. replace (ex + (E - ex)) with E by lia.
  pose proof (rep_round _ _ _ Hrep') as [Hm1 Hval].
  set (m1 := round_nearest_even (shr_m mrs') (loc_of_shr_record mrs')) in *.
  set (P := 2 ^ (E - ex)) in *.
  assert (HP : 0 < P) by (apply Z.pow_pos_nonneg; lia).
  assert (Hq1 : N / (d * P) = mx / P).
  { unfold mx. rewrite Z.div_div by lia. reflexivity. }
  rewrite Hq1 in Hm1.
  assert (Hq1hi : mx / P < 2 ^ 24).
  { apply Z.div_lt_upper_bound; [exact HP |].
    destruct (Z.eq_dec mx 0) as [-> | Hne]; [lia |].
    pose proof (Zdigits2_bounds mx ltac:(lia)) as [_ Hb].
    unfold P. rewrite <- Z.pow_add_r by lia.
    eapply Z.lt_le_trans; [exact Hb |]. apply Z.pow_le_mono_r; lia. }
  assert (Hq1lo : -149 < E -> 2 ^ 23 <= mx / P).
  { intros HE. assert (Hdig : Zdigits2 mx = E - ex + 24) by lia.
    assert (Hpos : 0 < mx).
    { destruct (Z.eq_dec mx 0) as [E0 | Hne]; [| lia].
      rewrite E0 in Hdig. cbn in Hdig. lia. }
    pose proof (Zdigits2_bounds mx Hpos) as [Hb _].
    apply Z.div_le_lower_bound; [exact HP |].
    unfold P. rewrite <- Z.pow_add_r by lia.
    replace (E - ex + 23) with (Zdigits2 mx - 1) by lia. exact Hb. }
  assert (Hq1nn : 0 <= mx / P) by (apply Z.div_pos; lia).
  assert (Hdigq : 0 < mx / P -> Zdigits2 (mx / P) + E = Zdigits2 mx + ex).
  { intros Hq. assert (Hpos : 0 < mx).
    { destruct (Z.eq_dec mx 0) as [E0 | Hne]; [| lia].
      rewrite E0 in Hq. rewrite Z.div_0_l in Hq; lia. }
    pose proof (Zdigits2_bounds mx Hpos) as [Hb1 Hb2].
    assert (HPle : P <= mx).
    { destruct (Z_lt_le_dec mx P) as [Hl | Hg]; [| exact Hg].
      rewrite Z.div_small in Hq; lia. }
    assert (Hdk : E - ex < Zdigits2 mx).
    { destruct (Z_lt_le_dec (E - ex) (Zdigits2 mx)) as [Hl | Hg]; [exact Hl |].
      assert (2 ^ Zdigits2 mx <= P)
        by (apply Z.pow_le_mono_r; [lia | exact Hg]). lia. }
    assert (Hsplit : 2 ^ Zdigits2 mx = P * 2 ^ (Zdigits2 mx - (E - ex))).
    { unfold P. rewrite <- Z.pow_add_r by lia. f_equal. lia. }
    assert (Hsplit' : 2 ^ (Zdigits2 mx - 1) = P * 2 ^ (Zdigits2 mx - (E - ex) - 1)).
    { unfold P. rewrite <- Z.pow_add_r by lia. f_equal. lia. }
    rewrite (Zdigits2_unique (mx / P) (Zdigits2 mx - (E - ex))); [lia | | exact Hq].
    split.
    - apply Z.div_le_lower_bound; [exact HP |]. rewrite <- Hsplit'. exact Hb1.
    - apply Z.div_lt_upper_bound; [exact HP |]. rewrite <- Hsplit. exact Hb2. }
  change (2 ^ 24) with 16777216 in *. change (2 ^ 23) with 8388608 in *.
  destruct (Z.eq_dec m1 16777216) as [Hcarry | Hnc].
  - (* the mantissa rounded up to a power of two: one more shift *)
    rewrite Hcarry. change (Zdigits2 16777216) with 25. rewrite fexp32.
    replace (Z.max (25 + E - 24) (-149) - E) with 1 by lia.
    cbn [shr_record_of_loc shr iter_pos shr_1 shr_m].
    destruct (Z.leb_spec (E + 1) (128 - 24)) as [Hfin | Hinf].
    + split; [reflexivity |]. split; [apply bounded_intro; [change (Zdigits2 (Zpos 8388608)) with 24 |]; lia |].
      split; [lia |]. split; [reflexivity |].
      replace (E + 1 - E) with 1 by lia. rewrite Hcarry in Hval.
      change (Zpos 8388608 * 2 ^ 1) with 16777216. split; [exact Hval |].
      intros _. change (Zdigits2 (Zpos 8388608)) with 24.
      assert (Hq : mx / P = 16777215) by lia.
      assert (Hdq : Zdigits2 (mx / P) = 24) by (rewrite Hq; reflexivity).
      pose proof (Hdigq ltac:(lia)). lia.
    + split; [reflexivity |]. split; [lia |]. intros _.
      rewrite Hcarry in Hval. change (2 ^ 25 - 1) with 33554431. lia.
  - assert (Hlt : m1 < 16777216) by lia.
    assert (Hm1nn : 0 <= m1) by lia.
    assert (Hk1 : Z.max (Zdigits2 m1 + E - 24) (-149) - E = 0).
    { destruct (Z_lt_le_dec (-149) E) as [HE | HE].
      - rewrite (Zdigits2_unique m1 24);
          [lia | change (2 ^ (24 - 1)) with 8388608; change (2 ^ 24) with 16777216 | ];
          specialize (Hq1lo HE); lia.
      - pose proof (Zdigits2_upper m1 24 ltac:(lia)
                      ltac:(change (2 ^ 24) with 16777216; lia)). lia. }
    rewrite fexp32, Hk1. cbn [shr_record_of_loc shr shr_m].
    destruct m1 as [| p | p] eqn:Em1; [| | lia].
    + split; [reflexivity |].
      assert (HE : E = -149).
      { destruct (Z_lt_le_dec (-149) E) as [HE | HE]; [| lia].
        specialize (Hq1lo HE). lia. }
      split; [exact HE |]. split; [lia |].
      destruct (Z.eq_dec mx 0) as [E0 | Hne]; [rewrite E0; cbn; lia |].
      assert (Hle : 2 * mx <= P).
      { assert (d * mx <= N) by (unfold mx; apply Z.mul_div_le; lia). nia. }
      pose proof (Zdigits2_upper mx (E - ex) Hk ltac:(fold P; lia)). lia.
    + destruct (Z.leb_spec E (128 - 24)) as [Hfin | Hinf].
      * split; [reflexivity |]. split; [apply bounded_intro; lia |].
        split; [lia |]. split; [lia |].
        rewrite Z.sub_diag, Z.pow_0_r, Z.mul_1_r. split; [exact Hval |].
        intros Hpos. destruct (Z.eq_dec (mx / P) 0) as [Hz | Hnz].
        -- (* everything was shifted out and the rounding went up *)
           rewrite Hz in Hm1. assert (Hp1 : Zpos p = 1) by lia. rewrite Hp1 in *.
           change (Zdigits2 1) with 1.
           assert (HltP : mx < P).
           { destruct (Z_lt_le_dec mx P) as [Hl | Hg]; [exact Hl |].
             assert (1 <= mx / P) by (apply Z.div_le_lower_bound; lia). lia. }
           assert (Hup : Zdigits2 mx <= E - ex)
             by (apply Zdigits2_upper; [lia | fold P; lia]).
           assert (Hhalf : P < 2 * (mx + 1)).
           { assert (N < d * (mx + 1)).
             { unfold mx. pose proof (Z.mod_pos_bound N d Hd).
               pose proof (Z.div_mod N d ltac:(lia)). nia. }
             assert (d * P <= 2 * N) by lia. nia. }
           assert (Hk1' : 1 <= E - ex).
           { destruct (Z.eq_dec (E - ex) 0) as [Ek | Ek]; [| lia].
             unfold P in HltP. rewrite Ek in HltP. cbn in HltP. lia. }
           assert (Hlow : E - ex <= Zdigits2 mx).
           { apply Zdigits2_lower; [| lia].
             assert (P = 2 * 2 ^ (E - ex - 1)).
             { unfold P. rewrite <- Z.pow_succ_r by lia. f_equal. lia. }
             lia. }
           lia.
        -- pose proof (Hdigq ltac:(lia)) as Hdq.
           assert (Hmono : Zdigits2 (mx / P) <= Zdigits2 (Zpos p) <= Zdigits2 (mx / P) + 1).
           { pose proof (Zdigits2_bounds (mx / P) ltac:(lia)) as [Hb1 Hb2].
             pose proof (Zdigits2_nonneg (mx / P)).
             split.
             - apply Zdigits2_lower; lia.
             - apply Zdigits2_upper; [lia |].
               replace (Zdigits2 (mx / P) + 1) with (Z.succ (Zdigits2 (mx / P))) by lia.
               rewrite Z.pow_succ_r by lia. lia. }
           lia.
      * split; [reflexivity |]. split; lia.
Qed.

(** ** Number of binary digits: arithmetic *)

Lemma Zdigits2_le (a b : Z) : 0 <= a <= b -> Zdigits2 a <= Zdigits2 b.
Proof.
  intros [Ha Hab]. destruct (Z.eq_dec a 0) as [-> | Hne]; [apply Zdigits2_nonneg |].
  rewrite !Zdigits2_log2 by lia. pose proof (Z.log2_le_mono a b Hab). lia.
Qed.

Lemma Zdigits2_shift (m j : Z) : 0 < m -> 0 <= j -> Zdigits2 (m * 2 ^ j) = Zdigits2 m + j.
Proof.
  intros Hm Hj. pose proof (Zdigits2_bounds m Hm) as [Hlo Hhi].
  pose proof (Zdigits2_nonneg m).
  assert (Hd1 : 1 <= Zdigits2 m).
  { destruct m as [| p | p]; try lia. cbn. lia. }
  assert (HP : 0 < 2 ^ j) by (apply Z.pow_pos_nonneg; lia).
  apply Zdigits2_unique; [| nia].
  replace (Zdigits2 m + j - 1) with (Zdigits2 m - 1 + j) by lia.
  rewrite !Z.pow_add_r by lia. nia.
Qed.

Lemma Zdigits2_pos (m : Z) : 0 < m -> 1 <= Zdigits2 m.
Proof. destruct m as [| p | p]; try lia. intros _. cbn. lia. Qed.

Lemma Zdigits2_mul (a b : Z) :
  0 < a -> 0 < b ->
  Zdigits2 a + Zdigits2 b - 1 <= Zdigits2 (a * b) <= Zdigits2 a + Zdigits2 b.
Proof.
  intros Ha Hb.
  pose proof (Zdigits2_bounds a Ha) as [Ha1 Ha2].
  pose proof (Zdigits2_bounds b Hb) as [Hb1 Hb2].
  pose proof (Zdigits2_pos a Ha). pose proof (Zdigits2_pos b Hb).
  assert (H1 : 2 ^ (Zdigits2 a + Zdigits2 b - 1 - 1) <= a * b).
  { replace (Zdigits2 a + Zdigits2 b - 1 - 1) with ((Zdigits2 a - 1) + (Zdigits2 b - 1)) by lia.
    rewrite Z.pow_add_r by lia.
    assert (0 < 2 ^ (Zdigits2 a - 1)) by (apply Z.pow_pos_nonneg; lia).
    assert (0 < 2 ^ (Zdigits2 b - 1)) by (apply Z.pow_pos_nonneg; lia). nia. }
  assert (H2 : a * b < 2 ^ (Zdigits2 a + Zdigits2 b)).
  { rewrite Z.pow_add_r by lia. nia. }
  split.
  - apply Zdigits2_lower; [exact H1 | nia].
  - apply Zdigits2_upper; [lia | split; [nia | exact H2]].
Qed.

Lemma Zdigits2_add (a b : Z) :
  0 <= a -> 0 <= b -> Zdigits2 (a + b) <= Z.max (Zdigits2 a) (Zdigits2 b) + 1.
Proof.
  intros Ha Hb.
  pose proof (Zdigits2_nonneg a). pose proof (Zdigits2_nonneg b).
  apply Zdigits2_upper; [lia |]. split; [lia |].
  assert (Ha2 : a < 2 ^ Z.max (Zdigits2 a) (Zdigits2 b)).
  { destruct (Z.eq_dec a 0) as [-> | Hne]; [apply Z.pow_pos_nonneg; lia |].
    pose proof (Zdigits2_bounds a ltac:(lia)) as [_ Hh].
    eapply Z.lt_le_trans; [exact Hh | apply Z.pow_le_mono_r; lia]. }
  assert (Hb2 : b < 2 ^ Z.max (Zdigits2 a) (Zdigits2 b)).
  { destruct (Z.eq_dec b 0) as [-> | Hne]; [apply Z.pow_pos_nonneg; lia |].
    pose proof (Zdigits2_bounds b ltac:(lia)) as [_ Hh].
    eapply Z.lt_le_trans; [exact Hh | apply Z.pow_le_mono_r; lia]. }
  replace (Z.max (Zdigits2 a) (Zdigits2 b) + 1)
    with (Z.succ (Z.max (Zdigits2 a) (Zdigits2 b))) by lia.
  rewrite Z.pow_succ_r by lia. lia.
Qed.

(** ** Brackets: where a rounded result lies *)

Lemma bracket_weaken (s : bool) (lo hi lo' hi' : Z) (F : spec_float) :
  bracket s lo hi F -> lo' <= lo -> hi <= hi' -> bracket s lo' hi' F.
Proof.
  destruct F as [s' | s' | | s' m e]; cbn; intros H Hlo Hhi; intuition lia.
Qed.

Lemma round_post_bracket (s : bool) (N d ex : Z) (F : spec_float) :
  round_post s N d ex F -> 0 < N / d ->
  bracket s (Zdigits2 (N / d) + ex) (Zdigits2 (N / d) + ex) F.
Proof.
  unfold round_post. destruct F as [s' | s' | | s' m e]; cbn; intros H Hpos.
  - intuition lia.
  - intuition lia.
  - exact H.
  - destruct H as (Hs & Hb & _ & _ & _ & Hdig). specialize (Hdig Hpos).
    repeat split; try assumption; lia.
Qed.

(** ** The operations *)

Lemma bounded_facts (m : positive) (e : Z) :
  bounded 24 128 m e = true ->
  1 <= Zdigits2 (Zpos m) <= 24 /\ -149 <= e <= 104
  /\ (Zdigits2 (Zpos m) = 24 \/ e = -149).
Proof.
  intros H. apply bounded_elim in H. destruct H as [Hc He].
  pose proof (Zdigits2_pos (Zpos m) ltac:(lia)). lia.
Qed.

Lemma round_exact_post (s : bool) (M ex : Z) :
  0 <= M -> ex <= Z.max (Zdigits2 M + ex - 24) (-149) ->
  round_post s M 1 ex (binary_round_aux 24 128 s M ex loc_Exact).
Proof.
  intros HM Hex.
  change (binary_round_aux 24 128 s M ex loc_Exact)
    with (binary_round_aux 24 128 s (shr_m (shr_record_of_loc M loc_Exact)) ex
            (loc_of_shr_record (shr_record_of_loc M loc_Exact))).
  apply round_aux_post; [apply rep_exact; exact HM | rewrite Z.div_1_r; exact Hex].
Qed.

Lemma mul_post (sx : bool) (mx : positive) (ex : Z) (sy : bool) (my : positive) (ey : Z) :
  bounded 24 128 mx ex = true -> bounded 24 128 my ey = true ->
  round_post (xorb sx sy) (Zpos mx * Zpos my) 1 (ex + ey)
    (F32.mul (S754_finite sx mx ex) (S754_finite sy my ey)).
Proof.
  intros Hx Hy. unfold F32.mul, SFmul. rewrite Pos2Z.inj_mul.
  apply round_exact_post; [lia |].
  apply bounded_facts in Hx, Hy.
  pose proof (Zdigits2_mul (Zpos mx) (Zpos my) ltac:(lia) ltac:(lia)). lia.
Qed.

Lemma iter_xO (m d : positive) : Zpos (Pos.iter xO m d) = Zpos m * 2 ^ Zpos d.
Proof.
  change (Pos.iter xO m d) with (shift_pos d m).
  rewrite shift_pos_correct. rewrite Z.mul_comm. reflexivity.
Qed.

Lemma shl_align_fst (mx : positive) (ex ez : Z) :
  ez <= ex -> Zpos (fst (shl_align mx ex ez)) = Zpos mx * 2 ^ (ex - ez).
Proof.
  intros H. unfold shl_align. destruct (ez - ex) as [| p | p] eqn:E; try lia.
  - replace (ex - ez) with 0 by lia. cbn [fst]. lia.
  - cbn [fst]. rewrite iter_xO. f_equal. f_equal. lia.
Qed.

Lemma binary_round_bracket (s : bool) (m : positive) (e : Z) :
  bracket s (Zdigits2 (Zpos m) + e) (Zdigits2 (Zpos m) + e) (binary_round 24 128 s m e).
Proof.
  unfold binary_round, shl_align. rewrite fexp32.
  change (Zpos (digits2_pos m)) with (Zdigits2 (Zpos m)).
  set (F := Z.max (Zdigits2 (Zpos m) + e - 24) (-149)).
  assert (HF : F = Z.max (Zdigits2 (Zpos m) + e - 24) (-149)) by reflexivity.
  clearbody F.
  destruct (F - e) as [| p | p] eqn:E.
  - pose proof (round_exact_post s (Zpos m) e ltac:(lia) ltac:(lia)) as H.
    apply round_post_bracket in H; rewrite Z.div_1_r in *; [exact H | lia].
  - pose proof (round_exact_post s (Zpos m) e ltac:(lia) ltac:(lia)) as H.
    apply round_post_bracket in H; rewrite Z.div_1_r in *; [exact H | lia].
  - assert (Hd : Zdigits2 (Zpos (Pos.iter xO m p)) = Zdigits2 (Zpos m) + Zpos p).
    { rewrite iter_xO. apply Zdigits2_shift; lia. }
    pose proof (round_exact_post s (Zpos (Pos.iter xO m p)) F ltac:(lia) ltac:(lia)) as H.
    apply round_post_bracket in H; rewrite Z.div_1_r in *; [| lia].
    rewrite Hd in H. replace (Zdigits2 (Zpos m) + Zpos p + F) with (Zdigits2 (Zpos m) + e) in H by lia.
    exact H.
Qed.

Lemma binary_normalize_bracket (z e : Z) :
  z <> 0 ->
  bracket (z <? 0) (Zdigits2 z + e) (Zdigits2 z + e) (binary_normalize 24 128 z e false).
Proof.
  intros Hz. destruct z as [| p | p]; [contradiction | |]; apply binary_round_bracket.
Qed.

(** [static_cast<float>] of a positive integer. *)
Lemma of_Z_bracket (z : Z) :
  0 < z -> bracket false (Zdigits2 z) (Zdigits2 z) (F32.of_Z z).
Proof.
  intros Hz. unfold F32.of_Z.
  pose proof (binary_normalize_bracket z 0 ltac:(lia)) as H.
  rewrite Z.add_0_r in H. replace (z <? 0) with false in H; [exact H |].
  symmetry. apply Z.ltb_ge. lia.
Qed.

Lemma rep_new_location (N d : Z) :
  0 < d -> 0 <= N -> rep N d (shr_record_of_loc (N / d) (new_location d (N mod d))).
Proof.
  intros Hd HN. pose proof (Z.mod_pos_bound N d Hd) as Hr.
  assert (Hshape : forall l, shr_m (shr_record_of_loc (N / d) l) = N / d)
    by (intros [| [| |]]; reflexivity).
  unfold rep. rewrite Hshape. repeat split; try assumption.
  - unfold new_location, new_location_even, new_location_odd.
    destruct (Z.even d) eqn:Ev; destruct (Z.eqb_spec (N mod d) 0) as [E0 | E0].
    + rewrite E0. cbn [shr_record_of_loc shr_r shr_s]. symmetry. apply Z.leb_gt. lia.
    + destruct (Z.compare_spec (2 * (N mod d)) d); cbn [shr_record_of_loc shr_r shr_s]; symmetry;
        first [apply Z.leb_le; lia | apply Z.leb_gt; lia].
    + rewrite E0. cbn [shr_record_of_loc shr_r shr_s]. symmetry. apply Z.leb_gt. lia.
    + destruct (Z.compare_spec (2 * (N mod d) + 1) d); cbn [shr_record_of_loc shr_r shr_s]; symmetry;
        first [apply Z.leb_le; lia | apply Z.leb_gt; lia].
  - unfold new_location, new_location_even, new_location_odd.
    destruct (Z.even d) eqn:Ev; destruct (Z.eqb_spec (N mod d) 0) as [E0 | E0].
    + rewrite E0. reflexivity.
    + destruct (Z.compare_spec (2 * (N mod d)) d) as [E | E | E]; cbn [shr_record_of_loc shr_r shr_s negb andb];
        destruct (Z.eqb_spec (2 * (N mod d)) d); try reflexivity; lia.
    + rewrite E0. reflexivity.
    + assert (Hodd : 2 * (N mod d) <> d).
      { intros E. rewrite <- E in Ev. rewrite Z.even_mul in Ev. discriminate. }
      destruct (Z.compare_spec (2 * (N mod d) + 1) d) as [E | E | E]; cbn [shr_record_of_loc shr_r shr_s negb andb];
        destruct (Z.eqb_spec (2 * (N mod d)) d); try reflexivity; lia.
Qed.

Lemma div_eq (sx : bool) (mx : positive) (ex : Z) (sy : bool) (my : positive) (ey : Z) :
  let e' := div_exp mx ex my ey in
  let N := Zpos mx * 2 ^ (ex - ey - e') in
  F32.div (S754_finite sx mx ex) (S754_finite sy my ey) =
    binary_round_aux 24 128 (xorb sx sy) (N / Zpos my) e'
      (new_location (Zpos my) (N mod Zpos my)).
Proof.
  intros e' N. unfold F32.div, SFdiv, SFdiv_core_binary. rewrite fexp32.
  change (Z.min (Z.max (Zdigits2 (Zpos mx) + ex - (Zdigits2 (Zpos my) + ey) - 24) (-149))
            (ex - ey)) with e'.
  assert (Hs : 0 <= ex - ey - e') by (unfold e', div_exp; lia).
  assert (Hm : match ex - ey - e' with
               | 0 => Zpos mx
               | Zpos _ => Z.shiftl (Zpos mx) (ex - ey - e')
               | Zneg _ => 0
               end = N).
  { unfold N. destruct (ex - ey - e') as [| p | p] eqn:E; [cbn; lia | | lia].
    rewrite Z.shiftl_mul_pow2 by lia. reflexivity. }
  rewrite Hm. unfold Z.div, Z.modulo.
  destruct (Z.div_eucl N (Zpos my)) as [q r]. reflexivity.
Qed.

Lemma div_post (sx : bool) (mx : positive) (ex : Z) (sy : bool) (my : positive) (ey : Z) :
  bounded 24 128 mx ex = true -> bounded 24 128 my ey = true ->
  let e' := div_exp mx ex my ey in
  round_post (xorb sx sy) (Zpos mx * 2 ^ (ex - ey - e')) (Zpos my) e'
    (F32.div (S754_finite sx mx ex) (S754_finite sy my ey)).
Proof.
  intros Hx Hy e'. rewrite div_eq. fold e'.
  set (N := Zpos mx * 2 ^ (ex - ey - e')).
  assert (Hs : 0 <= ex - ey - e') by (unfold e', div_exp; lia).
  assert (HP : 0 < 2 ^ (ex - ey - e')) by (apply Z.pow_pos_nonneg; lia).
  assert (HN : 0 < N) by (unfold N; nia).
  pose proof (rep_new_location N (Zpos my) ltac:(lia) ltac:(lia)) as Hrep.
  pose proof (loc_of_record_of (N / Zpos my) (new_location (Zpos my) (N mod Zpos my)))
    as [Hl Hm].
  rewrite <- Hl. rewrite <- Hm at 1.
  apply round_aux_post; [exact Hrep |].
  (* the quotient has enough digits for its exponent *)
  apply bounded_facts in Hx, Hy.
  set (dx := Zdigits2 (Zpos mx)) in *. set (dy := Zdigits2 (Zpos my)) in *.
  assert (He' : e' <= Z.max (dx + ex - (dy + ey) - 24) (-149)) by (unfold e', div_exp; fold dx dy; lia).
  destruct (Z_lt_le_dec 0 (dx + (ex - ey - e') - dy)) as [Ht | Ht]; [| lia].
  assert (Hq : dx + (ex - ey - e') - dy <= Zdigits2 (N / Zpos my)).
  { pose proof (Zdigits2_bounds (Zpos mx) ltac:(lia)) as [Hmx _].
    pose proof (Zdigits2_bounds (Zpos my) ltac:(lia)) as [_ Hmy].
    fold dx in Hmx. fold dy in Hmy.
    assert (Hge : 2 ^ (dx + (ex - ey - e') - dy - 1) <= N / Zpos my).
    { apply Z.div_le_lower_bound; [lia |].
      assert (Hsplit : 2 ^ (dx - 1) * 2 ^ (ex - ey - e')
                       = 2 ^ dy * 2 ^ (dx + (ex - ey - e') - dy - 1)).
      { rewrite <- !Z.pow_add_r by lia. f_equal. lia. }
      assert (0 < 2 ^ (dx + (ex - ey - e') - dy - 1)) by (apply Z.pow_pos_nonneg; lia).
      unfold N. nia. }
    apply Zdigits2_lower; [exact Hge |].
    assert (0 < 2 ^ (dx + (ex - ey - e') - dy - 1)) by (apply Z.pow_pos_nonneg; lia). lia. }
  lia.
Qed.

(** The quotient of two finite numbers: never NaN, and below
    [2 ^ (1 + exponent of x - exponent of y)] before rounding. *)
Lemma div_bracket (sx : bool) (mx : positive) (ex : Z) (sy : bool) (my : positive) (ey : Z) :
  bounded 24 128 mx ex = true -> bounded 24 128 my ey = true ->
  bracket (xorb sx sy) (-500)
    (Z.max (Zdigits2 (Zpos mx) + ex - (Zdigits2 (Zpos my) + ey) + 1) (-149))
    (F32.div (S754_finite sx mx ex) (S754_finite sy my ey)).
Proof.
  intros Hx Hy. pose proof (div_post sx mx ex sy my ey Hx Hy) as H. cbv zeta in H.
  set (e' := div_exp mx ex my ey) in *.
  set (N := Zpos mx * 2 ^ (ex - ey - e')) in *.
  set (F := F32.div (S754_finite sx mx ex) (S754_finite sy my ey)) in *. clearbody F.
  apply bounded_facts in Hx, Hy.
  set (dx := Zdigits2 (Zpos mx)) in *. set (dy := Zdigits2 (Zpos my)) in *.
  assert (He'1 : e' <= ex - ey) by (unfold e', div_exp; lia).
  assert (He'2 : e' <= Z.max (dx + ex - (dy + ey) - 24) (-149))
    by (unfold e', div_exp; fold dx dy; lia).
  assert (He'3 : -253 <= e') by (unfold e', div_exp; lia).
  assert (HP : 0 < 2 ^ (ex - ey - e')) by (apply Z.pow_pos_nonneg; lia).
  assert (HN : 0 < N) by (unfold N; nia).
  pose proof (Zdigits2_bounds (Zpos mx) ltac:(lia)) as [Hmx1 Hmx2].
  pose proof (Zdigits2_bounds (Zpos my) ltac:(lia)) as [Hmy1 Hmy2].
  fold dx in Hmx1, Hmx2. fold dy in Hmy1, Hmy2.
  assert (HNhi : N < 2 ^ (dx + (ex - ey - e'))) by (rewrite Z.pow_add_r by lia; unfold N; nia).
  assert (HQ : Zpos my * (N / Zpos my) <= N) by (apply Z.mul_div_le; lia).
  assert (Hqnn : 0 <= N / Zpos my) by (apply Z.div_pos; lia).
  assert (Hy1 : 0 < 2 ^ (dy - 1)) by (apply Z.pow_pos_nonneg; lia).
  destruct (Z.eq_dec (N / Zpos my) 0) as [Hq0 | Hq0].
  - (* the quotient is below the smallest subnormal number *)
    assert (Hsmall : dx + (ex - ey - e') <= dy).
    { destruct (Z_lt_le_dec dy (dx + (ex - ey - e'))) as [Hlt | Hle]; [| exact Hle].
      exfalso.
      assert (2 ^ dy <= 2 ^ (dx + (ex - ey - e') - 1)) by (apply Z.pow_le_mono_r; lia).
      assert (2 ^ (dx + (ex - ey - e') - 1) <= N).
      { replace (dx + (ex - ey - e') - 1) with (dx - 1 + (ex - ey - e')) by lia.
        rewrite Z.pow_add_r by lia. unfold N. nia. }
      assert (N < Zpos my) by (apply Z.div_small_iff in Hq0; lia). lia. }
    assert (He'4 : e' <= -149) by lia.
    assert (HNlt : N < Zpos my) by (apply Z.div_small_iff in Hq0; lia).
    unfold round_post in H. rewrite Hq0 in H. change (Zdigits2 0) with 0 in H.
    replace (Z.max (0 + e' - 24) (-149)) with (-149) in H by lia.
    assert (HP2 : 0 < 2 ^ (-149 - e')) by (apply Z.pow_pos_nonneg; lia).
    destruct F as [s' | s' | | s' m e]; cbn [bracket].
    + destruct H as (Hs & _). split; [exact Hs | lia].
    + destruct H as (_ & Hbad & _). lia.
    + exact H.
    + destruct H as (Hs & Hb & He & Hc & Hv & _).
      split; [exact Hs |]. split; [exact Hb |].
      assert (Hee : e = -149).
      { destruct (Z.eq_dec e (-149)) as [E | E]; [exact E |].
        assert (E1 : e = -149 + 1) by lia. specialize (Hc E1).
        rewrite E1, Hc in Hv. replace (-149 + 1 - -149) with 1 in Hv by lia.
        change (2 ^ 23 * 2 ^ 1) with 16777216 in Hv. nia. }
      rewrite Hee in Hv. rewrite Z.sub_diag, Z.pow_0_r, Z.mul_1_r in Hv.
      assert (Hm1 : Zpos m = 1) by nia.
      rewrite Hm1, Hee. change (Zdigits2 1) with 1. lia.
  - pose proof (round_post_bracket _ _ _ _ _ H ltac:(lia)) as B.
    eapply bracket_weaken; [exact B | |].
    + pose proof (Zdigits2_pos (N / Zpos my) ltac:(lia)). lia.
    + assert (Hup : Zdigits2 (N / Zpos my) <= dx + (ex - ey - e') - dy + 1).
      { destruct (Z_lt_le_dec (dx + (ex - ey - e') - dy + 1) 0) as [Hneg | Hnn].
        - exfalso.
          assert (2 ^ (dx + (ex - ey - e')) <= 2 ^ (dy - 1)) by (apply Z.pow_le_mono_r; lia).
          nia.
        - apply Zdigits2_upper; [exact Hnn |]. split; [exact Hqnn |].
          assert (Hsplit : 2 ^ (dx + (ex - ey - e'))
                           = 2 ^ (dy - 1) * 2 ^ (dx + (ex - ey - e') - dy + 1)).
          { rewrite <- Z.pow_add_r by lia. f_equal. lia. }
          assert (0 < 2 ^ (dx + (ex - ey - e') - dy + 1)) by (apply Z.pow_pos_nonneg; lia).
          nia. }
      lia.
Qed.

(** The sum of two finite numbers of the same sign. *)
Lemma add_same_sign_bracket (s : bool) (mx : positive) (ex : Z) (my : positive) (ey : Z) :
  let D := Z.max (Zdigits2 (Zpos mx) + ex) (Zdigits2 (Zpos my) + ey) in
  bracket s D (D + 1) (F32.add (S754_finite s mx ex) (S754_finite s my ey)).
Proof.
  intros D. unfold F32.add, SFadd.
  rewrite !shl_align_fst by lia.
  set (ez := Z.min ex ey).
  set (X := Zpos mx * 2 ^ (ex - ez)). set (Y := Zpos my * 2 ^ (ey - ez)).
  assert (HX : 0 < X) by (unfold X; assert (0 < 2 ^ (ex - ez)) by (apply Z.pow_pos_nonneg; lia); nia).
  assert (HY : 0 < Y) by (unfold Y; assert (0 < 2 ^ (ey - ez)) by (apply Z.pow_pos_nonneg; lia); nia).
  assert (HdX : Zdigits2 X + ez = Zdigits2 (Zpos mx) + ex)
    by (unfold X; rewrite Zdigits2_shift by lia; lia).
  assert (HdY : Zdigits2 Y + ez = Zdigits2 (Zpos my) + ey)
    by (unfold Y; rewrite Zdigits2_shift by lia; lia).
  pose proof (Zdigits2_add X Y ltac:(lia) ltac:(lia)) as Hup.
  pose proof (Zdigits2_le X (X + Y) ltac:(lia)) as Hl1.
  pose proof (Zdigits2_le Y (X + Y) ltac:(lia)) as Hl2.
  destruct s; cbn [cond_Zopp].
  - replace (- X + - Y) with (- (X + Y)) by lia.
    pose proof (binary_normalize_bracket (- (X + Y)) ez ltac:(lia)) as B.
    replace (- (X + Y) <? 0) with true in B by (symmetry; apply Z.ltb_lt; lia).
    replace (Zdigits2 (- (X + Y))) with (Zdigits2 (X + Y)) in B
      by (destruct (X + Y); reflexivity).
    eapply bracket_weaken; [exact B | |]; lia.
  - pose proof (binary_normalize_bracket (X + Y) ez ltac:(lia)) as B.
    replace (X + Y <? 0) with false in B by (symmetry; apply Z.ltb_ge; lia).
    eapply bracket_weaken; [exact B | |]; lia.
Qed.

Lemma mul_bracket (sx : bool) (mx : positive) (ex : Z) (sy : bool) (my : positive) (ey : Z) :
  bounded 24 128 mx ex = true -> bounded 24 128 my ey = true ->
  let D := Zdigits2 (Zpos mx) + ex + (Zdigits2 (Zpos my) + ey) in
  bracket (xorb sx sy) (D - 1) D (F32.mul (S754_finite sx mx ex) (S754_finite sy my ey)).
Proof.
  intros Hx Hy D. pose proof (mul_post sx mx ex sy my ey Hx Hy) as H.
  apply round_post_bracket in H; rewrite Z.div_1_r in *; [| lia].
  pose proof (Zdigits2_mul (Zpos mx) (Zpos my) ltac:(lia) ltac:(lia)).
  eapply bracket_weaken; [exact H | |]; unfold D; lia.
Qed.

(** ** Non-negative finite values below a power of two *)

Lemma nonneg_below_weaken (k k' : Z) (x : F32.float) :
  nonneg_below k x -> k <= k' -> nonneg_below k' x.
Proof.
  destruct x as [[|] | | | [|] m e]; cbn; try tauto. intros [Hb Hd] Hk. split; [exact Hb | lia].
Qed.

Lemma bracket_nonneg_below (lo hi k : Z) (F : F32.float) :
  bracket false lo hi F -> hi < 128 -> hi + 1 <= k -> nonneg_below k F.
Proof.
  destruct F as [s | s | | s m e]; cbn.
  - intros [-> _] _ _. exact I.
  - intros [_ H] Hhi _. lia.
  - tauto.
  - intros (-> & Hb & Hd) _ Hk. split; [exact Hb | lia].
Qed.

Lemma of_Z_nonneg_below (z : Z) : 0 <= z < 2 ^ 32 -> nonneg_below 33 (F32.of_Z z).
Proof.
  intros [Hlo Hhi]. destruct (Z.eq_dec z 0) as [-> | Hne]; [exact I |].
  pose proof (of_Z_bracket z ltac:(lia)) as B.
  pose proof (Zdigits2_upper z 32 ltac:(lia) ltac:(lia)).
  eapply bracket_nonneg_below; [exact B | lia | lia].
Qed.

(** The float of a base from 2 on is a finite number that is at least 2. *)
Lemma of_Z_base (base : Z) :
  2 <= base < 2 ^ 32 ->
  exists (m : positive) (e : Z),
    F32.of_Z base = S754_finite false m e /\ bounded 24 128 m e = true
    /\ 2 <= Zdigits2 (Zpos m) + e.
Proof.
  intros [Hlo Hhi]. pose proof (of_Z_bracket base ltac:(lia)) as B.
  pose proof (Zdigits2_upper base 32 ltac:(lia) ltac:(lia)) as Hup.
  pose proof (Zdigits2_lower base 2 ltac:(cbn; lia) ltac:(lia)) as Hlow.
  destruct (F32.of_Z base) as [s | s | | s m e]; cbn [bracket] in B.
  - lia.
  - lia.
  - contradiction.
  - destruct B as (-> & Hb & Hd). exists m, e. repeat split; [exact Hb | lia].
Qed.

Lemma div_nonneg_below (x : F32.float) (m : positive) (e : Z) :
  nonneg_below 1 x -> bounded 24 128 m e = true -> 2 <= Zdigits2 (Zpos m) + e ->
  nonneg_below 1 (F32.div x (S754_finite false m e)).
Proof.
  destruct x as [[|] | | | [|] mx ex]; cbn [nonneg_below]; try tauto;
    try (intros; exact I).
  intros [Hbx Hdx] Hb Hd.
  pose proof (div_bracket false mx ex false m e Hbx Hb) as B.
  eapply bracket_nonneg_below; [exact B | lia | lia].
Qed.

Lemma mul_nonneg_below (a b : Z) (x y : F32.float) :
  nonneg_below a x -> nonneg_below b y -> a + b < 128 ->
  nonneg_below (a + b + 1) (F32.mul x y).
Proof.
  destruct x as [[|] | | | [|] mx ex]; cbn [nonneg_below]; try tauto;
    destruct y as [[|] | | | [|] my ey]; cbn [nonneg_below]; try tauto;
    try (intros; exact I).
  intros [Hbx Hdx] [Hby Hdy] Hab.
  pose proof (mul_bracket false mx ex false my ey Hbx Hby) as B. cbv zeta in B.
  eapply bracket_nonneg_below; [exact B | lia | lia].
Qed.

Lemma add_nonneg_below (a : Z) (x y : F32.float) :
  nonneg_below a x -> nonneg_below a y -> a + 1 < 128 ->
  nonneg_below (a + 2) (F32.add x y).
Proof.
  destruct x as [[|] | | | [|] mx ex]; cbn [nonneg_below]; try tauto;
    destruct y as [[|] | | | [|] my ey]; cbn [nonneg_below]; try tauto;
    try (intros; exact I).
  - intros _ [Hb Hd] _. cbn [F32.add SFadd nonneg_below]. split; [exact Hb | lia].
  - intros [Hb Hd] _ _. cbn [F32.add SFadd nonneg_below]. split; [exact Hb | lia].
  - intros [Hbx Hdx] [Hby Hdy] Ha.
    pose proof (add_same_sign_bracket false mx ex my ey) as B. cbv zeta in B.
    eapply bracket_nonneg_below; [exact B | lia | lia].
Qed.

(** The loop keeps [fraction] at most 1 and [nextValue] finite and
    non-negative: each iteration adds a term below [2 ^ 35]. *)
(** ** [incrementalAvg] *)

Lemma of_Z_255 : F32.of_Z 255 = S754_finite false 16711680 (-16).
Proof. reflexivity. Qed.

Lemma to_uint32_nonneg (m : positive) (e t : Z) :
  match e with
  | Zneg p => Z.shiftr (Zpos m) (Zpos p)
  | _ => Z.shiftl (Zpos m) e
  end = t ->
  0 <= t < 256 ->
  F32.to_uint32 (S754_finite false m e) = Ok t.
Proof.
  intros Ht Hr. unfold F32.to_uint32. rewrite Ht.
  replace (t <? Int32.modulus) with true; [reflexivity |].
  symmetry. apply Z.ltb_lt. unfold Int32.modulus. lia.
Qed.

Lemma to_uint32_small (m : positive) (e : Z) :
  Zdigits2 (Zpos m) + e <= 8 ->
  exists v, F32.to_uint32 (S754_finite false m e) = Ok v /\ 0 <= v <= 255.
Proof.
  intros Hd. pose proof (Zdigits2_bounds (Zpos m) ltac:(lia)) as [_ Hm].
  pose proof (Zdigits2_pos (Zpos m) ltac:(lia)) as Hd1.
  assert (Ht : 0 <= match e with
                    | Zneg p => Z.shiftr (Zpos m) (Zpos p)
                    | _ => Z.shiftl (Zpos m) e
                    end < 256).
  { destruct e as [| p | p].
    - rewrite Z.shiftl_0_r.
      assert (2 ^ Zdigits2 (Zpos m) <= 2 ^ 8) by (apply Z.pow_le_mono_r; lia).
      change (2 ^ 8) with 256 in *. lia.
    - rewrite Z.shiftl_mul_pow2 by lia.
      assert (0 < 2 ^ Zpos p) by (apply Z.pow_pos_nonneg; lia).
      assert (2 ^ (Zdigits2 (Zpos m) + Zpos p) <= 2 ^ 8) by (apply Z.pow_le_mono_r; lia).
      rewrite Z.pow_add_r in * by lia. change (2 ^ 8) with 256 in *. nia.
    - rewrite Z.shiftr_div_pow2 by lia.
      assert (0 < 2 ^ Zpos p) by (apply Z.pow_pos_nonneg; lia).
      split; [apply Z.div_pos; lia |].
      apply Z.div_lt_upper_bound; [lia |].
      assert (2 ^ Zdigits2 (Zpos m) <= 2 ^ (8 + Zpos p)) by (apply Z.pow_le_mono_r; lia).
      rewrite Z.pow_add_r in * by lia. change (2 ^ 8) with 256 in *. lia. }
  eexists. split; [apply to_uint32_nonneg; [reflexivity | exact Ht] | lia].
Qed.

Lemma leb_finite_cases (m1 : positive) (e1 : Z) (m2 : positive) (e2 : Z) :
  F32.leb (S754_finite false m1 e1) (S754_finite false m2 e2) = true ->
  e1 < e2 \/ (e1 = e2 /\ Zpos m1 <= Zpos m2).
Proof.
  unfold F32.leb, SFleb, SFcompare. fold_pos_compare.
  destruct (Z.compare_spec e1 e2); [| left; lia | discriminate].
  destruct (Pos.compare_spec m1 m2); try discriminate; intros _; right; split; lia.
Qed.

(** A channel in [[0, 1]] scales to an integer in [[0, 255]]. *)
Lemma scale_channel_range (c : F32.float) :
  F32.valid c = true -> F32.leb F32.zero c = true -> F32.leb c F32.one = true ->
  exists v, scale_channel c = Ok v /\ 0 <= v <= 255.
Proof.
  unfold scale_channel. rewrite of_Z_255.
  destruct c as [s | s | | s m e].
  - intros _ _ _. exists 0. destruct s; split; try reflexivity; lia.
  - intros _ H0 H1. destruct s; [discriminate H0 | discriminate H1].
  - intros _ H0. discriminate H0.
  - destruct s; [intros _ H0; discriminate H0 |].
    cbn [F32.valid valid_binary]. intros Hb _ Hle.
    pose proof (leb_finite_cases m e 8388608 (-23) Hle) as Hcases.
    pose proof (bounded_facts m e Hb) as (Hd & He & Hn).
    destruct Hcases as [Hlt | [He23 Hm]].
    + pose proof (mul_post false m e false 16711680 (-16) Hb eq_refl) as H.
      pose proof (Zdigits2_mul (Zpos m) 16711680 ltac:(lia) ltac:(lia)) as Hdm.
      change (Zdigits2 16711680) with 24 in Hdm.
      pose proof (Zdigits2_bounds (Zpos m) ltac:(lia)) as [_ Hmhi].
      assert (Hm24 : Zpos m < 16777216).
      { assert (2 ^ Zdigits2 (Zpos m) <= 2 ^ 24) by (apply Z.pow_le_mono_r; lia).
        change (2 ^ 24) with 16777216 in *. lia. }
      unfold round_post in H. rewrite Z.div_1_r in H. cbn [xorb] in H.
      set (D0 := Zdigits2 (Zpos m * 16711680)) in *.
      destruct (F32.mul (S754_finite false m e) (S754_finite false 16711680 (-16)))
        as [s' | s' | | s' m' e'].
      * exists 0. split; [reflexivity | lia].
      * destruct H as (_ & H & _). lia.
      * contradiction.
      * destruct H as (-> & Hb' & He' & Hc & Hv & Hdig).
        specialize (Hdig ltac:(lia)).
        apply to_uint32_small.
        destruct (Z_le_gt_dec (Zdigits2 (Zpos m') + e') 8) as [Hok | Hbad]; [exact Hok |].
        exfalso.
        (* only a carry from a 48-digit product could reach 2 ^ 8 *)
        assert (HD0 : D0 = 48) by lia. assert (Hee : e = -24) by lia.
        pose proof (bounded_facts m' e' Hb') as (Hd' & _ & Hn').
        assert (He'' : e' = -15) by lia.
        rewrite HD0, Hee in *.
        replace (Z.max (48 + (-24 + -16) - 24) (-149)) with (-16) in * by lia.
        specialize (Hc ltac:(lia)). rewrite Hc, He'' in Hv.
        replace (-16 - (-24 + -16)) with 24 in Hv by lia.
        replace (-15 - -16) with 1 in Hv by lia.
        change (2 ^ 24) with 16777216 in Hv. change (2 ^ 23 * 2 ^ 1) with 16777216 in Hv.
        lia.
    + assert (Hm' : Zpos m = 8388608).
      { destruct Hn as [Hn | Hn]; [| lia].
        pose proof (Zdigits2_bounds (Zpos m) ltac:(lia)) as [Hlo _].
        rewrite Hn in Hlo. change (2 ^ (24 - 1)) with 8388608 in Hlo. lia. }
      clear - Hm' He23. injection Hm' as ->. subst e.
      exists 255. split; [reflexivity | split; discriminate].
Qed.

(** Packing: disjoint bit fields add up. *)
Lemma lor_shifted (hi lo k : Z) :
  0 <= k -> 0 <= lo < 2 ^ k -> Z.lor (hi * 2 ^ k) lo = hi * 2 ^ k + lo.
Proof.
  intros Hk Hlo.
  assert (Hdisj : Z.land (hi * 2 ^ k) lo = 0).
  { apply Z.bits_inj'. intros n Hn. rewrite Z.land_spec, Z.bits_0.
    destruct (Z_lt_le_dec n k) as [Hlt | Hge].
    - rewrite Z.mul_pow2_bits_low by exact Hlt. reflexivity.
    - destruct (Z.eq_dec lo 0) as [-> | Hne]; [rewrite Z.bits_0; apply andb_false_r |].
      rewrite (Z.bits_above_log2 lo n); [apply andb_false_r | lia |].
      apply Z.lt_le_trans with k; [| exact Hge].
      apply Z.log2_lt_pow2; lia. }
  rewrite <- (Z.lxor_lor _ _ Hdisj). symmetry. apply Z.add_nocarry_lxor. exact Hdisj.
Qed.

Lemma pack_lor (r g b : Z) :
  0 <= r <= 255 -> 0 <= g <= 255 -> 0 <= b <= 255 ->
  Z.lor (Z.lor (Z.lor 4278190080 (Z.shiftl b 16)) (Z.shiftl g 8)) r = pack r g b.
Proof.
  intros Hr Hg Hb. unfold pack. rewrite !Z.shiftl_mul_pow2 by lia.
  change (2 ^ 16) with 65536. change (2 ^ 8) with 256.
  replace (Z.lor 4278190080 (b * 65536)) with (4278190080 + b * 65536).
  2:{ pose proof (lor_shifted 255 (b * 65536) 24 ltac:(lia)) as H.
      change (2 ^ 24) with 16777216 in H. change (255 * 16777216) with 4278190080 in H.
      symmetry. apply H. lia. }
  replace (Z.lor (4278190080 + b * 65536) (g * 256))
    with (4278190080 + b * 65536 + g * 256).
  2:{ pose proof (lor_shifted (65280 + b) (g * 256) 16 ltac:(lia)) as H.
      change (2 ^ 16) with 65536 in H.
      replace ((65280 + b) * 65536) with (4278190080 + b * 65536) in H by lia.
      symmetry. apply H. lia. }
  pose proof (lor_shifted (16711680 + b * 256 + g) r 8 ltac:(lia)) as H.
  change (2 ^ 8) with 256 in H.
  replace ((16711680 + b * 256 + g) * 256) with (4278190080 + b * 65536 + g * 256) in H by lia.
  apply H. lia.
Qed.

Lemma unpack (r g b : Z) :
  0 <= r <= 255 -> 0 <= g <= 255 -> 0 <= b <= 255 ->
  let packed := Int32.to_signed (pack r g b) in
  Int32.in_range packed
  /\ red_of packed = r /\ green_of packed = g /\ blue_of packed = b
  /\ alpha_of packed = 255.
Proof.
  intros Hr Hg Hb packed.
  assert (HP : 4278190080 <= pack r g b < 4294967296) by (unfold pack; lia).
  assert (Hs : packed = pack r g b - 4294967296).
  { unfold packed, Int32.to_signed, Int32.modulus, Int32.max_signed.
    change (2 ^ 32) with 4294967296. change (2 ^ 31 - 1) with 2147483647.
    rewrite Z.mod_small by lia.
    destruct (Z.leb_spec (pack r g b) 2147483647); lia. }
  assert (Hu : Int32.to_unsigned packed = pack r g b).
  { rewrite Hs. unfold Int32.to_unsigned, Int32.modulus. change (2 ^ 32) with 4294967296.
    replace (pack r g b - 4294967296) with (pack r g b + (-1) * 4294967296) by lia.
    rewrite Z.mod_add by lia. apply Z.mod_small. lia. }
  split.
  { rewrite Hs. unfold Int32.in_range, Int32.min_signed, Int32.max_signed. lia. }
  unfold red_of, green_of, blue_of, alpha_of. rewrite Hu.
  change 255 with (Z.ones 8) at 1 2 3 4.
  rewrite !Z.land_ones, !Z.shiftr_div_pow2 by lia.
  change (2 ^ 8) with 256. change (2 ^ 16) with 65536. change (2 ^ 24) with 16777216.
  unfold pack. repeat split.
  - symmetry. apply Z.mod_unique with (16711680 + b * 256 + g); lia.
  - replace ((4278190080 + b * 65536 + g * 256 + r) / 256) with (16711680 + b * 256 + g)
      by (apply Z.div_unique with r; lia).
    symmetry. apply Z.mod_unique with (65280 + b); lia.
  - replace ((4278190080 + b * 65536 + g * 256 + r) / 65536) with (65280 + b)
      by (apply Z.div_unique with (g * 256 + r); lia).
    symmetry. apply Z.mod_unique with 255; lia.
  - replace ((4278190080 + b * 65536 + g * 256 + r) / 16777216) with 255
      by (apply Z.div_unique with (b * 65536 + g * 256 + r); lia).
    reflexivity.
Qed.

Lemma channel_exact (n old scaled : Z) :
  1 <= n <= 16843009 -> 0 <= old <= 255 -> 0 <= scaled <= 255 ->
  Int32.udiv (U32.add (U32.mul (U32.sub n 1) old) scaled) n
    = Ok (((n - 1) * old + scaled) / n)
  /\ 0 <= ((n - 1) * old + scaled) / n.
Proof.
  intros Hn Ho Hs. unfold U32.add, U32.mul, U32.sub, Int32.to_unsigned, Int32.modulus.
  change (2 ^ 32) with 4294967296.
  rewrite (Z.mod_small (n - 1)) by lia.
  rewrite (Z.mod_small ((n - 1) * old)) by nia.
  rewrite (Z.mod_small ((n - 1) * old + scaled)) by nia.
  unfold Int32.udiv. destruct (Z.eqb_spec n 0); [lia |].
  split; [reflexivity | apply Z.div_pos; nia].
Qed.

Lemma channel_bits (avgUnsigned k : Z) : 0 <= k -> 0 <= Z.land (Z.shiftr avgUnsigned k) 255 <= 255.
Proof.
  intros Hk. change 255 with (Z.ones 8) at 1 2. rewrite Z.land_ones by lia.
  pose proof (Z.mod_pos_bound (Z.shiftr avgUnsigned k) (2 ^ 8) ltac:(cbn; lia)).
  change (2 ^ 8) with 256 in *. lia.
Qed.

(** C3 (amended): for a sample with channels in [[0, 1]], any previous packed
    colour and a sample count from 1 to 16843009 (while
    [(numSample - 1) * 255 + 255] fits in 32 bits), each channel of the result
    is [((numSample - 1) * old + scaled) / numSample] with the truncating
    division of the integers, capped at 255, and the alpha byte is [0xFF]; at
    [numSample = 1] each channel is the scaled sample, whatever the previous
    colour. *)
Theorem incrementalAvg_spec (sample : vec3) (avg numSample : Z) :
  unit_channel (vx sample) -> unit_channel (vy sample) -> unit_channel (vz sample) ->
  1 <= numSample <= 16843009 ->
  exists sr sg sb packed : Z,
    scale_channel (vx sample) = Ok sr /\ scale_channel (vy sample) = Ok sg
    /\ scale_channel (vz sample) = Ok sb
    /\ 0 <= sr <= 255 /\ 0 <= sg <= 255 /\ 0 <= sb <= 255
    /\ incrementalAvg sample avg numSample = Ok packed
    /\ Int32.in_range packed
    /\ red_of packed = avg_channel numSample (red_of avg) sr
    /\ green_of packed = avg_channel numSample (green_of avg) sg
    /\ blue_of packed = avg_channel numSample (blue_of avg) sb
    /\ alpha_of packed = 255
    /\ (numSample = 1 ->
        red_of packed = sr /\ green_of packed = sg /\ blue_of packed = sb).
Proof.
  intros (Hvx & Hx0 & Hx1) (Hvy & Hy0 & Hy1) (Hvz & Hz0 & Hz1) Hn.
  destruct (scale_channel_range _ Hvx Hx0 Hx1) as (sr & Hsr & Hr).
  destruct (scale_channel_range _ Hvy Hy0 Hy1) as (sg & Hsg & Hg).
  destruct (scale_channel_range _ Hvz Hz0 Hz1) as (sb & Hsb & Hb).
  pose proof (channel_bits (Int32.to_unsigned avg) 0 ltac:(lia)) as Hlr.
  rewrite Z.shiftr_0_r in Hlr. fold (red_of avg) in Hlr.
  pose proof (channel_bits (Int32.to_unsigned avg) 8 ltac:(lia)) as Hlg.
  fold (green_of avg) in Hlg.
  pose proof (channel_bits (Int32.to_unsigned avg) 16 ltac:(lia)) as Hlb.
  fold (blue_of avg) in Hlb.
  destruct (channel_exact numSample (red_of avg) sr Hn Hlr Hr) as [Er Er0].
  destruct (channel_exact numSample (green_of avg) sg Hn Hlg Hg) as [Eg Eg0].
  destruct (channel_exact numSample (blue_of avg) sb Hn Hlb Hb) as [Eb Eb0].
  assert (Hnu : Int32.to_unsigned numSample = numSample).
  { unfold Int32.to_unsigned, Int32.modulus. change (2 ^ 32) with 4294967296.
    apply Z.mod_small. lia. }
  set (cr := avg_channel numSample (red_of avg) sr).
  set (cg := avg_channel numSample (green_of avg) sg).
  set (cb := avg_channel numSample (blue_of avg) sb).
  assert (Hcr : 0 <= cr <= 255) by (unfold cr, avg_channel; lia).
  assert (Hcg : 0 <= cg <= 255) by (unfold cg, avg_channel; lia).
  assert (Hcb : 0 <= cb <= 255) by (unfold cb, avg_channel; lia).
  assert (Hrun : incrementalAvg sample avg numSample = Ok (Int32.to_signed (pack cr cg cb))).
  { unfold incrementalAvg. rewrite Hsr, Hsg, Hsb. cbn [obind]. rewrite Hnu.
    fold (red_of avg) (green_of avg) (blue_of avg).
    rewrite Er, Eg, Eb. cbn [obind].
    rewrite !(Z.min_comm _ 255). fold (avg_channel numSample (red_of avg) sr).
    fold (avg_channel numSample (green_of avg) sg).
    fold (avg_channel numSample (blue_of avg) sb). fold cr cg cb.
    rewrite pack_lor by assumption. reflexivity. }
  destruct (unpack cr cg cb Hcr Hcg Hcb) as (Hin & Ur & Ug & Ub & Ua).
  exists sr, sg, sb, (Int32.to_signed (pack cr cg cb)).
  repeat (split; [first [assumption | lia] |]).
  intros ->. rewrite Ur, Ug, Ub. unfold cr, cg, cb, avg_channel.
  rewrite !Z.sub_diag, !Z.mul_0_l, !Z.add_0_l, !Z.div_1_r. lia.
Qed.

Lemma incrementalAvg_spec_witness :
  exists packed : Z,
    incrementalAvg (Vec3 (F32.ratio 1 2) F32.one F32.zero) 12345 1 = Ok packed
    /\ red_of packed = 127 /\ green_of packed = 255 /\ blue_of packed = 0.
Proof.
  destruct (incrementalAvg_spec (Vec3 (F32.ratio 1 2) F32.one F32.zero) 12345 1)
    as (sr & sg & sb & packed & Hr & Hg & Hb & _ & _ & _ & Hrun & _ & _ & _ & _ & _ & H1);
    try (repeat split; reflexivity); try lia.
  exists packed. destruct (H1 eq_refl) as (Er & Eg & Eb).
  vm_compute in Hr, Hg, Hb. injection Hr as <-. injection Hg as <-. injection Hb as <-.
  repeat split; assumption.
Defined.

(** C3, as stated for every sample count, fails once the 32-bit product
    wraps: a white pixel averaged with a white sample at count 16843010 turns
    black, where the formula gives 255 for each channel. *)
Lemma incrementalAvg_wraps :
  unit_channel F32.one
  /\ scale_channel F32.one = Ok 255
  /\ incrementalAvg (Vec3 F32.one F32.one F32.one) (-1) 16843010 = Ok (-16777216)
  /\ red_of (-1) = 255 /\ red_of (-16777216) = 0
  /\ avg_channel 16843010 255 255 = 255.
Proof. repeat split; vm_compute; reflexivity. Qed.

(** ** [haltonSequence]: the range of the result *)

(** C6, as stated, fails: index [2^25 - 1] in base 2 (twenty-five digits 1)
    sums to exactly [1.0F], and index [13^8 - 1] in base 13 to the next number
    above [1.0F]. *)
Lemma haltonSequence_reaches_one :
  haltonSequence 33554431 2 = Some (Ok F32.one)
  /\ F32.ltb F32.one F32.one = false
  /\ haltonSequence 815730720 13 = Some (Ok (S754_finite false 8388609 (-23)))
  /\ F32.ltb F32.one (S754_finite false 8388609 (-23)) = true.
Proof. repeat split; vm_compute; reflexivity. Qed.

(** ** [equal]: the tolerance *)

(** C7, as stated for every finite [x], fails where [2 * Epsilon] is below
    half the spacing of the numbers around [x]: with the tolerance [1.0e-6F],
    [64 + 2 * Epsilon] rounds back to 64 and [equal] answers true. *)
Lemma equal_absorbs_tolerance :
  F32.ltb F32.zero epsilon_1e6 = true
  /\ F32.is_finite (F32.of_Z 64) = true
  /\ F32.add (F32.of_Z 64) (F32.mul F32.two epsilon_1e6) = F32.of_Z 64
  /\ equal epsilon_1e6 (F32.of_Z 64)
       (F32.add (F32.of_Z 64) (F32.mul F32.two epsilon_1e6)) = true.
Proof. repeat split; vm_compute; reflexivity. Qed.

(** ** Results that are pinned down *)

(** A canonical number strictly closer than half a unit to the value being
    rounded is the result. *)
Lemma round_post_near (s : bool) (N d ex : Z) (F : spec_float) (m0 : positive) (e0 : Z) :
  0 < d -> 0 <= N ->
  round_post s N d ex F ->
  bounded 24 128 m0 e0 = true ->
  let E := Z.max (Zdigits2 (N / d) + ex - 24) (-149) in
  ex <= E -> E <= e0 ->
  Z.abs (2 * d * (Zpos m0 * 2 ^ (e0 - ex)) - 2 * N) < d * 2 ^ (E - ex) ->
  F = S754_finite s m0 e0.
Proof.
  intros Hd HN Hpost Hb0 E Hex HE0 Hnear. unfold round_post in Hpost. fold E in Hpost.
  pose proof (bounded_facts m0 e0 Hb0) as (Hd0 & He0 & Hn0).
  pose proof (bounded_elim m0 e0 Hb0) as [Hc0 _].
  set (P := 2 ^ (E - ex)) in *. set (Q := 2 ^ (e0 - E)).
  assert (HP : 0 < P) by (apply Z.pow_pos_nonneg; lia).
  assert (HQ : 0 < Q) by (apply Z.pow_pos_nonneg; lia).
  assert (HPQ : 2 ^ (e0 - ex) = P * Q).
  { unfold P, Q. rewrite <- Z.pow_add_r by lia. f_equal. lia. }
  rewrite HPQ in Hnear.
  pose proof (Zdigits2_bounds (Zpos m0) ltac:(lia)) as [_ Hm0hi].
  assert (Hm0lt : Zpos m0 < 2 ^ 24).
  { eapply Z.lt_le_trans; [exact Hm0hi | apply Z.pow_le_mono_r; lia]. }
  change (2 ^ 24) with 16777216 in Hm0lt.
  destruct F as [s' | s' | | s' m e].
  - exfalso. destruct Hpost as (_ & _ & Hz & _). nia.
  - exfalso. destruct Hpost as (_ & HE & Hbig).
    assert (E = 104) by lia. specialize (Hbig ltac:(lia)).
    assert (Q = 1) by (unfold Q; replace (e0 - E) with 0 by lia; reflexivity).
    change (2 ^ 25 - 1) with 33554431 in Hbig. nia.
  - contradiction.
  - destruct Hpost as (-> & Hb & He & Hc & Hv & _).
    pose proof (bounded_elim m e Hb) as [Hce _].
    set (R := 2 ^ (e - E)) in *.
    assert (HR : 0 < R) by (apply Z.pow_pos_nonneg; lia).
    assert (Hsame : Zpos m * R = Zpos m0 * Q) by nia.
    assert (Hdig : Zdigits2 (Zpos m) + (e - E) = Zdigits2 (Zpos m0) + (e0 - E)).
    { rewrite <- !Zdigits2_shift by lia. fold R Q. rewrite Hsame. reflexivity. }
    assert (Hee : e = e0) by lia. subst e.
    assert (Hmm : Zpos m = Zpos m0) by (unfold R, Q in Hsame; nia).
    injection Hmm as ->. reflexivity.
Qed.

(** ** Signs *)

Lemma binary_round_aux_opp (s : bool) (m e : Z) (l : location) :
  binary_round_aux 24 128 (negb s) m e l = SFopp (binary_round_aux 24 128 s m e l).
Proof.
  unfold binary_round_aux.
  destruct (shr_fexp 24 128 m e l) as [mrs' e'].
  destruct (shr_fexp 24 128 _ e' loc_Exact) as [mrs'' e''].
  destruct (shr_m mrs''); try reflexivity.
  destruct (Z.leb e'' (128 - 24)); reflexivity.
Qed.

Lemma binary_round_opp (s : bool) (m : positive) (e : Z) :
  binary_round 24 128 (negb s) m e = SFopp (binary_round 24 128 s m e).
Proof.
  unfold binary_round. destruct (shl_align m e _) as [mz ez].
  apply binary_round_aux_opp.
Qed.

Lemma div_opp_l (x y : F32.float) : F32.div (F32.opp x) y = F32.opp (F32.div x y).
Proof.
  unfold F32.div, F32.opp.
  destruct x as [sx | sx | | sx mx ex], y as [sy | sy | | sy my ey]; cbn [SFdiv SFopp];
    first [ destruct (SFdiv_core_binary _ _ _ _ _ _) as [[mz ez] lz];
            rewrite <- negb_xorb_l; apply binary_round_aux_opp
          | rewrite <- negb_xorb_l; reflexivity
          | reflexivity ].
Qed.

Lemma mul_opp_opp (x : F32.float) : F32.mul (F32.opp x) (F32.opp x) = F32.mul x x.
Proof.
  unfold F32.mul, F32.opp.
  destruct x as [s | s | | s m e]; cbn [SFmul SFopp]; try reflexivity;
    destruct s; reflexivity.
Qed.

Lemma add_comm (x y : F32.float) : F32.add x y = F32.add y x.
Proof.
  unfold F32.add.
  destruct x as [sx | sx | | sx mx ex], y as [sy | sy | | sy my ey];
    cbn [SFadd]; try reflexivity;
    try (destruct sx, sy; reflexivity).
  rewrite (Z.min_comm ey ex), Z.add_comm. reflexivity.
Qed.

(** Exchanging the operands of a subtraction of finite numbers negates the
    result, unless it is zero. *)
Lemma sub_swap (sx : bool) (mx : positive) (ex : Z) (sy : bool) (my : positive) (ey : Z) :
  let x := S754_finite sx mx ex in
  let y := S754_finite sy my ey in
  F32.sub y x = F32.opp (F32.sub x y)
  \/ (F32.sub x y = S754_zero false /\ F32.sub y x = S754_zero false).
Proof.
  intros x y. unfold F32.sub, F32.opp, x, y. cbn [SFsub].
  rewrite (Z.min_comm ey ex).
  set (X := cond_Zopp sx (Zpos (fst (shl_align mx ex (Z.min ex ey))))).
  set (Y := cond_Zopp sy (Zpos (fst (shl_align my ey (Z.min ex ey))))).
  replace (Y - X) with (- (X - Y)) by lia.
  destruct (X - Y) as [| p | p]; cbn [Z.opp binary_normalize].
  - right. split; reflexivity.
  - left. apply (binary_round_opp false).
  - left. apply (binary_round_opp true).
Qed.

Lemma binary_round_post (s : bool) (m : positive) (e : Z) :
  let ez := Z.min e (Z.max (Zdigits2 (Zpos m) + e - 24) (-149)) in
  round_post s (Zpos m * 2 ^ (e - ez)) 1 ez (binary_round 24 128 s m e).
Proof.
  intros ez. unfold binary_round, shl_align. rewrite fexp32.
  change (Zpos (digits2_pos m)) with (Zdigits2 (Zpos m)).
  set (F := Z.max (Zdigits2 (Zpos m) + e - 24) (-149)) in *.
  assert (HF : F = Z.max (Zdigits2 (Zpos m) + e - 24) (-149)) by reflexivity.
  clearbody F.
  destruct (F - e) as [| p | p] eqn:E.
  - replace ez with e by (unfold ez; lia). rewrite Z.sub_diag, Z.pow_0_r, Z.mul_1_r.
    apply round_exact_post; lia.
  - replace ez with e by (unfold ez; lia). rewrite Z.sub_diag, Z.pow_0_r, Z.mul_1_r.
    apply round_exact_post; lia.
  - replace ez with F by (unfold ez; lia). replace (e - F) with (Zpos p) by lia.
    rewrite <- iter_xO.
    apply round_exact_post; [lia |].
    rewrite iter_xO, Zdigits2_shift by lia. lia.
Qed.

(** Multiplying by [1.0F] changes nothing. *)
Lemma mul_one_r (s : bool) (m : positive) (e : Z) :
  bounded 24 128 m e = true ->
  F32.mul (S754_finite s m e) F32.one = S754_finite s m e.
Proof.
  intros Hb. pose proof (mul_post s m e false 8388608 (-23) Hb eq_refl) as H.
  rewrite xorb_false_r in H. change F32.one with (S754_finite false 8388608 (-23)).
  pose proof (bounded_elim m e Hb) as [Hc _].
  assert (Hdig : Zdigits2 (Zpos m * Zpos 8388608 / 1) = Zdigits2 (Zpos m) + 23).
  { rewrite Z.div_1_r. change (Zpos 8388608) with (2 ^ 23). apply Zdigits2_shift; lia. }
  eapply round_post_near; [ | | exact H | exact Hb | | | ]; cbv zeta; rewrite ?Hdig.
  - lia.
  - lia.
  - lia.
  - lia.
  - replace (e - (e + -23)) with 23 by lia. change (2 ^ 23) with (Zpos 8388608).
    replace (2 * 1 * (Zpos m * Zpos 8388608) - 2 * (Zpos m * Zpos 8388608)) with 0 by lia.
    apply Z.mul_pos_pos; [lia | apply Z.pow_pos_nonneg; lia].
Qed.

(** A number divided by itself is [1.0F]. *)
Lemma div_self (s : bool) (m : positive) (e : Z) :
  bounded 24 128 m e = true ->
  F32.div (S754_finite s m e) (S754_finite s m e) = F32.one.
Proof.
  intros Hb. pose proof (div_post s m e s m e Hb Hb) as H. cbv zeta in H.
  rewrite xorb_nilpotent in H.
  assert (He' : div_exp m e m e = -24) by (unfold div_exp; lia).
  rewrite He' in H. replace (e - e - -24) with 24 in H by lia.
  assert (Hq : Zpos m * 2 ^ 24 / Zpos m = 2 ^ 24).
  { rewrite Z.mul_comm. apply Z.div_mul. lia. }
  change F32.one with (S754_finite false 8388608 (-23)).
  eapply round_post_near; [ | | exact H | reflexivity | | | ]; cbv zeta; rewrite ?Hq;
    change (Zdigits2 (2 ^ 24)) with 25.
  - lia.
  - lia.
  - lia.
  - lia.
  - replace (Z.max (25 + -24 - 24) (-149) - -24) with 1 by lia.
    replace (-23 - -24) with 1 by lia. change (2 ^ 24) with 16777216.
    change (2 ^ 1) with 2. lia.
Qed.

(** The sum of a number below [2 ^ 127] with itself is its double. *)
Lemma add_self (m : positive) (e : Z) :
  bounded 24 128 m e = true -> Zdigits2 (Zpos m) + e <= 127 ->
  exists (m2 : positive) (e2 : Z),
    F32.add (S754_finite false m e) (S754_finite false m e) = S754_finite false m2 e2
    /\ bounded 24 128 m2 e2 = true
    /\ Zpos m2 * 2 ^ (e2 - e) = 2 * Zpos m /\ e <= e2
    /\ Zdigits2 (Zpos m2) + e2 = Zdigits2 (Zpos m) + e + 1.
Proof.
  intros Hb Hd.
  pose proof (bounded_facts m e Hb) as (Hdm & He & Hn).
  pose proof (bounded_elim m e Hb) as [Hc _].
  unfold F32.add, SFadd. rewrite Z.min_id. rewrite !shl_align_fst by lia.
  rewrite Z.sub_diag, Z.pow_0_r, Z.mul_1_r. cbn [cond_Zopp].
  change (Zpos m + Zpos m) with (Zpos (m + m)). cbn [binary_normalize].
  pose proof (binary_round_post false (m + m) e) as H. cbv zeta in H.
  assert (Hd2 : Zdigits2 (Zpos (m + m)) = Zdigits2 (Zpos m) + 1).
  { rewrite Pos2Z.inj_add. replace (Zpos m + Zpos m) with (Zpos m * 2 ^ 1) by (cbn; lia).
    apply Zdigits2_shift; lia. }
  rewrite Hd2 in H.
  destruct (Z.eq_dec (Zdigits2 (Zpos m)) 24) as [Hnorm | Hsub].
  - (* normal: the exponent goes up *)
    exists m, (e + 1).
    replace (Z.min e (Z.max (Zdigits2 (Zpos m) + 1 + e - 24) (-149))) with e in H by lia.
    rewrite Z.sub_diag, Z.pow_0_r, Z.mul_1_r in H.
    assert (HbN : bounded 24 128 m (e + 1) = true) by (apply bounded_intro; lia).
    split; [| split; [exact HbN |]].
    + eapply round_post_near; [ | | exact H | exact HbN | | | ]; cbv zeta;
        rewrite ?Z.div_1_r, ?Hd2, ?Hnorm; try lia.
      all: replace (e + 1 - e) with 1 by lia.
      all: replace (Z.max (24 + 1 + e - 24) (-149) - e) with 1 by lia.
      all: change (2 ^ 1) with 2; rewrite Pos2Z.inj_add; lia.
    + replace (e + 1 - e) with 1 by lia. change (2 ^ 1) with 2. lia.
  - (* subnormal: the mantissa doubles *)
    assert (Hee : e = -149) by lia. subst e.
    exists (m + m)%positive, (-149).
    replace (Z.min (-149) (Z.max (Zdigits2 (Zpos m) + 1 + -149 - 24) (-149))) with (-149)
      in H by lia.
    rewrite Z.sub_diag, Z.pow_0_r, Z.mul_1_r in H.
    assert (HbN : bounded 24 128 (m + m) (-149) = true)
      by (apply bounded_intro; rewrite ?Hd2; lia).
    split; [| split; [exact HbN |]].
    + eapply round_post_near; [ | | exact H | exact HbN | | | ]; cbv zeta;
        rewrite ?Z.div_1_r, ?Hd2; try lia.
      all: rewrite Z.sub_diag, Z.pow_0_r, Z.mul_1_r.
      all: replace (Z.max (Zdigits2 (Zpos m) + 1 + -149 - 24) (-149) - -149) with 0 by lia.
      all: cbn; lia.
    + rewrite Z.sub_diag, Z.pow_0_r, Z.mul_1_r, Hd2, Pos2Z.inj_add. lia.
Qed.

(** Doubling and halving a number below [2 ^ 127] gives it back. *)
Lemma double_half (m : positive) (e : Z) :
  bounded 24 128 m e = true -> Zdigits2 (Zpos m) + e <= 127 ->
  F32.div (F32.add (S754_finite false m e) (S754_finite false m e)) F32.two
    = S754_finite false m e.
Proof.
  intros Hb Hd.
  pose proof (bounded_facts m e Hb) as (Hdm & He & Hn).
  pose proof (bounded_elim m e Hb) as [Hc _].
  destruct (add_self m e Hb Hd) as (m2 & e2 & -> & Hb2 & Hval & Hee & Hd2).
  pose proof (div_post false m2 e2 false 8388608 (-22) Hb2 eq_refl) as H. cbv zeta in H.
  cbn [xorb] in H. change F32.two with (S754_finite false 8388608 (-22)).
  set (e' := div_exp m2 e2 8388608 (-22)) in *.
  assert (He' : e' = Z.min (Z.max (Zdigits2 (Zpos m2) + e2 - 26) (-149)) (e2 + 22)).
  { unfold e', div_exp. change (Zdigits2 (Zpos 8388608)) with 24. lia. }
  assert (He'e : e' <= e) by lia.
  assert (HP : 0 < 2 ^ (e - e')) by (apply Z.pow_pos_nonneg; lia).
  assert (HN : Zpos m2 * 2 ^ (e2 - -22 - e') = Zpos 8388608 * (Zpos m * 2 ^ (e - e'))).
  { replace (e2 - -22 - e') with ((e2 - e) + (e - e') + 22) by lia.
    rewrite !Z.pow_add_r by lia. change (2 ^ 22) with 4194304. nia. }
  rewrite HN in H.
  assert (Hq : Zpos 8388608 * (Zpos m * 2 ^ (e - e')) / Zpos 8388608 = Zpos m * 2 ^ (e - e')).
  { rewrite Z.mul_comm. apply Z.div_mul. lia. }
  assert (Hdq : Zdigits2 (Zpos m * 2 ^ (e - e')) = Zdigits2 (Zpos m) + (e - e'))
    by (apply Zdigits2_shift; lia).
  eapply round_post_near; [ | | exact H | exact Hb | | | ]; cbv zeta; rewrite ?Hq, ?Hdq.
  - lia.
  - nia.
  - lia.
  - lia.
  - replace (2 * Zpos 8388608 * (Zpos m * 2 ^ (e - e'))
             - 2 * (Zpos 8388608 * (Zpos m * 2 ^ (e - e')))) with 0 by lia.
    apply Z.mul_pos_pos; [lia | apply Z.pow_pos_nonneg; lia].
Qed.

(** ** Magnitudes of differences and quotients *)

Lemma Zdigits2_abs (z : Z) : Zdigits2 (Z.abs z) = Zdigits2 z.
Proof. destruct z; reflexivity. Qed.

(** The difference of two positive finite numbers is zero or has at most the
    binary exponent of the larger. *)
Lemma sub_bracket (mx : positive) (ex : Z) (my : positive) (ey : Z) :
  bounded 24 128 mx ex = true -> bounded 24 128 my ey = true ->
  let D := Z.max (Zdigits2 (Zpos mx) + ex) (Zdigits2 (Zpos my) + ey) in
  F32.sub (S754_finite false mx ex) (S754_finite false my ey) = S754_zero false
  \/ exists s, bracket s (-500) D
                 (F32.sub (S754_finite false mx ex) (S754_finite false my ey)).
Proof.
  intros Hbx Hby D. apply bounded_facts in Hbx, Hby.
  unfold F32.sub, SFsub. rewrite !shl_align_fst by lia. cbn [cond_Zopp].
  set (ez := Z.min ex ey).
  set (X := Zpos mx * 2 ^ (ex - ez)). set (Y := Zpos my * 2 ^ (ey - ez)).
  assert (HX : 0 < X)
    by (unfold X; assert (0 < 2 ^ (ex - ez)) by (apply Z.pow_pos_nonneg; lia); nia).
  assert (HY : 0 < Y)
    by (unfold Y; assert (0 < 2 ^ (ey - ez)) by (apply Z.pow_pos_nonneg; lia); nia).
  assert (HdX : Zdigits2 X + ez = Zdigits2 (Zpos mx) + ex)
    by (unfold X; rewrite Zdigits2_shift by lia; lia).
  assert (HdY : Zdigits2 Y + ez = Zdigits2 (Zpos my) + ey)
    by (unfold Y; rewrite Zdigits2_shift by lia; lia).
  destruct (Z.eq_dec (X - Y) 0) as [E0 | Hne].
  - left. rewrite E0. reflexivity.
  - right. exists (X - Y <? 0).
    pose proof (binary_normalize_bracket (X - Y) ez Hne) as B.
    assert (Hle : Zdigits2 (X - Y) <= Z.max (Zdigits2 X) (Zdigits2 Y)).
    { rewrite <- Zdigits2_abs.
      destruct (Z_lt_le_dec X Y).
      - pose proof (Zdigits2_le (Z.abs (X - Y)) Y ltac:(lia)). lia.
      - pose proof (Zdigits2_le (Z.abs (X - Y)) X ltac:(lia)). lia. }
    assert (Hge : 1 <= Zdigits2 (X - Y)).
    { rewrite <- Zdigits2_abs. apply Zdigits2_pos. lia. }
    eapply bracket_weaken; [exact B | |]; unfold D.
    + unfold ez. lia.
    + lia.
Qed.

Lemma binary_round_aux_sign (s : bool) (m e : Z) (l : location) :
  match binary_round_aux 24 128 s m e l with
  | S754_zero s' | S754_infinity s' | S754_finite s' _ _ => s' = s
  | S754_nan => True
  end.
Proof.
  unfold binary_round_aux.
  destruct (shr_fexp 24 128 m e l) as [mrs' e'].
  destruct (shr_fexp 24 128 _ e' loc_Exact) as [mrs'' e''].
  destruct (shr_m mrs'');
    first [reflexivity | exact I | destruct (Z.leb e'' (128 - 24)); reflexivity].
Qed.

(** A square is not negative. *)
Lemma mul_self_sign (x : F32.float) : not_negative (F32.mul x x).
Proof.
  unfold not_negative, F32.mul. destruct x as [s | s | | s m e]; cbn [SFmul].
  - apply xorb_nilpotent.
  - apply xorb_nilpotent.
  - exact I.
  - rewrite xorb_nilpotent. apply binary_round_aux_sign.
Qed.

(** The ratio [(n - 1) / (n + 1)] of a positive finite [n], when finite, is
    below 8. *)
Lemma ratio_bound (mn : positive) (en : Z) (sr : bool) (mr : positive) (er : Z) :
  bounded 24 128 mn en = true ->
  F32.div (F32.sub (S754_finite false mn en) F32.one)
          (F32.add (S754_finite false mn en) F32.one) = S754_finite sr mr er ->
  bounded 24 128 mr er = true /\ Zdigits2 (Zpos mr) + er <= 3.
Proof.
  intros Hb. change F32.one with (S754_finite false 8388608 (-23)).
  pose proof (sub_bracket mn en 8388608 (-23) Hb eq_refl) as Ha.
  pose proof (add_same_sign_bracket false mn en 8388608 (-23)) as Hc.
  cbv zeta in Ha, Hc. change (Zdigits2 (Zpos 8388608)) with 24 in Ha, Hc.
  destruct (F32.add (S754_finite false mn en) (S754_finite false 8388608 (-23)))
    as [sb | sb | | sb mb eb]; cbn [bracket] in Hc.
  - lia.
  - destruct (F32.sub _ _) as [sa | sa | | sa ma ea]; discriminate.
  - contradiction.
  - destruct Hc as (-> & Hbb & Hdb).
    destruct (F32.sub (S754_finite false mn en) (S754_finite false 8388608 (-23)))
      as [sa | sa | | sa ma ea].
    + discriminate.
    + discriminate.
    + discriminate.
    + destruct Ha as [Ha | [s Ha]]; [discriminate |]. cbn [bracket] in Ha.
      destruct Ha as (_ & Hba & Hda).
      intros Hr. pose proof (div_bracket sa ma ea false mb eb Hba Hbb) as B.
      rewrite Hr in B. cbn [bracket] in B. destruct B as (_ & Hbr & Hdr).
      split; [exact Hbr | lia].
Qed.

(** Half the sum of the square of that ratio with itself is the square. *)
Lemma half_sum_of_squares (mn : positive) (en : Z) :
  bounded 24 128 mn en = true ->
  let r := F32.div (F32.sub (S754_finite false mn en) F32.one)
                   (F32.add (S754_finite false mn en) F32.one) in
  F32.div (F32.add (F32.mul r r) (F32.mul r r)) F32.two = F32.mul r r.
Proof.
  intros Hb r. pose proof (mul_self_sign r) as Hs.
  destruct (F32.mul r r) as [s | s | | s mq eq] eqn:Hq; cbn [not_negative] in Hs.
  - subst s. reflexivity.
  - subst s. reflexivity.
  - reflexivity.
  - subst s. destruct r as [sr | sr | | sr mr er] eqn:Hr; try discriminate.
    destruct (ratio_bound mn en sr mr er Hb Hr) as [Hbr Hdr].
    pose proof (mul_bracket sr mr er sr mr er Hbr Hbr) as B. cbv zeta in B.
    rewrite Hq in B. cbn [bracket] in B. destruct B as (_ & Hbq & Hdq).
    apply double_half; [exact Hbq | lia].
Qed.

(** ** Operands far below one *)

(** [1 / n] overflows only for a subnormal [n] below [2 ^ -126]. *)
Lemma div_one_overflow (mn : positive) (en : Z) (s : bool) :
  bounded 24 128 mn en = true ->
  F32.div F32.one (S754_finite false mn en) = S754_infinity s ->
  en = -149 /\ Zpos mn < 2 ^ 23.
Proof.
  intros Hb Hinf.
  pose proof (div_bracket false 8388608 (-23) false mn en eq_refl Hb) as B.
  change (S754_finite false 8388608 (-23)) with F32.one in B. rewrite Hinf in B.
  cbn [bracket] in B. destruct B as [_ B].
  change (Zdigits2 (Zpos 8388608)) with 24 in B.
  pose proof (bounded_facts mn en Hb) as (Hd & He & Hn).
  pose proof (Zdigits2_bounds (Zpos mn) ltac:(lia)) as [_ Hhi].
  split; [lia |].
  eapply Z.lt_le_trans; [exact Hhi | apply Z.pow_le_mono_r; lia].
Qed.

Lemma add_tiny (m : positive) :
  Zpos m < 2 ^ 23 -> F32.add (S754_finite false m (-149)) F32.one = F32.one.
Proof.
  intros Hm. change (2 ^ 23) with 8388608 in Hm.
  change F32.one with (S754_finite false 8388608 (-23)).
  unfold F32.add, SFadd. rewrite !shl_align_fst by (cbn; lia). cbn [cond_Zopp].
  change (Z.min (-149) (-23)) with (-149).
  change (-149 - -149) with 0. change (-23 - -149) with 126.
  rewrite Z.pow_0_r, Z.mul_1_r.
  set (B := Zpos 8388608 * 2 ^ 126).
  assert (HB : B = 2 ^ 149) by reflexivity.
  destruct (Zpos m + B) as [| p | p] eqn:Ep; try (exfalso; unfold B in Ep; lia).
  cbn [binary_normalize].
  pose proof (binary_round_post false p (-149)) as H. cbv zeta in H.
  assert (Hdig : Zdigits2 (Zpos p) = 150).
  { apply Zdigits2_unique; [| lia]. rewrite <- Ep, HB.
    change (2 ^ (150 - 1)) with (2 ^ 149). change (2 ^ 150) with (2 * 2 ^ 149).
    assert (8388608 < 2 ^ 149) by reflexivity. lia. }
  rewrite Hdig in H. change (Z.min (-149) (Z.max (150 + -149 - 24) (-149))) with (-149) in H.
  change (-149 - -149) with 0 in H. rewrite Z.pow_0_r, Z.mul_1_r in H.
  eapply round_post_near; [ | | exact H | reflexivity | | | ]; cbv zeta;
    rewrite ?Z.div_1_r, ?Hdig; try lia.
  change (Z.max (150 + -149 - 24) (-149) - -149) with 126.
  change (-23 - -149) with 126. fold B. rewrite <- Ep.
  replace (2 * 1 * B - 2 * (Zpos m + B)) with (- (2 * Zpos m)) by lia.
  assert (16777216 <= 1 * 2 ^ 126) by (intros E; discriminate E). lia.
Qed.

Lemma sub_tiny (m : positive) :
  Zpos m < 2 ^ 23 ->
  F32.sub (S754_finite false m (-149)) F32.one = F32.opp F32.one.
Proof.
  intros Hm. change (2 ^ 23) with 8388608 in Hm.
  change F32.one with (S754_finite false 8388608 (-23)).
  unfold F32.sub, SFsub. rewrite !shl_align_fst by (cbn; lia). cbn [cond_Zopp].
  change (Z.min (-149) (-23)) with (-149).
  change (-149 - -149) with 0. change (-23 - -149) with 126.
  rewrite Z.pow_0_r, Z.mul_1_r.
  set (B := Zpos 8388608 * 2 ^ 126).
  assert (HB : B = 2 ^ 149) by reflexivity.
  assert (HBbig : 16777216 <= B) by (intros E; discriminate E).
  destruct (Zpos m - B) as [| p | p] eqn:Ep; try (exfalso; lia).
  cbn [binary_normalize].
  pose proof (binary_round_post true p (-149)) as H. cbv zeta in H.
  assert (Hp : Zpos p = B - Zpos m) by lia.
  assert (Hdig : Zdigits2 (Zpos p) = 149).
  { apply Zdigits2_unique; [| lia]. rewrite Hp, HB.
    change (2 ^ (149 - 1)) with (2 ^ 148).
    assert (2 ^ 149 = 2 * 2 ^ 148) by reflexivity.
    assert (16777216 <= 2 ^ 148) by (intros E; discriminate E). lia. }
  rewrite Hdig in H. change (Z.min (-149) (Z.max (149 + -149 - 24) (-149))) with (-149) in H.
  change (-149 - -149) with 0 in H. rewrite Z.pow_0_r, Z.mul_1_r in H.
  change (F32.opp (S754_finite false 8388608 (-23))) with (S754_finite true 8388608 (-23)).
  eapply round_post_near; [ | | exact H | reflexivity | | | ]; cbv zeta;
    rewrite ?Z.div_1_r, ?Hdig; try lia.
  change (Z.max (149 + -149 - 24) (-149) - -149) with 125.
  change (-23 - -149) with 126. fold B. rewrite Hp.
  replace (2 * 1 * B - 2 * (B - Zpos m)) with (2 * Zpos m) by lia.
  assert (33554432 <= 1 * 2 ^ 125) by (intros E; discriminate E). lia.
Qed.

(** ** [fresnel] at normal incidence *)

(** [fresnel] once [cosi] is known to be [-1]. *)
Lemma fresnel_head_on (I N : vec3) (ior : F32.float) :
  fresnel_cosi I N = F32.opp F32.one ->
  fresnel I N ior =
    let sint := F32.mul (F32.div F32.one ior) F32.zero in
    if F32.geb sint F32.one then F32.one
    else
      let cost :=
        F32.sqrt (F32.std_max F32.zero (F32.sub F32.one (F32.mul sint sint))) in
      let Rs := F32.div (F32.sub (F32.mul ior F32.one) (F32.mul F32.one cost))
                        (F32.add (F32.mul ior F32.one) (F32.mul F32.one cost)) in
      let Rp := F32.div (F32.sub (F32.mul F32.one F32.one) (F32.mul ior cost))
                        (F32.add (F32.mul F32.one F32.one) (F32.mul ior cost)) in
      F32.div (F32.add (F32.mul Rs Rs) (F32.mul Rp Rp)) F32.two.
Proof.
  intros Hcos. unfold fresnel. rewrite Hcos.
  change (F32.gtb (F32.opp F32.one) F32.zero) with false. cbv beta iota zeta.
  change (F32.sqrt
            (F32.std_max F32.zero
               (F32.sub F32.one (F32.mul (F32.opp F32.one) (F32.opp F32.one)))))
    with F32.zero.
  change (F32.abs (F32.opp F32.one)) with F32.one.
  reflexivity.
Qed.

(** C5: for every index of refraction [n > 0], [fresnel] at normal incidence
    (the dot product of [I] and [N] is [-1]) returns [((n - 1) / (n + 1))^2]
    as binary32 arithmetic evaluates it. *)
Theorem fresnel_normal_incidence (I N : vec3) (n : F32.float) :
  F32.valid n = true -> F32.ltb F32.zero n = true ->
  glm.dot I N = F32.opp F32.one ->
  fresnel I N n = normal_reflectance n.
Proof.
  intros Hv Hpos Hdot.
  rewrite (fresnel_head_on I N n) by (rewrite fresnel_cosi_min, Hdot; reflexivity).
  unfold normal_reflectance. cbv zeta.
  destruct n as [s | s | | s m e]; try discriminate Hpos.
  - (* an infinite index: both sides are NaN *)
    destruct s; [discriminate Hpos | reflexivity].
  - destruct s; [discriminate Hpos |]. cbn [F32.valid valid_binary] in Hv.
    rewrite (mul_one_r false m e Hv).
    change (F32.mul F32.one F32.one) with F32.one.
    pose proof (div_bracket false 8388608 (-23) false m e eq_refl Hv) as B.
    change (S754_finite false 8388608 (-23)) with F32.one in B.
    destruct (F32.div F32.one (S754_finite false m e)) as [s1 | s1 | | s1 m1 e1] eqn:Hd1;
      cbn [bracket xorb] in B.
    + (* 1 / n underflows *)
      destruct B as [-> _].
      change (F32.mul (S754_zero false) F32.zero) with (S754_zero false).
      change (F32.geb (S754_zero false) F32.one) with false. cbv iota.
      change (F32.sqrt (F32.std_max F32.zero
                (F32.sub F32.one (F32.mul (S754_zero false) (S754_zero false)))))
        with F32.one.
      rewrite (mul_one_r false m e Hv). change (F32.mul F32.one F32.one) with F32.one.
      rewrite (add_comm F32.one (S754_finite false m e)).
      destruct (sub_swap false m e false 8388608 (-23)) as [Hsw | [Hz1 Hz2]];
        cbv zeta in *; change (S754_finite false 8388608 (-23)) with F32.one in *.
      * rewrite Hsw, div_opp_l, mul_opp_opp. apply half_sum_of_squares. exact Hv.
      * rewrite Hz2, Hz1. pose proof (half_sum_of_squares m e Hv) as H. cbv zeta in H.
        rewrite Hz1 in H. exact H.
    + (* 1 / n overflows: n is far below the spacing of floats at 1 *)
      destruct B as [-> _].
      destruct (div_one_overflow m e false Hv Hd1) as [-> Hm].
      change (F32.mul (S754_infinity false) F32.zero) with S754_nan.
      change (F32.geb S754_nan F32.one) with false. cbv iota.
      change (F32.sqrt (F32.std_max F32.zero
                (F32.sub F32.one (F32.mul S754_nan S754_nan))))
        with F32.zero.
      change (F32.mul F32.one F32.zero) with F32.zero.
      change (F32.mul (S754_finite false m (-149)) F32.zero) with F32.zero.
      change (F32.sub (S754_finite false m (-149)) F32.zero) with (S754_finite false m (-149)).
      change (F32.add (S754_finite false m (-149)) F32.zero) with (S754_finite false m (-149)).
      rewrite (div_self false m (-149) Hv).
      rewrite (add_tiny m Hm), (sub_tiny m Hm). reflexivity.
    + contradiction.
    + destruct B as (-> & _).
      change (F32.mul (S754_finite false m1 e1) F32.zero) with (S754_zero false).
      change (F32.geb (S754_zero false) F32.one) with false. cbv iota.
      change (F32.sqrt (F32.std_max F32.zero
                (F32.sub F32.one (F32.mul (S754_zero false) (S754_zero false)))))
        with F32.one.
      rewrite (mul_one_r false m e Hv). change (F32.mul F32.one F32.one) with F32.one.
      rewrite (add_comm F32.one (S754_finite false m e)).
      destruct (sub_swap false m e false 8388608 (-23)) as [Hsw | [Hz1 Hz2]];
        cbv zeta in *; change (S754_finite false 8388608 (-23)) with F32.one in *.
      * rewrite Hsw, div_opp_l, mul_opp_opp. apply half_sum_of_squares. exact Hv.
      * rewrite Hz2, Hz1. pose proof (half_sum_of_squares m e Hv) as H. cbv zeta in H.
        rewrite Hz1 in H. exact H.
Qed.

Lemma fresnel_normal_incidence_witness :
  fresnel (Vec3 F32.zero F32.zero (F32.opp F32.one)) (Vec3 F32.zero F32.zero F32.one)
          (F32.ratio 3 2)
  = normal_reflectance (F32.ratio 3 2).
Proof. apply fresnel_normal_incidence; reflexivity. Defined.

(** ** The dot product of a vector with its opposite *)

Lemma mul_opp_l (x y : F32.float) : F32.mul (F32.opp x) y = F32.opp (F32.mul x y).
Proof.
  unfold F32.mul, F32.opp.
  destruct x as [sx | sx | | sx mx ex], y as [sy | sy | | sy my ey]; cbn [SFmul SFopp];
    first [ rewrite <- negb_xorb_l; apply binary_round_aux_opp
          | rewrite <- negb_xorb_l; reflexivity
          | reflexivity ].
Qed.

Lemma binary_round_sign (m : positive) (e : Z) :
  not_negative (binary_round 24 128 false m e).
Proof.
  unfold binary_round. destruct (shl_align m e _) as [mz ez].
  pose proof (binary_round_aux_sign false (Zpos mz) ez loc_Exact) as H.
  destruct (binary_round_aux 24 128 false (Zpos mz) ez loc_Exact); exact H.
Qed.

(** Adding two values that are not negative: the sum is not negative, and
    the sum of the opposites is its opposite. *)
Lemma add_not_negative (x y : F32.float) :
  not_negative x -> not_negative y ->
  not_negative (F32.add x y)
  /\ F32.add (F32.opp x) (F32.opp y) = F32.opp (F32.add x y).
Proof.
  unfold F32.add, F32.opp.
  destruct x as [sx | sx | | sx mx ex], y as [sy | sy | | sy my ey];
    cbn [not_negative]; intros Hx Hy; subst; cbn [SFadd SFopp Bool.eqb negb cond_Zopp];
    try (split; [exact I || reflexivity | reflexivity]).
  cbn [Z.add Z.opp binary_normalize]. split.
  - apply binary_round_sign.
  - apply (binary_round_opp false).
Qed.

Lemma dot_neg_self (N : vec3) : glm.dot (glm.neg N) N = F32.opp (glm.dot N N).
Proof.
  unfold glm.dot, glm.neg. cbn [vx vy vz]. rewrite !mul_opp_l.
  pose proof (mul_self_sign (vx N)) as Hx. pose proof (mul_self_sign (vy N)) as Hy.
  pose proof (mul_self_sign (vz N)) as Hz.
  destruct (add_not_negative _ _ Hx Hy) as [Hxy ->].
  destruct (add_not_negative _ _ Hxy Hz) as [_ ->]. reflexivity.
Qed.

(** For a normal of length 1 and the opposite incidence the dot product is
    exactly [-1]. *)
Lemma dot_neg_unit (N : vec3) :
  glm.dot N N = F32.one -> glm.dot (glm.neg N) N = F32.opp F32.one.
Proof. intros H. rewrite dot_neg_self, H. reflexivity. Qed.

(** With the normal [unit_normal], whose dot product with its opposite is
    just below [-1], the value returned for an index of 1.5 is one unit in
    the last place above [normal_reflectance]. *)
Lemma fresnel_unclamped_head_on :
  fresnel (glm.neg unit_normal) unit_normal (F32.ratio 3 2)
    = S754_finite false 10737420 (-28)
  /\ normal_reflectance (F32.ratio 3 2) = S754_finite false 10737419 (-28).
Proof. split; vm_compute; reflexivity. Qed.

(** * Further properties of the code *)

(** ** [roundDownToMultipleOf]: the result *)

Lemma roundDown_run (value multiple : Z) :
  multiple <> 0 -> ~ (value = Int32.min_signed /\ multiple = -1) ->
  roundDownToMultipleOf value multiple =
    Ok (if 1 <? Z.rem value multiple then value - Z.rem value multiple else value).
Proof.
  intros Hm Hx. unfold roundDownToMultipleOf.
  rewrite (int32_rem_ok value multiple Hm Hx). reflexivity.
Qed.

Lemma rem_of_rounded (value multiple : Z) :
  multiple <> 0 -> Z.rem (value - Z.rem value multiple) multiple = 0.
Proof.
  intros Hm. pose proof (Z.quot_rem' value multiple) as H.
  replace (value - Z.rem value multiple) with (Z.quot value multiple * multiple) by lia.
  apply Z.rem_mul. exact Hm.
Qed.

(** X1: rounding down twice is rounding down once: the value returned by
    [roundDownToMultipleOf] is returned unchanged when it is passed again with
    the same multiple. *)
Theorem roundDownToMultipleOf_idempotent (value multiple : Z) :
  Int32.in_range value -> multiple <> 0 ->
  ~ (value = Int32.min_signed /\ multiple = -1) ->
  exists r : Z,
    roundDownToMultipleOf value multiple = Ok r
    /\ roundDownToMultipleOf r multiple = Ok r.
Proof.
  intros Hv Hm Hx. rewrite (roundDown_run value multiple Hm Hx).
  destruct (Z.ltb_spec 1 (Z.rem value multiple)) as [Hlt | Hge].
  - exists (value - Z.rem value multiple). split; [reflexivity |].
    assert (Hm1 : multiple <> -1).
    { intros ->. pose proof (Z.rem_bound_abs value (-1) ltac:(lia)). lia. }
    rewrite roundDown_run by (try exact Hm; intros [_ E]; contradiction).
    rewrite rem_of_rounded by exact Hm. reflexivity.
  - exists value. split; [reflexivity |].
    rewrite (roundDown_run value multiple Hm Hx).
    destruct (Z.ltb_spec 1 (Z.rem value multiple)); [lia | reflexivity].
Qed.

Lemma roundDownToMultipleOf_idempotent_witness :
  exists r : Z, roundDownToMultipleOf 11 3 = Ok r /\ roundDownToMultipleOf r 3 = Ok r.
Proof.
  apply roundDownToMultipleOf_idempotent.
  - unfold Int32.in_range, Int32.min_signed, Int32.max_signed. lia.
  - lia.
  - intros [E _]. discriminate E.
Defined.

(** X2: the result never exceeds [value] and lies less than [|multiple|]
    below it; it is a multiple of [multiple] exactly when the remainder of
    [value] is neither 1 nor negative; a value that is not positive is
    returned as it is. *)
Theorem roundDownToMultipleOf_result (value multiple : Z) :
  Int32.in_range value -> multiple <> 0 ->
  ~ (value = Int32.min_signed /\ multiple = -1) ->
  exists r : Z,
    roundDownToMultipleOf value multiple = Ok r
    /\ r <= value /\ value - r < Z.abs multiple
    /\ (Z.rem r multiple = 0 <->
        0 <= Z.rem value multiple /\ Z.rem value multiple <> 1)
    /\ (value <= 0 -> r = value).
Proof.
  intros Hv Hm Hx. rewrite (roundDown_run value multiple Hm Hx).
  pose proof (Z.rem_bound_abs value multiple Hm) as Habs.
  destruct (Z.ltb_spec 1 (Z.rem value multiple)) as [Hlt | Hge].
  - exists (value - Z.rem value multiple). split; [reflexivity |].
    rewrite rem_of_rounded by exact Hm.
    repeat split; try lia.
    intros Hneg. pose proof (Z.rem_nonpos value multiple Hm Hneg). lia.
  - exists value. split; [reflexivity |]. repeat split; try lia.
Qed.

Lemma roundDownToMultipleOf_result_witness :
  exists r : Z, roundDownToMultipleOf 10 3 = Ok r /\ r <= 10 /\ 10 - r < 3.
Proof.
  destruct (roundDownToMultipleOf_result 10 3) as (r & H & H1 & H2 & _).
  - unfold Int32.in_range, Int32.min_signed, Int32.max_signed. lia.
  - lia.
  - intros [E _]. discriminate E.
  - exists r. repeat split; [exact H | exact H1 | exact H2].
Defined.

(** ** [haltonSequence]: degenerate bases *)

Lemma halton_loop_fault (fuel : nat) :
  forall (base : Z) (st : halton_state) (f : fault),
    halton_loop fuel base st = Some (Fault f) -> base = 0 /\ f = DivisionByZero.
Proof.
  induction fuel as [| fuel IH]; intros base st f; cbn [halton_loop].
  - destruct (0 <? h_index st); discriminate.
  - destruct (0 <? h_index st); [| discriminate].
    destruct (Z.eq_dec base 0) as [-> | Hb].
    + intros [= <-]. split; reflexivity.
    + rewrite (halton_body_ok base st Hb). apply IH.
Qed.

(** X3: index 0 gives 0 for every base, 0 and 1 included, without entering
    the loop; with base 0 and a positive index the first iteration evaluates
    [index % 0], which is undefined; and that is the only way the function
    can fail. *)
Theorem haltonSequence_base_zero (index : Z) :
  (forall base : Z, haltonSequence 0 base = Some (Ok F32.zero))
  /\ (0 < index ->
      haltonSequence index 0 = Some (Fault DivisionByZero)
      /\ forall fuel : nat,
           haltonSequence_fuel (S fuel) index 0 = Some (Fault DivisionByZero))
  /\ (forall (fuel : nat) (base : Z) (f : fault),
        haltonSequence_fuel fuel index base = Some (Fault f) ->
        base = 0 /\ 0 < index /\ f = DivisionByZero).
Proof.
  split; [intros base; reflexivity |]. split.
  - intros Hpos.
    assert (H : forall fuel : nat,
               haltonSequence_fuel (S fuel) index 0 = Some (Fault DivisionByZero)).
    { intros fuel. unfold haltonSequence_fuel, halton_init. cbn [halton_loop h_index].
      destruct (Z.ltb_spec 0 index); [reflexivity | lia]. }
    split; [apply (H 31%nat) | exact H].
  - intros fuel base f H. unfold haltonSequence_fuel in H.
    destruct (halton_loop_fault fuel base _ f H) as [-> ->].
    split; [reflexivity |]. split; [| reflexivity].
    destruct fuel; cbn [halton_loop halton_init h_index] in H;
      destruct (Z.ltb_spec 0 index); try discriminate H; assumption.
Qed.

(** ** [incrementalAvg]: what holds for every input *)

Lemma to_uint32_range (x : F32.float) (t : Z) :
  F32.to_uint32 x = Ok t -> 0 <= t < Int32.modulus.
Proof.
  unfold F32.to_uint32. destruct x as [s | s | | s m e]; try discriminate.
  - intros [= <-]. unfold Int32.modulus. lia.
  - set (u := match e with
              | Zneg p => Z.shiftr (Zpos m) (Zpos p)
              | _ => Z.shiftl (Zpos m) e
              end).
    assert (Hu : 0 <= u).
    { unfold u. destruct e; [apply Z.shiftl_nonneg | apply Z.shiftl_nonneg
                             | apply Z.shiftr_nonneg]; lia. }
    destruct s.
    + destruct (u =? 0); [| discriminate]. intros [= <-]. unfold Int32.modulus. lia.
    + destruct (Z.ltb_spec u Int32.modulus); [| discriminate]. intros [= <-]. lia.
Qed.

Lemma to_uint32_fault (x : F32.float) (f : fault) :
  F32.to_uint32 x = Fault f -> f = FloatToIntRange.
Proof.
  unfold F32.to_uint32. destruct x as [s | s | | s m e]; try discriminate;
    try (intros [= <-]; reflexivity).
  destruct s.
  - destruct (_ =? 0); [discriminate | intros [= <-]; reflexivity].
  - destruct (_ <? Int32.modulus); [discriminate | intros [= <-]; reflexivity].
Qed.

Lemma scale_channel_not_finite (c : F32.float) :
  F32.is_finite c = false -> scale_channel c = Fault FloatToIntRange.
Proof.
  unfold scale_channel. rewrite of_Z_255.
  destruct c as [s | s | | s m e]; try discriminate; intros _; reflexivity.
Qed.

Lemma current_channel_range (n last sampler : Z) :
  0 < n -> 0 <= current_channel n last sampler <= 255.
Proof.
  intros Hn. unfold current_channel, U32.add, Int32.to_unsigned, Int32.modulus.
  set (a := (U32.mul (U32.sub n 1) last + sampler) mod 2 ^ 32).
  assert (0 <= a) by (apply Z.mod_pos_bound; lia).
  assert (0 <= a / n) by (apply Z.div_pos; lia). lia.
Qed.

Lemma to_unsigned_range (z : Z) : 0 <= Int32.to_unsigned z < 4294967296.
Proof.
  unfold Int32.to_unsigned, Int32.modulus. change (2 ^ 32) with 4294967296.
  apply Z.mod_pos_bound. lia.
Qed.

(** The run of [incrementalAvg] once the three conversions and the divisor
    are known to be defined. *)
Lemma incrementalAvg_run (sample : vec3) (avg numSample sr sg sb : Z) :
  scale_channel (vx sample) = Ok sr -> scale_channel (vy sample) = Ok sg ->
  scale_channel (vz sample) = Ok sb ->
  Int32.to_unsigned numSample <> 0 ->
  let n := Int32.to_unsigned numSample in
  incrementalAvg sample avg numSample =
    Ok (Int32.to_signed (pack (current_channel n (red_of avg) sr)
                              (current_channel n (green_of avg) sg)
                              (current_channel n (blue_of avg) sb))).
Proof.
  intros Hr Hg Hb Hn n. unfold incrementalAvg. rewrite Hr, Hg, Hb. cbn [obind].
  fold n. fold (red_of avg) (green_of avg) (blue_of avg).
  unfold Int32.udiv. destruct (Z.eqb_spec n 0) as [E | _]; [contradiction |].
  cbn [obind]. fold (current_channel n (red_of avg) sr).
  fold (current_channel n (green_of avg) sg). fold (current_channel n (blue_of avg) sb).
  pose proof (to_unsigned_range numSample) as Hnr. fold n in Hnr.
  rewrite pack_lor by (apply current_channel_range; lia). reflexivity.
Qed.

(** Whatever [incrementalAvg] returns, it got there through three defined
    conversions and a non-zero divisor. *)
Lemma incrementalAvg_returns (sample : vec3) (avg numSample packed : Z) :
  incrementalAvg sample avg numSample = Ok packed ->
  exists sr sg sb : Z,
    scale_channel (vx sample) = Ok sr /\ scale_channel (vy sample) = Ok sg
    /\ scale_channel (vz sample) = Ok sb /\ Int32.to_unsigned numSample <> 0.
Proof.
  unfold incrementalAvg.
  destruct (scale_channel (vx sample)) as [sr |]; [| discriminate].
  destruct (scale_channel (vy sample)) as [sg |]; [| discriminate].
  destruct (scale_channel (vz sample)) as [sb |]; [| discriminate].
  cbn [obind]. unfold Int32.udiv.
  destruct (Z.eqb_spec (Int32.to_unsigned numSample) 0) as [E | N]; [discriminate |].
  intros _. exists sr, sg, sb. repeat split; assumption.
Qed.

(** X4: every colour [incrementalAvg] returns is opaque: the alpha byte is
    [0xFF] whatever the alpha of the previous colour, so the returned
    [std::int32_t] is negative, and the rest of the word is the three
    channels. *)
Theorem incrementalAvg_opaque (sample : vec3) (avg numSample packed : Z) :
  incrementalAvg sample avg numSample = Ok packed ->
  Int32.in_range packed /\ packed < 0 /\ alpha_of packed = 255
  /\ Int32.to_unsigned packed
     = pack (red_of packed) (green_of packed) (blue_of packed).
Proof.
  intros H. destruct (incrementalAvg_returns _ _ _ _ H) as (sr & sg & sb & Hr & Hg & Hb & Hn).
  rewrite (incrementalAvg_run sample avg numSample sr sg sb Hr Hg Hb Hn) in H.
  cbv zeta in H. injection H as <-.
  pose proof (to_unsigned_range numSample) as Hnr.
  set (n := Int32.to_unsigned numSample) in *.
  pose proof (current_channel_range n (red_of avg) sr ltac:(lia)) as Hcr.
  pose proof (current_channel_range n (green_of avg) sg ltac:(lia)) as Hcg.
  pose proof (current_channel_range n (blue_of avg) sb ltac:(lia)) as Hcb.
  set (cr := current_channel n (red_of avg) sr) in *.
  set (cg := current_channel n (green_of avg) sg) in *.
  set (cb := current_channel n (blue_of avg) sb) in *.
  destruct (unpack cr cg cb Hcr Hcg Hcb) as (Hin & Ur & Ug & Ub & Ua).
  rewrite Ur, Ug, Ub.
  assert (HP : 4278190080 <= pack cr cg cb < 4294967296) by (unfold pack; lia).
  assert (Hs : Int32.to_signed (pack cr cg cb) = pack cr cg cb - 4294967296).
  { unfold Int32.to_signed, Int32.modulus, Int32.max_signed.
    change (2 ^ 32) with 4294967296. change (2 ^ 31 - 1) with 2147483647.
    rewrite Z.mod_small by lia.
    destruct (Z.leb_spec (pack cr cg cb) 2147483647); lia. }
  split; [exact Hin |]. split; [rewrite Hs; lia |]. split; [exact Ua |].
  rewrite Hs. unfold Int32.to_unsigned, Int32.modulus. change (2 ^ 32) with 4294967296.
  replace (pack cr cg cb - 4294967296) with (pack cr cg cb + (-1) * 4294967296) by lia.
  rewrite Z.mod_add by lia. apply Z.mod_small. lia.
Qed.

Lemma incrementalAvg_opaque_witness :
  Int32.in_range (-12648321) /\ -12648321 < 0 /\ alpha_of (-12648321) = 255
  /\ Int32.to_unsigned (-12648321)
     = pack (red_of (-12648321)) (green_of (-12648321)) (blue_of (-12648321)).
Proof.
  apply (incrementalAvg_opaque (Vec3 F32.one F32.zero (F32.ratio 1 2)) 0 2).
  vm_compute. reflexivity.
Defined.

Lemma scale_channel_fault (c : F32.float) (f : fault) :
  scale_channel c = Fault f -> f = FloatToIntRange.
Proof. unfold scale_channel. apply to_uint32_fault. Qed.

Lemma incrementalAvg_outcome (sample : vec3) (avg numSample : Z) :
  let converts :=
    exists sr sg sb : Z,
      scale_channel (vx sample) = Ok sr /\ scale_channel (vy sample) = Ok sg
      /\ scale_channel (vz sample) = Ok sb in
  (converts /\ Int32.to_unsigned numSample <> 0
   /\ exists packed : Z, incrementalAvg sample avg numSample = Ok packed)
  \/ (converts /\ Int32.to_unsigned numSample = 0
      /\ incrementalAvg sample avg numSample = Fault DivisionByZero)
  \/ (~ converts /\ incrementalAvg sample avg numSample = Fault FloatToIntRange).
Proof.
  cbv zeta.
  destruct (scale_channel (vx sample)) as [sr | fr] eqn:Er.
  2:{ right. right. split.
      - intros (r & g & b & E & _). discriminate E.
      - unfold incrementalAvg. rewrite Er, (scale_channel_fault _ _ Er). reflexivity. }
  destruct (scale_channel (vy sample)) as [sg | fg] eqn:Eg.
  2:{ right. right. split.
      - intros (r & g & b & _ & E & _). discriminate E.
      - unfold incrementalAvg. rewrite Er, Eg, (scale_channel_fault _ _ Eg). reflexivity. }
  destruct (scale_channel (vz sample)) as [sb | fb] eqn:Eb.
  2:{ right. right. split.
      - intros (r & g & b & _ & _ & E). discriminate E.
      - unfold incrementalAvg. rewrite Er, Eg, Eb, (scale_channel_fault _ _ Eb).
        reflexivity. }
  assert (Hc : exists r g b : Z, Ok sr = Ok r /\ Ok sg = Ok g /\ Ok sb = Ok b)
    by (exists sr, sg, sb; repeat split; reflexivity).
  destruct (Z.eq_dec (Int32.to_unsigned numSample) 0) as [E0 | N0].
  - right. left. split; [exact Hc |]. split; [exact E0 |].
    unfold incrementalAvg. rewrite Er, Eg, Eb. cbn [obind]. rewrite E0. reflexivity.
  - left. split; [exact Hc |]. split; [exact N0 |].
    pose proof (incrementalAvg_run sample avg numSample sr sg sb Er Eg Eb N0) as Hrun.
    cbv zeta in Hrun. eexists. exact Hrun.
Qed.

(** X5: when [incrementalAvg] is defined.  It returns a colour exactly when
    the three channels of the sample convert to [std::uint32_t] and the count
    is not zero; with a zero count (and a sample that converts) it divides by
    zero; in every other case a conversion is out of range. *)
Theorem incrementalAvg_defined (sample : vec3) (avg numSample : Z) :
  let converts :=
    exists sr sg sb : Z,
      scale_channel (vx sample) = Ok sr /\ scale_channel (vy sample) = Ok sg
      /\ scale_channel (vz sample) = Ok sb in
  ((exists packed : Z, incrementalAvg sample avg numSample = Ok packed)
   <-> converts /\ Int32.to_unsigned numSample <> 0)
  /\ (incrementalAvg sample avg numSample = Fault DivisionByZero
      <-> converts /\ Int32.to_unsigned numSample = 0)
  /\ (incrementalAvg sample avg numSample = Fault FloatToIntRange <-> ~ converts).
Proof.
  intros converts.
  destruct (incrementalAvg_outcome sample avg numSample)
    as [(Hc & Hn & packed & Hr) | [(Hc & Hn & Hr) | (Hc & Hr)]]; rewrite Hr.
  - split; [split; [intros _; split; assumption | intros _; eexists; reflexivity] |].
    split; [split; [discriminate | intros [_ E]; contradiction] |].
    split; [discriminate | intros E; contradiction].
  - split; [split; [intros [p E]; discriminate E | intros [_ E]; contradiction] |].
    split; [split; [intros _; split; assumption | reflexivity] |].
    split; [discriminate | intros E; contradiction].
  - split; [split; [intros [p E]; discriminate E | intros [E _]; contradiction] |].
    split; [split; [discriminate | intros [E _]; contradiction] |].
    split; [intros _; exact Hc | reflexivity].
Qed.

(** X6: a sample with a NaN or infinite channel cannot be converted to
    [std::uint32_t]: the call has no defined result, whatever the previous
    colour and the count. *)
Theorem incrementalAvg_not_finite (sample : vec3) (avg numSample : Z) :
  F32.is_finite (vx sample) = false \/ F32.is_finite (vy sample) = false
  \/ F32.is_finite (vz sample) = false ->
  incrementalAvg sample avg numSample = Fault FloatToIntRange.
Proof.
  intros H. unfold incrementalAvg.
  destruct (scale_channel (vx sample)) as [sr | fr] eqn:Er.
  2:{ rewrite (scale_channel_fault _ _ Er). reflexivity. }
  destruct (scale_channel (vy sample)) as [sg | fg] eqn:Eg.
  2:{ rewrite (scale_channel_fault _ _ Eg). reflexivity. }
  destruct (scale_channel (vz sample)) as [sb | fb] eqn:Eb.
  2:{ rewrite (scale_channel_fault _ _ Eb). reflexivity. }
  destruct H as [H | [H | H]]; apply scale_channel_not_finite in H; congruence.
Qed.

Lemma incrementalAvg_not_finite_witness :
  incrementalAvg (Vec3 F32.one S754_nan F32.one) 7 3 = Fault FloatToIntRange.
Proof.
  apply incrementalAvg_not_finite. right. left. reflexivity.
Defined.

(** ** [incrementalAvg]: averaging *)

Lemma current_channel_exact (n old scaled : Z) :
  1 <= n <= 16843009 -> 0 <= old <= 255 -> 0 <= scaled <= 255 ->
  current_channel n old scaled = avg_channel n old scaled.
Proof.
  intros Hn Ho Hs.
  unfold current_channel, avg_channel, U32.add, U32.mul, U32.sub, Int32.to_unsigned,
    Int32.modulus.
  change (2 ^ 32) with 4294967296.
  rewrite (Z.mod_small (n - 1)) by lia.
  rewrite (Z.mod_small ((n - 1) * old)) by nia.
  rewrite (Z.mod_small ((n - 1) * old + scaled)) by nia.
  apply Z.min_comm.
Qed.

Lemma avg_channel_between (n old scaled : Z) :
  1 <= n -> 0 <= old <= 255 -> 0 <= scaled <= 255 ->
  Z.min old scaled <= avg_channel n old scaled <= Z.max old scaled.
Proof.
  intros Hn Ho Hs. unfold avg_channel.
  assert (Hlo : Z.min old scaled <= ((n - 1) * old + scaled) / n).
  { apply Z.div_le_lower_bound; [lia | nia]. }
  assert (Hhi : ((n - 1) * old + scaled) / n <= Z.max old scaled).
  { apply Z.div_le_upper_bound; [lia | nia]. }
  lia.
Qed.

Lemma red_of_range (avg : Z) : 0 <= red_of avg <= 255.
Proof.
  pose proof (channel_bits (Int32.to_unsigned avg) 0 ltac:(lia)) as H.
  rewrite Z.shiftr_0_r in H. exact H.
Qed.

Lemma green_of_range (avg : Z) : 0 <= green_of avg <= 255.
Proof. apply (channel_bits (Int32.to_unsigned avg) 8). lia. Qed.

Lemma blue_of_range (avg : Z) : 0 <= blue_of avg <= 255.
Proof. apply (channel_bits (Int32.to_unsigned avg) 16). lia. Qed.

(** The run for a sample with channels in [[0, 1]] and a count for which the
    32-bit arithmetic does not wrap. *)
Lemma incrementalAvg_unit (sample : vec3) (avg numSample : Z) :
  unit_channel (vx sample) -> unit_channel (vy sample) -> unit_channel (vz sample) ->
  1 <= numSample <= 16843009 ->
  exists sr sg sb packed : Z,
    scale_channel (vx sample) = Ok sr /\ scale_channel (vy sample) = Ok sg
    /\ scale_channel (vz sample) = Ok sb
    /\ 0 <= sr <= 255 /\ 0 <= sg <= 255 /\ 0 <= sb <= 255
    /\ incrementalAvg sample avg numSample = Ok packed
    /\ red_of packed = avg_channel numSample (red_of avg) sr
    /\ green_of packed = avg_channel numSample (green_of avg) sg
    /\ blue_of packed = avg_channel numSample (blue_of avg) sb.
Proof.
  intros (Hvx & Hx0 & Hx1) (Hvy & Hy0 & Hy1) (Hvz & Hz0 & Hz1) Hn.
  destruct (scale_channel_range _ Hvx Hx0 Hx1) as (sr & Hsr & Hr).
  destruct (scale_channel_range _ Hvy Hy0 Hy1) as (sg & Hsg & Hg).
  destruct (scale_channel_range _ Hvz Hz0 Hz1) as (sb & Hsb & Hb).
  assert (Hnu : Int32.to_unsigned numSample = numSample).
  { unfold Int32.to_unsigned, Int32.modulus. change (2 ^ 32) with 4294967296.
    apply Z.mod_small. lia. }
  pose proof (incrementalAvg_run sample avg numSample sr sg sb Hsr Hsg Hsb) as Hrun.
  rewrite Hnu in Hrun. specialize (Hrun ltac:(lia)). cbv zeta in Hrun.
  pose proof (red_of_range avg) as Hlr. pose proof (green_of_range avg) as Hlg.
  pose proof (blue_of_range avg) as Hlb.
  rewrite !current_channel_exact in Hrun by assumption.
  pose proof (avg_channel_between numSample (red_of avg) sr ltac:(lia) Hlr Hr) as Hcr.
  pose proof (avg_channel_between numSample (green_of avg) sg ltac:(lia) Hlg Hg) as Hcg.
  pose proof (avg_channel_between numSample (blue_of avg) sb ltac:(lia) Hlb Hb) as Hcb.
  destruct (unpack (avg_channel numSample (red_of avg) sr)
                   (avg_channel numSample (green_of avg) sg)
                   (avg_channel numSample (blue_of avg) sb))
    as (_ & Ur & Ug & Ub & _); try lia.
  exists sr, sg, sb. eexists. repeat (split; [first [eassumption | lia] |]). exact Ub.
Qed.

(** X7: each channel of the new average lies between the channel of the
    previous colour and the scaled sample: the colour never leaves the range
    the two span, and a colour averaged with itself stays as it is. *)
Theorem incrementalAvg_between (sample : vec3) (avg numSample : Z) :
  unit_channel (vx sample) -> unit_channel (vy sample) -> unit_channel (vz sample) ->
  1 <= numSample <= 16843009 ->
  exists sr sg sb packed : Z,
    scale_channel (vx sample) = Ok sr /\ scale_channel (vy sample) = Ok sg
    /\ scale_channel (vz sample) = Ok sb
    /\ incrementalAvg sample avg numSample = Ok packed
    /\ Z.min (red_of avg) sr <= red_of packed <= Z.max (red_of avg) sr
    /\ Z.min (green_of avg) sg <= green_of packed <= Z.max (green_of avg) sg
    /\ Z.min (blue_of avg) sb <= blue_of packed <= Z.max (blue_of avg) sb.
Proof.
  intros Hx Hy Hz Hn.
  destruct (incrementalAvg_unit sample avg numSample Hx Hy Hz Hn)
    as (sr & sg & sb & packed & Hsr & Hsg & Hsb & Hr & Hg & Hb & Hrun & Ur & Ug & Ub).
  exists sr, sg, sb, packed. rewrite Ur, Ug, Ub.
  repeat (split; [assumption |]).
  split; [| split]; apply avg_channel_between;
    first [lia | apply red_of_range | apply green_of_range | apply blue_of_range
          | assumption].
Qed.

Lemma incrementalAvg_between_witness :
  exists sr sg sb packed : Z,
    scale_channel F32.one = Ok sr /\ scale_channel F32.zero = Ok sg
    /\ scale_channel (F32.ratio 1 2) = Ok sb
    /\ incrementalAvg (Vec3 F32.one F32.zero (F32.ratio 1 2)) 8421504 5 = Ok packed
    /\ Z.min (red_of 8421504) sr <= red_of packed <= Z.max (red_of 8421504) sr
    /\ Z.min (green_of 8421504) sg <= green_of packed <= Z.max (green_of 8421504) sg
    /\ Z.min (blue_of 8421504) sb <= blue_of packed <= Z.max (blue_of 8421504) sb.
Proof.
  apply (incrementalAvg_between (Vec3 F32.one F32.zero (F32.ratio 1 2)) 8421504 5);
    try (repeat split; reflexivity); lia.
Defined.

(** X8: two calls in a row, with counts 1 and 2, leave the truncated mean of
    the two scaled samples in each channel, whatever colour was there
    before. *)
Theorem incrementalAvg_two_samples (first second : vec3) (avg : Z) :
  unit_channel (vx first) -> unit_channel (vy first) -> unit_channel (vz first) ->
  unit_channel (vx second) -> unit_channel (vy second) -> unit_channel (vz second) ->
  exists r1 g1 b1 r2 g2 b2 once twice : Z,
    scale_channel (vx first) = Ok r1 /\ scale_channel (vy first) = Ok g1
    /\ scale_channel (vz first) = Ok b1
    /\ scale_channel (vx second) = Ok r2 /\ scale_channel (vy second) = Ok g2
    /\ scale_channel (vz second) = Ok b2
    /\ incrementalAvg first avg 1 = Ok once
    /\ incrementalAvg second once 2 = Ok twice
    /\ red_of twice = (r1 + r2) / 2 /\ green_of twice = (g1 + g2) / 2
    /\ blue_of twice = (b1 + b2) / 2.
Proof.
  intros Hx1 Hy1 Hz1 Hx2 Hy2 Hz2.
  destruct (incrementalAvg_unit first avg 1 Hx1 Hy1 Hz1 ltac:(lia))
    as (r1 & g1 & b1 & once & Hr1 & Hg1 & Hb1 & Rr1 & Rg1 & Rb1 & Hrun1 & Ur1 & Ug1 & Ub1).
  destruct (incrementalAvg_unit second once 2 Hx2 Hy2 Hz2 ltac:(lia))
    as (r2 & g2 & b2 & twice & Hr2 & Hg2 & Hb2 & Rr2 & Rg2 & Rb2 & Hrun2 & Ur2 & Ug2 & Ub2).
  assert (E : forall old s, 0 <= s <= 255 -> avg_channel 1 old s = s).
  { intros old s Hs. unfold avg_channel.
    rewrite Z.sub_diag, Z.mul_0_l, Z.add_0_l, Z.div_1_r. lia. }
  rewrite E in Ur1, Ug1, Ub1 by assumption.
  rewrite Ur1 in Ur2. rewrite Ug1 in Ug2. rewrite Ub1 in Ub2.
  assert (E2 : forall a b, 0 <= a <= 255 -> 0 <= b <= 255 ->
                           avg_channel 2 a b = (a + b) / 2).
  { intros a b Ha Hb. unfold avg_channel.
    replace ((2 - 1) * a + b) with (a + b) by lia.
    assert ((a + b) / 2 <= 255) by (apply Z.div_le_upper_bound; lia). lia. }
  rewrite E2 in Ur2, Ug2, Ub2 by assumption.
  exists r1, g1, b1, r2, g2, b2, once, twice. repeat (split; [assumption |]). exact Ub2.
Qed.

Lemma incrementalAvg_two_samples_witness :
  exists r1 g1 b1 r2 g2 b2 once twice : Z,
    scale_channel F32.one = Ok r1 /\ scale_channel F32.zero = Ok g1
    /\ scale_channel (F32.ratio 1 2) = Ok b1
    /\ scale_channel F32.zero = Ok r2 /\ scale_channel F32.zero = Ok g2
    /\ scale_channel F32.one = Ok b2
    /\ incrementalAvg (Vec3 F32.one F32.zero (F32.ratio 1 2)) 99 1 = Ok once
    /\ incrementalAvg (Vec3 F32.zero F32.zero F32.one) once 2 = Ok twice
    /\ red_of twice = (r1 + r2) / 2 /\ green_of twice = (g1 + g2) / 2
    /\ blue_of twice = (b1 + b2) / 2.
Proof.
  apply (incrementalAvg_two_samples (Vec3 F32.one F32.zero (F32.ratio 1 2))
           (Vec3 F32.zero F32.zero F32.one) 99);
    repeat split; reflexivity.
Defined.

(** X9: at [numSample = 1] every sample that converts, also one brighter
    than 1.0, gives in each channel its scaled value capped at 255; nothing
    spills into the neighbouring channel. *)
Theorem incrementalAvg_first_sample (sample : vec3) (avg sr sg sb : Z) :
  scale_channel (vx sample) = Ok sr -> scale_channel (vy sample) = Ok sg ->
  scale_channel (vz sample) = Ok sb ->
  exists packed : Z,
    incrementalAvg sample avg 1 = Ok packed
    /\ red_of packed = Z.min sr 255 /\ green_of packed = Z.min sg 255
    /\ blue_of packed = Z.min sb 255 /\ alpha_of packed = 255.
Proof.
  intros Hr Hg Hb.
  pose proof (incrementalAvg_run sample avg 1 sr sg sb Hr Hg Hb) as Hrun.
  change (Int32.to_unsigned 1) with 1 in Hrun. specialize (Hrun ltac:(lia)).
  cbv zeta in Hrun.
  assert (E : forall old s, 0 <= s < Int32.modulus -> current_channel 1 old s = Z.min s 255).
  { intros old s Hs. unfold current_channel.
    change (U32.sub 1 1) with 0. unfold U32.mul. rewrite Z.mul_0_l.
    change (Int32.to_unsigned 0) with 0. unfold U32.add, Int32.to_unsigned.
    rewrite Z.add_0_l, Z.div_1_r, Z.mod_small by exact Hs. reflexivity. }
  unfold scale_channel in Hr, Hg, Hb.
  apply to_uint32_range in Hr, Hg, Hb.
  rewrite !E in Hrun by assumption.
  destruct (unpack (Z.min sr 255) (Z.min sg 255) (Z.min sb 255))
    as (_ & Ur & Ug & Ub & Ua); try lia.
  eexists. split; [exact Hrun |]. repeat split; assumption.
Qed.

Lemma incrementalAvg_first_sample_witness :
  exists packed : Z,
    incrementalAvg (Vec3 F32.two F32.one F32.zero) 0 1 = Ok packed
    /\ red_of packed = Z.min 510 255 /\ green_of packed = Z.min 255 255
    /\ blue_of packed = Z.min 0 255 /\ alpha_of packed = 255.
Proof.
  apply (incrementalAvg_first_sample (Vec3 F32.two F32.one F32.zero) 0 510 255 0);
    reflexivity.
Defined.

(** ** [equal]: symmetry, and what it takes for two numbers to be equal *)

Lemma abs_opp (x : F32.float) : F32.abs (F32.opp x) = F32.abs x.
Proof. destruct x; reflexivity. Qed.

Lemma abs_sub_swap (a b : F32.float) : F32.abs (F32.sub a b) = F32.abs (F32.sub b a).
Proof.
  destruct a as [sa | sa | | sa ma ea], b as [sb | sb | | sb mb eb];
    try (destruct sa, sb; reflexivity); try reflexivity.
  destruct (sub_swap sa ma ea sb mb eb) as [H | [H1 H2]]; cbv zeta in *.
  - rewrite H. symmetry. apply abs_opp.
  - rewrite H1, H2. reflexivity.
Qed.

(** X10: [equal] does not depend on the order of its arguments, whatever they
    are (NaN and the infinities included). *)
Theorem equal_sym (Epsilon a b : F32.float) :
  equal Epsilon a b = equal Epsilon b a.
Proof. unfold equal. rewrite (abs_sub_swap a b). reflexivity. Qed.

Lemma ltb_abs_inf (x Epsilon : F32.float) :
  F32.is_inf x = true -> F32.ltb (F32.abs x) Epsilon = false.
Proof.
  destruct x as [s | s | | s m e]; try discriminate. intros _.
  destruct Epsilon as [t | t | | t me ee]; try reflexivity; destruct t; reflexivity.
Qed.

Lemma equal_valid_l (Epsilon a b : F32.float) :
  equal Epsilon a b = true -> isValid a = true.
Proof.
  unfold equal.
  destruct a as [sa | sa | | sa ma ea]; try (intros _; reflexivity).
  - destruct b as [sb | sb | | sb mb eb]; intros H; exfalso;
      first [ rewrite (ltb_abs_inf _ Epsilon) in H by reflexivity; discriminate H
            | destruct sa, sb;
              first [ discriminate H
                    | rewrite (ltb_abs_inf _ Epsilon) in H by reflexivity;
                      discriminate H ]
            | discriminate H ].
  - intros H. discriminate H.
Qed.

Lemma equal_valid_r (Epsilon a b : F32.float) :
  equal Epsilon a b = true -> isValid b = true.
Proof.
  unfold equal. rewrite (abs_sub_swap a b). apply equal_valid_l.
Qed.

Lemma equal_self (Epsilon a : F32.float) :
  F32.ltb F32.zero Epsilon = true -> equal Epsilon a a = isValid a.
Proof.
  intros He. destruct a as [s | s | | s m e].
  - apply (equal_same Epsilon (S754_zero s) He). reflexivity.
  - destruct s; reflexivity.
  - reflexivity.
  - apply (equal_same Epsilon (S754_finite s m e) He). reflexivity.
Qed.

(** X11: two numbers can only be [equal] when both are valid (neither NaN
    nor infinite), and a number is [equal] to itself exactly when it is
    valid. *)
Theorem equal_valid (Epsilon a b : F32.float) :
  F32.ltb F32.zero Epsilon = true ->
  (equal Epsilon a b = true -> isValid a = true /\ isValid b = true)
  /\ equal Epsilon a a = isValid a.
Proof.
  intros He. split.
  - intros H. split; [exact (equal_valid_l _ _ _ H) | exact (equal_valid_r _ _ _ H)].
  - apply equal_self. exact He.
Qed.

Lemma equal_valid_witness :
  (equal epsilon_1e6 F32.one F32.two = true ->
   isValid F32.one = true /\ isValid F32.two = true)
  /\ equal epsilon_1e6 F32.one F32.one = isValid F32.one.
Proof. apply equal_valid. reflexivity. Defined.

(** ** [equal] on vectors *)

Lemma equal_vec3_three (Epsilon : F32.float) (v w : vec3) :
  equal_vec3 3 Epsilon v w =
    Some (equal Epsilon (vx v) (vx w) && equal Epsilon (vy v) (vy w)
          && equal Epsilon (vz v) (vz w)).
Proof.
  unfold equal_vec3. change (map Z.of_nat (seq 1 (Z.to_nat 3 - 1))) with [1; 2].
  cbn [fold_left]. unfold equal_vec3_step. cbn [component Z.eqb Pos.eqb].
  destruct (equal Epsilon (vx v) (vx w)); [| reflexivity].
  destruct (equal Epsilon (vy v) (vy w)); reflexivity.
Qed.

(** X12: with the three axes of a [vec3], two vectors are [equal] exactly
    when their three pairs of components are; the order of the vectors does
    not matter, and a vector is [equal] to itself exactly when its three
    components are valid. *)
Theorem equal_vec3_spec (Epsilon : F32.float) (v w : vec3) :
  F32.ltb F32.zero Epsilon = true ->
  equal_vec3 3 Epsilon v w =
    Some (equal Epsilon (vx v) (vx w) && equal Epsilon (vy v) (vy w)
          && equal Epsilon (vz v) (vz w))
  /\ equal_vec3 3 Epsilon v w = equal_vec3 3 Epsilon w v
  /\ equal_vec3 3 Epsilon v v = Some (isValid (vx v) && isValid (vy v) && isValid (vz v)).
Proof.
  intros He. rewrite !equal_vec3_three. split; [reflexivity |]. split.
  - unfold equal. rewrite (abs_sub_swap (vx v)), (abs_sub_swap (vy v)),
      (abs_sub_swap (vz v)). reflexivity.
  - rewrite !(equal_self Epsilon) by exact He. reflexivity.
Qed.

Lemma equal_vec3_spec_witness :
  equal_vec3 3 epsilon_1e6 (Vec3 F32.one F32.two F32.zero) (Vec3 F32.one F32.one F32.zero) =
    Some (equal epsilon_1e6 F32.one F32.one && equal epsilon_1e6 F32.two F32.one
          && equal epsilon_1e6 F32.zero F32.zero)
  /\ equal_vec3 3 epsilon_1e6 (Vec3 F32.one F32.two F32.zero) (Vec3 F32.one F32.one F32.zero)
     = equal_vec3 3 epsilon_1e6 (Vec3 F32.one F32.one F32.zero) (Vec3 F32.one F32.two F32.zero)
  /\ equal_vec3 3 epsilon_1e6 (Vec3 F32.one F32.two F32.zero) (Vec3 F32.one F32.two F32.zero)
     = Some (isValid F32.one && isValid F32.two && isValid F32.zero).
Proof.
  apply (equal_vec3_spec epsilon_1e6 (Vec3 F32.one F32.two F32.zero)
           (Vec3 F32.one F32.one F32.zero)).
  reflexivity.
Defined.

(** ** [checkSystemError]: what a throwing call leaves behind *)

Lemma string_app_assoc (a b c : string) : ((a ++ b) ++ c = a ++ (b ++ c))%string.
Proof. induction a as [| ch a IH]; [reflexivity | cbn; f_equal; exact IH]. Qed.

Section CheckSystemErrorAfter.

Import Diagnostics.

Variables EWOULDBLOCK EINVAL : Z.
Variable getErrorCode : Z -> ErrorType.
Variable strerror : Z -> string.
Variable unix_like : bool.
Variables sc_phys_pages sc_avphys_pages sc_pagesize : Z.
Variable locale_installed : string -> bool.
Variable setlocale_errno : string -> process -> Z.

Let check : string -> M unit :=
  checkSystemError EWOULDBLOCK EINVAL getErrorCode strerror unix_like
    sc_phys_pages sc_avphys_pages sc_pagesize locale_installed setlocale_errno.

(** The entries a throwing call logs, in order; [e] is the [errno] that
    [setlocale] left, which lines 246 to 252 read. *)
Lemma check_reported_log (message : string) (st : process) :
  is_reported EWOULDBLOCK EINVAL (errno st) = true ->
  let e := setlocale_errno "en_US.UTF-8" st in
  let what := error_message getErrorCode strerror message e in
  check message st =
    (Thrown what,
     Process 0 (if locale_installed "en_US.UTF-8" then "en_US.UTF-8" else locale st),
     [LogDebug ("Called checkSystemError: " ++ message);
      LogDebug ("errorCode: " ++ codeText (getErrorCode e));
      LogError ("errorMessage: " ++ what)]
     ++ (if unix_like
         then [LogInfo ("Available memory: " ++
                        to_string (Z.quot (sc_phys_pages * sc_pagesize) 1048576)
                        ++ " MB");
               LogInfo ("Free memory: " ++
                        to_string (Z.quot (sc_avphys_pages * sc_pagesize) 1048576)
                        ++ " MB")]
         else [])).
Proof.
  intros H e what. unfold check, checkSystemError, bind, get_errno, log, setlocale,
    set_errno, throw, when, ret. cbn [errno locale].
  fold (is_reported EWOULDBLOCK EINVAL (errno st)). rewrite H. cbn [errno locale].
  destruct unix_like; reflexivity.
Qed.

(** X13: a call that throws clears the error: a second call, with any
    message, made in the state the first one left returns normally and
    changes nothing. *)
Theorem checkSystemError_clears (message again : string) (st : process) :
  errno st <> 0 -> errno st <> EWOULDBLOCK -> errno st <> EINVAL ->
  exists (what : string) (st' : process) (entries : list log_entry),
    check message st = (Thrown what, st', entries)
    /\ check again st' =
         (Returned tt, st', [LogDebug ("Called checkSystemError: " ++ again)]).
Proof.
  intros H0 H1 H2.
  assert (H : is_reported EWOULDBLOCK EINVAL (errno st) = true).
  { apply is_reported_iff. repeat split; assumption. }
  pose proof (check_reported_log message st H) as Hrun. cbv zeta in Hrun.
  eexists. eexists. eexists. split; [exact Hrun |].
  apply (check_ignored EWOULDBLOCK EINVAL getErrorCode strerror unix_like
           sc_phys_pages sc_avphys_pages sc_pagesize locale_installed setlocale_errno).
  reflexivity.
Qed.

(** X14: what a call that throws leaves behind.  The locale of the process
    is [en_US.UTF-8] when the host has that locale, whatever it was before,
    and is what it was when the host has not; it is not restored.  The text
    thrown has been logged as an error before, and it ends with the number
    and the [strerror] text of the [errno] that [setlocale] left, not of the
    one found at the call and not of the cleared one.
    Three entries are logged, and five where the two memory lines are
    compiled in. *)
Theorem checkSystemError_report (message : string) (st : process) :
  errno st <> 0 -> errno st <> EWOULDBLOCK -> errno st <> EINVAL ->
  exists (what : string) (st' : process) (entries : list log_entry),
    check message st = (Thrown what, st', entries)
    /\ locale st' =
         (if locale_installed "en_US.UTF-8" then "en_US.UTF-8"%string else locale st)
    /\ List.In (LogError ("errorMessage: " ++ what)) entries
    /\ (let e := setlocale_errno "en_US.UTF-8" st in
        exists before : string,
          what = (before ++ "errno (" ++ to_string e ++ "): " ++ strerror e)%string)
    /\ (unix_like = false -> List.length entries = 3%nat)
    /\ (unix_like = true -> List.length entries = 5%nat).
Proof.
  intros H0 H1 H2.
  assert (H : is_reported EWOULDBLOCK EINVAL (errno st) = true).
  { apply is_reported_iff. repeat split; assumption. }
  pose proof (check_reported_log message st H) as Hrun. cbv zeta in Hrun.
  assert (Tail : forall e : Z,
             error_message getErrorCode strerror message e
             = ((message ++ newline ++ codeText (getErrorCode e) ++ newline ++
                 description (getErrorCode e) ++ newline)
                ++ "errno (" ++ to_string e ++ "): " ++ strerror e)%string).
  { intros e. unfold error_message. rewrite <- !string_app_assoc. reflexivity. }
  eexists. eexists. eexists. split; [exact Hrun |].
  split; [reflexivity |]. split; [| split; [| split]].
  - apply in_or_app. left. right. right. left. reflexivity.
  - cbv zeta. eexists. apply Tail.
  - intros ->. reflexivity.
  - intros ->. reflexivity.
Qed.

End CheckSystemErrorAfter.

Lemma checkSystemError_clears_witness :
  exists (what : string) (st' : Diagnostics.process)
         (entries : list Diagnostics.log_entry),
    Diagnostics.checkSystemError 11 22 (fun e => Diagnostics.MkErrorType e "ENOENT" "No such file")
      (fun _ => "No such file or directory"%string) true 1000 500 4096
      (fun _ => false) (fun _ _ => 2) "open"
      (Diagnostics.Process 13 "C") = (Diagnostics.Thrown what, st', entries)
    /\ Diagnostics.checkSystemError 11 22
         (fun e => Diagnostics.MkErrorType e "ENOENT" "No such file")
         (fun _ => "No such file or directory"%string) true 1000 500 4096
         (fun _ => false) (fun _ _ => 2) "again" st'
       = (Diagnostics.Returned tt, st',
          [Diagnostics.LogDebug ("Called checkSystemError: " ++ "again")]).
Proof.
  apply (checkSystemError_clears 11 22
           (fun e => Diagnostics.MkErrorType e "ENOENT" "No such file")
           (fun _ => "No such file or directory"%string) true 1000 500 4096
           (fun _ => false) (fun _ _ => 2)
           "open" "again" (Diagnostics.Process 13 "C")); cbn; lia.
Defined.

Lemma checkSystemError_report_witness :
  exists (what : string) (st' : Diagnostics.process)
         (entries : list Diagnostics.log_entry),
    Diagnostics.checkSystemError 11 22 (fun e => Diagnostics.MkErrorType e "ENOENT" "No such file")
      (fun _ => "No such file or directory"%string) false 1000 500 4096
      (fun _ => false) (fun _ _ => 2) "open"
      (Diagnostics.Process 13 "C") = (Diagnostics.Thrown what, st', entries)
    /\ Diagnostics.locale st' = "C"%string
    /\ List.In (Diagnostics.LogError ("errorMessage: " ++ what)) entries
    /\ (exists before : string,
          what = (before ++ "errno (" ++ Diagnostics.to_string 2 ++ "): "
                         ++ "No such file or directory")%string)
    /\ (false = false -> List.length entries = 3%nat)
    /\ (false = true -> List.length entries = 5%nat).
Proof.
  apply (checkSystemError_report 11 22
           (fun e => Diagnostics.MkErrorType e "ENOENT" "No such file")
           (fun _ => "No such file or directory"%string) false 1000 500 4096
           (fun _ => false) (fun _ _ => 2)
           "open" (Diagnostics.Process 13 "C")); cbn; lia.
Defined.

(** ** Results that are at most one *)

Lemma leb_finite_intro (m1 : positive) (e1 : Z) (m2 : positive) (e2 : Z) :
  e1 < e2 \/ (e1 = e2 /\ Zpos m1 <= Zpos m2) ->
  F32.leb (S754_finite false m1 e1) (S754_finite false m2 e2) = true.
Proof.
  intros H. unfold F32.leb, SFleb, SFcompare. fold_pos_compare.
  destruct (Z.compare_spec e1 e2); [| reflexivity | lia].
  destruct (Pos.compare_spec m1 m2); try reflexivity. lia.
Qed.

(** A rounded value whose exact value is below 1 is at most 1. *)
Lemma round_post_unit (N d ex : Z) (F : spec_float) :
  round_post false N d ex F -> Zdigits2 (N / d) + ex <= 0 -> unit_channel F.
Proof.
  unfold round_post, unit_channel. intros H Hd.
  set (E := Z.max (Zdigits2 (N / d) + ex - 24) (-149)) in *.
  assert (HE : E <= -24) by (unfold E; lia).
  destruct F as [s | s | | s m e].
  - destruct H as (-> & _). repeat split.
  - destruct H as (_ & H & _). lia.
  - contradiction.
  - destruct H as (-> & Hb & He & Hc & _).
    split; [exact Hb |]. split; [reflexivity |].
    change F32.one with (S754_finite false 8388608 (-23)).
    apply leb_finite_intro.
    destruct (Z.eq_dec e (-23)) as [E23 | NE]; [| left; lia].
    right. split; [exact E23 |]. rewrite (Hc ltac:(lia)).
    change (2 ^ 23) with 8388608. lia.
Qed.

Lemma leb_negative_one (F : F32.float) :
  match F with
  | S754_zero s | S754_infinity s | S754_finite s _ _ => s = true
  | S754_nan => False
  end ->
  F32.leb F F32.one = true.
Proof. destruct F as [s | s | | s m e]; intros H; try contradiction; subst; reflexivity. Qed.

(** A quotient of a number by a positive number that is not below it is at
    most one. *)
Lemma div_le_one (x : F32.float) (my : positive) (ey : Z) :
  F32.valid x = true -> F32.is_finite x = true -> bounded 24 128 my ey = true ->
  F32.leb x (S754_finite false my ey) = true ->
  F32.is_nan (F32.div x (S754_finite false my ey)) = false
  /\ F32.leb (F32.div x (S754_finite false my ey)) F32.one = true.
Proof.
  intros Hv Hf Hby Hle.
  destruct x as [s | s | | s mx ex]; try discriminate Hf.
  - destruct s; split; reflexivity.
  - cbn [F32.valid valid_binary] in Hv.
    destruct s.
    + pose proof (div_bracket true mx ex false my ey Hv Hby) as B.
      destruct (F32.div (S754_finite true mx ex) (S754_finite false my ey))
        as [s' | s' | | s' m' e']; cbn [bracket xorb] in B; try contradiction;
        (split; [reflexivity | apply leb_negative_one; tauto]).
    + destruct (Z.eq_dec ex ey) as [Ee | Ne].
      * destruct (Z.eq_dec (Zpos mx) (Zpos my)) as [Em | Nm].
        -- injection Em as ->. subst ey. rewrite (div_self false my ex Hv).
           split; reflexivity.
        -- pose proof (leb_finite_cases mx ex my ey Hle) as Hc.
           pose proof (div_post false mx ex false my ey Hv Hby) as P. cbv zeta in P.
           cbn [xorb] in P.
           set (e' := div_exp mx ex my ey) in *.
           assert (He' : e' <= 0) by (unfold e', div_exp; lia).
           assert (Hk : ex - ey - e' = - e') by lia. rewrite Hk in P.
           assert (Hp : 0 < 2 ^ (- e')) by (apply Z.pow_pos_nonneg; lia).
           assert (Hq : 0 <= Zpos mx * 2 ^ (- e') / Zpos my < 2 ^ (- e')).
           { split; [apply Z.div_pos; nia |].
             apply Z.div_lt_upper_bound; [lia | nia]. }
           pose proof (Zdigits2_upper _ (- e') ltac:(lia) Hq) as Hd.
           pose proof (round_post_unit _ _ _ _ P ltac:(lia)) as (U1 & U2 & U3).
           split; [| exact U3].
           destruct (F32.div _ _); try reflexivity. discriminate U2.
      * pose proof (leb_finite_cases mx ex my ey Hle) as Hc.
        assert (Hlt : ex < ey) by lia.
        pose proof (bounded_facts mx ex Hv) as (Hdx & Hex & _).
        pose proof (bounded_facts my ey Hby) as (Hdy & Hey & Hny).
        assert (Hdy24 : Zdigits2 (Zpos my) = 24) by lia.
        pose proof (Zdigits2_bounds (Zpos my) ltac:(lia)) as [Hmy _].
        rewrite Hdy24 in Hmy. change (2 ^ (24 - 1)) with 8388608 in Hmy.
        pose proof (Zdigits2_bounds (Zpos mx) ltac:(lia)) as [_ Hmx].
        assert (Hmx24 : Zpos mx < 16777216).
        { assert (2 ^ Zdigits2 (Zpos mx) <= 2 ^ 24) by (apply Z.pow_le_mono_r; lia).
          change (2 ^ 24) with 16777216 in *. lia. }
        pose proof (div_post false mx ex false my ey Hv Hby) as P. cbv zeta in P.
        cbn [xorb] in P.
        set (e' := div_exp mx ex my ey) in *.
        assert (He' : e' <= ex - ey) by (unfold e', div_exp; lia).
        set (k := ex - ey - e') in *.
        assert (Hk0 : 0 <= k) by (unfold k; lia).
        assert (Hsplit : 2 ^ (- e') = 2 ^ k * 2 ^ (ey - ex)).
        { rewrite <- Z.pow_add_r by lia. f_equal. unfold k. lia. }
        assert (Hpk : 0 < 2 ^ k) by (apply Z.pow_pos_nonneg; lia).
        assert (Hpd : 2 <= 2 ^ (ey - ex)).
        { change 2 with (2 ^ 1) at 1. apply Z.pow_le_mono_r; lia. }
        assert (Hq : 0 <= Zpos mx * 2 ^ k / Zpos my < 2 ^ (- e')).
        { split; [apply Z.div_pos; nia |].
          apply Z.div_lt_upper_bound; [lia |]. rewrite Hsplit. nia. }
        pose proof (Zdigits2_upper _ (- e') ltac:(lia) Hq) as Hd.
        pose proof (round_post_unit _ _ _ _ P ltac:(lia)) as (U1 & U2 & U3).
        split; [| exact U3].
        destruct (F32.div _ _); try reflexivity. discriminate U2.
Qed.

Lemma compare_swap (x y : F32.float) :
  SFcompare y x = option_map CompOpp (SFcompare x y).
Proof.
  destruct x as [sx | sx | | sx mx ex], y as [sy | sy | | sy my ey];
    cbn [SFcompare option_map]; try reflexivity;
    try (destruct sx; reflexivity); try (destruct sy; reflexivity);
    try (destruct sx, sy; reflexivity).
  fold_pos_compare. rewrite (Z.compare_antisym ex ey), (Pos.compare_antisym mx my).
  destruct sx, sy; try reflexivity;
    destruct (ex ?= ey); cbn [CompOpp]; try reflexivity;
    destruct (mx ?= my)%positive; reflexivity.
Qed.

Lemma leb_not_gtb (x y : F32.float) : F32.leb x y = true -> F32.gtb x y = false.
Proof.
  unfold F32.leb, F32.gtb, SFleb, SFltb. rewrite (compare_swap x y).
  destruct (SFcompare x y) as [[| |] |]; cbn [option_map CompOpp];
    try discriminate; reflexivity.
Qed.

Lemma isValid_finite (x : F32.float) : isValid x = true -> F32.is_finite x = true.
Proof. destruct x; try discriminate; reflexivity. Qed.

Lemma valid_color_no_nan (c : vec3) : valid_color c -> no_nan c.
Proof.
  intros ((_ & Hx) & (_ & Hy) & (_ & Hz)). unfold no_nan.
  destruct (vx c), (vy c), (vz c); try discriminate; repeat split.
Qed.

(** The components of a normalized colour. *)
Lemma normalize_bounded (color : vec3) :
  valid_color color ->
  no_nan (normalize color)
  /\ F32.leb (vx (normalize color)) F32.one = true
  /\ F32.leb (vy (normalize color)) F32.one = true
  /\ F32.leb (vz (normalize color)) F32.one = true.
Proof.
  intros Hc. pose proof (valid_color_no_nan color Hc) as Hn.
  destruct (max3_greatest color Hn) as (Hin & Lx & Ly & Lz).
  destruct Hc as ((Vx & Fx) & (Vy & Fy) & (Vz & Fz)).
  apply isValid_finite in Fx, Fy, Fz.
  assert (Hm : F32.valid (max3 color) = true /\ F32.is_finite (max3 color) = true).
  { destruct Hin as [-> | [-> | ->]]; split; assumption. }
  destruct Hm as [Vm Fm].
  unfold normalize. destruct (F32.gtb (max3 color) F32.one) eqn:G.
  - unfold F32.gtb in G.
    destruct (max3 color) as [sm | sm | | sm mm em]; try discriminate Fm.
    + destruct sm; discriminate G.
    + destruct sm; [discriminate G |]. cbn [F32.valid valid_binary] in Vm.
      destruct (div_le_one (vx color) mm em Vx Fx Vm Lx) as [Nx Ux].
      destruct (div_le_one (vy color) mm em Vy Fy Vm Ly) as [Ny Uy].
      destruct (div_le_one (vz color) mm em Vz Fz Vm Lz) as [Nz Uz].
      unfold no_nan, glm.div_scalar. cbn [vx vy vz]. repeat split; assumption.
  - assert (Lm : F32.leb (max3 color) F32.one = true).
    { apply ltb_false_leb; [reflexivity | | exact G].
      destruct (max3 color); try discriminate Fm; reflexivity. }
    split; [exact Hn |].
    repeat split; eapply leb_trans; eauto.
Qed.

(** X15: every component of a normalized valid colour is at most 1.0, and
    normalizing once more changes nothing. *)
Theorem normalize_idempotent (color : vec3) :
  valid_color color ->
  F32.leb (vx (normalize color)) F32.one = true
  /\ F32.leb (vy (normalize color)) F32.one = true
  /\ F32.leb (vz (normalize color)) F32.one = true
  /\ normalize (normalize color) = normalize color.
Proof.
  intros Hc. destruct (normalize_bounded color Hc) as (Hn & Ux & Uy & Uz).
  repeat (split; [assumption |]).
  destruct (max3_greatest (normalize color) Hn) as (Hin & _).
  assert (Lm : F32.leb (max3 (normalize color)) F32.one = true).
  { destruct Hin as [-> | [-> | ->]]; assumption. }
  apply leb_not_gtb in Lm.
  unfold normalize at 1. rewrite Lm. reflexivity.
Qed.

Lemma normalize_idempotent_witness :
  F32.leb (vx (normalize (Vec3 F32.two F32.one (F32.ratio 1 3)))) F32.one = true
  /\ F32.leb (vy (normalize (Vec3 F32.two F32.one (F32.ratio 1 3)))) F32.one = true
  /\ F32.leb (vz (normalize (Vec3 F32.two F32.one (F32.ratio 1 3)))) F32.one = true
  /\ normalize (normalize (Vec3 F32.two F32.one (F32.ratio 1 3)))
     = normalize (Vec3 F32.two F32.one (F32.ratio 1 3)).
Proof.
  apply normalize_idempotent. repeat split; reflexivity.
Defined.

Lemma above_one_finite (x : F32.float) :
  F32.valid x = true -> isValid x = true -> F32.gtb x F32.one = true ->
  exists (m : positive) (e : Z), x = S754_finite false m e /\ bounded 24 128 m e = true.
Proof.
  unfold F32.gtb. intros Hv Hf G.
  destruct x as [s | s | | s m e]; try discriminate Hf.
  - destruct s; discriminate G.
  - destruct s; [discriminate G |]. exists m, e. split; [reflexivity | exact Hv].
Qed.

(** X16: when the largest component of a valid colour is above 1.0, it is
    exactly 1.0 after [normalize]. *)
Theorem normalize_largest_is_one (color : vec3) :
  valid_color color -> F32.gtb (max3 color) F32.one = true ->
  max3 (normalize color) = F32.one.
Proof.
  intros Hc G. destruct (normalize_bounded color Hc) as (Hn & Ux & Uy & Uz).
  destruct (max3_greatest (normalize color) Hn) as (Hin' & Lx' & Ly' & Lz').
  assert (Lm : F32.leb (max3 (normalize color)) F32.one = true).
  { destruct Hin' as [-> | [-> | ->]]; assumption. }
  pose proof (valid_color_no_nan color Hc) as Hn0.
  destruct (max3_greatest color Hn0) as (Hin & _).
  destruct Hc as ((Vx & Fx) & (Vy & Fy) & (Vz & Fz)).
  assert (Hone : F32.leb F32.one (max3 (normalize color)) = true).
  { assert (Vm : F32.valid (max3 color) = true /\ isValid (max3 color) = true).
    { destruct Hin as [-> | [-> | ->]]; split; assumption. }
    destruct (above_one_finite _ (proj1 Vm) (proj2 Vm) G) as (m & e & Em & Hb).
    unfold normalize in Lx', Ly', Lz' |- *. rewrite G in Lx', Ly', Lz' |- *.
    unfold glm.div_scalar in Lx', Ly', Lz' |- *. cbn [vx vy vz] in Lx', Ly', Lz'.
    destruct Hin as [E | [E | E]]; rewrite <- E in Lx', Ly', Lz' |- *;
      rewrite Em in Lx', Ly', Lz' |- *;
      rewrite (div_self false m e Hb) in Lx', Ly', Lz' |- *; assumption. }
  change F32.one with (S754_finite false 8388608 (-23)) in Hone, Lm |- *.
  apply (leb_antisym_finite _ false 8388608 (-23) Hone Lm).
Qed.

Lemma normalize_largest_is_one_witness :
  max3 (normalize (Vec3 (F32.ratio 1 3) (F32.of_Z 7) F32.two)) = F32.one.
Proof.
  apply normalize_largest_is_one; [repeat split; reflexivity | reflexivity].
Defined.

(** ** [normalize] on texture coordinates: the fractional part *)

(** An integer below [2^24] converts to binary32 without rounding. *)
Lemma binary_round_exact (s : bool) (q : positive) :
  Zpos q < 2 ^ 24 ->
  exists (mq : positive) (eq : Z),
    binary_round 24 128 s q 0 = S754_finite s mq eq
    /\ bounded 24 128 mq eq = true /\ -23 <= eq <= 0
    /\ Zpos mq = Zpos q * 2 ^ (- eq).
Proof.
  intros Hq. pose proof (binary_round_post s q 0) as H. cbv zeta in H.
  pose proof (Zdigits2_pos (Zpos q) ltac:(lia)) as Hd1.
  pose proof (Zdigits2_upper (Zpos q) 24 ltac:(lia) ltac:(lia)) as Hd2.
  set (dq := Zdigits2 (Zpos q)) in *.
  replace (Z.min 0 (Z.max (dq + 0 - 24) (-149))) with (dq - 24) in H by lia.
  replace (0 - (dq - 24)) with (24 - dq) in H by lia.
  assert (Hpos : 0 < Zpos q * 2 ^ (24 - dq)).
  { apply Z.mul_pos_pos; [lia | apply Z.pow_pos_nonneg; lia]. }
  destruct (Zpos q * 2 ^ (24 - dq)) as [| mq | mq] eqn:Em; try lia.
  assert (Hdm : Zdigits2 (Zpos mq) = 24).
  { rewrite <- Em, Zdigits2_shift by lia. fold dq. lia. }
  assert (Hb : bounded 24 128 mq (dq - 24) = true).
  { apply bounded_intro; rewrite ?Hdm; lia. }
  exists mq, (dq - 24). split; [| split; [exact Hb | split; [lia |]]].
  - eapply round_post_near; [ | | exact H | exact Hb | | | ]; cbv zeta;
      rewrite ?Z.div_1_r, ?Hdm; try lia.
    rewrite Z.sub_diag, Z.pow_0_r.
    replace (Z.max (24 + (dq - 24) - 24) (-149) - (dq - 24)) with 0 by lia.
    rewrite Z.pow_0_r. lia.
  - replace (- (dq - 24)) with (24 - dq) by lia. symmetry. exact Em.
Qed.

(** Normalizing an integer multiple of [2^ez] that is below 1. *)
Lemma binary_normalize_unit (D ez : Z) :
  0 <= D -> Zdigits2 D + ez <= 0 ->
  unit_channel (binary_normalize 24 128 D ez false).
Proof.
  intros HD Hd. destruct D as [| p | p]; try lia.
  - repeat split.
  - cbn [binary_normalize].
    pose proof (binary_round_post false p ez) as H. cbv zeta in H.
    apply (round_post_unit _ _ _ _ H). rewrite Z.div_1_r.
    set (ez' := Z.min ez (Z.max (Zdigits2 (Zpos p) + ez - 24) (-149))) in *.
    rewrite Zdigits2_shift by lia. lia.
Qed.

Lemma below_one_unit (m : positive) (e : Z) :
  bounded 24 128 m e = true -> Zdigits2 (Zpos m) + e <= 0 ->
  unit_channel (S754_finite false m e).
Proof.
  intros Hb Hd. split; [exact Hb |]. split; [reflexivity |].
  pose proof (bounded_elim m e Hb) as [Hc _].
  change F32.one with (S754_finite false 8388608 (-23)).
  apply leb_finite_intro. left. lia.
Qed.

(** The fractional part of a finite number is in [[0, 1]]. *)
Lemma fract_unit (x : F32.float) :
  F32.valid x = true -> isValid x = true -> unit_channel (fract x).
Proof.
  intros Hv Hf. unfold fract.
  destruct x as [s | s | | s m e]; try discriminate Hf.
  - destruct s; repeat split.
  - cbn [F32.valid valid_binary] in Hv.
    destruct e as [| pe | p].
    + unfold std_floor. rewrite sub_diag by reflexivity. repeat split.
    + unfold std_floor. rewrite sub_diag by reflexivity. repeat split.
    + unfold std_floor. cbv zeta. rewrite Z.shiftr_div_pow2 by lia.
      set (P := 2 ^ Zpos p). assert (HP : 0 < P) by (apply Z.pow_pos_nonneg; lia).
      set (sm := cond_Zopp s (Zpos m)).
      pose proof (Z.div_mod sm P ltac:(lia)) as Hdiv.
      pose proof (Z.mod_pos_bound sm P HP) as Hr.
      pose proof (bounded_facts m (Zneg p) Hv) as (Hdm & _ & _).
      pose proof (Zdigits2_bounds (Zpos m) ltac:(lia)) as [_ Hmhi].
      assert (Hm24 : Zpos m < 2 ^ 24).
      { eapply Z.lt_le_trans; [exact Hmhi | apply Z.pow_le_mono_r; lia]. }
      assert (HP2 : 2 <= P).
      { unfold P. change 2 with (2 ^ 1) at 1. apply Z.pow_le_mono_r; lia. }
      destruct (Z.eqb_spec (sm / P) 0) as [Eq0 | Nq0].
      * (* the number is in [0, 1) *)
        assert (Hs : s = false).
        { destruct s; [| reflexivity]. exfalso. unfold sm in *. cbn [cond_Zopp] in *.
          change (- Zpos m) with (Zneg m) in *. nia. }
        subst s. cbn [F32.sub SFsub]. unfold F32.sub, SFsub.
        apply below_one_unit; [exact Hv |].
        unfold sm in *. cbn [cond_Zopp] in *.
        assert (Hlt : 0 <= Zpos m < 2 ^ Zpos p) by (fold P; nia).
        pose proof (Zdigits2_upper (Zpos m) (Zpos p) ltac:(lia) Hlt). lia.
      * set (q := sm / P) in *.
        assert (Hqs : if s then q < 0 else 0 < q).
        { destruct s; unfold sm in *; cbn [cond_Zopp] in *;
            [change (- Zpos m) with (Zneg m) in * |]; nia. }
        assert (Hqabs : Z.abs q < 2 ^ 24).
        { destruct s; unfold sm in *; cbn [cond_Zopp] in *;
            [change (- Zpos m) with (Zneg m) in * |]; nia. }
        assert (Hof : exists (mq : positive) (eq : Z),
                   F32.of_Z q = S754_finite s mq eq /\ -23 <= eq <= 0
                   /\ Zpos mq = Z.abs q * 2 ^ (- eq)).
        { unfold F32.of_Z, F32.prec, F32.emax.
          destruct q as [| pq | pq]; [lia | |].
          - destruct s; [lia |]. cbn [binary_normalize].
            destruct (binary_round_exact false pq ltac:(lia)) as (mq & eq & E1 & _ & E2 & E3).
            exists mq, eq. repeat split; try assumption; lia.
          - destruct s; [| lia]. cbn [binary_normalize].
            destruct (binary_round_exact true pq ltac:(cbn in Hqabs; lia))
              as (mq & eq & E1 & _ & E2 & E3).
            exists mq, eq. repeat split; try assumption; lia. }
        destruct Hof as (mq & eq & -> & Heq & Hmq).
        unfold F32.sub, SFsub. rewrite !shl_align_fst by lia.
        set (ez := Z.min (Zneg p) eq).
        assert (Hez : ez <= Zneg p /\ ez <= eq) by (unfold ez; lia).
        set (K := 2 ^ (Zneg p - ez)).
        assert (HK : 0 < K) by (apply Z.pow_pos_nonneg; lia).
        assert (HPK : 2 ^ (- ez) = P * K).
        { unfold P, K. rewrite <- Z.pow_add_r by lia. f_equal. lia. }
        assert (HY : Zpos mq * 2 ^ (eq - ez) = Z.abs q * (P * K)).
        { rewrite Hmq, <- Z.mul_assoc, <- Z.pow_add_r by lia.
          replace (- eq + (eq - ez)) with (- ez) by lia. rewrite HPK. reflexivity. }
        rewrite HY. fold K.
        assert (HD : cond_Zopp s (Zpos m * K) - cond_Zopp s (Z.abs q * (P * K))
                     = (sm mod P) * K).
        { destruct s; unfold sm in *; cbn [cond_Zopp] in *;
            [change (- Zpos m) with (Zneg m) in * |]; nia. }
        rewrite HD. apply binary_normalize_unit; [nia |].
        assert (Hlt : 0 <= sm mod P * K < 2 ^ (- ez)) by (rewrite HPK; nia).
        pose proof (Zdigits2_upper _ (- ez) ltac:(lia) Hlt). lia.
Qed.

(** X17: each texture coordinate that is a valid number is taken by
    [normalize] to a valid number between 0.0 and 1.0, both included. *)
Theorem normalize_vec2_range (textureCoordinates : vec2) :
  F32.valid (ux textureCoordinates) = true -> isValid (ux textureCoordinates) = true ->
  F32.valid (uy textureCoordinates) = true -> isValid (uy textureCoordinates) = true ->
  unit_channel (ux (normalize_vec2 textureCoordinates))
  /\ unit_channel (uy (normalize_vec2 textureCoordinates)).
Proof.
  intros Vx Fx Vy Fy. unfold normalize_vec2. cbn [ux uy].
  split; apply fract_unit; assumption.
Qed.

Lemma normalize_vec2_range_witness :
  unit_channel (ux (normalize_vec2 (Vec2 (F32.ratio 7 2) (F32.opp (F32.ratio 1 4)))))
  /\ unit_channel (uy (normalize_vec2 (Vec2 (F32.ratio 7 2) (F32.opp (F32.ratio 1 4))))).
Proof. apply normalize_vec2_range; reflexivity. Defined.

(** The upper end is reached: a negative number close to zero has the
    fractional part 1.0; and the fractional part of an infinity is NaN. *)
Lemma fract_reaches_one :
  fract (S754_finite true 8388608 (-53)) = F32.one
  /\ fract (F32.opp (F32.ratio 1 4)) = F32.ratio 3 4
  /\ fract (F32.ratio 7 2) = F32.ratio 1 2
  /\ fract (S754_infinity false) = S754_nan.
Proof. repeat split; vm_compute; reflexivity. Qed.

(** ** [haltonSequence] in base 2: no rounding below [2^24] *)

Lemma radical_inverse_zero (n : nat) : forall k : Z, radical_inverse n k 0 = 0.
Proof.
  induction n as [| n IH]; intros k; [reflexivity |].
  cbn [radical_inverse]. rewrite Z.mod_0_l, Z.div_0_l by lia. rewrite IH. lia.
Qed.

Lemma radical_inverse_bound (n : nat) :
  forall k index : Z, Z.of_nat n <= k -> 0 <= radical_inverse n k index < 2 ^ k.
Proof.
  induction n as [| n IH]; intros k index Hk.
  - cbn [radical_inverse]. split; [lia | apply Z.pow_pos_nonneg; lia].
  - cbn [radical_inverse]. specialize (IH (k - 1) (index / 2) ltac:(lia)).
    pose proof (Z.mod_pos_bound index 2 ltac:(lia)) as Hb.
    assert (H2 : 2 ^ k = 2 * 2 ^ (k - 1)).
    { rewrite <- Z.pow_succ_r by lia. f_equal. lia. }
    nia.
Qed.

Lemma bounded_pow2 (e : Z) : -149 <= e <= 104 -> bounded 24 128 8388608 e = true.
Proof.
  intros He. apply bounded_intro; [| lia].
  change (Zdigits2 (Zpos 8388608)) with 24. lia.
Qed.

(** Halving a normal number. *)
Lemma div_two (m : positive) (e : Z) :
  bounded 24 128 m e = true -> Zdigits2 (Zpos m) = 24 -> -147 <= e ->
  F32.div (S754_finite false m e) F32.two = S754_finite false m (e - 1).
Proof.
  intros Hb Hd He.
  pose proof (bounded_facts m e Hb) as (_ & Hee & _).
  assert (Hb' : bounded 24 128 m (e - 1) = true) by (apply bounded_intro; lia).
  pose proof (div_post false m e false 8388608 (-22) Hb eq_refl) as H. cbv zeta in H.
  cbn [xorb] in H. change F32.two with (S754_finite false 8388608 (-22)).
  assert (He' : div_exp m e 8388608 (-22) = e - 2).
  { unfold div_exp. change (Zdigits2 (Zpos 8388608)) with 24. lia. }
  rewrite He' in H. replace (e - -22 - (e - 2)) with 24 in H by lia.
  assert (Hq : Zpos m * 2 ^ 24 / Zpos 8388608 = Zpos m * 2 ^ 1).
  { change (2 ^ 24) with (2 ^ 1 * Zpos 8388608). rewrite Z.mul_assoc.
    apply Z.div_mul. lia. }
  assert (Hdq : Zdigits2 (Zpos m * 2 ^ 1) = 25).
  { rewrite Zdigits2_shift by lia. lia. }
  eapply round_post_near; [ | | exact H | exact Hb' | | | ]; cbv zeta; rewrite ?Hq, ?Hdq.
  - lia.
  - lia.
  - lia.
  - lia.
  - replace (e - 1 - (e - 2)) with 1 by lia.
    replace (Z.max (25 + (e - 2) - 24) (-149) - (e - 2)) with 1 by lia.
    change (2 ^ 24) with (2 ^ 1 * Zpos 8388608). change (2 ^ 1) with 2. lia.
Qed.

(** A positive integer multiple of a power of two whose value is
    [A / 2^24] with [A < 2^24] is a binary32 number. *)
Lemma binary_normalize_dyadic (S ez A : Z) :
  0 < A < 2 ^ 24 -> -149 <= ez -> S * 2 ^ (ez + 149) = A * 2 ^ 125 ->
  dyadic A 24 (binary_normalize 24 128 S ez false).
Proof.
  intros HA Hez Hval.
  assert (HP : 0 < 2 ^ (ez + 149)) by (apply Z.pow_pos_nonneg; lia).
  assert (H125 : 0 < 2 ^ 125) by (apply Z.pow_pos_nonneg; lia).
  assert (HS : 0 < S) by nia.
  destruct S as [| p | p]; try lia. cbn [binary_normalize].
  pose proof (binary_round_post false p ez) as H. cbv zeta in H.
  set (dA := Zdigits2 A).
  pose proof (Zdigits2_pos A ltac:(lia)) as HdA1.
  pose proof (Zdigits2_upper A 24 ltac:(lia) ltac:(lia)) as HdA2. fold dA in HdA1, HdA2.
  assert (HdS : Zdigits2 (Zpos p) + ez = dA - 24).
  { assert (E : Zdigits2 (Zpos p * 2 ^ (ez + 149)) = Zdigits2 (A * 2 ^ 125))
      by (rewrite Hval; reflexivity).
    rewrite !Zdigits2_shift in E by lia. fold dA in E. lia. }
  rewrite HdS in H.
  set (ez' := Z.min ez (Z.max (dA - 24 - 24) (-149))) in *.
  assert (Hez' : ez' <= ez /\ ez' <= dA - 48 /\ -149 <= ez') by (unfold ez'; lia).
  assert (Hm0 : 0 < A * 2 ^ (24 - dA)).
  { apply Z.mul_pos_pos; [lia | apply Z.pow_pos_nonneg; lia]. }
  destruct (A * 2 ^ (24 - dA)) as [| m0 | m0] eqn:Em; try lia.
  assert (Hdm : Zdigits2 (Zpos m0) = 24).
  { rewrite <- Em, Zdigits2_shift by lia. fold dA. lia. }
  assert (Hb0 : bounded 24 128 m0 (dA - 48) = true).
  { apply bounded_intro; rewrite ?Hdm; lia. }
  assert (Hsame : Zpos m0 * 2 ^ (dA - 48 - ez') = Zpos p * 2 ^ (ez - ez')).
  { assert (HQ : 0 < 2 ^ (ez' + 149)) by (apply Z.pow_pos_nonneg; lia).
    apply (Z.mul_reg_r _ _ (2 ^ (ez' + 149))); [lia |].
    rewrite <- !Z.mul_assoc, <- !Z.pow_add_r by lia.
    replace (ez - ez' + (ez' + 149)) with (ez + 149) by lia.
    replace (dA - 48 - ez' + (ez' + 149)) with ((24 - dA) + (2 * dA + 77)) by lia.
    rewrite Hval, <- Em.
    replace 125 with ((24 - dA) + (24 - dA) + (2 * dA + 77)) at 1 by lia.
    rewrite !Z.pow_add_r by lia. ring. }
  assert (Hres : binary_round 24 128 false p ez = S754_finite false m0 (dA - 48)).
  { eapply round_post_near; [ | | exact H | exact Hb0 | | | ]; cbv zeta;
      rewrite ?Z.div_1_r.
    - lia.
    - assert (0 < 2 ^ (ez - ez')) by (apply Z.pow_pos_nonneg; lia). nia.
    - rewrite Zdigits2_shift by lia. lia.
    - rewrite Zdigits2_shift by lia. lia.
    - rewrite Hsame.
      replace (2 * 1 * (Zpos p * 2 ^ (ez - ez')) - 2 * (Zpos p * 2 ^ (ez - ez'))) with 0
        by lia.
      apply Z.mul_pos_pos; [lia | apply Z.pow_pos_nonneg].
      lia. rewrite Zdigits2_shift by lia. lia. }
  rewrite Hres. cbn [dyadic]. split; [exact Hb0 |].
  rewrite <- Em. replace (149 - 24) with 125 by lia.
  rewrite <- Z.mul_assoc, <- Z.pow_add_r by lia. do 2 f_equal. lia.
Qed.

(** Sums of such numbers are exact as long as they stay below 1. *)
Lemma add_dyadic (A B : Z) (x y : F32.float) :
  dyadic A 24 x -> dyadic B 24 y -> 0 <= A -> 0 <= B -> A + B < 2 ^ 24 ->
  dyadic (A + B) 24 (F32.add x y).
Proof.
  intros Hx Hy HA HB Hsum.
  destruct x as [sx | sx | | sx mx ex]; cbn [dyadic] in Hx; try contradiction;
    destruct sx; try contradiction;
    destruct y as [sy | sy | | sy my ey]; cbn [dyadic] in Hy; try contradiction;
    destruct sy; try contradiction.
  - subst. reflexivity.
  - subst A. exact Hy.
  - subst B. rewrite Z.add_0_r. exact Hx.
  - destruct Hx as [Hbx Hvx], Hy as [Hby Hvy].
    pose proof (bounded_facts mx ex Hbx) as (_ & Hex & _).
    pose proof (bounded_facts my ey Hby) as (_ & Hey & _).
    unfold F32.add, SFadd. rewrite !shl_align_fst by lia. cbn [cond_Zopp].
    set (ez := Z.min ex ey).
    assert (H125 : 0 < 2 ^ 125) by (apply Z.pow_pos_nonneg; lia).
    assert (0 < 2 ^ (ex + 149)) by (apply Z.pow_pos_nonneg; lia).
    assert (0 < 2 ^ (ey + 149)) by (apply Z.pow_pos_nonneg; lia).
    replace (149 - 24) with 125 in Hvx, Hvy by lia.
    apply binary_normalize_dyadic; [nia | unfold ez; lia |].
    rewrite Z.mul_add_distr_r, <- !Z.mul_assoc, <- !Z.pow_add_r by (unfold ez; lia).
    replace (ex - ez + (ez + 149)) with (ex + 149) by lia.
    replace (ey - ez + (ez + 149)) with (ey + 149) by lia.
    lia.
Qed.

Lemma ltb_finite_intro (m1 : positive) (e1 : Z) (m2 : positive) (e2 : Z) :
  e1 < e2 -> F32.ltb (S754_finite false m1 e1) (S754_finite false m2 e2) = true.
Proof.
  intros H. unfold F32.ltb, SFltb, SFcompare.
  destruct (Z.compare_spec e1 e2); first [reflexivity | lia].
Qed.

Lemma dyadic_below_one (A : Z) (x : F32.float) :
  dyadic A 24 x -> A < 2 ^ 24 ->
  F32.valid x = true /\ F32.leb F32.zero x = true /\ F32.ltb x F32.one = true.
Proof.
  intros Hx HA.
  destruct x as [s | s | | s m e]; cbn [dyadic] in Hx; try contradiction;
    destruct s; try contradiction.
  - repeat split.
  - destruct Hx as [Hb Hv]. split; [exact Hb |]. split; [reflexivity |].
    pose proof (bounded_facts m e Hb) as (_ & He & _).
    pose proof (bounded_elim m e Hb) as [Hc _].
    assert (Hd : Zdigits2 (Zpos m) + e <= 0).
    { assert (Hlt : Zpos m * 2 ^ (e + 149) < 2 ^ 149).
      { rewrite Hv. replace (149 - 24) with 125 by lia.
        change (2 ^ 149) with (2 ^ 24 * 2 ^ 125).
        apply Z.mul_lt_mono_pos_r; [apply Z.pow_pos_nonneg; lia | exact HA]. }
      assert (Hpos : 0 < Zpos m * 2 ^ (e + 149)).
      { apply Z.mul_pos_pos; [lia | apply Z.pow_pos_nonneg; lia]. }
      pose proof (Zdigits2_upper _ 149 ltac:(lia) (conj (Z.lt_le_incl _ _ Hpos) Hlt)) as Hu.
      rewrite Zdigits2_shift in Hu by lia. lia. }
    change F32.one with (S754_finite false 8388608 (-23)).
    apply ltb_finite_intro. lia.
Qed.

(** The loop in base 2, [j] digits into the index. *)
Lemma halton_loop_two (fuel : nat) :
  forall (j : Z) (st : halton_state) (A : Z),
    0 <= j -> j + Z.of_nat fuel <= 24 ->
    0 <= h_index st < 2 ^ Z.of_nat fuel ->
    h_fraction st = S754_finite false 8388608 (-23 - j) ->
    dyadic A 24 (h_nextValue st) ->
    0 <= A -> A + 2 ^ (24 - j) <= 2 ^ 24 ->
    exists v : F32.float,
      halton_loop fuel 2 st = Some (Ok v)
      /\ dyadic (A + radical_inverse fuel (24 - j) (h_index st)) 24 v.
Proof.
  induction fuel as [| fuel IH]; intros j st A Hj Hjf Hi Hfr Hnv HA HAb.
  - cbn [halton_loop]. change (2 ^ Z.of_nat 0) with 1 in Hi.
    destruct (Z.ltb_spec 0 (h_index st)); [lia |].
    exists (h_nextValue st). split; [reflexivity |].
    cbn [radical_inverse]. rewrite Z.add_0_r. exact Hnv.
  - cbn [halton_loop]. destruct (Z.ltb_spec 0 (h_index st)) as [Hpos | Hzero].
    + rewrite (halton_body_ok 2 st ltac:(lia)). rewrite Hfr.
      change (F32.of_Z 2) with F32.two.
      rewrite (div_two 8388608 (-23 - j))
        by first [apply bounded_pow2; lia | reflexivity | lia].
      set (fraction := S754_finite false 8388608 (-23 - j - 1)).
      pose proof (Z.mod_pos_bound (h_index st) 2 ltac:(lia)) as Hd.
      assert (Hpow : 2 ^ (24 - j) = 2 * 2 ^ (23 - j)).
      { rewrite <- Z.pow_succ_r by lia. f_equal. lia. }
      assert (Hp23 : 0 < 2 ^ (23 - j)) by (apply Z.pow_pos_nonneg; lia).
      assert (Hterm : dyadic (h_index st mod 2 * 2 ^ (23 - j)) 24
                        (F32.mul fraction (F32.of_Z (h_index st mod 2)))).
      { assert (Hcase : h_index st mod 2 = 0 \/ h_index st mod 2 = 1) by lia.
        destruct Hcase as [-> | ->].
        - reflexivity.
        - change (F32.of_Z 1) with F32.one. unfold fraction.
          rewrite mul_one_r by (apply bounded_pow2; lia).
          cbn [dyadic]. split; [apply bounded_pow2; lia |].
          change (Zpos 8388608) with (2 ^ 23). rewrite Z.mul_1_l.
          rewrite <- !Z.pow_add_r by lia. f_equal. lia. }
      pose proof (add_dyadic A (h_index st mod 2 * 2 ^ (23 - j)) _ _ Hnv Hterm HA
                    ltac:(nia) ltac:(nia)) as Hnext.
      specialize (IH (j + 1)
                    (HaltonState (h_index st / 2) fraction
                       (F32.add (h_nextValue st)
                          (F32.mul fraction (F32.of_Z (h_index st mod 2)))))
                    (A + h_index st mod 2 * 2 ^ (23 - j))).
      cbn [h_index h_fraction h_nextValue] in IH.
      destruct IH as (v & Hrun & Hv); try lia.
      * rewrite Nat2Z.inj_succ, Z.pow_succ_r in Hi by lia.
        split; [apply Z.div_pos; lia | apply Z.div_lt_upper_bound; lia].
      * unfold fraction. f_equal. lia.
      * exact Hnext.
      * replace (24 - (j + 1)) with (23 - j) by lia. nia.
      * exists v. split; [exact Hrun |].
        cbn [radical_inverse].
        replace (24 - j - 1) with (23 - j) by lia.
        replace (24 - (j + 1)) with (23 - j) in Hv by lia.
        rewrite Z.add_assoc. exact Hv.
    + exists (h_nextValue st). split; [reflexivity |].
      assert (E : h_index st = 0) by lia. rewrite E, radical_inverse_zero, Z.add_0_r.
      exact Hnv.
Qed.

(** The value in base 2. *)
Lemma haltonSequence_two_value (index : Z) :
  0 <= index < 2 ^ 24 ->
  exists v : F32.float,
    haltonSequence index 2 = Some (Ok v)
    /\ dyadic (radical_inverse 24 24 index) 24 v.
Proof.
  intros Hi.
  destruct (halton_loop_two 24 0 (halton_init index) 0) as (v & Hrun & Hv);
    cbn [halton_init h_index h_fraction h_nextValue]; try lia; try reflexivity.
  exists v. split.
  - unfold haltonSequence, haltonSequence_fuel, halton_fuel.
    apply (halton_loop_more_fuel 24 2 (halton_init index) (Ok v) 8). exact Hrun.
  - rewrite Z.add_0_l, Z.sub_0_r in Hv. exact Hv.
Qed.

(** X18: in base 2 and for an index below [2^24] no operation of the loop
    rounds: the result is exactly the index with its 24 binary digits
    mirrored at the binary point, [sum of bit_i * 2^-(i+1)], and it is
    strictly below 1. *)
Theorem haltonSequence_base_two (index : Z) :
  0 <= index < 2 ^ 24 ->
  exists v : F32.float,
    haltonSequence index 2 = Some (Ok v)
    /\ dyadic (radical_inverse 24 24 index) 24 v
    /\ F32.valid v = true /\ F32.leb F32.zero v = true /\ F32.ltb v F32.one = true.
Proof.
  intros Hi. destruct (haltonSequence_two_value index Hi) as (v & Hrun & Hv).
  exists v. split; [exact Hrun |]. split; [exact Hv |].
  apply (dyadic_below_one _ _ Hv).
  apply (radical_inverse_bound 24 24 index). lia.
Qed.

Lemma haltonSequence_base_two_witness :
  exists v : F32.float,
    haltonSequence 11 2 = Some (Ok v)
    /\ dyadic (radical_inverse 24 24 11) 24 v
    /\ F32.valid v = true /\ F32.leb F32.zero v = true /\ F32.ltb v F32.one = true.
Proof. apply haltonSequence_base_two. lia. Defined.

Lemma dyadic_inj (A B : Z) (x : F32.float) :
  dyadic A 24 x -> dyadic B 24 x -> A = B.
Proof.
  destruct x as [s | s | | s m e]; cbn [dyadic]; try contradiction;
    destruct s; try contradiction.
  - intros -> ->. reflexivity.
  - intros [_ HA] [_ HB]. rewrite HA in HB.
    assert (0 < 2 ^ (149 - 24)) by (apply Z.pow_pos_nonneg; lia). nia.
Qed.

Lemma radical_inverse_inj (n : nat) :
  forall k i j : Z,
    Z.of_nat n <= k -> 0 <= i < 2 ^ Z.of_nat n -> 0 <= j < 2 ^ Z.of_nat n ->
    radical_inverse n k i = radical_inverse n k j -> i = j.
Proof.
  induction n as [| n IH]; intros k i j Hk Hi Hj H.
  - change (2 ^ Z.of_nat 0) with 1 in Hi, Hj. lia.
  - cbn [radical_inverse] in H.
    rewrite Nat2Z.inj_succ, Z.pow_succ_r in Hi, Hj by lia.
    pose proof (radical_inverse_bound n (k - 1) (i / 2) ltac:(lia)) as Ri.
    pose proof (radical_inverse_bound n (k - 1) (j / 2) ltac:(lia)) as Rj.
    pose proof (Z.mod_pos_bound i 2 ltac:(lia)) as Bi.
    pose proof (Z.mod_pos_bound j 2 ltac:(lia)) as Bj.
    assert (Hb : i mod 2 = j mod 2) by nia.
    rewrite Hb in H.
    assert (Hr : radical_inverse n (k - 1) (i / 2) = radical_inverse n (k - 1) (j / 2))
      by lia.
    assert (Hq : i / 2 = j / 2).
    { apply (IH (k - 1)); try lia.
      - split; [apply Z.div_pos; lia | apply Z.div_lt_upper_bound; lia].
      - split; [apply Z.div_pos; lia | apply Z.div_lt_upper_bound; lia]. }
    rewrite (Z.div_mod i 2), (Z.div_mod j 2) by lia. rewrite Hb, Hq. reflexivity.
Qed.

(** X23: in base 2 two different indices below [2^24] never give the same
    value: the first [2^24] points of the sequence are pairwise distinct. *)
Theorem haltonSequence_base_two_injective (i j : Z) :
  0 <= i < 2 ^ 24 -> 0 <= j < 2 ^ 24 -> i <> j ->
  haltonSequence i 2 <> haltonSequence j 2.
Proof.
  intros Hi Hj Hne H. apply Hne.
  destruct (haltonSequence_two_value i Hi) as (v & Hv & Di).
  destruct (haltonSequence_two_value j Hj) as (w & Hw & Dj).
  rewrite Hv, Hw in H. injection H as <-.
  apply (radical_inverse_inj 24 24 i j); try assumption; try lia.
  exact (dyadic_inj _ _ _ Di Dj).
Qed.

Lemma haltonSequence_base_two_injective_witness :
  haltonSequence 5 2 <> haltonSequence 6 2.
Proof. apply haltonSequence_base_two_injective; lia. Defined.

(** ** [fresnel]: the sign of the result *)

Lemma div_two_sign (x : F32.float) : not_negative x -> not_negative (F32.div x F32.two).
Proof.
  change F32.two with (S754_finite false 8388608 (-22)).
  unfold F32.div, F32.prec, F32.emax.
  destruct x as [s | s | | s m e]; cbn [not_negative SFdiv]; intros H; subst;
    try reflexivity; try exact I.
  destruct (SFdiv_core_binary _ _ _ _ _ _) as [[mz ez] lz]. cbn [xorb].
  pose proof (binary_round_aux_sign false mz ez lz) as Hs.
  destruct (binary_round_aux 24 128 false mz ez lz); cbn [not_negative]; exact Hs.
Qed.

(** X19: [fresnel] never returns a negative number: whatever the vectors and
    the index of refraction, the sign bit of the result is clear, or the
    result is NaN. *)
Theorem fresnel_not_negative (I N : vec3) (ior : F32.float) :
  not_negative (fresnel I N ior).
Proof.
  unfold fresnel.
  destruct (F32.gtb (fresnel_cosi I N) F32.zero);
    match goal with
    | |- context [if ?c then _ else _] => destruct c
    end; try reflexivity;
    apply div_two_sign; apply add_not_negative; apply mul_self_sign.
Qed.

(** ** The operations keep numbers representable *)

Lemma round_post_valid (s : bool) (N d ex : Z) (F : spec_float) :
  round_post s N d ex F -> F32.valid F = true.
Proof.
  destruct F as [s' | s' | | s' m e]; cbn [round_post F32.valid valid_binary];
    try reflexivity; try contradiction.
  unfold round_post. intros (_ & Hb & _). exact Hb.
Qed.

Lemma bracket_valid (s : bool) (lo hi : Z) (F : spec_float) :
  bracket s lo hi F -> F32.valid F = true.
Proof.
  destruct F as [s' | s' | | s' m e]; cbn [bracket F32.valid valid_binary];
    try reflexivity; try contradiction.
  intros (_ & Hb & _). exact Hb.
Qed.

Lemma binary_normalize_valid (z e : Z) : F32.valid (binary_normalize 24 128 z e false) = true.
Proof.
  destruct (Z.eq_dec z 0) as [-> | Hz]; [reflexivity |].
  exact (bracket_valid _ _ _ _ (binary_normalize_bracket z e Hz)).
Qed.

Lemma mul_valid (x y : F32.float) :
  F32.valid x = true -> F32.valid y = true -> F32.valid (F32.mul x y) = true.
Proof.
  destruct x as [sx | sx | | sx mx ex], y as [sy | sy | | sy my ey]; intros Hx Hy;
    try reflexivity.
  exact (round_post_valid _ _ _ _ _ (mul_post sx mx ex sy my ey Hx Hy)).
Qed.

Lemma div_valid (x y : F32.float) :
  F32.valid x = true -> F32.valid y = true -> F32.valid (F32.div x y) = true.
Proof.
  destruct x as [sx | sx | | sx mx ex], y as [sy | sy | | sy my ey]; intros Hx Hy;
    try reflexivity.
  exact (round_post_valid _ _ _ _ _ (div_post sx mx ex sy my ey Hx Hy)).
Qed.

Lemma add_valid (x y : F32.float) :
  F32.valid x = true -> F32.valid y = true -> F32.valid (F32.add x y) = true.
Proof.
  destruct x as [sx | sx | | sx mx ex], y as [sy | sy | | sy my ey]; intros Hx Hy;
    try reflexivity; try assumption; try (destruct sx, sy; reflexivity).
  apply binary_normalize_valid.
Qed.

Lemma sub_valid (x y : F32.float) :
  F32.valid x = true -> F32.valid y = true -> F32.valid (F32.sub x y) = true.
Proof.
  destruct x as [sx | sx | | sx mx ex], y as [sy | sy | | sy my ey]; intros Hx Hy;
    try reflexivity; try assumption; try (destruct sx, sy; reflexivity).
  apply binary_normalize_valid.
Qed.

Lemma abs_valid (x : F32.float) : F32.valid x = true -> F32.valid (F32.abs x) = true.
Proof. destruct x; intros H; try reflexivity. exact H. Qed.

Lemma std_max_valid (a b : F32.float) :
  F32.valid a = true -> F32.valid b = true -> F32.valid (F32.std_max a b) = true.
Proof. unfold F32.std_max. destruct (F32.ltb a b); intros; assumption. Qed.

Lemma glm_min_valid (a b : F32.float) :
  F32.valid a = true -> F32.valid b = true -> F32.valid (glm.min a b) = true.
Proof. unfold glm.min. destruct (F32.ltb b a); intros; assumption. Qed.

(** The square root. *)
Lemma sqrt_digits (m' h : Z) :
  0 < m' -> 2 * h <= Zdigits2 m' + 1 -> h <= Zdigits2 (Z.sqrt m').
Proof.
  intros Hm Hh.
  destruct (Z_le_gt_dec h 0) as [Hle | Hgt].
  - pose proof (Zdigits2_nonneg (Z.sqrt m')). lia.
  - pose proof (Zdigits2_bounds m' Hm) as [Hlo _].
    assert (Hsq : 2 ^ (h - 1) * 2 ^ (h - 1) <= m').
    { rewrite <- Z.pow_add_r by lia.
      eapply Z.le_trans; [| exact Hlo]. apply Z.pow_le_mono_r; lia. }
    assert (Hp : 0 < 2 ^ (h - 1)) by (apply Z.pow_pos_nonneg; lia).
    assert (Hq : 2 ^ (h - 1) <= Z.sqrt m').
    { apply Z.sqrt_le_square; lia. }
    apply Zdigits2_lower; [exact Hq | lia].
Qed.

Lemma sqrt_digits_upper (m' h : Z) :
  0 < m' -> Zdigits2 m' <= 2 * h -> Zdigits2 (Z.sqrt m') <= h.
Proof.
  intros Hm Hh.
  pose proof (Zdigits2_pos m' Hm) as Hd1.
  pose proof (Zdigits2_bounds m' Hm) as [_ Hhi].
  apply Zdigits2_upper; [lia |].
  split; [apply Z.sqrt_nonneg |].
  assert (Hp : 0 < 2 ^ h) by (apply Z.pow_pos_nonneg; lia).
  apply Z.sqrt_lt_square; [lia | lia |].
  rewrite <- Z.pow_add_r by lia.
  eapply Z.lt_le_trans; [exact Hhi | apply Z.pow_le_mono_r; lia].
Qed.

(** What [sqrt] returns for a positive number: the rounding of a value whose
    binary exponent is half the exponent of the argument, rounded up. *)
Lemma sqrt_post (mx : positive) (ex : Z) :
  exists N d e',
    round_post false N d e' (F32.sqrt (S754_finite false mx ex))
    /\ 0 < d /\ 0 < N / d
    /\ Zdigits2 (N / d) + e' = (Zdigits2 (Zpos mx) + ex + 1) / 2.
Proof.
  unfold F32.sqrt, SFsqrt, SFsqrt_core_binary. rewrite fexp32, !Z.div2_div.
  set (dx := Zdigits2 (Zpos mx)).
  set (e' := Z.min (Z.max ((dx + ex + 1) / 2 - 24) (-149)) (ex / 2)).
  assert (He2 : 2 * (ex / 2) <= ex) by (apply Z.mul_div_le; lia).
  assert (Hs : 0 <= ex - 2 * e') by (unfold e'; lia).
  set (m' := match ex - 2 * e' with
             | 0 => Zpos mx
             | Zpos _ => Z.shiftl (Zpos mx) (ex - 2 * e')
             | Zneg _ => 0
             end).
  assert (Hm' : m' = Zpos mx * 2 ^ (ex - 2 * e')).
  { unfold m'. destruct (ex - 2 * e') as [| p | p] eqn:E; [rewrite Z.pow_0_r; lia | | lia].
    rewrite Z.shiftl_mul_pow2 by lia. reflexivity. }
  assert (Hpos : 0 < m').
  { rewrite Hm'. apply Z.mul_pos_pos; [lia | apply Z.pow_pos_nonneg; lia]. }
  pose proof (Z.sqrtrem_spec m' ltac:(lia)) as Hspec.
  pose proof (Z.sqrtrem_sqrt m') as Hfst.
  destruct (Z.sqrtrem m') as [q r]. cbn [fst] in Hfst. subst q.
  set (q := Z.sqrt m') in *. destruct Hspec as [Hm Hr].
  assert (Hq0 : 0 < q) by (apply Z.sqrt_pos; exact Hpos).
  assert (Hdm : Zdigits2 m' = dx + (ex - 2 * e')).
  { rewrite Hm'. apply Zdigits2_shift; lia. }
  assert (Hhalf : (dx + ex + 1) / 2 - e' = (Zdigits2 m' + 1) / 2).
  { rewrite Hdm. replace (dx + (ex - 2 * e') + 1) with (dx + ex + 1 + (- e') * 2) by lia.
    rewrite Z.div_add by lia. lia. }
  pose proof (Z.mul_div_le (Zdigits2 m' + 1) 2 ltac:(lia)) as Hfl.
  pose proof (Z.mul_succ_div_gt (Zdigits2 m' + 1) 2 ltac:(lia)) as Hce.
  assert (Hdq : Zdigits2 q = (dx + ex + 1) / 2 - e').
  { rewrite Hhalf. apply Z.le_antisymm.
    - apply sqrt_digits_upper; [exact Hpos | lia].
    - apply sqrt_digits; [exact Hpos | lia]. }
  assert (Hex : e' <= Z.max (Zdigits2 q + e' - 24) (-149)) by (unfold e' in *; lia).
  set (l := if r =? 0 then loc_Exact else loc_Inexact (if r <=? q then Lt else Gt)).
  pose proof (loc_of_record_of q l) as [Hl Hmq].
  assert (Hrep : exists N d, rep N d (shr_record_of_loc q l) /\ N / d = q /\ 0 < d).
  { unfold l. destruct (Z.eqb_spec r 0).
    - exists q, 1. split; [apply rep_exact; lia | split; [apply Z.div_1_r | lia]].
    - assert (Hd1 : (4 * q + 1) / 4 = q) by (symmetry; apply Z.div_unique with 1; lia).
      assert (Hd3 : (4 * q + 3) / 4 = q) by (symmetry; apply Z.div_unique with 3; lia).
      assert (Hm1 : (4 * q + 1) mod 4 = 1) by (symmetry; apply Z.mod_unique with q; lia).
      assert (Hm3 : (4 * q + 3) mod 4 = 3) by (symmetry; apply Z.mod_unique with q; lia).
      destruct (r <=? q).
      + exists (4 * q + 1), 4. split; [| split; [exact Hd1 | lia]].
        unfold rep. rewrite Hd1, Hm1. cbn [shr_record_of_loc shr_m shr_r shr_s].
        repeat split; lia.
      + exists (4 * q + 3), 4. split; [| split; [exact Hd3 | lia]].
        unfold rep. rewrite Hd3, Hm3. cbn [shr_record_of_loc shr_m shr_r shr_s].
        repeat split; lia. }
  destruct Hrep as (N & d & Hrep & Hq & Hd).
  exists N, d, e'. rewrite Hq. split; [| split; [exact Hd | split; [exact Hq0 | lia]]].
  rewrite <- Hl. rewrite <- Hmq at 1.
  apply round_aux_post; [exact Hrep |]. rewrite Hq. exact Hex.
Qed.

Lemma sqrt_valid (x : F32.float) : F32.valid x = true -> F32.valid (F32.sqrt x) = true.
Proof.
  destruct x as [s | s | | s m e]; intros Hx; try reflexivity;
    destruct s; try reflexivity.
  destruct (sqrt_post m e) as (N & d & e' & H & _).
  exact (round_post_valid _ _ _ _ _ H).
Qed.

Lemma sqrt_not_negative (x : F32.float) :
  not_negative x -> not_negative (F32.sqrt x).
Proof.
  destruct x as [s | s | | s m e]; cbn [not_negative]; intros H; subst;
    try reflexivity; try exact I.
  destruct (sqrt_post m e) as (N & d & e' & H & _).
  destruct (F32.sqrt (S754_finite false m e)) as [s' | s' | | s' m' e2];
    cbn [round_post not_negative] in *; try exact I; unfold round_post in H; tauto.
Qed.

(** ** Rounding does not cross a binary32 number *)

Lemma round_post_at_most (N d ex : Z) (F : spec_float) (m0 : positive) (e0 : Z) :
  0 < d -> 0 <= N -> round_post false N d ex F -> bounded 24 128 m0 e0 = true ->
  ex <= Z.max (Zdigits2 (N / d) + ex - 24) (-149) -> ex <= e0 ->
  N <= d * (Zpos m0 * 2 ^ (e0 - ex)) ->
  at_most F m0 e0.
Proof.
  intros Hd HN Hpost Hb0 HexE Hex0 Hle. unfold round_post in Hpost.
  set (E := Z.max (Zdigits2 (N / d) + ex - 24) (-149)) in *.
  pose proof (bounded_facts m0 e0 Hb0) as (Hd0 & He0 & Hn0).
  pose proof (bounded_elim m0 e0 Hb0) as [Hc0 _].
  pose proof (Zdigits2_bounds (Zpos m0) ltac:(lia)) as [_ Hm0hi].
  assert (Hm0lt : Zpos m0 < 16777216).
  { change 16777216 with (2 ^ 24).
    eapply Z.lt_le_trans; [exact Hm0hi | apply Z.pow_le_mono_r; lia]. }
  set (X0 := Zpos m0 * 2 ^ (e0 - ex)) in *.
  assert (HX0 : 0 < X0) by (apply Z.mul_pos_pos; [lia | apply Z.pow_pos_nonneg; lia]).
  assert (Hq : 0 <= N / d <= X0).
  { split; [apply Z.div_pos; lia | apply Z.div_le_upper_bound; lia]. }
  assert (HE0 : E <= e0).
  { pose proof (Zdigits2_le (N / d) X0 Hq) as H1.
    unfold X0 in H1. rewrite Zdigits2_shift in H1 by lia. unfold E. lia. }
  set (P := 2 ^ (E - ex)) in *.
  assert (HP : 0 < P) by (apply Z.pow_pos_nonneg; lia).
  set (Q := 2 ^ (e0 - E)).
  assert (HQ : 0 < Q) by (apply Z.pow_pos_nonneg; lia).
  assert (HX : X0 = Zpos m0 * Q * P).
  { unfold X0, Q, P. rewrite <- Z.mul_assoc, <- Z.pow_add_r by lia. do 2 f_equal. lia. }
  destruct F as [s' | s' | | s' m e]; cbn [at_most].
  - destruct Hpost as (-> & _). exact I.
  - exfalso. destruct Hpost as (_ & HE & Hbig).
    assert (EE : E = 104) by lia. specialize (Hbig EE).
    assert (Q = 1) by (unfold Q; replace (e0 - E) with 0 by lia; reflexivity).
    change (2 ^ 25 - 1) with 33554431 in Hbig. nia.
  - contradiction.
  - destruct Hpost as (-> & Hb & He & Hc & Hv & _). split; [exact Hb |].
    set (R := 2 ^ (e - E)) in *.
    assert (HR : 0 < R) by (apply Z.pow_pos_nonneg; lia).
    assert (Hkey : Zpos m * R <= Zpos m0 * Q) by nia.
    destruct (Z_lt_le_dec e e0) as [Hlt | Hge]; [left; exact Hlt | right].
    assert (Hcase : e = e0 \/ (e = E + 1 /\ E = e0)) by lia.
    destruct Hcase as [Ee | [Ee EE]].
    + split; [exact Ee |].
      assert (R = Q) by (unfold R, Q; f_equal; lia). nia.
    + exfalso. specialize (Hc Ee). change (2 ^ 23) with 8388608 in Hc.
      assert (EQ : Q = 1) by (unfold Q; replace (e0 - E) with 0 by lia; reflexivity).
      assert (ER : R = 2) by (unfold R; replace (e - E) with 1 by lia; reflexivity).
      nia.
Qed.

Lemma round_post_at_least (N d ex : Z) (F : spec_float) (m0 : positive) (e0 : Z) :
  0 < d -> 0 <= N -> round_post false N d ex F -> bounded 24 128 m0 e0 = true ->
  ex <= Z.max (Zdigits2 (N / d) + ex - 24) (-149) -> ex <= e0 ->
  d * (Zpos m0 * 2 ^ (e0 - ex)) <= N ->
  at_least F m0 e0.
Proof.
  intros Hd HN Hpost Hb0 HexE Hex0 Hge. unfold round_post in Hpost.
  set (E := Z.max (Zdigits2 (N / d) + ex - 24) (-149)) in *.
  pose proof (bounded_facts m0 e0 Hb0) as (Hd0 & He0 & Hn0).
  pose proof (bounded_elim m0 e0 Hb0) as [Hc0 _].
  set (X0 := Zpos m0 * 2 ^ (e0 - ex)) in *.
  assert (HX0 : 0 < X0) by (apply Z.mul_pos_pos; [lia | apply Z.pow_pos_nonneg; lia]).
  assert (Hq : 0 <= X0 <= N / d).
  { split; [lia | apply Z.div_le_lower_bound; lia]. }
  assert (HE0 : e0 <= E).
  { pose proof (Zdigits2_le X0 (N / d) Hq) as H1.
    unfold X0 in H1. rewrite Zdigits2_shift in H1 by lia. unfold E. lia. }
  set (P := 2 ^ (E - ex)) in *.
  assert (HP : 0 < P) by (apply Z.pow_pos_nonneg; lia).
  destruct F as [s' | s' | | s' m e]; cbn [at_least].
  - exfalso. destruct Hpost as (_ & HE & Hz & _).
    assert (EE : e0 = E) by lia.
    assert (HX : X0 = Zpos m0 * P) by (unfold X0, P; rewrite EE; reflexivity).
    nia.
  - destruct Hpost as (-> & _). exact I.
  - contradiction.
  - destruct Hpost as (-> & Hb & He & Hc & Hv & _). split; [exact Hb |].
    destruct (Z_lt_le_dec e0 e) as [Hlt | Hle]; [left; exact Hlt | right].
    assert (Ee : e = e0) by lia. assert (EE : E = e0) by lia.
    split; [exact Ee |].
    assert (HX : X0 = Zpos m0 * P) by (unfold X0, P; rewrite EE; reflexivity).
    replace (e - E) with 0 in Hv by lia. rewrite Z.pow_0_r, Z.mul_1_r in Hv. nia.
Qed.

Lemma at_most_at_least_leb (F G : F32.float) (m0 : positive) (e0 : Z) :
  at_most F m0 e0 -> at_least G m0 e0 -> F32.leb F G = true.
Proof.
  destruct F as [s | s | | s m e]; cbn [at_most]; try contradiction;
    destruct s; try contradiction;
    destruct G as [t | t | | t m' e']; cbn [at_least]; try contradiction;
    destruct t; try contradiction; intros HF HG; try reflexivity.
  destruct HF as [_ HF], HG as [_ HG]. apply leb_finite_intro. lia.
Qed.

Lemma binary_round_exp (p : positive) (ez : Z) :
  let ez' := Z.min ez (Z.max (Zdigits2 (Zpos p) + ez - 24) (-149)) in
  ez' <= ez
  /\ ez' <= Z.max (Zdigits2 (Zpos p * 2 ^ (ez - ez') / 1) + ez' - 24) (-149).
Proof.
  intros ez'. split; [unfold ez'; lia |].
  rewrite Z.div_1_r, Zdigits2_shift by (unfold ez'; lia). unfold ez'. lia.
Qed.

Lemma binary_round_at_most (p : positive) (ez : Z) (m0 : positive) (e0 : Z) :
  bounded 24 128 m0 e0 = true -> ez <= e0 -> Zpos p <= Zpos m0 * 2 ^ (e0 - ez) ->
  at_most (binary_round 24 128 false p ez) m0 e0.
Proof.
  intros Hb Hez Hle. pose proof (binary_round_post false p ez) as H. cbv zeta in H.
  destruct (binary_round_exp p ez) as [H1 H2].
  set (ez' := Z.min ez (Z.max (Zdigits2 (Zpos p) + ez - 24) (-149))) in *.
  assert (HK : 0 < 2 ^ (ez - ez')) by (apply Z.pow_pos_nonneg; lia).
  apply (round_post_at_most (Zpos p * 2 ^ (ez - ez')) 1 ez' _ m0 e0);
    try assumption; try lia.
  replace (e0 - ez') with ((e0 - ez) + (ez - ez')) by lia.
  rewrite Z.pow_add_r by lia. nia.
Qed.

Lemma binary_round_at_least (p : positive) (ez : Z) (m0 : positive) (e0 : Z) :
  bounded 24 128 m0 e0 = true -> ez <= e0 -> Zpos m0 * 2 ^ (e0 - ez) <= Zpos p ->
  at_least (binary_round 24 128 false p ez) m0 e0.
Proof.
  intros Hb Hez Hle. pose proof (binary_round_post false p ez) as H. cbv zeta in H.
  destruct (binary_round_exp p ez) as [H1 H2].
  set (ez' := Z.min ez (Z.max (Zdigits2 (Zpos p) + ez - 24) (-149))) in *.
  assert (HK : 0 < 2 ^ (ez - ez')) by (apply Z.pow_pos_nonneg; lia).
  apply (round_post_at_least (Zpos p * 2 ^ (ez - ez')) 1 ez' _ m0 e0);
    try assumption; try lia.
  replace (e0 - ez') with ((e0 - ez) + (ez - ez')) by lia.
  rewrite Z.pow_add_r by lia. nia.
Qed.

(** ** The ratio [(a - b) / (a + b)] of two numbers that are not negative *)

Lemma at_most_abs (F : F32.float) (m0 : positive) (e0 : Z) :
  at_most F m0 e0 -> F32.abs F = F.
Proof.
  destruct F as [s | s | | s m e]; cbn [at_most]; try contradiction;
    destruct s; try contradiction; reflexivity.
Qed.

Lemma at_most_self (m : positive) (e : Z) :
  bounded 24 128 m e = true -> at_most (S754_finite false m e) m e.
Proof. intros Hb. split; [exact Hb | right; split; lia]. Qed.

Lemma at_least_self (m : positive) (e : Z) :
  bounded 24 128 m e = true -> at_least (S754_finite false m e) m e.
Proof. intros Hb. split; [exact Hb | right; split; lia]. Qed.

(** The difference of two finite numbers that are not negative is, in
    magnitude, not above their sum. *)
Lemma sub_le_add (a b : F32.float) :
  finite_nonneg a -> finite_nonneg b ->
  F32.leb (F32.abs (F32.sub a b)) (F32.add a b) = true.
Proof.
  destruct a as [sa | sa | | sa ma ea]; cbn [finite_nonneg]; try contradiction;
    destruct sa; try contradiction;
    destruct b as [sb | sb | | sb mb eb]; cbn [finite_nonneg]; try contradiction;
    destruct sb; try contradiction; intros Ha Hb.
  - reflexivity.
  - cbn [F32.sub SFsub F32.add SFadd F32.abs SFabs negb].
    unfold F32.sub, F32.add, F32.abs. cbn [SFsub SFadd SFabs negb].
    apply (at_most_at_least_leb _ _ mb eb); [apply at_most_self | apply at_least_self];
      exact Hb.
  - unfold F32.sub, F32.add, F32.abs. cbn [SFsub SFadd SFabs].
    apply (at_most_at_least_leb _ _ ma ea); [apply at_most_self | apply at_least_self];
      exact Ha.
  - unfold F32.sub, F32.add, SFsub, SFadd, F32.prec, F32.emax.
    set (ez := Z.min ea eb).
    assert (Hez : ez <= ea /\ ez <= eb) by (unfold ez; lia).
    rewrite !shl_align_fst by lia. cbn [cond_Zopp].
    set (X := Zpos ma * 2 ^ (ea - ez)). set (Y := Zpos mb * 2 ^ (eb - ez)).
    assert (HX : 0 < X) by (apply Z.mul_pos_pos; [lia | apply Z.pow_pos_nonneg; lia]).
    assert (HY : 0 < Y) by (apply Z.mul_pos_pos; [lia | apply Z.pow_pos_nonneg; lia]).
    destruct (X + Y) as [| ps | ps] eqn:Es; try lia. cbn [binary_normalize].
    assert (GA : at_least (binary_round 24 128 false ps ez) ma ea).
    { apply binary_round_at_least; [exact Ha | lia | fold X; lia]. }
    assert (GB : at_least (binary_round 24 128 false ps ez) mb eb).
    { apply binary_round_at_least; [exact Hb | lia | fold Y; lia]. }
    destruct (X - Y) as [| pd | pd] eqn:Ed; cbn [binary_normalize].
    + apply (at_most_at_least_leb _ _ ma ea); [exact I | exact GA].
    + assert (LA : at_most (binary_round 24 128 false pd ez) ma ea).
      { apply binary_round_at_most; [exact Ha | lia | fold X; lia]. }
      rewrite (at_most_abs _ _ _ LA).
      apply (at_most_at_least_leb _ _ ma ea); assumption.
    + assert (LB : at_most (binary_round 24 128 false pd ez) mb eb).
      { apply binary_round_at_most; [exact Hb | lia | fold Y; lia]. }
      rewrite (binary_round_opp false pd ez : binary_round 24 128 true pd ez = _).
      rewrite abs_opp, (at_most_abs _ _ _ LB).
      apply (at_most_at_least_leb _ _ mb eb); assumption.
Qed.

Lemma leb_zero_nonneg (F : F32.float) :
  match F with
  | S754_zero _ | S754_finite false _ _ => True
  | _ => False
  end -> F32.leb F32.zero F = true.
Proof. destruct F as [s | s | | s m e]; try contradiction; destruct s; try contradiction; reflexivity. Qed.

(** The quotient of a finite number that is not negative by a positive one
    that is not below it is in [[0, 1]]. *)
Lemma div_unit (x : F32.float) (my : positive) (ey : Z) :
  finite_nonneg x -> bounded 24 128 my ey = true ->
  F32.leb x (S754_finite false my ey) = true ->
  unit_channel (F32.div x (S754_finite false my ey)).
Proof.
  intros Hx Hby Hle.
  assert (Vx : F32.valid x = true /\ F32.is_finite x = true).
  { destruct x as [s | s | | s m e]; cbn [finite_nonneg] in Hx; try contradiction;
      destruct s; try contradiction; split; try reflexivity; exact Hx. }
  destruct Vx as [Vx Fx].
  destruct (div_le_one x my ey Vx Fx Hby Hle) as [Hn H1].
  split; [apply div_valid; assumption |]. split; [| exact H1].
  destruct x as [s | s | | s m e]; cbn [finite_nonneg] in Hx; try contradiction;
    destruct s; try contradiction.
  - reflexivity.
  - pose proof (div_bracket false m e false my ey Hx Hby) as B. cbn [xorb] in B.
    apply leb_zero_nonneg.
    destruct (F32.div (S754_finite false m e) (S754_finite false my ey))
      as [s' | s' | | s' m' e']; cbn [bracket] in B; try contradiction; try exact I.
    + destruct B as [-> _]. discriminate Hn || (cbn in H1; discriminate H1).
    + destruct B as [-> _]. exact I.
Qed.

Lemma abs_div (x y : F32.float) :
  F32.abs (F32.div x y) = F32.abs (F32.div (F32.abs x) y).
Proof.
  destruct x as [s | s | | s m e]; try reflexivity; destruct s; try reflexivity.
  - change (S754_zero true) with (F32.opp (S754_zero false)).
    rewrite div_opp_l, abs_opp. reflexivity.
  - change (S754_infinity true) with (F32.opp (S754_infinity false)).
    rewrite div_opp_l, abs_opp. reflexivity.
  - change (S754_finite true m e) with (F32.opp (S754_finite false m e)).
    rewrite div_opp_l, abs_opp. reflexivity.
Qed.

Lemma contrast_unit (a b : F32.float) :
  F32.valid a = true -> F32.valid b = true -> not_negative a -> not_negative b ->
  signed_unit (F32.div (F32.sub a b) (F32.add a b)).
Proof.
  intros Va Vb Na Nb.
  destruct a as [sa | sa | | sa ma ea]; cbn [not_negative] in Na; subst;
    try (left; reflexivity);
    destruct b as [sb | sb | | sb mb eb]; cbn [not_negative] in Nb; subst;
    try (left; reflexivity).
  - (* 0 and a positive number *)
    right. unfold F32.sub, F32.add. cbn [SFsub SFadd negb].
    change (S754_finite true mb eb) with (F32.opp (S754_finite false mb eb)).
    rewrite div_opp_l, (div_self false mb eb Vb). split; reflexivity.
  - (* a positive number and 0 *)
    right. unfold F32.sub, F32.add. cbn [SFsub SFadd].
    rewrite (div_self false ma ea Va). split; reflexivity.
  - (* two positive numbers *)
    pose proof (sub_le_add (S754_finite false ma ea) (S754_finite false mb eb) Va Vb) as Hle.
    pose proof (sub_valid _ _ Va Vb) as Vs. pose proof (add_valid _ _ Va Vb) as Vq.
    pose proof (add_same_sign_bracket false ma ea mb eb) as Bq. cbv zeta in Bq.
    set (p := F32.sub (S754_finite false ma ea) (S754_finite false mb eb)) in *.
    set (q := F32.add (S754_finite false ma ea) (S754_finite false mb eb)) in *.
    destruct q as [sq | sq | | sq mq eq]; cbn [bracket] in Bq; try contradiction.
    + destruct Bq as [_ Bq].
      pose proof (Zdigits2_pos (Zpos ma) ltac:(lia)).
      pose proof (bounded_facts ma ea Va). lia.
    + destruct Bq as [-> _].
      destruct p as [sp | sp | | sp mp ep]; try discriminate Hle;
        first [left; reflexivity | right; destruct sp; split; reflexivity].
    + destruct Bq as (-> & Bq & _).
      assert (Hp : finite_nonneg (F32.abs p) /\ F32.is_nan p = false).
      { destruct p as [sp | sp | | sp mp ep]; try discriminate Hle.
        - split; [exact I | reflexivity].
        - split; [exact Vs | reflexivity]. }
      destruct Hp as [Hp Hnp].
      pose proof (div_unit (F32.abs p) mq eq Hp Bq Hle) as (U1 & U2 & U3).
      right. split; [apply div_valid; assumption |].
      rewrite abs_div.
      assert (Habs : F32.abs (F32.div (F32.abs p) (S754_finite false mq eq))
                     = F32.div (F32.abs p) (S754_finite false mq eq)).
      { destruct (F32.abs p) as [s | s | | s m e]; cbn [finite_nonneg] in Hp;
          try contradiction; destruct s; try contradiction.
        - reflexivity.
        - pose proof (div_bracket false m e false mq eq Hp Bq) as B. cbn [xorb] in B.
          destruct (F32.div (S754_finite false m e) (S754_finite false mq eq))
            as [s' | s' | | s' m' e']; cbn [bracket] in B; try contradiction;
            destruct B as [-> _]; reflexivity. }
      rewrite Habs. exact U3.
Qed.

(** ** [fresnel]: the range of the result *)

(** The square of a number in [[-1, 1]] is in [[0, 1]]. *)
Lemma square_unit (r : F32.float) :
  F32.valid r = true -> F32.leb (F32.abs r) F32.one = true ->
  unit_channel (F32.mul r r) /\ not_negative (F32.mul r r).
Proof.
  intros Vr Hle. split; [| apply mul_self_sign].
  destruct r as [s | s | | s m e]; try discriminate Hle.
  - destruct s; repeat split.
  - cbn [F32.valid valid_binary] in Vr.
    assert (E : F32.mul (S754_finite s m e) (S754_finite s m e)
                = F32.mul (S754_finite false m e) (S754_finite false m e)).
    { unfold F32.mul, SFmul. rewrite !xorb_nilpotent. reflexivity. }
    rewrite E. cbn [F32.abs SFabs] in Hle.
    change F32.one with (S754_finite false 8388608 (-23)) in Hle.
    pose proof (leb_finite_cases _ _ _ _ Hle) as Hc.
    pose proof (bounded_facts m e Vr) as (Hd & He & Hn).
    destruct Hc as [Hlt | [E23 Hm]].
    + pose proof (mul_post false m e false m e Vr Vr) as P. cbn [xorb] in P.
      apply (round_post_unit _ _ _ _ P). rewrite Z.div_1_r.
      pose proof (Zdigits2_mul (Zpos m) (Zpos m) ltac:(lia) ltac:(lia)). lia.
    + assert (Hm' : Zpos m = 8388608).
      { destruct Hn as [Hn | Hn]; [| lia].
        pose proof (Zdigits2_bounds (Zpos m) ltac:(lia)) as [Hlo _].
        rewrite Hn in Hlo. change (2 ^ (24 - 1)) with 8388608 in Hlo. lia. }
      clear - Hm' E23. injection Hm' as ->. subst e. repeat split.
Qed.

Lemma unit_nonneg_cases (u : F32.float) :
  unit_channel u -> not_negative u ->
  u = S754_zero false
  \/ exists (m : positive) (e : Z),
       u = S754_finite false m e /\ bounded 24 128 m e = true
       /\ e <= -23 /\ Zpos m <= 2 ^ (- e).
Proof.
  intros (Vu & H0 & H1) Hn.
  destruct u as [s | s | | s m e]; cbn [not_negative] in Hn; subst;
    try discriminate H1; [left; reflexivity | right].
  cbn [F32.valid valid_binary] in Vu.
  change F32.one with (S754_finite false 8388608 (-23)) in H1.
  pose proof (leb_finite_cases _ _ _ _ H1) as Hc.
  pose proof (bounded_facts m e Vu) as (Hd & He & _).
  pose proof (Zdigits2_bounds (Zpos m) ltac:(lia)) as [_ Hhi].
  exists m, e. split; [reflexivity |]. split; [exact Vu |]. split; [lia |].
  destruct Hc as [Hlt | [-> Hm]].
  - assert (Hm24 : Zpos m < 2 ^ 24).
    { eapply Z.lt_le_trans; [exact Hhi | apply Z.pow_le_mono_r; lia]. }
    assert (2 ^ 24 <= 2 ^ (- e)) by (apply Z.pow_le_mono_r; lia). lia.
  - change (2 ^ (- -23)) with 8388608. lia.
Qed.
(** Half the sum of two numbers of [[0, 1]] is in [[0, 1]]. *)
Lemma half_sum_unit (u v : F32.float) :
  unit_channel u -> not_negative u -> unit_channel v -> not_negative v ->
  unit_channel (F32.div (F32.add u v) F32.two).
Proof.
  intros Uu Nu Uv Nv.
  change F32.two with (S754_finite false 8388608 (-22)).
  destruct (unit_nonneg_cases u Uu Nu) as [-> | (mu & eu & -> & Hbu & Heu & Hmu)];
    destruct (unit_nonneg_cases v Uv Nv) as [-> | (mv & ev & -> & Hbv & Hev & Hmv)].
  - repeat split.
  - unfold F32.add. cbn [SFadd].
    apply div_unit; [exact Hbv | reflexivity | apply leb_finite_intro; lia].
  - unfold F32.add. cbn [SFadd].
    apply div_unit; [exact Hbu | reflexivity | apply leb_finite_intro; lia].
  - unfold F32.add, SFadd, F32.prec, F32.emax.
    set (ez := Z.min eu ev).
    assert (Hez : ez <= eu /\ ez <= ev) by (unfold ez; lia).
    rewrite !shl_align_fst by lia. cbn [cond_Zopp].
    assert (HX : 0 < Zpos mu * 2 ^ (eu - ez) <= 2 ^ (- ez)).
    { assert (0 < 2 ^ (eu - ez)) by (apply Z.pow_pos_nonneg; lia).
      split; [nia |]. replace (- ez) with (- eu + (eu - ez)) by lia.
      rewrite Z.pow_add_r by lia. nia. }
    assert (HY : 0 < Zpos mv * 2 ^ (ev - ez) <= 2 ^ (- ez)).
    { assert (0 < 2 ^ (ev - ez)) by (apply Z.pow_pos_nonneg; lia).
      split; [nia |]. replace (- ez) with (- ev + (ev - ez)) by lia.
      rewrite Z.pow_add_r by lia. nia. }
    destruct (Zpos mu * 2 ^ (eu - ez) + Zpos mv * 2 ^ (ev - ez)) as [| p | p] eqn:Es;
      try lia.
    cbn [binary_normalize].
    assert (L : at_most (binary_round 24 128 false p ez) 8388608 (-22)).
    { apply binary_round_at_most; [reflexivity | lia |].
      assert (Hs : 2 ^ (- ez) = 4194304 * 2 ^ (-22 - ez)).
      { change 4194304 with (2 ^ 22). rewrite <- Z.pow_add_r by lia. f_equal. lia. }
      lia. }
    destruct (binary_round 24 128 false p ez) as [s | s | | s m e]; cbn [at_most] in L;
      try contradiction; destruct s; try contradiction.
    + repeat split.
    + destruct L as [Hb L].
      apply div_unit; [exact Hb | reflexivity | apply leb_finite_intro; exact L].
Qed.

Lemma energy_unit (Rs Rp : F32.float) :
  signed_unit Rs -> signed_unit Rp ->
  unit_or_nan (F32.div (F32.add (F32.mul Rs Rs) (F32.mul Rp Rp)) F32.two).
Proof.
  intros [-> | [Vs Hs]]; [left; reflexivity |].
  intros [-> | [Vp Hp]]; [left; destruct (F32.mul Rs Rs); reflexivity |].
  destruct (square_unit Rs Vs Hs) as [Us Ns]. destruct (square_unit Rp Vp Hp) as [Up Np].
  right. apply half_sum_unit; assumption.
Qed.

Lemma std_max_zero_not_negative (y : F32.float) : not_negative (F32.std_max F32.zero y).
Proof.
  unfold F32.std_max. destruct (F32.ltb F32.zero y) eqn:E; [| reflexivity].
  destruct y as [s | s | | s m e]; try discriminate E; destruct s; try discriminate E;
    reflexivity.
Qed.

Lemma abs_not_negative (x : F32.float) : not_negative (F32.abs x).
Proof. destruct x; try reflexivity; exact I. Qed.

Lemma mul_not_negative (x y : F32.float) :
  not_negative x -> not_negative y -> not_negative (F32.mul x y).
Proof.
  unfold F32.mul, F32.prec, F32.emax.
  destruct x as [sx | sx | | sx mx ex], y as [sy | sy | | sy my ey];
    cbn [not_negative SFmul]; intros Hx Hy; subst; try reflexivity; try exact I.
  cbn [xorb].
  pose proof (binary_round_aux_sign false (Zpos (mx * my)) (ex + ey) loc_Exact) as H.
  destruct (binary_round_aux 24 128 false (Zpos (mx * my)) (ex + ey) loc_Exact);
    cbn [not_negative]; exact H.
Qed.

Lemma dot_valid (a b : vec3) :
  valid_vec a -> valid_vec b -> F32.valid (glm.dot a b) = true.
Proof.
  intros (Ax & Ay & Az) (Bx & By & Bz). unfold glm.dot.
  repeat first [apply add_valid | apply mul_valid]; assumption.
Qed.

(** X20: for vectors of binary32 numbers and an index of refraction that is
    not negative, [fresnel] returns NaN or a number between 0.0 and 1.0: a
    reflectance never leaves [[0, 1]], also where the cosine is not clamped. *)
Theorem fresnel_range (I N : vec3) (ior : F32.float) :
  valid_vec I -> valid_vec N -> F32.valid ior = true -> not_negative ior ->
  unit_or_nan (fresnel I N ior).
Proof.
  intros VI VN Vior Nior.
  assert (Vcos : F32.valid (fresnel_cosi I N) = true).
  { rewrite fresnel_cosi_min. apply glm_min_valid; [reflexivity | apply dot_valid; assumption]. }
  assert (core : forall etai etat : F32.float,
             F32.valid etai = true -> F32.valid etat = true ->
             not_negative etai -> not_negative etat ->
             unit_or_nan
               (let cosi := fresnel_cosi I N in
                let sint :=
                  F32.mul (F32.div etai etat)
                    (F32.sqrt (F32.std_max F32.zero (F32.sub F32.one (F32.mul cosi cosi)))) in
                if F32.geb sint F32.one then F32.one
                else
                  let cost :=
                    F32.sqrt (F32.std_max F32.zero (F32.sub F32.one (F32.mul sint sint))) in
                  let cosi := F32.abs cosi in
                  let Rs := F32.div (F32.sub (F32.mul etat cosi) (F32.mul etai cost))
                                    (F32.add (F32.mul etat cosi) (F32.mul etai cost)) in
                  let Rp := F32.div (F32.sub (F32.mul etai cosi) (F32.mul etat cost))
                                    (F32.add (F32.mul etai cosi) (F32.mul etat cost)) in
                  F32.div (F32.add (F32.mul Rs Rs) (F32.mul Rp Rp)) F32.two)).
  { intros etai etat Vi Vt Ni Nt. cbv zeta.
    set (cosi := fresnel_cosi I N) in *.
    set (sint := F32.mul (F32.div etai etat)
                   (F32.sqrt (F32.std_max F32.zero (F32.sub F32.one (F32.mul cosi cosi))))).
    assert (Vsint : F32.valid sint = true).
    { unfold sint. apply mul_valid; [apply div_valid; assumption |].
      apply sqrt_valid, std_max_valid; [reflexivity |].
      apply sub_valid; [reflexivity | apply mul_valid; assumption]. }
    destruct (F32.geb sint F32.one); [right; repeat split |].
    set (cost := F32.sqrt (F32.std_max F32.zero (F32.sub F32.one (F32.mul sint sint)))).
    assert (Vcost : F32.valid cost = true).
    { unfold cost. apply sqrt_valid, std_max_valid; [reflexivity |].
      apply sub_valid; [reflexivity | apply mul_valid; assumption]. }
    assert (Ncost : not_negative cost).
    { unfold cost. apply sqrt_not_negative, std_max_zero_not_negative. }
    pose proof (abs_valid cosi Vcos) as Vabs. pose proof (abs_not_negative cosi) as Nabs.
    apply energy_unit; apply contrast_unit;
      first [apply mul_valid; assumption | apply mul_not_negative; assumption]. }
  unfold fresnel.
  destruct (F32.gtb (fresnel_cosi I N) F32.zero).
  - apply (core ior F32.one); first [assumption | reflexivity].
  - apply (core F32.one ior); first [assumption | reflexivity].
Qed.

Lemma fresnel_range_witness :
  unit_or_nan (fresnel (glm.neg unit_normal) unit_normal (F32.ratio 3 2)).
Proof.
  apply fresnel_range; repeat split; reflexivity.
Defined.

(** ** [fresnel] at normal incidence from inside the medium *)

(** Dividing by [1.0F] changes nothing. *)
Lemma div_one_r (s : bool) (m : positive) (e : Z) :
  bounded 24 128 m e = true ->
  F32.div (S754_finite s m e) F32.one = S754_finite s m e.
Proof.
  intros Hb. pose proof (div_post s m e false 8388608 (-23) Hb eq_refl) as H.
  cbv zeta in H. rewrite xorb_false_r in H.
  change F32.one with (S754_finite false 8388608 (-23)).
  pose proof (bounded_facts m e Hb) as (Hd & He & Hn).
  pose proof (bounded_elim m e Hb) as [Hc _].
  set (e' := div_exp m e 8388608 (-23)) in *.
  assert (He' : e' = Z.min (Z.max (Zdigits2 (Zpos m) + e - 25) (-149)) (e + 23)).
  { unfold e', div_exp. change (Zdigits2 (Zpos 8388608)) with 24. lia. }
  assert (He'e : e' <= e) by lia.
  replace (e - -23 - e') with (23 + (e - e')) in H by lia.
  assert (HP : 0 < 2 ^ (e - e')) by (apply Z.pow_pos_nonneg; lia).
  assert (HN : Zpos m * 2 ^ (23 + (e - e')) = Zpos 8388608 * (Zpos m * 2 ^ (e - e'))).
  { rewrite Z.pow_add_r by lia. change (2 ^ 23) with (Zpos 8388608). ring. }
  rewrite HN in H.
  assert (Hq : Zpos 8388608 * (Zpos m * 2 ^ (e - e')) / Zpos 8388608 = Zpos m * 2 ^ (e - e')).
  { rewrite Z.mul_comm. apply Z.div_mul. lia. }
  assert (Hdq : Zdigits2 (Zpos m * 2 ^ (e - e')) = Zdigits2 (Zpos m) + (e - e'))
    by (apply Zdigits2_shift; lia).
  eapply round_post_near; [ | | exact H | exact Hb | | | ]; cbv zeta; rewrite ?Hq, ?Hdq.
  - lia.
  - nia.
  - lia.
  - lia.
  - replace (2 * Zpos 8388608 * (Zpos m * 2 ^ (e - e'))
             - 2 * (Zpos 8388608 * (Zpos m * 2 ^ (e - e')))) with 0 by lia.
    apply Z.mul_pos_pos; [lia | apply Z.pow_pos_nonneg; lia].
Qed.

(** [fresnel] once [cosi] is known to be [1]. *)
Lemma fresnel_from_inside (I N : vec3) (ior : F32.float) :
  fresnel_cosi I N = F32.one ->
  fresnel I N ior =
    let sint := F32.mul (F32.div ior F32.one) F32.zero in
    if F32.geb sint F32.one then F32.one
    else
      let cost :=
        F32.sqrt (F32.std_max F32.zero (F32.sub F32.one (F32.mul sint sint))) in
      let Rs := F32.div (F32.sub (F32.mul F32.one F32.one) (F32.mul ior cost))
                        (F32.add (F32.mul F32.one F32.one) (F32.mul ior cost)) in
      let Rp := F32.div (F32.sub (F32.mul ior F32.one) (F32.mul F32.one cost))
                        (F32.add (F32.mul ior F32.one) (F32.mul F32.one cost)) in
      F32.div (F32.add (F32.mul Rs Rs) (F32.mul Rp Rp)) F32.two.
Proof.
  intros Hcos. unfold fresnel. rewrite Hcos.
  change (F32.gtb F32.one F32.zero) with true. cbv beta iota zeta.
  change (F32.sqrt
            (F32.std_max F32.zero (F32.sub F32.one (F32.mul F32.one F32.one))))
    with F32.zero.
  change (F32.abs F32.one) with F32.one.
  reflexivity.
Qed.

(** X21: at normal incidence from inside the medium (the dot product of [I]
    and [N] is 1 or more) [fresnel] returns the same [((n - 1) / (n + 1))^2]
    as from outside; on this side a dot product above 1 is clamped. *)
Theorem fresnel_normal_incidence_inside (I N : vec3) (n : F32.float) :
  F32.valid n = true -> F32.ltb F32.zero n = true ->
  F32.ltb (glm.dot I N) F32.one = false ->
  fresnel I N n = normal_reflectance n.
Proof.
  intros Hv Hpos Hdot.
  rewrite (fresnel_from_inside I N n)
    by (rewrite fresnel_cosi_min; unfold glm.min; rewrite Hdot; reflexivity).
  unfold normal_reflectance. cbv zeta.
  destruct n as [s | s | | s m e]; try discriminate Hpos.
  - destruct s; [discriminate Hpos | reflexivity].
  - destruct s; [discriminate Hpos |]. cbn [F32.valid valid_binary] in Hv.
    rewrite (div_one_r false m e Hv).
    change (F32.mul (S754_finite false m e) F32.zero) with (S754_zero false).
    change (F32.geb (S754_zero false) F32.one) with false. cbv iota.
    change (F32.sqrt (F32.std_max F32.zero
              (F32.sub F32.one (F32.mul (S754_zero false) (S754_zero false)))))
      with F32.one.
    rewrite (mul_one_r false m e Hv). change (F32.mul F32.one F32.one) with F32.one.
    rewrite (add_comm F32.one (S754_finite false m e)).
    rewrite (add_comm (F32.mul (F32.div (F32.sub F32.one (S754_finite false m e)) _)
                         (F32.div (F32.sub F32.one (S754_finite false m e)) _))).
    destruct (sub_swap false m e false 8388608 (-23)) as [Hsw | [Hz1 Hz2]];
      cbv zeta in *; change (S754_finite false 8388608 (-23)) with F32.one in *.
    + rewrite Hsw, div_opp_l, mul_opp_opp. apply half_sum_of_squares. exact Hv.
    + rewrite Hz2, Hz1. pose proof (half_sum_of_squares m e Hv) as H. cbv zeta in H.
      rewrite Hz1 in H. exact H.
Qed.

Lemma fresnel_normal_incidence_inside_witness :
  fresnel (Vec3 F32.zero F32.zero F32.one) (Vec3 F32.zero F32.zero F32.one)
          (F32.ratio 3 2)
  = normal_reflectance (F32.ratio 3 2).
Proof. apply fresnel_normal_incidence_inside; reflexivity. Defined.

(** ** [fresnel] at grazing incidence *)

(** [fresnel] once [cosi] is known to be zero. *)
Lemma fresnel_grazing_form (I N : vec3) (ior : F32.float) (s : bool) :
  glm.dot I N = S754_zero s ->
  fresnel I N ior =
    let sint := F32.mul (F32.div F32.one ior) F32.one in
    if F32.geb sint F32.one then F32.one
    else
      let cost :=
        F32.sqrt (F32.std_max F32.zero (F32.sub F32.one (F32.mul sint sint))) in
      let Rs := F32.div (F32.sub (F32.mul ior F32.zero) (F32.mul F32.one cost))
                        (F32.add (F32.mul ior F32.zero) (F32.mul F32.one cost)) in
      let Rp := F32.div (F32.sub (F32.mul F32.one F32.zero) (F32.mul ior cost))
                        (F32.add (F32.mul F32.one F32.zero) (F32.mul ior cost)) in
      F32.div (F32.add (F32.mul Rs Rs) (F32.mul Rp Rp)) F32.two.
Proof.
  intros Hdot.
  assert (Hcos : fresnel_cosi I N = S754_zero s).
  { rewrite fresnel_cosi_min, Hdot. destruct s; reflexivity. }
  unfold fresnel. rewrite Hcos.
  replace (F32.gtb (S754_zero s) F32.zero) with false by (destruct s; reflexivity).
  cbv beta iota zeta.
  replace (F32.sqrt (F32.std_max F32.zero
             (F32.sub F32.one (F32.mul (S754_zero s) (S754_zero s)))))
    with F32.one by (destruct s; reflexivity).
  replace (F32.abs (S754_zero s)) with F32.zero by (destruct s; reflexivity).
  reflexivity.
Qed.

Lemma mul_one_l (s : bool) (m : positive) (e : Z) :
  bounded 24 128 m e = true ->
  F32.mul F32.one (S754_finite s m e) = S754_finite s m e.
Proof.
  intros Hb. rewrite <- (mul_one_r s m e Hb) at 2.
  change F32.one with (S754_finite false 8388608 (-23)).
  unfold F32.mul, SFmul. rewrite Pos.mul_comm, Z.add_comm, xorb_comm. reflexivity.
Qed.

Lemma mul_exp_ok (mx : positive) (ex : Z) (my : positive) (ey : Z) :
  bounded 24 128 mx ex = true -> bounded 24 128 my ey = true ->
  ex + ey <= Z.max (Zdigits2 (Zpos mx * Zpos my / 1) + (ex + ey) - 24) (-149).
Proof.
  intros Hx Hy. rewrite Z.div_1_r. apply bounded_facts in Hx, Hy.
  pose proof (Zdigits2_mul (Zpos mx) (Zpos my) ltac:(lia) ltac:(lia)). lia.
Qed.

(** The square of a number below 1 is below 1: at most [1 - 2^-24]. *)
Lemma square_below_one (ms : positive) (es : Z) :
  bounded 24 128 ms es = true -> es <= -24 ->
  at_most (F32.mul (S754_finite false ms es) (S754_finite false ms es)) 16777215 (-24).
Proof.
  intros Hb He. pose proof (mul_post false ms es false ms es Hb Hb) as P. cbn [xorb] in P.
  pose proof (bounded_facts ms es Hb) as (Hd & _ & _).
  pose proof (Zdigits2_bounds (Zpos ms) ltac:(lia)) as [_ Hhi].
  assert (Hm : Zpos ms <= 16777215).
  { assert (2 ^ Zdigits2 (Zpos ms) <= 2 ^ 24) by (apply Z.pow_le_mono_r; lia).
    change (2 ^ 24) with 16777216 in *. lia. }
  apply (round_post_at_most (Zpos ms * Zpos ms) 1 (es + es) _ 16777215 (-24));
    try lia; try reflexivity; try exact P.
  - apply mul_exp_ok; assumption.
  - assert (HP : 16777216 <= 2 ^ (-24 - (es + es))).
    { change 16777216 with (2 ^ 24). apply Z.pow_le_mono_r; lia. }
    nia.
Qed.

(** One minus a number that is at most [1 - 2^-24]. *)
Lemma one_minus (u : F32.float) :
  at_most u 16777215 (-24) ->
  exists (md : positive) (ed : Z),
    F32.sub F32.one u = S754_finite false md ed
    /\ bounded 24 128 md ed = true
    /\ (ed < -23 \/ (ed = -23 /\ Zpos md <= 8388608))
    /\ -23 <= Zdigits2 (Zpos md) + ed.
Proof.
  intros Hu. change F32.one with (S754_finite false 8388608 (-23)).
  destruct u as [s | s | | s mu eu]; cbn [at_most] in Hu; try contradiction;
    destruct s; try contradiction.
  - exists 8388608%positive, (-23). unfold F32.sub. cbn [SFsub].
    split; [reflexivity |]. split; [reflexivity |]. split; [right; split; lia |].
    change (Zdigits2 (Zpos 8388608)) with 24. lia.
  - destruct Hu as [Hb Hu].
    pose proof (bounded_facts mu eu Hb) as (Hd & He & _).
    pose proof (Zdigits2_bounds (Zpos mu) ltac:(lia)) as [_ Hhi].
    assert (Hm : Zpos mu < 16777216).
    { assert (2 ^ Zdigits2 (Zpos mu) <= 2 ^ 24) by (apply Z.pow_le_mono_r; lia).
      change (2 ^ 24) with 16777216 in *. lia. }
    unfold F32.sub, SFsub, F32.prec, F32.emax.
    replace (Z.min (-23) eu) with eu by lia.
    rewrite !shl_align_fst by lia. cbn [cond_Zopp].
    rewrite Z.sub_diag, Z.pow_0_r, Z.mul_1_r.
    set (K := 2 ^ (-24 - eu)).
    assert (HK : 1 <= K).
    { unfold K. change 1 with (2 ^ 0). apply Z.pow_le_mono_r; lia. }
    assert (HX : Zpos 8388608 * 2 ^ (-23 - eu) = 16777216 * K).
    { unfold K. change (Zpos 8388608) with (2 ^ 23). change 16777216 with (2 ^ 24).
      rewrite <- !Z.pow_add_r by lia. f_equal. lia. }
    rewrite HX.
    assert (Hgap : K <= 16777216 * K - Zpos mu).
    { destruct Hu as [Hlt | [-> Hle]].
      - assert (2 <= K).
        { unfold K. change 2 with (2 ^ 1). apply Z.pow_le_mono_r; lia. }
        lia.
      - unfold K. change (2 ^ (-24 - -24)) with 1. lia. }
    destruct (16777216 * K - Zpos mu) as [| p | p] eqn:Ep; try lia.
    cbn [binary_normalize].
    assert (L : at_most (binary_round 24 128 false p eu) 8388608 (-23)).
    { apply binary_round_at_most; [reflexivity | lia | rewrite HX; lia]. }
    pose proof (binary_round_bracket false p eu) as B.
    assert (Hdp : -23 <= Zdigits2 (Zpos p) + eu).
    { assert (- eu - 23 <= Zdigits2 (Zpos p)); [| lia].
      apply Zdigits2_lower; [| lia].
      replace (- eu - 23 - 1) with (-24 - eu) by lia. fold K. lia. }
    destruct (binary_round 24 128 false p eu) as [s' | s' | | s' md ed];
      cbn [at_most bracket] in L, B; try contradiction.
    + destruct B as [_ B]. lia.
    + destruct s'; [contradiction |]. destruct L as [Hbd L], B as (_ & _ & B).
      exists md, ed. repeat split; try assumption; lia.
Qed.
(** The square root of a number in [[2^-24, 1]]. *)
Lemma sqrt_below_one (md : positive) (ed : Z) :
  bounded 24 128 md ed = true ->
  ed < -23 \/ (ed = -23 /\ Zpos md <= 8388608) ->
  -23 <= Zdigits2 (Zpos md) + ed ->
  exists (mc : positive) (ec : Z),
    F32.sqrt (S754_finite false md ed) = S754_finite false mc ec
    /\ bounded 24 128 mc ec = true
    /\ ec <= -23 /\ Zpos mc <= 2 ^ (- ec)
    /\ -11 <= Zdigits2 (Zpos mc) + ec.
Proof.
  intros Hb Hle Hlo.
  pose proof (bounded_facts md ed Hb) as (Hd & He & Hn).
  destruct (Z.eq_dec ed (-23)) as [E23 | NE].
  - assert (Hm : Zpos md = 8388608).
    { destruct Hn as [Hn | Hn]; [| lia].
      pose proof (Zdigits2_bounds (Zpos md) ltac:(lia)) as [Hl _].
      rewrite Hn in Hl. change (2 ^ (24 - 1)) with 8388608 in Hl. lia. }
    clear - Hm E23. injection Hm as ->. subst ed.
    exists 8388608%positive, (-23). split; [reflexivity |]. split; [reflexivity |].
    split; [lia |]. split; [intros E; discriminate E |].
    change (Zdigits2 (Zpos 8388608)) with 24. lia.
  - assert (Hsum : Zdigits2 (Zpos md) + ed <= 0) by lia.
    destruct (sqrt_post md ed) as (N & d & e' & P & Hdpos & Hq & Hdig).
    set (h := (Zdigits2 (Zpos md) + ed + 1) / 2) in *.
    pose proof (Z.mul_div_le (Zdigits2 (Zpos md) + ed + 1) 2 ltac:(lia)) as H1.
    pose proof (Z.mul_succ_div_gt (Zdigits2 (Zpos md) + ed + 1) 2 ltac:(lia)) as H2.
    fold h in H1, H2.
    assert (Hh : -11 <= h <= 0) by lia.
    pose proof (round_post_unit _ _ _ _ P ltac:(lia)) as U.
    pose proof (round_post_bracket _ _ _ _ _ P Hq) as B. rewrite Hdig in B.
    destruct (F32.sqrt (S754_finite false md ed)) as [s | s | | s mc ec];
      cbn [bracket] in B; try contradiction; try lia.
    destruct B as (-> & Hbc & Hdc).
    destruct (unit_nonneg_cases _ U eq_refl) as [E | (m & e & E & _ & He23 & Hm)];
      [discriminate E |].
    injection E as <- <-.
    exists mc, ec. repeat split; try assumption; lia.
Qed.

(** A quotient of positive numbers has at least the exponent that the
    exponents of the two announce. *)
Lemma div_lower (mx : positive) (ex : Z) (my : positive) (ey : Z) (m : positive) (e : Z) :
  bounded 24 128 mx ex = true -> bounded 24 128 my ey = true ->
  F32.div (S754_finite false mx ex) (S754_finite false my ey) = S754_finite false m e ->
  Zdigits2 (Zpos mx) + ex - (Zdigits2 (Zpos my) + ey) <= Zdigits2 (Zpos m) + e.
Proof.
  intros Hx Hy HF.
  pose proof (div_post false mx ex false my ey Hx Hy) as P. cbv zeta in P.
  rewrite HF in P. cbn [xorb] in P.
  set (e' := div_exp mx ex my ey) in *.
  set (dx := Zdigits2 (Zpos mx)). set (dy := Zdigits2 (Zpos my)).
  assert (He' : e' <= Z.max (dx + ex - (dy + ey) - 24) (-149) /\ e' <= ex - ey)
    by (unfold e', div_exp; fold dx dy; lia).
  set (k := ex - ey - e') in *.
  assert (Hk : 0 <= k) by (unfold k; lia).
  set (N := Zpos mx * 2 ^ k) in *.
  assert (HP : 0 < 2 ^ k) by (apply Z.pow_pos_nonneg; lia).
  pose proof (bounded_facts m e ltac:(unfold round_post in P; tauto)) as (Hdm & Hem & _).
  destruct (Z_lt_le_dec 0 (N / Zpos my)) as [Hq | Hq].
  - pose proof (round_post_bracket _ _ _ _ _ P Hq) as B. cbn [bracket] in B.
    destruct B as (_ & _ & B & _).
    assert (Hdq : dx + k - dy <= Zdigits2 (N / Zpos my)).
    { destruct (Z_lt_le_dec 0 (dx + k - dy)) as [Ht | Ht].
      - pose proof (Zdigits2_bounds (Zpos mx) ltac:(lia)) as [Hmx _].
        pose proof (Zdigits2_bounds (Zpos my) ltac:(lia)) as [_ Hmy].
        fold dx in Hmx. fold dy in Hmy.
        apply Zdigits2_lower; [| exact Hq].
        apply Z.div_le_lower_bound; [lia |].
        assert (Hsplit : 2 ^ (dx - 1) * 2 ^ k = 2 ^ dy * 2 ^ (dx + k - dy - 1)).
        { pose proof (Zdigits2_pos (Zpos mx) ltac:(lia)) as Hpx.
          pose proof (Zdigits2_pos (Zpos my) ltac:(lia)) as Hpy.
          fold dx in Hpx. fold dy in Hpy.
          rewrite <- !Z.pow_add_r by lia. f_equal. lia. }
        assert (0 < 2 ^ (dx + k - dy - 1)) by (apply Z.pow_pos_nonneg; lia).
        unfold N. nia.
      - pose proof (Zdigits2_pos (N / Zpos my) Hq). lia. }
    unfold k in Hdq. lia.
  - (* the quotient is below the last place: the exponents are at the bottom *)
    assert (HN : N < Zpos my).
    { destruct (Z_lt_le_dec N (Zpos my)) as [H | H]; [exact H |].
      assert (1 <= N / Zpos my) by (apply Z.div_le_lower_bound; lia). lia. }
    pose proof (Zdigits2_bounds (Zpos mx) ltac:(lia)) as [Hmx _].
    pose proof (Zdigits2_bounds (Zpos my) ltac:(lia)) as [_ Hmy].
    fold dx in Hmx. fold dy in Hmy.
    assert (Hdd : dx + k <= dy).
    { destruct (Z_le_gt_dec (dx + k) dy) as [H | H]; [exact H | exfalso].
      pose proof (Zdigits2_pos (Zpos mx) ltac:(lia)) as Hpx. fold dx in Hpx.
      assert (2 ^ dy <= 2 ^ (dx - 1 + k)) by (apply Z.pow_le_mono_r; lia).
      rewrite Z.pow_add_r in * by lia. unfold N in HN. nia. }
    pose proof (Zdigits2_pos (Zpos m) ltac:(lia)). unfold k in Hdd. lia.
Qed.

(** The product of a number above 1 with a number of [[2^-12, 1]] is a
    positive number. *)
Lemma mul_below (mn : positive) (en : Z) (mc : positive) (ec : Z) :
  bounded 24 128 mn en = true -> bounded 24 128 mc ec = true ->
  1 <= Zdigits2 (Zpos mn) + en ->
  ec <= -23 -> Zpos mc <= 2 ^ (- ec) -> -11 <= Zdigits2 (Zpos mc) + ec ->
  exists (mt : positive) (et : Z),
    F32.mul (S754_finite false mn en) (S754_finite false mc ec) = S754_finite false mt et
    /\ bounded 24 128 mt et = true.
Proof.
  intros Hn Hc Hdn Hec Hmc Hdc.
  pose proof (mul_post false mn en false mc ec Hn Hc) as P. cbn [xorb] in P.
  assert (L : at_most (F32.mul (S754_finite false mn en) (S754_finite false mc ec)) mn en).
  { apply (round_post_at_most (Zpos mn * Zpos mc) 1 (en + ec) _ mn en);
      try lia; try assumption.
    - apply mul_exp_ok; assumption.
    - replace (en - (en + ec)) with (- ec) by lia. nia. }
  destruct (F32.mul (S754_finite false mn en) (S754_finite false mc ec))
    as [s | s | | s mt et]; cbn [at_most] in L; try contradiction;
    destruct s; try contradiction.
  - exfalso. unfold round_post in P. rewrite Z.div_1_r in P.
    destruct P as (_ & _ & _ & P).
    pose proof (Zdigits2_mul (Zpos mn) (Zpos mc) ltac:(lia) ltac:(lia)). lia.
  - exists mt, et. split; [reflexivity | tauto].
Qed.

(** X22: at grazing incidence (the dot product of [I] and [N] is zero)
    [fresnel] returns exactly 1.0 for every finite index of refraction above
    zero: through total reflection when the index is at most 1, and
    through [Rs = Rp = -1] otherwise. *)
Theorem fresnel_grazing (I N : vec3) (n : F32.float) (s : bool) :
  F32.valid n = true -> F32.is_finite n = true -> F32.ltb F32.zero n = true ->
  glm.dot I N = S754_zero s ->
  fresnel I N n = F32.one.
Proof.
  intros Hv Hf Hpos Hdot. rewrite (fresnel_grazing_form I N n s Hdot). cbv zeta.
  destruct n as [sn | sn | | sn m e]; try discriminate Hf; try discriminate Hpos.
  destruct sn; [discriminate Hpos |]. cbn [F32.valid valid_binary] in Hv.
  replace (F32.mul (S754_finite false m e) F32.zero) with (S754_zero false) by reflexivity.
  change (F32.mul F32.one F32.zero) with (S754_zero false).
  pose proof (div_bracket false 8388608 (-23) false m e eq_refl Hv) as B.
  change (S754_finite false 8388608 (-23)) with F32.one in B.
  destruct (F32.div F32.one (S754_finite false m e)) as [s1 | s1 | | s1 m1 e1] eqn:Hd;
    cbn [bracket xorb] in B; try contradiction.
  - (* 1 / n underflows to zero *)
    destruct B as [-> _].
    change (F32.mul (S754_zero false) F32.one) with (S754_zero false).
    change (F32.geb (S754_zero false) F32.one) with false. cbv iota.
    change (F32.sqrt (F32.std_max F32.zero
              (F32.sub F32.one (F32.mul (S754_zero false) (S754_zero false)))))
      with F32.one.
    rewrite (mul_one_r false m e Hv). change (F32.mul F32.one F32.one) with F32.one.
    replace (F32.sub (S754_zero false) (S754_finite false m e))
      with (F32.opp (S754_finite false m e)) by reflexivity.
    replace (F32.add (S754_zero false) (S754_finite false m e))
      with (S754_finite false m e) by reflexivity.
    rewrite div_opp_l, (div_self false m e Hv). reflexivity.
  - (* 1 / n overflows: total reflection *)
    destruct B as [-> _]. reflexivity.
  - destruct B as (-> & Hb1 & _).
    rewrite (mul_one_r false m1 e1 Hb1).
    destruct (F32.geb (S754_finite false m1 e1) F32.one) eqn:G; [reflexivity |].
    assert (He1 : e1 <= -24).
    { destruct (Z_le_gt_dec e1 (-24)) as [H | H]; [exact H | exfalso].
      unfold F32.geb in G. change F32.one with (S754_finite false 8388608 (-23)) in G.
      rewrite leb_finite_intro in G; [discriminate G |].
      destruct (Z.eq_dec e1 (-23)) as [E | NE]; [right | left; lia].
      split; [lia |].
      pose proof (bounded_facts m1 e1 Hb1) as (Hdd & _ & [Hn | Hn]); [| lia].
      pose proof (Zdigits2_bounds (Zpos m1) ltac:(lia)) as [Hl _].
      rewrite Hn in Hl. change (2 ^ (24 - 1)) with 8388608 in Hl. lia. }
    pose proof (div_lower 8388608 (-23) m e m1 e1 eq_refl Hv Hd) as Hlow.
    change (Zdigits2 (Zpos 8388608)) with 24 in Hlow.
    pose proof (bounded_facts m1 e1 Hb1) as (Hd1 & _ & _).
    assert (Hdn : 1 <= Zdigits2 (Zpos m) + e) by lia.
    destruct (one_minus _ (square_below_one m1 e1 Hb1 He1))
      as (md & ed & -> & Hbd & Hled & Hlod).
    replace (F32.std_max F32.zero (S754_finite false md ed))
      with (S754_finite false md ed) by reflexivity.
    destruct (sqrt_below_one md ed Hbd Hled Hlod)
      as (mc & ec & -> & Hbc & Hec & Hmc & Hdc).
    rewrite (mul_one_l false mc ec Hbc).
    destruct (mul_below m e mc ec Hv Hbc Hdn Hec Hmc Hdc) as (mt & et & -> & Hbt).
    replace (F32.sub (S754_zero false) (S754_finite false mc ec))
      with (F32.opp (S754_finite false mc ec)) by reflexivity.
    replace (F32.add (S754_zero false) (S754_finite false mc ec))
      with (S754_finite false mc ec) by reflexivity.
    replace (F32.sub (S754_zero false) (S754_finite false mt et))
      with (F32.opp (S754_finite false mt et)) by reflexivity.
    replace (F32.add (S754_zero false) (S754_finite false mt et))
      with (S754_finite false mt et) by reflexivity.
    rewrite !div_opp_l, (div_self false mc ec Hbc), (div_self false mt et Hbt).
    reflexivity.
Qed.

Lemma fresnel_grazing_witness :
  fresnel (Vec3 F32.one F32.zero F32.zero) (Vec3 F32.zero F32.one F32.zero)
          (F32.ratio 3 2) = F32.one.
Proof. apply (fresnel_grazing _ _ _ false); reflexivity. Defined.

(** * Bounds that need the size of the rounding error *)

(** ** Rounding, as a relative error

    The result of rounding [N / d * 2^ex] is at most [1 + 2^-24] times that
    value, up to one unit of [2^-149], and at least [1 - 2^-24] times it. *)

Lemma round_post_scale (N d ex : Z) :
  0 < d -> 0 <= N ->
  let E := Z.max (Zdigits2 (N / d) + ex - 24) (-149) in
  ex <= E -> -149 < E -> 8388608 * (d * 2 ^ (E - ex)) <= N.
Proof.
  intros Hd HN E Hex HE.
  assert (EE : E = Zdigits2 (N / d) + ex - 24) by (unfold E in *; lia).
  assert (Hq : 0 <= N / d) by (apply Z.div_pos; lia).
  destruct (Z.eq_dec (N / d) 0) as [Q0 | Q0].
  { rewrite Q0 in EE. change (Zdigits2 0) with 0 in EE. lia. }
  pose proof (Zdigits2_bounds (N / d) ltac:(lia)) as [Hlo _].
  replace (Zdigits2 (N / d) - 1) with (23 + (E - ex)) in Hlo by lia.
  rewrite Z.pow_add_r in Hlo by lia. change (2 ^ 23) with 8388608 in Hlo.
  pose proof (Z.mul_div_le N d Hd).
  assert (0 < 2 ^ (E - ex)) by (apply Z.pow_pos_nonneg; lia). nia.
Qed.

Lemma round_post_upper (N d ex : Z) (F : spec_float) :
  0 < d -> 0 <= N -> round_post false N d ex F -> finite_nonneg F ->
  let E := Z.max (Zdigits2 (N / d) + ex - 24) (-149) in
  ex <= E ->
  16777216 * (d * 2 ^ (E - ex)) * scaled F
  <= 16777217 * N * 2 ^ (E + 149) + 16777216 * (d * 2 ^ (E - ex)).
Proof.
  intros Hd HN Hpost Hfin E Hex. unfold round_post in Hpost. fold E in Hpost.
  pose proof (round_post_scale N d ex Hd HN) as Hsc. cbv zeta in Hsc. fold E in Hsc.
  specialize (Hsc Hex).
  assert (HE : -149 <= E) by (unfold E; lia).
  set (P := d * 2 ^ (E - ex)) in *.
  assert (HP : 0 < P).
  { unfold P. apply Z.mul_pos_pos; [lia | apply Z.pow_pos_nonneg; lia]. }
  set (W := 2 ^ (E + 149)).
  assert (HW : 1 <= W).
  { unfold W. change 1 with (2 ^ 0). apply Z.pow_le_mono_r; lia. }
  destruct F as [s | s | | s m e]; cbn [finite_nonneg] in Hfin; try contradiction;
    destruct s; try contradiction; cbn [scaled].
  - nia.
  - destruct Hpost as (_ & Hb & He & _ & Hv & _).
    replace (e + 149) with ((e - E) + (E + 149)) by lia.
    rewrite Z.pow_add_r by lia. fold W.
    set (R := Zpos m * 2 ^ (e - E)) in *.
    assert (HR : 0 <= R).
    { unfold R. apply Z.mul_nonneg_nonneg; [lia | apply Z.pow_nonneg; lia]. }
    rewrite Z.mul_assoc. fold R.
    destruct (Z.eq_dec E (-149)) as [E0 | E0].
    + assert (W1 : W = 1) by (unfold W; rewrite E0; reflexivity).
      rewrite W1. nia.
    + specialize (Hsc ltac:(lia)).
      assert (K : 16777216 * P * R <= 16777217 * N) by nia.
      nia.
Qed.

Lemma round_post_lower (N d ex : Z) (F : spec_float) :
  0 < d -> 0 <= N -> round_post false N d ex F -> finite_nonneg F ->
  let E := Z.max (Zdigits2 (N / d) + ex - 24) (-149) in
  ex <= E ->
  16777215 * N * 2 ^ (E + 149)
  <= 16777216 * (d * 2 ^ (E - ex)) * scaled F + 16777216 * (d * 2 ^ (E - ex)).
Proof.
  intros Hd HN Hpost Hfin E Hex. unfold round_post in Hpost. fold E in Hpost.
  pose proof (round_post_scale N d ex Hd HN) as Hsc. cbv zeta in Hsc. fold E in Hsc.
  specialize (Hsc Hex).
  assert (HE : -149 <= E) by (unfold E; lia).
  set (P := d * 2 ^ (E - ex)) in *.
  assert (HP : 0 < P).
  { unfold P. apply Z.mul_pos_pos; [lia | apply Z.pow_pos_nonneg; lia]. }
  set (W := 2 ^ (E + 149)).
  assert (HW : 1 <= W).
  { unfold W. change 1 with (2 ^ 0). apply Z.pow_le_mono_r; lia. }
  destruct F as [s | s | | s m e]; cbn [finite_nonneg] in Hfin; try contradiction;
    destruct s; try contradiction; cbn [scaled].
  - destruct Hpost as (_ & E0 & Hz & _).
    assert (W1 : W = 1) by (unfold W; rewrite E0; reflexivity).
    rewrite W1. nia.
  - destruct Hpost as (_ & Hb & He & _ & Hv & _).
    replace (e + 149) with ((e - E) + (E + 149)) by lia.
    rewrite Z.pow_add_r by lia. fold W.
    set (R := Zpos m * 2 ^ (e - E)) in *.
    assert (HR : 0 <= R).
    { unfold R. apply Z.mul_nonneg_nonneg; [lia | apply Z.pow_nonneg; lia]. }
    rewrite (Z.mul_assoc (Zpos m)). fold R.
    destruct (Z.eq_dec E (-149)) as [E0 | E0].
    + assert (W1 : W = 1) by (unfold W; rewrite E0; reflexivity).
      rewrite W1. nia.
    + specialize (Hsc ltac:(lia)).
      assert (K : 16777215 * N <= 16777216 * P * R) by nia.
      nia.
Qed.

Lemma scaled_nonneg (x : F32.float) : 0 <= scaled x.
Proof.
  destruct x as [s | s | | s m e]; cbn [scaled]; lia.
Qed.

Lemma nonneg_below_finite (k : Z) (x : F32.float) : nonneg_below k x -> finite_nonneg x.
Proof.
  destruct x as [[|] | [|] | | [|] m e]; cbn; try tauto.
Qed.

(** The exponent [SFdiv] rounds at is not above the exponent of the
    quotient. *)
Lemma div_exp_ok (mx : positive) (ex : Z) (my : positive) (ey : Z) :
  bounded 24 128 mx ex = true -> bounded 24 128 my ey = true ->
  let e' := div_exp mx ex my ey in
  e' <= Z.max (Zdigits2 (Zpos mx * 2 ^ (ex - ey - e') / Zpos my) + e' - 24) (-149).
Proof.
  intros Hx Hy e'.
  set (N := Zpos mx * 2 ^ (ex - ey - e')).
  assert (Hs : 0 <= ex - ey - e') by (unfold e', div_exp; lia).
  assert (HP : 0 < 2 ^ (ex - ey - e')) by (apply Z.pow_pos_nonneg; lia).
  assert (HN : 0 < N) by (unfold N; nia).
  apply bounded_facts in Hx, Hy.
  set (dx := Zdigits2 (Zpos mx)) in *. set (dy := Zdigits2 (Zpos my)) in *.
  assert (He' : e' <= Z.max (dx + ex - (dy + ey) - 24) (-149)) by (unfold e', div_exp; fold dx dy; lia).
  destruct (Z_lt_le_dec 0 (dx + (ex - ey - e') - dy)) as [Ht | Ht]; [| lia].
  assert (Hq : dx + (ex - ey - e') - dy <= Zdigits2 (N / Zpos my)).
  { pose proof (Zdigits2_bounds (Zpos mx) ltac:(lia)) as [Hmx _].
    pose proof (Zdigits2_bounds (Zpos my) ltac:(lia)) as [_ Hmy].
    fold dx in Hmx. fold dy in Hmy.
    assert (Hge : 2 ^ (dx + (ex - ey - e') - dy - 1) <= N / Zpos my).
    { apply Z.div_le_lower_bound; [lia |].
      assert (Hsplit : 2 ^ (dx - 1) * 2 ^ (ex - ey - e')
                       = 2 ^ dy * 2 ^ (dx + (ex - ey - e') - dy - 1)).
      { rewrite <- !Z.pow_add_r by lia. f_equal. lia. }
      assert (0 < 2 ^ (dx + (ex - ey - e') - dy - 1)) by (apply Z.pow_pos_nonneg; lia).
      unfold N. nia. }
    apply Zdigits2_lower; [exact Hge |].
    assert (0 < 2 ^ (dx + (ex - ey - e') - dy - 1)) by (apply Z.pow_pos_nonneg; lia). lia. }
  lia.
Qed.

(** A product is at most [1 + 2^-24] times the exact product, up to one
    unit. *)
Lemma mul_scaled (x y : F32.float) :
  finite_nonneg x -> finite_nonneg y -> finite_nonneg (F32.mul x y) ->
  16777216 * 2 ^ 149 * scaled (F32.mul x y)
  <= 16777217 * (scaled x * scaled y) + 16777216 * 2 ^ 149.
Proof.
  intros Hx Hy Hr.
  assert (HU : 0 < 2 ^ 149) by (apply Z.pow_pos_nonneg; lia).
  destruct x as [[|] | [|] | | [|] mx ex]; cbn [finite_nonneg] in Hx; try contradiction;
    destruct y as [[|] | [|] | | [|] my ey]; cbn [finite_nonneg] in Hy; try contradiction;
    try (cbn [F32.mul SFmul xorb scaled]; nia).
  pose proof (mul_post false mx ex false my ey Hx Hy) as P. cbn [xorb] in P.
  pose proof (mul_exp_ok mx ex my ey Hx Hy) as Hex.
  pose proof (round_post_upper (Zpos mx * Zpos my) 1 (ex + ey) _ ltac:(lia)
                ltac:(apply Z.mul_nonneg_nonneg; lia) P Hr Hex) as H.
  cbv zeta in H.
  set (r := scaled (F32.mul (S754_finite false mx ex) (S754_finite false my ey))) in *.
  set (E := Z.max (Zdigits2 (Zpos mx * Zpos my / 1) + (ex + ey) - 24) (-149)) in *.
  pose proof (bounded_facts mx ex Hx) as (Hdx & Hex' & _).
  pose proof (bounded_facts my ey Hy) as (Hdy & Hey' & _).
  assert (HE : E - (ex + ey) <= 149).
  { unfold E. rewrite Z.div_1_r.
    pose proof (Zdigits2_mul (Zpos mx) (Zpos my) ltac:(lia) ltac:(lia)). lia. }
  cbn [scaled].
  set (K := 2 ^ (149 - (E - (ex + ey)))).
  assert (HK : 0 < K) by (apply Z.pow_pos_nonneg; lia).
  assert (H1 : 2 ^ (E - (ex + ey)) * K = 2 ^ 149).
  { unfold K. rewrite <- Z.pow_add_r by lia. f_equal. lia. }
  assert (H2 : 2 ^ (E + 149) * K = 2 ^ (ex + 149) * 2 ^ (ey + 149)).
  { unfold K. rewrite <- !Z.pow_add_r by (unfold E; lia). f_equal. lia. }
  rewrite <- H1.
  replace (Zpos mx * 2 ^ (ex + 149) * (Zpos my * 2 ^ (ey + 149)))
    with (Zpos mx * Zpos my * (2 ^ (E + 149) * K)) by (rewrite H2; ring).
  nia.
Qed.

(** A quotient is at most [1 + 2^-24] times the exact quotient, up to one
    unit. *)
Lemma div_scaled (x : F32.float) (my : positive) (ey : Z) :
  finite_nonneg x -> bounded 24 128 my ey = true ->
  finite_nonneg (F32.div x (S754_finite false my ey)) ->
  16777216 * scaled (F32.div x (S754_finite false my ey)) * scaled (S754_finite false my ey)
  <= 16777217 * (scaled x * 2 ^ 149) + 16777216 * scaled (S754_finite false my ey).
Proof.
  intros Hx Hy Hr.
  destruct x as [[|] | [|] | | [|] mx ex]; cbn [finite_nonneg] in Hx; try contradiction.
  { unfold F32.div. cbn [SFdiv xorb scaled].
    assert (0 < 2 ^ (ey + 149)) by (apply Z.pow_pos_nonneg; apply bounded_facts in Hy; lia).
    nia. }
  pose proof (div_post false mx ex false my ey Hx Hy) as P. cbn [xorb] in P. cbv zeta in P.
  pose proof (div_exp_ok mx ex my ey Hx Hy) as Hex. cbv zeta in Hex.
  pose proof (round_post_upper (Zpos mx * 2 ^ (ex - ey - div_exp mx ex my ey)) (Zpos my)
                (div_exp mx ex my ey) _ ltac:(lia)
                ltac:(apply Z.mul_nonneg_nonneg; [lia | apply Z.pow_nonneg; lia])
                P Hr Hex) as H.
  cbv zeta in H.
  set (r := scaled (F32.div (S754_finite false mx ex) (S754_finite false my ey))) in *.
  set (e' := div_exp mx ex my ey) in *.
  set (E := Z.max (Zdigits2 (Zpos mx * 2 ^ (ex - ey - e') / Zpos my) + e' - 24) (-149)) in *.
  pose proof (bounded_facts mx ex Hx) as (Hdx & Hex' & _).
  pose proof (bounded_facts my ey Hy) as (Hdy & Hey' & _).
  assert (He' : e' <= ex - ey) by (unfold e', div_exp; lia).
  cbn [scaled].
  set (P' := 2 ^ (E - e')) in *.
  assert (HP : 0 < P') by (apply Z.pow_pos_nonneg; lia).
  set (Y := 2 ^ (ey + 149)).
  assert (HY : 0 < Y) by (apply Z.pow_pos_nonneg; lia).
  assert (H2 : 2 ^ (ex - ey - e') * 2 ^ (E + 149) * Y = 2 ^ (ex + 149) * 2 ^ 149 * P').
  { unfold Y, P'. rewrite <- !Z.pow_add_r by (unfold E; lia). f_equal. lia. }
  assert (Hr0 : 0 <= r) by apply scaled_nonneg.
  assert (K : P' * (16777216 * r * (Zpos my * Y))
              <= P' * (16777217 * (Zpos mx * 2 ^ (ex + 149) * 2 ^ 149)
                       + 16777216 * (Zpos my * Y))).
  { replace (P' * (16777217 * (Zpos mx * 2 ^ (ex + 149) * 2 ^ 149) + 16777216 * (Zpos my * Y)))
      with (16777217 * (Zpos mx * (2 ^ (ex + 149) * 2 ^ 149 * P'))
            + 16777216 * (Zpos my * P') * Y) by ring.
    rewrite <- H2. nia. }
  apply Z.mul_le_mono_pos_l in K; [exact K | exact HP].
Qed.

(** What [binary_round] returns for a whole number of units of [2^ez]. *)
Lemma binary_round_scaled (p : positive) (ez : Z) :
  -149 <= ez -> finite_nonneg (binary_round 24 128 false p ez) ->
  16777216 * scaled (binary_round 24 128 false p ez)
  <= 16777217 * (Zpos p * 2 ^ (ez + 149)) + 16777216
  /\ 16777215 * (Zpos p * 2 ^ (ez + 149))
     <= 16777216 * scaled (binary_round 24 128 false p ez) + 16777216.
Proof.
  intros Hez Hr.
  pose proof (binary_round_post false p ez) as P. cbv zeta in P.
  destruct (binary_round_exp p ez) as [H1 H2]. cbv zeta in H1, H2.
  set (ez' := Z.min ez (Z.max (Zdigits2 (Zpos p) + ez - 24) (-149))) in *.
  assert (HK : 0 < 2 ^ (ez - ez')) by (apply Z.pow_pos_nonneg; lia).
  assert (HN : 0 <= Zpos p * 2 ^ (ez - ez')) by nia.
  pose proof (round_post_upper _ 1 _ _ ltac:(lia) HN P Hr H2) as Hu.
  pose proof (round_post_lower _ 1 _ _ ltac:(lia) HN P Hr H2) as Hl.
  cbv zeta in Hu, Hl.
  set (r := scaled (binary_round 24 128 false p ez)) in *.
  set (E := Z.max (Zdigits2 (Zpos p * 2 ^ (ez - ez') / 1) + ez' - 24) (-149)) in *.
  assert (HE : E = Z.max (Zdigits2 (Zpos p) + ez - 24) (-149)).
  { unfold E. rewrite Z.div_1_r, Zdigits2_shift by lia. lia. }
  assert (Hez' : -149 <= ez') by (unfold ez'; lia).
  set (P' := 2 ^ (E - ez')) in *.
  assert (HP : 0 < P') by (apply Z.pow_pos_nonneg; lia).
  assert (H3 : 2 ^ (ez - ez') * 2 ^ (E + 149) = 2 ^ (ez + 149) * P').
  { unfold P'. rewrite <- !Z.pow_add_r by lia. f_equal. lia. }
  assert (Hr0 : 0 <= r) by apply scaled_nonneg.
  set (V := Zpos p * 2 ^ (ez + 149)).
  assert (HV : Zpos p * 2 ^ (ez - ez') * 2 ^ (E + 149) = V * P').
  { unfold V. rewrite <- !Z.mul_assoc, H3. reflexivity. }
  rewrite !Z.mul_1_l in Hu, Hl.
  rewrite <- !Z.mul_assoc in Hu, Hl. rewrite !(Z.mul_assoc (Zpos p)) in Hu, Hl.
  rewrite HV in Hu, Hl.
  split.
  - apply (Z.mul_le_mono_pos_l _ _ P' HP). nia.
  - apply (Z.mul_le_mono_pos_l _ _ P' HP). nia.
Qed.

(** A sum of two numbers that are not negative. *)
Lemma add_scaled (x y : F32.float) :
  finite_nonneg x -> finite_nonneg y -> finite_nonneg (F32.add x y) ->
  16777216 * scaled (F32.add x y) <= 16777217 * (scaled x + scaled y) + 16777216.
Proof.
  intros Hx Hy Hr.
  destruct x as [[|] | [|] | | [|] mx ex]; cbn [finite_nonneg] in Hx; try contradiction;
    destruct y as [[|] | [|] | | [|] my ey]; cbn [finite_nonneg] in Hy; try contradiction.
  - cbn. lia.
  - cbn [F32.add SFadd]. pose proof (scaled_nonneg (S754_finite false my ey)). cbn [scaled] in *. lia.
  - cbn [F32.add SFadd]. pose proof (scaled_nonneg (S754_finite false mx ex)). cbn [scaled] in *. lia.
  - pose proof (bounded_facts mx ex Hx) as (_ & Hex & _).
    pose proof (bounded_facts my ey Hy) as (_ & Hey & _).
    revert Hr. unfold F32.add, SFadd. rewrite !shl_align_fst by lia. cbn [cond_Zopp].
    set (ez := Z.min ex ey).
    assert (HX : 0 < 2 ^ (ex - ez)) by (apply Z.pow_pos_nonneg; lia).
    assert (HY : 0 < 2 ^ (ey - ez)) by (apply Z.pow_pos_nonneg; lia).
    destruct (Zpos mx * 2 ^ (ex - ez) + Zpos my * 2 ^ (ey - ez)) as [| p | p] eqn:Ep; try nia.
    cbn [binary_normalize]. unfold F32.prec, F32.emax. intros Hr.
    destruct (binary_round_scaled p ez ltac:(lia) Hr) as [Hu _].
    cbn [scaled].
    assert (Hsum : Zpos p * 2 ^ (ez + 149)
                   = Zpos mx * 2 ^ (ex + 149) + Zpos my * 2 ^ (ey + 149)).
    { rewrite <- Ep, Z.mul_add_distr_r, <- !Z.mul_assoc, <- !Z.pow_add_r by lia.
      do 2 f_equal; f_equal; lia. }
    rewrite <- Hsum. exact Hu.
Qed.

(** The conversion of a 32-bit integer. *)
Lemma of_Z_scaled (z : Z) :
  0 <= z < 2 ^ 32 ->
  finite_nonneg (F32.of_Z z)
  /\ 16777216 * scaled (F32.of_Z z) <= 16777217 * (z * 2 ^ 149) + 16777216
  /\ 16777215 * (z * 2 ^ 149) <= 16777216 * scaled (F32.of_Z z) + 16777216.
Proof.
  intros Hz.
  assert (Hf : finite_nonneg (F32.of_Z z)).
  { apply (nonneg_below_finite 33). apply of_Z_nonneg_below. exact Hz. }
  split; [exact Hf |].
  revert Hf. unfold F32.of_Z, F32.prec, F32.emax.
  destruct z as [| p | p]; try lia.
  - intros _. cbn. lia.
  - cbn [binary_normalize]. intros Hf.
    destruct (binary_round_scaled p 0 ltac:(lia) Hf) as [Hu Hl].
    rewrite Z.add_0_l in Hu, Hl. split; assumption.
Qed.

(** ** [haltonSequence]: the sum stays near 1

    One pass of the loop, over the integers: [s], [f] are the sum and the
    fraction before the pass, [f'], [t], [s'] the quotient, the product and
    the sum it computes, [B] and [D] the converted base and digit, all in
    units of [2^-149].  The quantity [s + (1 + 8 * 2^-24) * f] grows by at most
    [1.5 * 2^-24] in a pass. *)
Lemma halton_step_arith (k s f f' t s' B D b d : Z) :
  0 <= k < 32 -> 0 <= s -> 0 <= f -> 0 <= f' -> 0 <= t -> 0 <= s' ->
  0 <= d <= b - 1 -> 2 <= b < 2 ^ 32 ->
  16777216 * (f' * B) <= 16777217 * (f * 2 ^ 149) + 16777216 * B ->
  16777216 * 2 ^ 149 * t <= 16777217 * (f' * D) + 16777216 * 2 ^ 149 ->
  16777216 * s' <= 16777217 * (s + t) + 16777216 ->
  16777215 * (b * 2 ^ 149) <= 16777216 * B + 16777216 ->
  16777216 * B <= 16777217 * (b * 2 ^ 149) + 16777216 ->
  16777216 * D <= 16777217 * (d * 2 ^ 149) + 16777216 ->
  2 * (16777216 * s + 16777224 * f) <= 2 ^ 149 * (33554448 + 3 * k) ->
  2 * (16777216 * s' + 16777224 * f') <= 2 ^ 149 * (33554448 + 3 * (k + 1)).
Proof.
  intros Hk Hs Hf Hf' Ht Hs' Hd Hb Hdiv Hmul Hadd HBlo HBhi HD Inv.
  change (2 ^ 32) with 4294967296 in Hb.
  change (2 ^ 149) with 713623846352979940529142984724747568191373312 in *.
  assert (P1 : 0 <= f' * (16777216 * B + 16777216
                          - 16777215 * (b * 713623846352979940529142984724747568191373312)))
    by (apply Z.mul_nonneg_nonneg; lia).
  assert (P2 : 0 <= f' * (16777217 * (d * 713623846352979940529142984724747568191373312)
                          + 16777216 - 16777216 * D))
    by (apply Z.mul_nonneg_nonneg; lia).
  assert (P3 : 0 <= f' * (b - 1 - d)) by (apply Z.mul_nonneg_nonneg; lia).
  assert (P4 : 0 <= f' * (b - 2)) by (apply Z.mul_nonneg_nonneg; lia).
  lia.
Qed.

Lemma scaled_below (k : Z) (x : F32.float) :
  finite_nonneg x -> -149 <= k -> scaled x < 2 ^ (k + 149) -> nonneg_below k x.
Proof.
  destruct x as [[|] | [|] | | [|] m e]; cbn [finite_nonneg nonneg_below scaled];
    try tauto.
  intros Hb Hk H. split; [exact Hb |].
  pose proof (bounded_facts m e Hb) as (_ & He & _).
  assert (Hp : 0 < 2 ^ (e + 149)) by (apply Z.pow_pos_nonneg; lia).
  pose proof (Zdigits2_upper (Zpos m * 2 ^ (e + 149)) (k + 149) ltac:(lia) ltac:(nia)) as Hd.
  rewrite Zdigits2_shift in Hd by lia. lia.
Qed.

(** ** [equal]: when adding twice the tolerance moves a number *)

(** A binary32 number has one canonical form. *)
Lemma canonical_unique (m : positive) (e : Z) (m' : positive) (e' : Z) :
  bounded 24 128 m e = true -> bounded 24 128 m' e' = true ->
  Zpos m * 2 ^ (e + 149) = Zpos m' * 2 ^ (e' + 149) -> m = m' /\ e = e'.
Proof.
  intros Hb Hb' H.
  pose proof (bounded_facts m e Hb) as (_ & He & _).
  pose proof (bounded_facts m' e' Hb') as (_ & He' & _).
  pose proof (bounded_elim m e Hb) as [Hc _].
  pose proof (bounded_elim m' e' Hb') as [Hc' _].
  pose proof (Zdigits2_shift (Zpos m) (e + 149) ltac:(lia) ltac:(lia)) as D1.
  pose proof (Zdigits2_shift (Zpos m') (e' + 149) ltac:(lia) ltac:(lia)) as D2.
  rewrite H in D1.
  assert (Ee : e = e') by lia. subst e'.
  assert (0 < 2 ^ (e + 149)) by (apply Z.pow_pos_nonneg; lia).
  assert (Em : Zpos m = Zpos m') by nia.
  injection Em as ->. split; reflexivity.
Qed.

(** Canonical numbers are ordered as their values are. *)
Lemma scaled_le_canonical (m0 : positive) (e0 : Z) (m : positive) (e : Z) :
  bounded 24 128 m0 e0 = true -> bounded 24 128 m e = true ->
  Zpos m0 * 2 ^ (e0 + 149) <= Zpos m * 2 ^ (e + 149) ->
  e0 < e \/ (e = e0 /\ Zpos m0 <= Zpos m).
Proof.
  intros Hb0 Hb H.
  pose proof (bounded_facts m0 e0 Hb0) as (_ & He0 & _).
  pose proof (bounded_facts m e Hb) as (_ & He & _).
  pose proof (bounded_elim m0 e0 Hb0) as [Hc0 _].
  pose proof (bounded_elim m e Hb) as [Hc _].
  assert (P0 : 0 < 2 ^ (e0 + 149)) by (apply Z.pow_pos_nonneg; lia).
  assert (P1 : 0 < 2 ^ (e + 149)) by (apply Z.pow_pos_nonneg; lia).
  pose proof (Zdigits2_le (Zpos m0 * 2 ^ (e0 + 149)) (Zpos m * 2 ^ (e + 149))
                ltac:(split; [nia | exact H])) as D.
  rewrite !Zdigits2_shift in D by lia.
  destruct (Z_lt_le_dec e0 e) as [Hlt | Hge]; [left; exact Hlt | right].
  assert (Ee : e = e0) by lia. subst e. split; [reflexivity | nia].
Qed.

Lemma at_least_not_ltb (F : F32.float) (m0 : positive) (e0 : Z) :
  at_least F m0 e0 -> F32.ltb F (S754_finite false m0 e0) = false.
Proof.
  destruct F as [[|] | [|] | | [|] m e]; cbn [at_least]; try contradiction.
  - intros _. reflexivity.
  - intros [_ H]. unfold F32.ltb, SFltb, SFcompare. fold_pos_compare.
    destruct (Z.compare_spec e e0); try reflexivity; try lia.
    destruct (Pos.compare_spec m m0); try reflexivity. lia.
Qed.

(** What [binary_round] returns for [p] units of [2^ez]: the number itself
    when it is representable, and otherwise a normal number within half a
    unit [2^E] of its binade. *)
Lemma binary_round_cases (p : positive) (ez : Z) :
  -149 <= ez ->
  binary_round 24 128 false p ez = S754_infinity false
  \/ exists (m : positive) (e : Z),
       binary_round 24 128 false p ez = S754_finite false m e
       /\ bounded 24 128 m e = true
       /\ (Zpos m * 2 ^ (e + 149) = Zpos p * 2 ^ (ez + 149)
           \/ exists E : Z,
                ez < E /\ E <= e /\ 8388608 <= Zpos m
                /\ Z.abs (2 * (Zpos m * 2 ^ (e - ez)) - 2 * Zpos p) <= 2 ^ (E - ez)
                /\ 8388608 * 2 ^ (E - ez) <= Zpos p).
Proof.
  intros Hez.
  pose proof (binary_round_post false p ez) as H. cbv zeta in H.
  destruct (binary_round_exp p ez) as [H1 H2]. cbv zeta in H1, H2.
  set (ez' := Z.min ez (Z.max (Zdigits2 (Zpos p) + ez - 24) (-149))) in *.
  assert (HK : 0 < 2 ^ (ez - ez')) by (apply Z.pow_pos_nonneg; lia).
  unfold round_post in H. rewrite Z.div_1_r, Zdigits2_shift in H by lia.
  replace (Zdigits2 (Zpos p) + (ez - ez') + ez') with (Zdigits2 (Zpos p) + ez) in H by lia.
  set (E := Z.max (Zdigits2 (Zpos p) + ez - 24) (-149)) in *.
  assert (Hez' : ez' = Z.min ez E) by reflexivity.
  assert (HE149 : -149 <= E) by (unfold E; lia).
  assert (HP : 0 < 2 ^ (E - ez')) by (apply Z.pow_pos_nonneg; lia).
  destruct (binary_round 24 128 false p ez) as [s | s | | s m e].
  - exfalso. destruct H as (_ & E0 & Hz & _).
    assert (ez' = -149) by lia.
    replace (E - ez') with 0 in Hz by lia. change (2 ^ 0) with 1 in Hz. nia.
  - left. destruct H as (-> & _). reflexivity.
  - contradiction.
  - right. destruct H as (-> & Hb & He & _ & Hv & _).
    exists m, e. split; [reflexivity |]. split; [exact Hb |].
    pose proof (bounded_facts m e Hb) as (Hd & Hee & Hn).
    destruct (Z_le_gt_dec E ez) as [Hle | Hgt].
    + left. assert (Ee : ez' = E) by lia. rewrite Ee in *.
      rewrite Z.sub_diag, Z.pow_0_r in Hv.
      assert (Hx : Zpos m * 2 ^ (e - E) = Zpos p * 2 ^ (ez - E)) by lia.
      replace (e + 149) with ((e - E) + (E + 149)) by lia.
      replace (ez + 149) with ((ez - E) + (E + 149)) by lia.
      rewrite (Z.pow_add_r 2 (e - E) (E + 149)), (Z.pow_add_r 2 (ez - E) (E + 149)) by lia.
      rewrite !Z.mul_assoc, Hx. reflexivity.
    + right. exists E. assert (Ee : ez' = ez) by lia. rewrite Ee in *.
      rewrite Z.sub_diag, Z.pow_0_r, Z.mul_1_r in Hv.
      split; [lia |]. split; [lia |].
      assert (Hd24 : Zdigits2 (Zpos m) = 24) by lia.
      pose proof (Zdigits2_bounds (Zpos m) ltac:(lia)) as [Hm _].
      rewrite Hd24 in Hm. change (2 ^ (24 - 1)) with 8388608 in Hm.
      split; [exact Hm |].
      split.
      * replace (e - ez) with ((E - ez) + (e - E)) by lia.
        rewrite Z.pow_add_r by lia.
        replace (2 * (Zpos m * (2 ^ (E - ez) * 2 ^ (e - E))) - 2 * Zpos p)
          with (2 * (1 * 2 ^ (E - ez)) * (Zpos m * 2 ^ (e - E)) - 2 * Zpos p) by ring.
        rewrite Z.mul_1_l in *. exact Hv.
      * pose proof (Zdigits2_bounds (Zpos p) ltac:(lia)) as [Hp _].
        replace (Zdigits2 (Zpos p) - 1) with (23 + (E - ez)) in Hp by (unfold E in *; lia).
        change (2 ^ 23) with 8388608 in Hp.
        rewrite Z.pow_add_r in Hp by lia. exact Hp.
Qed.

(** Rounding does not go below a binary32 number that the exact value
    reaches. *)
Lemma binary_round_at_least_scaled (p : positive) (ez : Z) (m0 : positive) (e0 : Z) :
  -149 <= ez -> bounded 24 128 m0 e0 = true ->
  Zpos m0 * 2 ^ (e0 + 149) <= Zpos p * 2 ^ (ez + 149) ->
  at_least (binary_round 24 128 false p ez) m0 e0.
Proof.
  intros Hez Hb0 Hle.
  pose proof (bounded_facts m0 e0 Hb0) as (_ & He0 & _).
  destruct (Z_le_gt_dec ez e0) as [Hlow | Hhigh].
  - apply binary_round_at_least; [exact Hb0 | exact Hlow |].
    assert (0 < 2 ^ (ez + 149)) by (apply Z.pow_pos_nonneg; lia).
    replace (e0 + 149) with ((e0 - ez) + (ez + 149)) in Hle by lia.
    rewrite Z.pow_add_r in Hle by lia. nia.
  - destruct (binary_round_cases p ez Hez) as [-> | (m & e & -> & Hb & Hc)]; [exact I |].
    cbn [at_least]. split; [exact Hb |].
    destruct Hc as [Hx | (E & HE1 & HE2 & _)]; [| left; lia].
    rewrite <- Hx in Hle.
    destruct (scaled_le_canonical m0 e0 m e Hb0 Hb Hle) as [H | [H1 H2]]; [left | right]; lia.
Qed.

Lemma move_core (P j G : Z) :
  0 < P -> 0 < G -> Z.abs (2 * G - 2 * (P * j)) <= P ->
  (j = 0 /\ 2 * G <= P) \/ G <= 2 * (P * j).
Proof.
  intros HP HG H. destruct (Z.eq_dec j 0) as [-> | Hj].
  - left. split; [reflexivity | lia].
  - right. assert (C : j <= -1 \/ 1 <= j) by lia. destruct C; nia.
Qed.

Lemma scaled_split (m : positive) (e ez : Z) :
  -149 <= ez <= e -> Zpos m * 2 ^ (e + 149) = Zpos m * 2 ^ (e - ez) * 2 ^ (ez + 149).
Proof.
  intros H. rewrite <- Z.mul_assoc, <- Z.pow_add_r by lia. do 2 f_equal. lia.
Qed.

(** Adding a positive number [g] to a finite [x]: the sum is [+infinity], or
    it is [x] itself, which takes [g] below [2^-24 |x|] or so, or it is at
    least [g / 2] above [x]. *)
Lemma add_moves (sx : bool) (mx : positive) (ex : Z) (mg : positive) (eg : Z) :
  bounded 24 128 mx ex = true -> bounded 24 128 mg eg = true ->
  let x := S754_finite sx mx ex in
  let g := S754_finite false mg eg in
  let y := F32.add x g in
  y = S754_infinity false
  \/ (F32.valid y = true /\ F32.is_finite y = true
      /\ ((y = x /\ 16777215 * scaled g <= scaled x)
          \/ scaled g <= 2 * (signed_scaled y - signed_scaled x))).
Proof.
  intros Hx Hg x g y.
  pose proof (bounded_facts mx ex Hx) as (Hdx & Hex & _).
  pose proof (bounded_facts mg eg Hg) as (Hdg & Heg & _).
  pose proof (Zdigits2_bounds (Zpos mx) ltac:(lia)) as [_ Hmxhi].
  assert (Hmx : Zpos mx < 16777216).
  { change 16777216 with (2 ^ 24).
    eapply Z.lt_le_trans; [exact Hmxhi | apply Z.pow_le_mono_r; lia]. }
  unfold y, x, g, F32.add, SFadd, F32.prec, F32.emax. rewrite !shl_align_fst by lia.
  set (ez := Z.min ex eg).
  assert (Hez : -149 <= ez) by (unfold ez; lia).
  assert (Hez1 : ez <= ex) by (unfold ez; lia).
  assert (Hez2 : ez <= eg) by (unfold ez; lia).
  pose proof (scaled_split mx ex ez ltac:(lia)) as HXs.
  pose proof (scaled_split mg eg ez ltac:(lia)) as HGs.
  assert (HXp : 0 < 2 ^ (ex - ez)) by (apply Z.pow_pos_nonneg; lia).
  assert (HXu : 0 < Zpos mx * 2 ^ (ex - ez)) by (apply Z.mul_pos_pos; lia).
  assert (HGu : 0 < Zpos mg * 2 ^ (eg - ez))
    by (apply Z.mul_pos_pos; [lia | apply Z.pow_pos_nonneg; lia]).
  set (Xu := Zpos mx * 2 ^ (ex - ez)) in *. set (Gu := Zpos mg * 2 ^ (eg - ez)) in *.
  set (S := 2 ^ (ez + 149)) in *.
  assert (HS : 0 < S) by (apply Z.pow_pos_nonneg; lia).
  assert (HXS : 0 < Xu * S) by (apply Z.mul_pos_pos; lia).
  assert (HGS : 0 < Gu * S) by (apply Z.mul_pos_pos; lia).
  cbn [scaled signed_scaled]. rewrite HXs, HGs.
  destruct sx; cbn [cond_Zopp].
  - (* x is negative *)
    destruct (- Xu + Gu) as [| p | p] eqn:Ep; cbn [binary_normalize].
    + right. split; [reflexivity |]. split; [reflexivity |]. right.
      cbn [signed_scaled]. replace Gu with Xu by lia. lia.
    + assert (Ep' : Zpos p = Gu - Xu) by lia.
      destruct (binary_round_cases p ez Hez) as [-> | (m & e & -> & Hb & Hc)];
        [left; reflexivity | right].
      split; [exact Hb |]. split; [reflexivity |]. right.
      cbn [signed_scaled scaled cond_Zopp].
      pose proof (bounded_facts m e Hb) as (_ & He & _).
      destruct Hc as [Hexact | (E & HE1 & HE2 & Hm & Hv & Hp)].
      * rewrite Hexact. fold S. rewrite Ep'. lia.
      * rewrite (scaled_split m e ez ltac:(lia)).
        set (Yu := Zpos m * 2 ^ (e - ez)) in *.
        set (P := 2 ^ (E - ez)) in *.
        assert (HP : 0 < P) by (apply Z.pow_pos_nonneg; lia).
        assert (K : Gu <= 2 * (Yu + Xu)) by lia.
        apply (Z.mul_le_mono_nonneg_r _ _ S) in K; lia.
    + (* the sum is negative: it is not below x *)
      change true with (negb false). rewrite binary_round_opp.
      assert (Hp : Zpos p = Xu - Gu) by lia.
      pose proof (binary_round_at_most p ez mx ex Hx ltac:(lia)
                    ltac:(fold Xu; lia)) as Hmost.
      destruct (binary_round_cases p ez Hez) as [Hinf | (m & e & Hr & Hb & Hc)].
      { rewrite Hinf in Hmost. contradiction. }
      rewrite Hr. cbn [SFopp negb]. right.
      split; [exact Hb |]. split; [reflexivity |].
      cbn [signed_scaled scaled cond_Zopp].
      pose proof (bounded_facts m e Hb) as (_ & He & _).
      destruct Hc as [Hexact | (E & HE1 & HE2 & Hm & Hv & HpE)].
      * right. rewrite Hexact. fold S. rewrite Hp. lia.
      * rewrite (scaled_split m e ez ltac:(lia)).
        set (Yu := Zpos m * 2 ^ (e - ez)) in *.
        set (P := 2 ^ (E - ez)) in *.
        assert (HP : 0 < P) by (apply Z.pow_pos_nonneg; lia).
        assert (HexE : E <= ex).
        { destruct (Z_le_gt_dec E ex) as [Hok | Hbad]; [exact Hok | exfalso].
          assert (H2P : 2 * 2 ^ (ex - ez) <= P).
          { unfold P. change 2 with (2 ^ 1) at 1. rewrite <- Z.pow_add_r by lia.
            apply Z.pow_le_mono_r; lia. }
          assert (Xu * 2 <= 16777215 * (2 * 2 ^ (ex - ez))).
          { unfold Xu. rewrite <- Z.mul_assoc, (Z.mul_comm (2 ^ (ex - ez)) 2).
            apply Z.mul_le_mono_nonneg_r; lia. }
          lia. }
        set (a := Zpos mx * 2 ^ (ex - E)). set (b := Zpos m * 2 ^ (e - E)).
        assert (Ha : Xu = P * a).
        { unfold Xu, P, a. rewrite (Z.mul_comm (2 ^ (E - ez))), <- Z.mul_assoc,
            <- Z.pow_add_r by lia. do 2 f_equal. lia. }
        assert (Hbb : Yu = P * b).
        { unfold Yu, P, b. rewrite (Z.mul_comm (2 ^ (E - ez))), <- Z.mul_assoc,
            <- Z.pow_add_r by lia. do 2 f_equal. lia. }
        destruct (move_core P (a - b) Gu HP ltac:(lia) ltac:(lia)) as [[J0 Hsmall] | Hfar].
        -- left. assert (Eab : a = b) by lia.
           assert (Hsame : Zpos m * 2 ^ (e + 149) = Zpos mx * 2 ^ (ex + 149)).
           { rewrite (scaled_split m e E ltac:(lia)), (scaled_split mx ex E ltac:(lia)).
             fold a b. rewrite Eab. reflexivity. }
           destruct (canonical_unique m e mx ex Hb Hx Hsame) as [-> ->].
           split; [reflexivity |].
           assert (K : 16777215 * Gu <= Xu) by lia.
           apply (Z.mul_le_mono_nonneg_r _ _ S) in K; lia.
        -- right.
           assert (K : Gu <= 2 * (Xu - Yu)) by lia.
           apply (Z.mul_le_mono_nonneg_r _ _ S) in K; lia.
  - (* x is positive *)
    destruct (Xu + Gu) as [| p | p] eqn:Ep; try lia. cbn [binary_normalize].
    assert (Ep' : Zpos p = Xu + Gu) by lia.
    destruct (binary_round_cases p ez Hez) as [-> | (m & e & -> & Hb & Hc)];
      [left; reflexivity | right].
    split; [exact Hb |]. split; [reflexivity |].
    cbn [signed_scaled scaled cond_Zopp].
    pose proof (bounded_facts m e Hb) as (_ & He & _).
    destruct Hc as [Hexact | (E & HE1 & HE2 & Hm & Hv & HpE)].
    + right. rewrite Hexact. fold S. rewrite Ep'. lia.
    + rewrite (scaled_split m e ez ltac:(lia)).
      set (Yu := Zpos m * 2 ^ (e - ez)) in *.
      set (P := 2 ^ (E - ez)) in *.
      assert (HP : 0 < P) by (apply Z.pow_pos_nonneg; lia).
      destruct (Z_le_gt_dec E ex) as [HexE | HexE].
      * set (a := Zpos mx * 2 ^ (ex - E)). set (b := Zpos m * 2 ^ (e - E)).
        assert (Ha : Xu = P * a).
        { unfold Xu, P, a. rewrite (Z.mul_comm (2 ^ (E - ez))), <- Z.mul_assoc,
            <- Z.pow_add_r by lia. do 2 f_equal. lia. }
        assert (Hbb : Yu = P * b).
        { unfold Yu, P, b. rewrite (Z.mul_comm (2 ^ (E - ez))), <- Z.mul_assoc,
            <- Z.pow_add_r by lia. do 2 f_equal. lia. }
        destruct (move_core P (b - a) Gu HP ltac:(lia) ltac:(lia)) as [[J0 Hsmall] | Hfar].
        -- left. assert (Eab : a = b) by lia.
           assert (Hsame : Zpos m * 2 ^ (e + 149) = Zpos mx * 2 ^ (ex + 149)).
           { rewrite (scaled_split m e E ltac:(lia)), (scaled_split mx ex E ltac:(lia)).
             fold a b. rewrite Eab. reflexivity. }
           destruct (canonical_unique m e mx ex Hb Hx Hsame) as [-> ->].
           split; [reflexivity |].
           assert (K : 16777215 * Gu <= Xu) by lia.
           apply (Z.mul_le_mono_nonneg_r _ _ S) in K; lia.
        -- right.
           assert (K : Gu <= 2 * (Yu - Xu)) by lia.
           apply (Z.mul_le_mono_nonneg_r _ _ S) in K; lia.
      * right.
        assert (H2P : 2 * 2 ^ (ex - ez) <= P).
        { unfold P. change 2 with (2 ^ 1) at 1. rewrite <- Z.pow_add_r by lia.
          apply Z.pow_le_mono_r; lia. }
        assert (HYu : 8388608 * P <= Yu).
        { unfold Yu. replace (e - ez) with ((E - ez) + (e - E)) by lia.
          rewrite Z.pow_add_r by lia. fold P.
          set (R := 2 ^ (e - E)).
          assert (HR : 1 <= R).
          { unfold R. change 1 with (2 ^ 0). apply Z.pow_le_mono_r; lia. }
          assert (HPR : P * 1 <= P * R) by (apply Z.mul_le_mono_nonneg_l; lia).
          assert (8388608 * (P * R) <= Zpos m * (P * R))
            by (apply Z.mul_le_mono_nonneg_r; lia).
          lia. }
        assert (HXhi : 2 * Xu <= 16777215 * P).
        { assert (Xu * 2 <= 16777215 * (2 * 2 ^ (ex - ez))).
          { unfold Xu. rewrite <- Z.mul_assoc, (Z.mul_comm (2 ^ (ex - ez)) 2).
            apply Z.mul_le_mono_nonneg_r; lia. }
          lia. }
        assert (K : Gu <= 2 * (Yu - Xu)).
        { destruct (Z_le_gt_dec P Gu); lia. }
        apply (Z.mul_le_mono_nonneg_r _ _ S) in K; lia.
Qed.

(** Twice a positive number is computed exactly, or overflows. *)
Lemma mul_two (m : positive) (e : Z) :
  bounded 24 128 m e = true ->
  F32.mul F32.two (S754_finite false m e) = S754_infinity false
  \/ exists (mg : positive) (eg : Z),
       F32.mul F32.two (S754_finite false m e) = S754_finite false mg eg
       /\ bounded 24 128 mg eg = true
       /\ Zpos mg * 2 ^ (eg + 149) = 2 * (Zpos m * 2 ^ (e + 149)).
Proof.
  intros Hb. change F32.two with (S754_finite false 8388608 (-22)).
  pose proof (bounded_facts m e Hb) as (Hdm & He & Hn).
  pose proof (bounded_elim m e Hb) as [Hc _].
  pose proof (mul_post false 8388608 (-22) false m e eq_refl Hb) as H. cbn [xorb] in H.
  assert (Hdig : Zdigits2 (Zpos 8388608 * Zpos m / 1) = Zdigits2 (Zpos m) + 23).
  { rewrite Z.div_1_r, Z.mul_comm. change (Zpos 8388608) with (2 ^ 23).
    apply Zdigits2_shift; lia. }
  destruct (Z_le_gt_dec (Zdigits2 (Zpos m) + e) 127) as [Hfit | Hbig].
  - right. destruct (Z.eq_dec (Zdigits2 (Zpos m)) 24) as [Hnorm | Hsub].
    + exists m, (e + 1).
      assert (HbN : bounded 24 128 m (e + 1) = true) by (apply bounded_intro; lia).
      split; [| split; [exact HbN |]].
      * eapply round_post_near; [ | | exact H | exact HbN | | | ]; cbv zeta;
          rewrite ?Hdig, ?Hnorm; try lia.
        all: replace (e + 1 - (-22 + e)) with 23 by lia; change (2 ^ 23) with 8388608.
        all: replace (2 * 1 * (Zpos m * 8388608) - 2 * (8388608 * Zpos m)) with 0 by lia.
        all: apply Z.mul_pos_pos; [lia | apply Z.pow_pos_nonneg; lia].
      * replace (e + 1 + 149) with (1 + (e + 149)) by lia.
        rewrite Z.pow_add_r by lia. change (2 ^ 1) with 2. lia.
    + assert (Hee : e = -149) by lia. subst e.
      exists (m~0)%positive, (-149).
      assert (Hd2 : Zdigits2 (Zpos m~0) = Zdigits2 (Zpos m) + 1).
      { change (Zpos m~0) with (2 * Zpos m). rewrite Z.mul_comm. change 2 with (2 ^ 1) at 1.
        apply Zdigits2_shift; lia. }
      assert (HbN : bounded 24 128 m~0 (-149) = true)
        by (apply bounded_intro; rewrite ?Hd2; lia).
      split; [| split; [exact HbN |]].
      * eapply round_post_near; [ | | exact H | exact HbN | | | ]; cbv zeta;
          rewrite ?Hdig; try lia.
        all: replace (-149 - (-22 + -149)) with 22 by lia; change (2 ^ 22) with 4194304.
        all: change (Zpos m~0) with (2 * Zpos m).
        all: replace (2 * 1 * (2 * Zpos m * 4194304) - 2 * (8388608 * Zpos m)) with 0 by lia.
        all: apply Z.mul_pos_pos; [lia | apply Z.pow_pos_nonneg; lia].
      * change (Zpos m~0) with (2 * Zpos m). lia.
  - left.
    pose proof (mul_bracket false 8388608 (-22) false m e eq_refl Hb) as B.
    cbv zeta in B. cbn [xorb] in B. change (Zdigits2 (Zpos 8388608)) with 24 in B.
    destruct (F32.mul (S754_finite false 8388608 (-22)) (S754_finite false m e))
      as [s | s | | s m' e']; cbn [bracket] in B.
    + lia.
    + destruct B as [-> _]. reflexivity.
    + contradiction.
    + exfalso. destruct B as (_ & Hb' & Hd').
      apply bounded_facts in Hb'. lia.
Qed.

Lemma cond_Zopp_mul (s : bool) (a b : Z) : cond_Zopp s (a * b) = cond_Zopp s a * b.
Proof. destruct s; cbn [cond_Zopp]; lia. Qed.

(** Two finite numbers that are a tolerance apart are not [equal]. *)
Lemma gap_not_equal (m0 : positive) (e0 : Z) (x y : F32.float) :
  bounded 24 128 m0 e0 = true ->
  F32.valid x = true -> F32.is_finite x = true ->
  F32.valid y = true -> F32.is_finite y = true ->
  Zpos m0 * 2 ^ (e0 + 149) <= signed_scaled y - signed_scaled x ->
  equal (S754_finite false m0 e0) x y = false.
Proof.
  intros Hb0 Hvx Hfx Hvy Hfy Hgap.
  pose proof (bounded_facts m0 e0 Hb0) as (_ & He0 & _).
  assert (Hpos : 0 < Zpos m0 * 2 ^ (e0 + 149))
    by (apply Z.mul_pos_pos; [lia | apply Z.pow_pos_nonneg; lia]).
  unfold equal. rewrite abs_sub_swap. apply at_least_not_ltb.
  destruct y as [sy | sy | | sy my ey]; try discriminate Hfy;
    destruct x as [sx | sx | | sx mx ex]; try discriminate Hfx;
    cbn [signed_scaled scaled] in Hgap; cbn [F32.valid valid_binary] in Hvx, Hvy.
  - lia.
  - destruct sx; cbn [cond_Zopp] in Hgap.
    + assert (E : F32.abs (F32.sub (S754_zero sy) (S754_finite true mx ex))
                  = S754_finite false mx ex) by (destruct sy; reflexivity).
      rewrite E. cbn [at_least]. split; [exact Hvx |].
      apply scaled_le_canonical; [exact Hb0 | exact Hvx | lia].
    + pose proof (bounded_facts mx ex Hvx) as (_ & Hex & _).
      assert (0 < Zpos mx * 2 ^ (ex + 149))
        by (apply Z.mul_pos_pos; [lia | apply Z.pow_pos_nonneg; lia]).
      lia.
  - destruct sy; cbn [cond_Zopp] in Hgap.
    + pose proof (bounded_facts my ey Hvy) as (_ & Hey & _).
      assert (0 < Zpos my * 2 ^ (ey + 149))
        by (apply Z.mul_pos_pos; [lia | apply Z.pow_pos_nonneg; lia]).
      lia.
    + assert (E : F32.abs (F32.sub (S754_finite false my ey) (S754_zero sx))
                  = S754_finite false my ey) by (destruct sx; reflexivity).
      rewrite E. cbn [at_least]. split; [exact Hvy |].
      apply scaled_le_canonical; [exact Hb0 | exact Hvy | lia].
  - pose proof (bounded_facts mx ex Hvx) as (_ & Hex & _).
    pose proof (bounded_facts my ey Hvy) as (_ & Hey & _).
    unfold F32.sub, SFsub, F32.prec, F32.emax. rewrite !shl_align_fst by lia.
    set (ez := Z.min ey ex).
    assert (Hez : -149 <= ez) by (unfold ez; lia).
    rewrite (scaled_split my ey ez ltac:(unfold ez; lia)),
      (scaled_split mx ex ez ltac:(unfold ez; lia)),
      (cond_Zopp_mul sy (Zpos my * 2 ^ (ey - ez))),
      (cond_Zopp_mul sx (Zpos mx * 2 ^ (ex - ez))), <- Z.mul_sub_distr_r
      in Hgap.
    set (D := cond_Zopp sy (Zpos my * 2 ^ (ey - ez)) - cond_Zopp sx (Zpos mx * 2 ^ (ex - ez)))
      in *.
    assert (HS : 0 < 2 ^ (ez + 149)) by (apply Z.pow_pos_nonneg; lia).
    clearbody D.
    destruct D as [| q | q]; [exfalso; lia | | exfalso; nia].
    cbn [binary_normalize].
    pose proof (binary_round_at_least_scaled q ez m0 e0 Hez Hb0 Hgap) as Hle.
    destruct (binary_round 24 128 false q ez) as [[|] | [|] | | [|] m e];
      cbn [at_least] in Hle; try contradiction; exact Hle.
Qed.

(** What [x + 2 * Epsilon] is for a finite [x] and a positive tolerance:
    infinite, or [x] itself, or a finite number at least [Epsilon] above
    [x]. *)
Lemma add_twice_tolerance (m0 : positive) (e0 : Z) (x : F32.float) :
  bounded 24 128 m0 e0 = true -> F32.valid x = true -> F32.is_finite x = true ->
  let Epsilon := S754_finite false m0 e0 in
  let y := F32.add x (F32.mul F32.two Epsilon) in
  y = S754_infinity false
  \/ (y = x /\ 33554430 * scaled Epsilon <= scaled x)
  \/ (F32.valid y = true /\ F32.is_finite y = true
      /\ scaled Epsilon <= signed_scaled y - signed_scaled x).
Proof.
  intros Hb0 Hvx Hfx Epsilon y. unfold y, Epsilon.
  pose proof (bounded_facts m0 e0 Hb0) as (_ & He0 & _).
  assert (Hpos : 0 < Zpos m0 * 2 ^ (e0 + 149))
    by (apply Z.mul_pos_pos; [lia | apply Z.pow_pos_nonneg; lia]).
  destruct (mul_two m0 e0 Hb0) as [-> | (mg & eg & -> & Hbg & Hg)].
  - left. destruct x as [sx | sx | | sx mx ex]; try discriminate Hfx; reflexivity.
  - destruct x as [sx | sx | | sx mx ex]; try discriminate Hfx.
    + right. right. cbn [F32.add SFadd]. split; [exact Hbg |]. split; [reflexivity |].
      cbn [signed_scaled scaled cond_Zopp]. lia.
    + cbn [F32.valid valid_binary] in Hvx.
      destruct (add_moves sx mx ex mg eg Hvx Hbg) as [Hinf | (Hvy & Hfy & [[Hsame Hsmall] | Hfar])];
        cbv zeta in *.
      * left. exact Hinf.
      * right. left. split; [exact Hsame |]. cbn [scaled] in *. lia.
      * right. right. split; [exact Hvy |]. split; [exact Hfy |].
        cbn [scaled] in *. lia.
Qed.

(** C7 (amended): with a positive tolerance, [equal(x, x)] holds for every
    finite [x].  [equal(x, x + 2 * Epsilon)] does not hold exactly when the
    binary32 sum [x + 2 * Epsilon] is a number other than [x], which it is
    whenever [|x|] is below [(2^25 - 2) * Epsilon]; when the sum is [x], the
    tolerance has been absorbed and [equal] holds. *)
Theorem equal_spec (Epsilon x : F32.float) :
  F32.valid Epsilon = true -> F32.ltb F32.zero Epsilon = true ->
  F32.valid x = true -> F32.is_finite x = true ->
  let y := F32.add x (F32.mul F32.two Epsilon) in
  equal Epsilon x x = true
  /\ (equal Epsilon x y = false <-> y <> x)
  /\ (scaled x < 33554430 * scaled Epsilon -> equal Epsilon x y = false).
Proof.
  intros Hve Hpe Hvx Hfx y.
  assert (Hsame : equal Epsilon x x = true) by (apply equal_same; assumption).
  split; [exact Hsame |].
  assert (Hiff : equal Epsilon x y = false <-> y <> x).
  { split.
    - intros Hne Hyx. rewrite Hyx, Hsame in Hne. discriminate.
    - intros Hyx. unfold y in *.
      destruct Epsilon as [[|] | [|] | | [|] m0 e0]; try discriminate Hpe.
      + destruct x as [sx | sx | | sx mx ex]; try discriminate Hfx; reflexivity.
      + cbn [F32.valid valid_binary] in Hve.
        destruct (add_twice_tolerance m0 e0 x Hve Hvx Hfx)
          as [Hinf | [[Hbad _] | (Hvy & Hfy & Hgap)]]; cbv zeta in *.
        * unfold equal. rewrite abs_sub_swap, Hinf.
          destruct x as [sx | sx | | sx mx ex]; try discriminate Hfx; reflexivity.
        * contradiction.
        * apply gap_not_equal; assumption. }
  split; [exact Hiff |].
  intros Hsmall. apply Hiff. unfold y in *.
  pose proof (scaled_nonneg x) as Hx0.
  destruct Epsilon as [[|] | [|] | | [|] m0 e0]; try discriminate Hpe;
    [cbn [scaled] in Hsmall; lia |].
  cbn [F32.valid valid_binary] in Hve.
  destruct (add_twice_tolerance m0 e0 x Hve Hvx Hfx)
    as [Hinf | [[_ Hbig] | (Hvy & Hfy & Hgap)]]; cbv zeta in *.
  - rewrite Hinf. intros Hx. rewrite <- Hx in Hfx. discriminate.
  - lia.
  - intros Hx. rewrite Hx in Hgap.
    assert (0 < scaled (S754_finite false m0 e0)).
    { cbn [scaled]. pose proof (bounded_facts m0 e0 Hve) as (_ & He0 & _).
      apply Z.mul_pos_pos; [lia | apply Z.pow_pos_nonneg; lia]. }
    lia.
Qed.

Lemma equal_spec_witness :
  let y := F32.add (F32.of_Z 32) (F32.mul F32.two epsilon_1e6) in
  equal epsilon_1e6 (F32.of_Z 32) (F32.of_Z 32) = true
  /\ (equal epsilon_1e6 (F32.of_Z 32) y = false <-> y <> F32.of_Z 32)
  /\ equal epsilon_1e6 (F32.of_Z 32) y = false.
Proof.
  destruct (equal_spec epsilon_1e6 (F32.of_Z 32)) as (H1 & H2 & H3);
    try reflexivity.
  split; [exact H1 |]. split; [exact H2 |]. apply H3. reflexivity.
Defined.

(** ** Rounding is monotone *)

Lemma round_post_rounds_to (N ex : Z) (F : spec_float) :
  0 <= N -> -298 <= ex -> round_post false N 1 ex F ->
  ex <= Z.max (Zdigits2 (N / 1) + ex - 24) (-149) -> finite_nonneg F ->
  rounds_to (N * 2 ^ (ex + 298)) F.
Proof.
  intros HN Hex Hpost HexE Hfin. split; [exact Hfin |].
  unfold round_post in Hpost. rewrite Z.div_1_r in *.
  assert (HS : 0 < 2 ^ (ex + 298)) by (apply Z.pow_pos_nonneg; lia).
  assert (HEq : Z.max (Zdigits2 (N * 2 ^ (ex + 298)) - 322) (-149)
                = Z.max (Zdigits2 N + ex - 24) (-149)).
  { destruct (Z.eq_dec N 0) as [-> | Hne].
    - rewrite Z.mul_0_l. change (Zdigits2 0) with 0 in *. lia.
    - rewrite Zdigits2_shift by lia. lia. }
  set (E := Z.max (Zdigits2 N + ex - 24) (-149)) in *.
  cbv zeta. rewrite HEq.
  assert (HE : -149 <= E) by (unfold E; lia).
  set (P := 2 ^ (E - ex)) in *.
  assert (HP : 0 < P) by (apply Z.pow_pos_nonneg; lia).
  assert (HG : 2 ^ (E + 298) = P * 2 ^ (ex + 298)).
  { unfold P. rewrite <- Z.pow_add_r by lia. f_equal. lia. }
  destruct F as [[|] | [|] | | [|] m e]; cbn [finite_nonneg] in Hfin; try contradiction;
    cbn [scaled].
  - destruct Hpost as (_ & _ & Hz & _). exists 0. split; [lia |].
    rewrite HG, Z.mul_0_l, Z.mul_0_r. rewrite Z.mul_1_l in Hz.
    assert (2 * N * 2 ^ (ex + 298) <= P * 2 ^ (ex + 298))
      by (apply Z.mul_le_mono_nonneg_r; lia).
    assert (0 <= N * 2 ^ (ex + 298)) by (apply Z.mul_nonneg_nonneg; lia).
    lia.
  - destruct Hpost as (_ & Hb & He & _ & Hv & _).
    exists (Zpos m * 2 ^ (e - E)). split.
    + rewrite <- !Z.mul_assoc, <- !Z.pow_add_r by lia. do 2 f_equal. lia.
    + rewrite HG. rewrite Z.mul_1_l in Hv.
      set (R := Zpos m * 2 ^ (e - E)) in *.
      apply Z.abs_le in Hv. destruct Hv as [Hv1 Hv2]. apply Z.abs_le.
      apply (Z.mul_le_mono_nonneg_r _ _ (2 ^ (ex + 298))) in Hv1; [| lia].
      apply (Z.mul_le_mono_nonneg_r _ _ (2 ^ (ex + 298))) in Hv2; [| lia].
      lia.
Qed.

Lemma canonical_rounds_to (x : F32.float) :
  finite_nonneg x -> rounds_to (scaled x * 2 ^ 149) x.
Proof.
  intros Hx. split; [exact Hx |].
  destruct x as [[|] | [|] | | [|] m e]; cbn [finite_nonneg] in Hx; try contradiction;
    cbn [scaled].
  - exists 0. cbn. lia.
  - pose proof (bounded_facts m e Hx) as (_ & He & _).
    pose proof (bounded_elim m e Hx) as [Hc _].
    exists (Zpos m). cbv zeta.
    rewrite <- Z.mul_assoc, <- Z.pow_add_r by lia.
    rewrite Zdigits2_shift by lia.
    replace (Z.max (Zdigits2 (Zpos m) + (e + 149 + 149) - 322) (-149)) with e by lia.
    replace (e + 149 + 149) with (e + 298) by lia.
    split; [reflexivity |].
    assert (0 < 2 ^ (e + 298)) by (apply Z.pow_pos_nonneg; lia).
    rewrite Z.sub_diag. cbn [Z.abs]. lia.
Qed.

Lemma rounds_to_unit_mono (V V' : Z) :
  0 <= V <= V' ->
  Z.max (Zdigits2 V - 322) (-149) <= Z.max (Zdigits2 V' - 322) (-149).
Proof.
  intros H. pose proof (Zdigits2_le V V' H). lia.
Qed.

(** A larger value does not round to a smaller number. *)
Lemma rounds_mono (V V' : Z) (F F' : F32.float) :
  rounds_to V F -> rounds_to V' F' -> 0 <= V < V' -> scaled F <= scaled F'.
Proof.
  intros [_ (r & Hr)] [_ (r' & Hr')] HV. cbv zeta in Hr, Hr'.
  destruct Hr as [Hs Hn], Hr' as [Hs' Hn'].
  pose proof (rounds_to_unit_mono V V' ltac:(lia)) as HEE.
  set (E := Z.max (Zdigits2 V - 322) (-149)) in *.
  set (E' := Z.max (Zdigits2 V' - 322) (-149)) in *.
  assert (HE : -149 <= E) by (unfold E; lia).
  set (G := 2 ^ (E + 298)) in *. set (G' := 2 ^ (E' + 298)) in *.
  assert (HG : 0 < G) by (apply Z.pow_pos_nonneg; lia).
  assert (HG' : 0 < G') by (apply Z.pow_pos_nonneg; lia).
  assert (HU : 0 < 2 ^ 149) by (apply Z.pow_pos_nonneg; lia).
  assert (Goal' : r * G <= r' * G'); [| nia].
  apply Z.abs_le in Hn, Hn'.
  destruct (Z.eq_dec E E') as [EE | NE].
  - assert (GG : G' = G) by (unfold G, G'; rewrite EE; reflexivity).
    rewrite GG in *.
    destruct (Z_le_gt_dec r r') as [Hle | Hgt].
    + apply Z.mul_le_mono_nonneg_r; lia.
    + exfalso. assert (G * 1 <= G * (r - r')) by (apply Z.mul_le_mono_nonneg_l; lia). lia.
  - (* the binade boundary [2^23 * G'] lies between the two values *)
    assert (HE' : E' = Zdigits2 V' - 322) by (unfold E' in *; lia).
    assert (HV'pos : 0 < V') by lia.
    pose proof (Zdigits2_bounds V' HV'pos) as [HV'lo _].
    replace (Zdigits2 V' - 1) with (23 + (E' + 298)) in HV'lo by lia.
    rewrite Z.pow_add_r in HV'lo by lia. fold G' in HV'lo.
    change (2 ^ 23) with 8388608 in HV'lo.
    assert (HVhi : V < 16777216 * G).
    { destruct (Z.eq_dec V 0) as [-> | Hne]; [lia |].
      pose proof (Zdigits2_bounds V ltac:(lia)) as [_ Hhi].
      assert (2 ^ Zdigits2 V <= 2 ^ (24 + (E + 298))).
      { apply Z.pow_le_mono_r; [lia | unfold E; lia]. }
      rewrite Z.pow_add_r in H by lia. fold G in H. change (2 ^ 24) with 16777216 in H.
      lia. }
    set (k := 2 ^ (E' - E - 1)).
    assert (Hk : 1 <= k).
    { unfold k. change 1 with (2 ^ 0). apply Z.pow_le_mono_r; lia. }
    assert (HGG : G' = 2 * k * G).
    { unfold G', G, k. replace (E' + 298) with (1 + (E' - E - 1) + (E + 298)) by lia.
      rewrite !Z.pow_add_r by lia. reflexivity. }
    (* r * G <= 2^23 * G' <= r' * G' *)
    apply Z.le_trans with (8388608 * G').
    + rewrite HGG.
      destruct (Z_le_gt_dec r (8388608 * (2 * k))) as [Hle | Hgt].
      * replace (8388608 * (2 * k * G)) with (8388608 * (2 * k) * G) by ring.
        apply Z.mul_le_mono_nonneg_r; lia.
      * exfalso.
        assert (G * (8388608 * (2 * k) + 1) <= G * r)
          by (apply Z.mul_le_mono_nonneg_l; lia).
        assert (G * k >= G * 1) by (apply Z.le_ge, Z.mul_le_mono_nonneg_l; lia).
        lia.
    + destruct (Z_le_gt_dec 8388608 r') as [Hle | Hgt].
      * apply Z.mul_le_mono_nonneg_r; lia.
      * exfalso.
        assert (G' * r' <= G' * 8388607) by (apply Z.mul_le_mono_nonneg_l; lia).
        lia.
Qed.

Lemma scaled_pos (m : positive) (e : Z) :
  bounded 24 128 m e = true -> 0 < Zpos m * 2 ^ (e + 149).
Proof.
  intros Hb. pose proof (bounded_facts m e Hb) as (_ & He & _).
  apply Z.mul_pos_pos; [lia | apply Z.pow_pos_nonneg; lia].
Qed.

Lemma scaled_inj (x y : F32.float) :
  finite_nonneg x -> finite_nonneg y -> scaled x = scaled y -> x = y.
Proof.
  destruct x as [[|] | [|] | | [|] mx ex]; cbn [finite_nonneg]; try contradiction;
    destruct y as [[|] | [|] | | [|] my ey]; cbn [finite_nonneg]; try contradiction;
    cbn [scaled]; intros Hx Hy H.
  - reflexivity.
  - pose proof (scaled_pos my ey Hy). lia.
  - pose proof (scaled_pos mx ex Hx). lia.
  - destruct (canonical_unique mx ex my ey Hx Hy H) as [-> ->]. reflexivity.
Qed.

Lemma binary_round_rounds (p : positive) (ez : Z) :
  -149 <= ez -> finite_nonneg (binary_round 24 128 false p ez) ->
  rounds_to (Zpos p * 2 ^ (ez + 298)) (binary_round 24 128 false p ez).
Proof.
  intros Hez Hfin.
  pose proof (binary_round_post false p ez) as P. cbv zeta in P.
  destruct (binary_round_exp p ez) as [H1 H2]. cbv zeta in H1, H2.
  set (ez' := Z.min ez (Z.max (Zdigits2 (Zpos p) + ez - 24) (-149))) in *.
  assert (Hez' : -149 <= ez') by (unfold ez'; lia).
  assert (HK : 0 < 2 ^ (ez - ez')) by (apply Z.pow_pos_nonneg; lia).
  pose proof (round_post_rounds_to (Zpos p * 2 ^ (ez - ez')) ez' _
                ltac:(apply Z.mul_nonneg_nonneg; lia) ltac:(lia) P H2 Hfin) as R.
  replace (Zpos p * 2 ^ (ez - ez') * 2 ^ (ez' + 298)) with (Zpos p * 2 ^ (ez + 298)) in R.
  - exact R.
  - rewrite <- Z.mul_assoc, <- Z.pow_add_r by lia. do 2 f_equal. lia.
Qed.

Lemma add_rounds (x y : F32.float) :
  finite_nonneg x -> finite_nonneg y -> finite_nonneg (F32.add x y) ->
  rounds_to ((scaled x + scaled y) * 2 ^ 149) (F32.add x y).
Proof.
  intros Hx Hy Hr.
  destruct x as [[|] | [|] | | [|] mx ex]; cbn [finite_nonneg] in Hx; try contradiction;
    destruct y as [[|] | [|] | | [|] my ey]; cbn [finite_nonneg] in Hy; try contradiction.
  - apply (canonical_rounds_to (S754_zero false)). exact I.
  - apply (canonical_rounds_to (S754_finite false my ey)). exact Hy.
  - cbn [F32.add SFadd]. cbn [scaled]. rewrite Z.add_0_r.
    apply (canonical_rounds_to (S754_finite false mx ex)). exact Hx.
  - pose proof (bounded_facts mx ex Hx) as (_ & Hex & _).
    pose proof (bounded_facts my ey Hy) as (_ & Hey & _).
    revert Hr. unfold F32.add, SFadd. rewrite !shl_align_fst by lia. cbn [cond_Zopp].
    set (ez := Z.min ex ey).
    assert (HX : 0 < 2 ^ (ex - ez)) by (apply Z.pow_pos_nonneg; lia).
    assert (HY : 0 < 2 ^ (ey - ez)) by (apply Z.pow_pos_nonneg; lia).
    destruct (Zpos mx * 2 ^ (ex - ez) + Zpos my * 2 ^ (ey - ez)) as [| p | p] eqn:Ep; try nia.
    cbn [binary_normalize]. unfold F32.prec, F32.emax. intros Hr.
    pose proof (binary_round_rounds p ez ltac:(lia) Hr) as R.
    cbn [scaled].
    replace ((Zpos mx * 2 ^ (ex + 149) + Zpos my * 2 ^ (ey + 149)) * 2 ^ 149)
      with (Zpos p * 2 ^ (ez + 298)); [exact R |].
    rewrite <- Ep, !Z.mul_add_distr_r, <- !Z.mul_assoc, <- !Z.pow_add_r by lia.
    do 2 f_equal; f_equal; lia.
Qed.

Lemma mul_rounds (x y : F32.float) :
  finite_nonneg x -> finite_nonneg y -> finite_nonneg (F32.mul x y) ->
  rounds_to (scaled x * scaled y) (F32.mul x y).
Proof.
  intros Hx Hy Hr.
  destruct x as [[|] | [|] | | [|] mx ex]; cbn [finite_nonneg] in Hx; try contradiction;
    destruct y as [[|] | [|] | | [|] my ey]; cbn [finite_nonneg] in Hy; try contradiction;
    try (cbn [F32.mul SFmul xorb scaled]; rewrite ?Z.mul_0_l, ?Z.mul_0_r;
         apply (canonical_rounds_to (S754_zero false)); exact I).
  pose proof (mul_post false mx ex false my ey Hx Hy) as P. cbn [xorb] in P.
  pose proof (mul_exp_ok mx ex my ey Hx Hy) as Hex.
  pose proof (bounded_facts mx ex Hx) as (_ & Hex' & _).
  pose proof (bounded_facts my ey Hy) as (_ & Hey' & _).
  pose proof (round_post_rounds_to (Zpos mx * Zpos my) (ex + ey) _
                ltac:(apply Z.mul_nonneg_nonneg; lia) ltac:(lia) P Hex Hr) as R.
  cbn [scaled].
  replace (Zpos mx * 2 ^ (ex + 149) * (Zpos my * 2 ^ (ey + 149)))
    with (Zpos mx * Zpos my * 2 ^ (ex + ey + 298)); [exact R |].
  replace (ex + ey + 298) with ((ex + 149) + (ey + 149)) by lia.
  rewrite Z.pow_add_r by lia. ring.
Qed.

Lemma of_Z_rounds (z : Z) :
  0 <= z < 2 ^ 32 -> rounds_to (z * 2 ^ 298) (F32.of_Z z).
Proof.
  intros Hz. destruct (of_Z_scaled z Hz) as (Hf & _).
  revert Hf. unfold F32.of_Z, F32.prec, F32.emax.
  destruct z as [| p | p]; try lia.
  - intros _. apply (canonical_rounds_to (S754_zero false)). exact I.
  - cbn [binary_normalize]. intros Hf.
    pose proof (binary_round_rounds p 0 ltac:(lia) Hf) as R. exact R.
Qed.

(** The conversion, the product and the sum are monotone. *)
Lemma of_Z_mono (z z' : Z) :
  0 <= z <= z' -> z' < 2 ^ 32 -> scaled (F32.of_Z z) <= scaled (F32.of_Z z').
Proof.
  intros Hz Hz'. destruct (Z.eq_dec z z') as [-> | Hne]; [lia |].
  apply (rounds_mono (z * 2 ^ 298) (z' * 2 ^ 298)).
  - apply of_Z_rounds. lia.
  - apply of_Z_rounds. lia.
  - assert (0 < 2 ^ 298) by (apply Z.pow_pos_nonneg; lia). nia.
Qed.

Lemma mul_mono (f D D' : F32.float) :
  finite_nonneg f -> finite_nonneg D -> finite_nonneg D' ->
  finite_nonneg (F32.mul f D) -> finite_nonneg (F32.mul f D') ->
  scaled D <= scaled D' -> scaled (F32.mul f D) <= scaled (F32.mul f D').
Proof.
  intros Hf HD HD' Hr Hr' Hle.
  pose proof (scaled_nonneg f) as Hf0. pose proof (scaled_nonneg D) as HD0.
  destruct (Z.eq_dec (scaled D) (scaled D')) as [Heq | Hne].
  { rewrite (scaled_inj D D' HD HD' Heq). lia. }
  destruct (Z.eq_dec (scaled f) 0) as [Hz | Hnz].
  { assert (Ef : f = S754_zero false) by (apply scaled_inj; [exact Hf | exact I | exact Hz]).
    subst f.
    destruct D as [[|] | [|] | | [|] mD eD]; cbn [finite_nonneg] in HD; try contradiction;
      cbn [F32.mul SFmul xorb scaled]; apply scaled_nonneg. }
  apply (rounds_mono (scaled f * scaled D) (scaled f * scaled D')).
  - apply mul_rounds; assumption.
  - apply mul_rounds; assumption.
  - split; [apply Z.mul_nonneg_nonneg; lia |].
    apply Z.mul_lt_mono_pos_l; lia.
Qed.

Lemma add_mono (s t s' t' : F32.float) :
  finite_nonneg s -> finite_nonneg t -> finite_nonneg s' -> finite_nonneg t' ->
  finite_nonneg (F32.add s t) -> finite_nonneg (F32.add s' t') ->
  scaled s <= scaled s' -> scaled t <= scaled t' ->
  scaled (F32.add s t) <= scaled (F32.add s' t').
Proof.
  intros Hs Ht Hs' Ht' Hr Hr' Hles Hlet.
  pose proof (scaled_nonneg s) as Hs0. pose proof (scaled_nonneg t) as Ht0.
  destruct (Z.eq_dec (scaled s + scaled t) (scaled s' + scaled t')) as [Heq | Hne].
  { assert (E1 : scaled s = scaled s') by lia. assert (E2 : scaled t = scaled t') by lia.
    rewrite (scaled_inj s s' Hs Hs' E1), (scaled_inj t t' Ht Ht' E2). lia. }
  apply (rounds_mono ((scaled s + scaled t) * 2 ^ 149) ((scaled s' + scaled t') * 2 ^ 149)).
  - apply add_rounds; assumption.
  - apply add_rounds; assumption.
  - assert (0 < 2 ^ 149) by (apply Z.pow_pos_nonneg; lia).
    split; [apply Z.mul_nonneg_nonneg; lia |].
    apply Z.mul_lt_mono_pos_r; lia.
Qed.

(** Adding a number that is not negative does not decrease a sum. *)
Lemma add_increases (s t : F32.float) :
  finite_nonneg s -> finite_nonneg t -> finite_nonneg (F32.add s t) ->
  scaled s <= scaled (F32.add s t).
Proof.
  intros Hs Ht Hr.
  pose proof (scaled_nonneg t) as Ht0.
  destruct (Z.eq_dec (scaled t) 0) as [Hz | Hnz].
  { assert (Et : t = S754_zero false) by (apply scaled_inj; [exact Ht | exact I | exact Hz]).
    subst t.
    destruct s as [[|] | [|] | | [|] ms es]; cbn [finite_nonneg] in Hs; try contradiction;
      cbn [F32.add SFadd scaled]; lia. }
  apply (rounds_mono (scaled s * 2 ^ 149) ((scaled s + scaled t) * 2 ^ 149)).
  - apply canonical_rounds_to. exact Hs.
  - apply add_rounds; assumption.
  - pose proof (scaled_nonneg s).
    assert (0 < 2 ^ 149) by (apply Z.pow_pos_nonneg; lia).
    split; [apply Z.mul_nonneg_nonneg; lia |].
    apply Z.mul_lt_mono_pos_r; lia.
Qed.

(** ** [haltonSequence]: a first bound on the sum *)

Lemma halton_near_one_below (k : Z) (f s : F32.float) :
  halton_near_one k f s -> 0 <= k <= 32 -> nonneg_below 1 f /\ nonneg_below 1 s.
Proof.
  intros (Hf & Hs & Inv) Hk.
  pose proof (scaled_nonneg s) as Hs0. pose proof (scaled_nonneg f) as Hf0.
  assert (HU : 0 < 2 ^ 149) by (apply Z.pow_pos_nonneg; lia).
  split; (apply scaled_below; [assumption | lia |]);
    change (2 ^ (1 + 149)) with (2 * 2 ^ 149); nia.
Qed.

(** One pass with a digit [d] keeps the bound. *)
Lemma halton_pass_near_one (k base d : Z) (f s : F32.float) :
  2 <= base < 2 ^ 32 -> 0 <= d <= base - 1 -> 0 <= k < 32 ->
  halton_near_one k f s ->
  let f' := F32.div f (F32.of_Z base) in
  let t := F32.mul f' (F32.of_Z d) in
  halton_near_one (k + 1) f' (F32.add s t) /\ finite_nonneg t.
Proof.
  intros Hb Hd Hk Inv f' t.
  destruct (halton_near_one_below k f s Inv ltac:(lia)) as [Hf1 Hs1].
  destruct Inv as (Hf & Hs & Inv).
  pose proof (scaled_nonneg s) as Hs0. pose proof (scaled_nonneg f) as Hf0.
  destruct (of_Z_base base Hb) as (m & e & Hbase & Hbm & Hdm).
  destruct (of_Z_scaled base ltac:(lia)) as (_ & HBhi & HBlo).
  destruct (of_Z_scaled d ltac:(lia)) as (HDf & HDhi & _).
  unfold t, f' in *. clear t f'. rewrite Hbase in *.
  assert (Hf' : nonneg_below 1 (F32.div f (S754_finite false m e)))
    by (apply div_nonneg_below; assumption).
  assert (HD33 : nonneg_below 33 (F32.of_Z d)) by (apply of_Z_nonneg_below; lia).
  pose proof (mul_nonneg_below 1 33 _ _ Hf' HD33 ltac:(lia)) as Hterm.
  assert (Hnext : nonneg_below 37
            (F32.add s (F32.mul (F32.div f (S754_finite false m e)) (F32.of_Z d)))).
  { apply (add_nonneg_below 35); [| exact Hterm | lia].
    eapply nonneg_below_weaken; [exact Hs1 | lia]. }
  apply nonneg_below_finite in Hf', Hterm, Hnext.
  pose proof (div_scaled f m e Hf Hbm Hf') as Hdiv.
  pose proof (mul_scaled _ _ Hf' HDf Hterm) as Hmul.
  pose proof (add_scaled _ _ Hs Hterm Hnext) as Hadd.
  split; [| exact Hterm].
  split; [exact Hf' |]. split; [exact Hnext |].
  apply (halton_step_arith k (scaled s) (scaled f) _
           (scaled (F32.mul (F32.div f (S754_finite false m e)) (F32.of_Z d)))
           _ (scaled (S754_finite false m e)) (scaled (F32.of_Z d)) base d);
    try assumption; try apply scaled_nonneg; try lia.
  all: rewrite Z.mul_assoc; exact Hdiv.
Qed.

(** ** [haltonSequence]: the largest digits give the largest sum *)

Lemma halton_top_grows (fuel : nat) :
  forall (base j k : Z) (f s : F32.float),
    2 <= base < 2 ^ 32 -> 0 <= k -> k + Z.of_nat fuel <= 32 ->
    halton_near_one k f s ->
    let top := halton_top fuel (F32.of_Z base) (F32.of_Z (base - 1)) base j f s in
    finite_nonneg top /\ scaled s <= scaled top.
Proof.
  induction fuel as [| fuel IH]; intros base j k f s Hb Hk Hfuel Inv; cbn [halton_top].
  - split; [apply Inv | lia].
  - destruct (0 <? j).
    + destruct (halton_pass_near_one k base (base - 1) f s Hb ltac:(lia) ltac:(lia) Inv)
        as [Inv' Ht].
      cbv zeta in Inv', Ht.
      destruct (IH base (j / base) (k + 1) _ _ Hb ltac:(lia) ltac:(lia) Inv') as [Hfin Hle].
      cbv zeta in Hfin, Hle. split; [exact Hfin |].
      eapply Z.le_trans; [| exact Hle].
      apply add_increases; [apply Inv | exact Ht | apply Inv'].
    + split; [apply Inv | lia].
Qed.

Lemma halton_loop_dominated (fuel : nat) :
  forall (base i j k : Z) (f s s' v : F32.float),
    2 <= base < 2 ^ 32 -> 0 <= i <= j -> 0 <= k -> k + Z.of_nat fuel <= 32 ->
    halton_near_one k f s -> halton_near_one k f s' -> scaled s <= scaled s' ->
    halton_loop fuel base (HaltonState i f s) = Some (Ok v) ->
    finite_nonneg v
    /\ scaled v
       <= scaled (halton_top fuel (F32.of_Z base) (F32.of_Z (base - 1)) base j f s').
Proof.
  induction fuel as [| fuel IH]; intros base i j k f s s' v Hb Hi Hk Hfuel Inv Inv' Hle Hrun.
  - cbn in Hrun. destruct (0 <? i); [discriminate |].
    injection Hrun as <-. cbn [halton_top]. split; [apply Inv | exact Hle].
  - cbn [halton_loop h_index] in Hrun.
    destruct (Z.ltb_spec 0 i) as [Hpos | Hzero].
    + rewrite halton_body_ok in Hrun by lia. cbn [h_index h_fraction h_nextValue] in Hrun.
      cbn [halton_top]. replace (0 <? j) with true by (symmetry; apply Z.ltb_lt; lia).
      pose proof (Z.mod_pos_bound i base ltac:(lia)) as Hdigit.
      destruct (halton_pass_near_one k base (i mod base) f s Hb ltac:(lia) ltac:(lia) Inv)
        as [Inv1 Ht1].
      destruct (halton_pass_near_one k base (base - 1) f s' Hb ltac:(lia) ltac:(lia) Inv')
        as [Inv1' Ht1'].
      cbv zeta in Inv1, Ht1, Inv1', Ht1'.
      apply (IH base (i / base) (j / base) (k + 1) _ _
               (F32.add s' (F32.mul (F32.div f (F32.of_Z base)) (F32.of_Z (base - 1))))
               v Hb) in Hrun.
      * exact Hrun.
      * split; [apply Z.div_pos; lia | apply Z.div_le_mono; lia].
      * lia.
      * lia.
      * exact Inv1.
      * exact Inv1'.
      * apply add_mono; try assumption; try apply Inv; try apply Inv';
          try apply Inv1; try apply Inv1'.
        destruct (of_Z_scaled (i mod base) ltac:(lia)) as (HD1 & _).
        destruct (of_Z_scaled (base - 1) ltac:(lia)) as (HD2 & _).
        apply mul_mono; try assumption; try apply Inv1.
        apply of_Z_mono; lia.
    + injection Hrun as <-. split; [apply Inv |].
      eapply Z.le_trans; [exact Hle |].
      apply (halton_top_grows (S fuel) base j k f s' Hb Hk Hfuel Inv').
Qed.

Lemma scaled_leb (a b : F32.float) :
  finite_nonneg a -> finite_nonneg b -> scaled a <= scaled b -> F32.leb a b = true.
Proof.
  destruct a as [[|] | [|] | | [|] ma ea]; cbn [finite_nonneg]; try contradiction;
    destruct b as [[|] | [|] | | [|] mb eb]; cbn [finite_nonneg]; try contradiction;
    cbn [scaled]; intros Ha Hb H; try reflexivity.
  - pose proof (scaled_pos ma ea Ha). lia.
  - apply leb_finite_intro.
    destruct (scaled_le_canonical ma ea mb eb Ha Hb H) as [Hlt | [He Hm]];
      [left; exact Hlt | right; split; [symmetry; exact He | exact Hm]].
Qed.

Lemma halton_near_one_init : halton_near_one 0 F32.one F32.zero.
Proof.
  split; [reflexivity |]. split; [exact I |]. apply Z.leb_le. reflexivity.
Qed.

Lemma largest_ok_spec (n : nat) :
  forall base b : Z,
    largest_ok n base = true -> base <= b < base + 2 ^ Z.of_nat n ->
    F32.leb (halton_largest b) above_one = true.
Proof.
  induction n as [| n IH]; intros base b H Hb.
  - cbn [largest_ok] in H. change (2 ^ Z.of_nat 0) with 1 in Hb.
    replace b with base by lia. exact H.
  - cbn [largest_ok] in H. apply andb_true_iff in H. destruct H as [H1 H2].
    rewrite Nat2Z.inj_succ, Z.pow_succ_r in Hb by lia.
    destruct (Z_lt_le_dec b (base + 2 ^ Z.of_nat n)) as [Hlo | Hhi].
    + apply (IH base b H1). lia.
    + apply (IH (base + 2 ^ Z.of_nat n) b H2). lia.
Qed.

(** The bases from 2 up to [2^16 + 1], one by one. *)
Lemma largest_ok_small : largest_ok 16 2 = true.
Proof. vm_compute. reflexivity. Qed.

(** In a base below [2^16] the sum is at most [1 + 2^-23]. *)
Lemma haltonSequence_small_base (index base : Z) (v : F32.float) :
  Int32.in_urange index -> 2 <= base < 65536 ->
  haltonSequence index base = Some (Ok v) ->
  F32.leb v above_one = true.
Proof.
  intros Hi Hb Hrun.
  unfold haltonSequence, haltonSequence_fuel, halton_fuel, halton_init in Hrun.
  unfold Int32.in_urange, Int32.modulus in Hi.
  assert (Hb32 : 2 <= base < 2 ^ 32) by (change (2 ^ 32) with 4294967296; lia).
  destruct (halton_loop_dominated 32 base index 4294967295 0 F32.one F32.zero F32.zero v
              Hb32 ltac:(lia) ltac:(lia) ltac:(lia)
              halton_near_one_init halton_near_one_init ltac:(lia) Hrun) as [Hfin Hle].
  destruct (halton_top_grows 32 base 4294967295 0 F32.one F32.zero
              Hb32 ltac:(lia) ltac:(lia) halton_near_one_init) as [Hfin' _].
  cbv zeta in Hfin'. fold (halton_largest base) in Hle, Hfin'.
  eapply leb_trans; [apply scaled_leb; [exact Hfin | exact Hfin' | exact Hle] |].
  apply (largest_ok_spec 16 2 base largest_ok_small).
  change (2 ^ Z.of_nat 16) with 65536. lia.
Qed.

(** ** [haltonSequence] in a base from [2^16] on: two passes at most *)

(** Two passes in a base from [2^16] up to [2^24], where the base and the
    digits are converted exactly. *)
Lemma halton_two_pass_exact (b d1 d2 f1 t1 f2 t2 s2 : Z) :
  65536 <= b < 16777216 -> 0 <= d1 <= b - 1 -> 0 <= d2 <= b - 1 ->
  0 <= f1 -> 0 <= t1 -> 0 <= f2 -> 0 <= t2 -> 0 <= s2 ->
  16777216 * (f1 * (b * 2 ^ 149)) <= 16777217 * (2 ^ 149 * 2 ^ 149) + 16777216 * (b * 2 ^ 149) ->
  16777216 * 2 ^ 149 * t1 <= 16777217 * (f1 * (d1 * 2 ^ 149)) + 16777216 * 2 ^ 149 ->
  16777216 * (f2 * (b * 2 ^ 149)) <= 16777217 * (f1 * 2 ^ 149) + 16777216 * (b * 2 ^ 149) ->
  16777216 * 2 ^ 149 * t2 <= 16777217 * (f2 * (d2 * 2 ^ 149)) + 16777216 * 2 ^ 149 ->
  16777216 * s2 <= 16777217 * (t1 + t2) + 16777216 ->
  16777216 * t1 < 16777220 * 2 ^ 149 /\ 16777216 * s2 < 16777220 * 2 ^ 149.
Proof.
  intros Hb Hd1 Hd2 Hf1 Ht1 Hf2 Ht2 Hs2 Df1 Mt1 Df2 Mt2 As2.
  change (2 ^ 149) with 713623846352979940529142984724747568191373312 in *.
  assert (P1 : 0 <= f1 * (b - 1 - d1)) by (apply Z.mul_nonneg_nonneg; lia).
  assert (P2 : 0 <= f2 * (b - 1 - d2)) by (apply Z.mul_nonneg_nonneg; lia).
  assert (P3 : 0 <= f1 * (b - 65536)) by (apply Z.mul_nonneg_nonneg; lia).
  assert (P4 : 0 <= f2 * (b - 65536)) by (apply Z.mul_nonneg_nonneg; lia).
  split; lia.
Qed.

(** Two passes in a base from [2^24] on: the first digit is converted to at
    most the converted base [B], and the second digit is below [2^8]. *)
Lemma halton_two_pass_large (b d2 B D1 D2 f1 t1 f2 t2 s2 : Z) :
  16777216 <= b < 4294967296 -> 0 <= d2 <= 255 ->
  0 <= D1 <= B -> 0 <= D2 ->
  0 <= f1 -> 0 <= t1 -> 0 <= f2 -> 0 <= t2 -> 0 <= s2 ->
  16777215 * (b * 2 ^ 149) <= 16777216 * B + 16777216 ->
  16777216 * D2 <= 16777217 * (d2 * 2 ^ 149) + 16777216 ->
  16777216 * (f1 * B) <= 16777217 * (2 ^ 149 * 2 ^ 149) + 16777216 * B ->
  16777216 * 2 ^ 149 * t1 <= 16777217 * (f1 * D1) + 16777216 * 2 ^ 149 ->
  16777216 * (f2 * B) <= 16777217 * (f1 * 2 ^ 149) + 16777216 * B ->
  16777216 * 2 ^ 149 * t2 <= 16777217 * (f2 * D2) + 16777216 * 2 ^ 149 ->
  16777216 * s2 <= 16777217 * (t1 + t2) + 16777216 ->
  B <= 4294967808 * 2 ^ 149 ->
  16777216 * t1 < 16777220 * 2 ^ 149 /\ 16777216 * s2 < 16777220 * 2 ^ 149.
Proof.
  intros Hb Hd2 HD1 HD2 Hf1 Ht1 Hf2 Ht2 Hs2 HBlo HD2hi Df1 Mt1 Df2 Mt2 As2 HBhi.
  change (2 ^ 149) with 713623846352979940529142984724747568191373312 in *.
  assert (P1 : 0 <= f1 * (B - D1)) by (apply Z.mul_nonneg_nonneg; lia).
  assert (P2 : 0 <= f1 * (B - 8388607 * 713623846352979940529142984724747568191373312))
    by (apply Z.mul_nonneg_nonneg; lia).
  assert (P3 : 0 <= f2 * (B - 8388607 * 713623846352979940529142984724747568191373312))
    by (apply Z.mul_nonneg_nonneg; lia).
  assert (P4 : 0 <= f2 * (256 * 713623846352979940529142984724747568191373312 - D2))
    by (apply Z.mul_nonneg_nonneg; lia).
  split; lia.
Qed.

(** An integer below [2^24] is converted exactly. *)
Lemma of_Z_exact (z : Z) : 0 <= z < 2 ^ 24 -> scaled (F32.of_Z z) = z * 2 ^ 149.
Proof.
  intros Hz. unfold F32.of_Z, F32.prec, F32.emax. destruct z as [| p | p]; try lia.
  - reflexivity.
  - cbn [binary_normalize].
    destruct (binary_round_exact false p ltac:(lia)) as (mq & eq & -> & Hb & He & Hm).
    cbn [scaled]. rewrite Hm, <- Z.mul_assoc, <- Z.pow_add_r by lia.
    do 2 f_equal. lia.
Qed.

(** A number below [1 + 2^-22] is at most [1 + 2^-23]. *)
Lemma scaled_above_one (v : F32.float) :
  finite_nonneg v -> 16777216 * scaled v < 16777220 * 2 ^ 149 ->
  F32.leb v above_one = true.
Proof.
  destruct v as [[|] | [|] | | [|] m e]; cbn [finite_nonneg scaled]; try contradiction.
  { intros _ _. reflexivity. }
  intros Hb H. unfold above_one. apply leb_finite_intro.
  pose proof (bounded_facts m e Hb) as (Hd & He & Hn).
  assert (Hlt : Zpos m * 2 ^ (e + 149) < 2 ^ (1 + 149)).
  { change (2 ^ (1 + 149)) with (2 * 2 ^ 149).
    assert (0 < 2 ^ 149) by (apply Z.pow_pos_nonneg; lia). lia. }
  assert (Hp : 0 < 2 ^ (e + 149)) by (apply Z.pow_pos_nonneg; lia).
  pose proof (Zdigits2_upper (Zpos m * 2 ^ (e + 149)) (1 + 149) ltac:(lia) ltac:(lia)) as Hdg.
  rewrite Zdigits2_shift in Hdg by lia.
  destruct (Z_lt_le_dec e (-23)) as [Hlo | Hhi]; [left; exact Hlo | right].
  assert (e = -23) by lia. subst e. split; [reflexivity |].
  change (2 ^ (-23 + 149)) with (2 ^ 126) in H.
  change (2 ^ 149) with (8388608 * 2 ^ 126) in H.
  assert (0 < 2 ^ 126) by (apply Z.pow_pos_nonneg; lia). nia.
Qed.

Lemma add_zero_l (t : F32.float) : finite_nonneg t -> F32.add F32.zero t = t.
Proof.
  destruct t as [[|] | [|] | | [|] m e]; cbn [finite_nonneg]; try contradiction; reflexivity.
Qed.

Lemma halton_loop_zero (fuel : nat) (base : Z) (f s : F32.float) :
  halton_loop fuel base (HaltonState 0 f s) = Some (Ok s).
Proof. destruct fuel; reflexivity. Qed.

Lemma halton_loop_pos (fuel : nat) (base i : Z) (f s : F32.float) :
  0 < i -> base <> 0 ->
  halton_loop (S fuel) base (HaltonState i f s)
  = halton_loop fuel base
      (HaltonState (i / base) (F32.div f (F32.of_Z base))
         (F32.add s (F32.mul (F32.div f (F32.of_Z base)) (F32.of_Z (i mod base))))).
Proof.
  intros Hi Hb. cbn [halton_loop h_index].
  replace (0 <? i) with true by (symmetry; apply Z.ltb_lt; exact Hi).
  rewrite halton_body_ok by exact Hb. reflexivity.
Qed.

(** In a base from [2^16] on the sum is at most [1 + 2^-23]. *)
Lemma haltonSequence_large_base (index base : Z) (v : F32.float) :
  Int32.in_urange index -> 65536 <= base < 2 ^ 32 ->
  haltonSequence index base = Some (Ok v) ->
  F32.leb v above_one = true.
Proof.
  intros Hi Hb Hrun.
  unfold haltonSequence, haltonSequence_fuel, halton_fuel, halton_init in Hrun.
  unfold Int32.in_urange, Int32.modulus in Hi.
  assert (Hb32 : 2 <= base < 2 ^ 32) by lia.
  change (2 ^ 32) with 4294967296 in Hb.
  destruct (Z.eq_dec index 0) as [-> | Hne].
  { rewrite halton_loop_zero in Hrun. injection Hrun as <-. reflexivity. }
  rewrite halton_loop_pos in Hrun by lia.
  pose proof (Z.mod_pos_bound index base ltac:(lia)) as Hd1.
  set (d1 := index mod base) in *. set (i1 := index / base) in *.
  assert (Hi1 : 0 <= i1 < 65536).
  { unfold i1. split; [apply Z.div_pos; lia | apply Z.div_lt_upper_bound; lia]. }
  pose proof (Z.mod_pos_bound i1 base ltac:(lia)) as Hd2.
  set (d2 := i1 mod base) in *.
  (* the two passes *)
  destruct (halton_pass_near_one 0 base d1 F32.one F32.zero Hb32 ltac:(lia) ltac:(lia)
              halton_near_one_init) as [Inv1 Ht1].
  cbv zeta in Inv1, Ht1.
  set (f1 := F32.div F32.one (F32.of_Z base)) in *.
  set (t1 := F32.mul f1 (F32.of_Z d1)) in *.
  rewrite (add_zero_l t1 Ht1) in *.
  destruct (halton_pass_near_one 1 base d2 f1 t1 Hb32 ltac:(lia) ltac:(lia) Inv1)
    as [Inv2 Ht2].
  cbv zeta in Inv2, Ht2.
  set (f2 := F32.div f1 (F32.of_Z base)) in *.
  set (t2 := F32.mul f2 (F32.of_Z d2)) in *.
  set (s2 := F32.add t1 t2) in *.
  destruct Inv1 as (Hf1 & _ & _). destruct Inv2 as (Hf2 & Hs2 & _).
  destruct (of_Z_base base Hb32) as (m & e & Hbase & Hbm & Hdm).
  destruct (of_Z_scaled base ltac:(lia)) as (_ & HBhi & HBlo).
  destruct (of_Z_scaled d1 ltac:(lia)) as (HD1f & HD1hi & _).
  destruct (of_Z_scaled d2 ltac:(lia)) as (HD2f & HD2hi & _).
  assert (Df1 : 16777216 * scaled f1 * scaled (F32.of_Z base)
                <= 16777217 * (2 ^ 149 * 2 ^ 149) + 16777216 * scaled (F32.of_Z base)).
  { unfold f1 in *. rewrite Hbase in *.
    exact (div_scaled F32.one m e eq_refl Hbm Hf1). }
  assert (Df2 : 16777216 * scaled f2 * scaled (F32.of_Z base)
                <= 16777217 * (scaled f1 * 2 ^ 149) + 16777216 * scaled (F32.of_Z base)).
  { unfold f2 in *. rewrite Hbase in *.
    exact (div_scaled f1 m e Hf1 Hbm Hf2). }
  pose proof (mul_scaled f1 (F32.of_Z d1) Hf1 HD1f Ht1) as Mt1. fold t1 in Mt1.
  pose proof (mul_scaled f2 (F32.of_Z d2) Hf2 HD2f Ht2) as Mt2. fold t2 in Mt2.
  pose proof (add_scaled t1 t2 Ht1 Ht2 Hs2) as As2. fold s2 in As2.
  assert (Bounds : 16777216 * scaled t1 < 16777220 * 2 ^ 149
                   /\ 16777216 * scaled s2 < 16777220 * 2 ^ 149).
  { destruct (Z_lt_le_dec base 16777216) as [Hsmall | Hlarge].
    - rewrite (of_Z_exact base ltac:(change (2 ^ 24) with 16777216; lia)) in Df1, Df2.
      rewrite (of_Z_exact d1 ltac:(change (2 ^ 24) with 16777216; lia)) in Mt1.
      rewrite (of_Z_exact d2 ltac:(change (2 ^ 24) with 16777216; lia)) in Mt2.
      apply (halton_two_pass_exact base d1 d2 (scaled f1) (scaled t1) (scaled f2)
               (scaled t2) (scaled s2)); try apply scaled_nonneg; try lia.
      all: rewrite Z.mul_assoc; assumption.
    - assert (Hd2s : 0 <= d2 <= 255).
      { assert (i1 < 256) by (unfold i1; apply Z.div_lt_upper_bound; lia).
        unfold d2. rewrite Z.mod_small by lia. lia. }
      pose proof (of_Z_mono d1 base ltac:(lia) ltac:(lia)) as HD1B.
      apply (halton_two_pass_large base d2 (scaled (F32.of_Z base)) (scaled (F32.of_Z d1))
               (scaled (F32.of_Z d2)) (scaled f1) (scaled t1) (scaled f2) (scaled t2)
               (scaled s2)); try apply scaled_nonneg; try assumption; try lia.
      all: try (split; [apply scaled_nonneg | exact HD1B]).
      all: try (rewrite Z.mul_assoc; assumption).
      all: change (2 ^ 149) with 713623846352979940529142984724747568191373312 in *; lia. }
  destruct Bounds as [B1 B2].
  destruct (Z.eq_dec i1 0) as [E1 | N1].
  - rewrite E1, halton_loop_zero in Hrun. injection Hrun as <-.
    apply scaled_above_one; assumption.
  - rewrite halton_loop_pos in Hrun by lia.
    fold d2 f2 t2 s2 in Hrun.
    replace (i1 / base) with 0 in Hrun by (symmetry; apply Z.div_small; lia).
    rewrite halton_loop_zero in Hrun. injection Hrun as <-.
    apply scaled_above_one; assumption.
Qed.

(** C6 (amended): [haltonSequence(0, b)] is 0 for every base [b >= 2], and for
    every 32-bit index and base from 2 on the result is a binary32 number in
    the closed interval from 0 to [1 + 2^-23], the number next above [1.0F].
    (It is the digit sum accumulated with binary32 rounding: the bound [< 1]
    of the exact sum does not carry over, and both [1.0F] and [1 + 2^-23] are
    reached.) *)
Theorem haltonSequence_range (index base : Z) :
  Int32.in_urange index -> 2 <= base < 2 ^ 32 ->
  haltonSequence 0 base = Some (Ok F32.zero)
  /\ exists v : F32.float,
       haltonSequence index base = Some (Ok v)
       /\ F32.is_finite v = true /\ F32.valid v = true
       /\ F32.leb F32.zero v = true
       /\ F32.leb v above_one = true.
Proof.
  intros Hi Hb. split; [reflexivity |].
  destruct (halton_loop_terminates 32 base (halton_init index) ltac:(lia) Hi) as [v Hv].
  exists v. split; [exact Hv |].
  assert (Hfin : finite_nonneg v).
  { unfold Int32.in_urange, Int32.modulus in Hi.
    apply (halton_loop_dominated 32 base index 4294967295 0 F32.one F32.zero F32.zero v
             Hb ltac:(lia) ltac:(lia) ltac:(lia)
             halton_near_one_init halton_near_one_init ltac:(lia) Hv). }
  assert (Hle : F32.leb v above_one = true).
  { destruct (Z_lt_le_dec base 65536) as [Hsmall | Hlarge].
    - apply (haltonSequence_small_base index base v Hi ltac:(lia) Hv).
    - apply (haltonSequence_large_base index base v Hi ltac:(lia) Hv). }
  destruct v as [[|] | [|] | | [|] m e]; cbn [finite_nonneg] in Hfin; try contradiction.
  - repeat split; reflexivity.
  - repeat split; try reflexivity; [exact Hfin | exact Hle].
Qed.

Lemma haltonSequence_range_witness :
  haltonSequence 0 13 = Some (Ok F32.zero)
  /\ exists v : F32.float,
       haltonSequence 62748516 13 = Some (Ok v)
       /\ F32.is_finite v = true /\ F32.valid v = true
       /\ F32.leb F32.zero v = true
       /\ F32.leb v above_one = true.
Proof.
  apply (haltonSequence_range 62748516 13).
  - unfold Int32.in_urange, Int32.modulus. lia.
  - lia.
Defined.
